(** * Trace analytics: span hierarchy and Gantt chart layout

    A shallow embedding of

    - [parseSpanHitData], [getStartTimeInNanos], [addRootSpan] and
      [hitsToHierarchicalSpans] from
      [public/components/trace_analytics/requests/traces_request_handler.ts];
    - [createPlotlyData] and the parts of [SpanDetailPanel] that compute the
      chart model, the zoom range and the re-anchored annotations
      (span detail panel component);
    - [normalizePayload] and the array [sortedData] of
      [handlePayloadRequest], [handleTracesRequest] with its helper
      [binarySearch], and [handleCustomIndicesTracesRequest], the last two
      from the point at which their requests are settled (same request
      handler);
    - [addSpanFilter], [removeSpanFilter], [onRelayoutHandler], the
      [isDisabled] flag of the reset button and the [totalItems] of the
      panel title (span detail panel component).

    Conventions of the embedding.

    - A JavaScript number is an exact rational, or one of [NaN], [+Infinity],
      [-Infinity].  Binary64 rounding and the sign of zero are not modelled.
    - A hit's [_source] is a record whose fields are optional: [None] is a
      field that is absent from the JSON document ([undefined] when read).
    - The span map [spanMap] is a finite map from property keys to nodes: the
      nodes that [spanMap[key]] finds, which are the own properties of the
      object and, under [__proto__], the node that an assignment to this key
      has made the prototype of the object.  A lookup also finds what the
      object inherits ([getProperty]): the properties of [Object.prototype]
      and, when a node is the prototype, the fields of this node.  The node
      objects are shared by reference in the source (the same object is
      reachable from [spanMap], from [rootSpans] and from every [children]
      array it was pushed to); a reference to a node is modelled as the key
      under which the node is found, which identifies the object because the
      first pass leaves exactly one object per key.
    - The functions are called in a realm in which [Object.prototype] has the
      properties of the language and no others; the property that the hierarchy
      builder may add to it is followed through the call ([prototypeChildren]).
      [colorMap] is given as the finite map of what [colorMap[name]] reads.
    - Code that can raise, or recurse without end, returns a [result]: the
      recursion of [processSpan] is bounded by a fuel, and [Exhausted] stands
      for a recursion that the source does not leave.
    - Helpers of the repository that are not among the sources are modelled
      from the specification ([microToMilliSec], [nanoToMilliSec]) or taken
      as a parameter ([parseIsoToNano]).

    The file has three parts: the embedding of the code, the notions in which
    the properties are stated (with the hits of the examples), and the
    properties with their proofs. *)

From Stdlib Require Import QArith Qround Qabs Lqa Sorted.
From stdpp Require Import gmap strings list fin_maps pretty.
From Equations Require Equations.

(** ** Results of code that may throw or run for ever *)

Inductive result (A : Type) : Type :=
| Ok (a : A)
| Throw (msg : string)
| Exhausted.
Arguments Ok {A} a.
Arguments Throw {A} msg.
Arguments Exhausted {A}.

#[global] Instance result_bind : MBind result := λ A B k r,
  match r with
  | Ok a => k a
  | Throw m => Throw m
  | Exhausted => Exhausted
  end.

(** [forEach] over an array with a callback that threads a state. *)
Fixpoint forEach {A S} (f : S → A → result S) (l : list A) (s : S) : result S :=
  match l with
  | [] => Ok s
  | a :: l' => s' ← f s a; forEach f l' s'
  end.

(** ** JavaScript numbers *)

Module JsNumber.

Inductive number : Type :=
| NaN
| PInf
| NInf
| Fin (q : Q).

(** Finite values are kept in lowest terms, so that equal numbers are equal
    terms. *)
Definition fin (q : Q) : number := Fin (Qred q).

Definition ofZ (z : Z) : number := fin (inject_Z z).

Definition qltb (x y : Q) : bool :=
  match Qcompare x y with Lt => true | _ => false end.

Definition neg (a : number) : number :=
  match a with
  | NaN => NaN
  | PInf => NInf
  | NInf => PInf
  | Fin x => fin (- x)
  end.

Definition add (a b : number) : number :=
  match a, b with
  | NaN, _ | _, NaN => NaN
  | PInf, NInf | NInf, PInf => NaN
  | PInf, _ | _, PInf => PInf
  | NInf, _ | _, NInf => NInf
  | Fin x, Fin y => fin (x + y)
  end.

Definition sub (a b : number) : number := add a (neg b).

(** The sign of a finite value, as a multiplier for an infinity. *)
Definition timesInf (x : Q) (positive : bool) : number :=
  match Qcompare x 0 with
  | Eq => NaN
  | Gt => if positive then PInf else NInf
  | Lt => if positive then NInf else PInf
  end.

Definition mul (a b : number) : number :=
  match a, b with
  | NaN, _ | _, NaN => NaN
  | PInf, PInf | NInf, NInf => PInf
  | PInf, NInf | NInf, PInf => NInf
  | Fin x, PInf | PInf, Fin x => timesInf x true
  | Fin x, NInf | NInf, Fin x => timesInf x false
  | Fin x, Fin y => fin (x * y)
  end.

(** [a / d] for a positive finite constant [d]. *)
Definition divBy (a : number) (d : positive) : number :=
  match a with
  | Fin x => fin (x / inject_Z (Zpos d))
  | other => other
  end.

(** [a < b] *)
Definition lt (a b : number) : bool :=
  match a, b with
  | NaN, _ | _, NaN => false
  | _, NInf => false
  | NInf, _ => true
  | PInf, _ => false
  | Fin _, PInf => true
  | Fin x, Fin y => qltb x y
  end.

(** [a > b] *)
Definition gt (a b : number) : bool := lt b a.

(** [Math.max(a, b)] *)
Definition max (a b : number) : number :=
  match a, b with
  | NaN, _ | _, NaN => NaN
  | PInf, _ | _, PInf => PInf
  | NInf, c | c, NInf => c
  | Fin x, Fin y => if qltb x y then Fin y else Fin x
  end.

(** [Math.min(a, b)] *)
Definition min (a b : number) : number :=
  match a, b with
  | NaN, _ | _, NaN => NaN
  | NInf, _ | _, NInf => NInf
  | PInf, c | c, PInf => c
  | Fin x, Fin y => if qltb y x then Fin y else Fin x
  end.

(** [Math.min(...l)]: [+Infinity] for no argument. *)
Definition minOf (l : list number) : number := foldr min PInf l.

(** [Math.round]: to the nearest integer, halves towards [+Infinity]. *)
Definition mathRound (q : Q) : Z := Qfloor (q + (1 # 2)).

(** lodash [round(a, 2)]: the value is shifted by two decimal places, rounded
    with [Math.round] and shifted back; a value that is not finite is handed
    to [Math.round] as it is. *)
Definition round2 (a : number) : number :=
  match a with
  | Fin x => fin (inject_Z (mathRound (x * 100)) / 100)
  | other => other
  end.

(** [a.toFixed(2)] for magnitudes below [1e21]: the sign, then the integer
    [n] nearest to [|a| * 100] (the larger one on a tie) written with a
    decimal point before its last two digits. *)
Definition twoDigits (n : N) : string :=
  (if bool_decide (n < 10)%N then "0" else "") +:+ pretty n.

Definition toFixed2 (a : number) : string :=
  match a with
  | NaN => "NaN"
  | PInf => "Infinity"
  | NInf => "-Infinity"
  | Fin x =>
      let n := Z.to_N (mathRound (Qabs x * 100)) in
      (if qltb x 0 then "-" else "")
        +:+ pretty (n `div` 100)%N +:+ "." +:+ twoDigits (n `mod` 100)%N
  end.

Definition isFinite (a : number) : Prop :=
  match a with Fin _ => True | _ => False end.

(** The order of the extended line, false whenever [NaN] is involved. *)
Definition le (a b : number) : Prop :=
  match a, b with
  | NaN, _ | _, NaN => False
  | NInf, _ | _, PInf => True
  | _, NInf | PInf, _ => False
  | Fin x, Fin y => (x <= y)%Q
  end.

End JsNumber.

Import JsNumber.

(** ** More on numbers *)

(** [a === b] on numbers. *)
Definition strictEq (a b : number) : bool :=
  match a, b with
  | NaN, _ | _, NaN => false
  | PInf, PInf | NInf, NInf => true
  | Fin x, Fin y => Qeq_bool x y
  | _, _ => false
  end.

(** Truthiness of a number: neither zero nor [NaN]. *)
Definition truthyNumber (a : number) : bool :=
  match a with
  | NaN => false
  | Fin x => negb (Qeq_bool x 0)
  | _ => true
  end.

(** ** Plain objects *)

(** A value that an object inherits and that is none of the values stored in
    it: a function with its [length] (the number of its parameters), an
    object without a [length], or a number. *)
Inductive OtherValue : Type :=
| FunctionValue (arity : nat)
| ObjectValue
| NumberValue (value : number).

(** The properties of [Object.prototype], which every object created by [{}]
    inherits: its functions, and [__proto__], which reads as the prototype of
    the object, [Object.prototype] itself as long as no other was given. *)
Definition objectPrototype : gmap string OtherValue :=
  list_to_map
    [ ("constructor", FunctionValue 1);
      ("__defineGetter__", FunctionValue 2);
      ("__defineSetter__", FunctionValue 2);
      ("hasOwnProperty", FunctionValue 1);
      ("__lookupGetter__", FunctionValue 1);
      ("__lookupSetter__", FunctionValue 1);
      ("isPrototypeOf", FunctionValue 1);
      ("propertyIsEnumerable", FunctionValue 1);
      ("toString", FunctionValue 0);
      ("valueOf", FunctionValue 0);
      ("toLocaleString", FunctionValue 0);
      ("__proto__", ObjectValue) ].


(** ** Hits *)

(** [TraceAnalyticsMode] *)
Inductive TraceAnalyticsMode : Type :=
| jaeger
| data_prepper
| custom_data_prepper.

(** [mode === 'jaeger'] *)
Definition isJaeger (mode : TraceAnalyticsMode) : bool :=
  match mode with jaeger => true | _ => false end.

Inductive RefType : Type :=
| CHILD_OF
| FOLLOWS_FROM.

#[global] Instance RefType_eq_dec : EqDecision RefType.
Proof. solve_decision. Defined.

(** [SpanReference]; the field [spanID] of a reference is [ref_spanID]. *)
Record SpanReference : Type := {
  refType : RefType;
  ref_spanID : string
}.

(** The value of [_source.process] and of [_source.tag] when present. *)
Record Process : Type := { process_serviceName : option string }.
Record Tag : Type := { tag_error : option bool }.

(** The value of [_source.startTime]: a number of microseconds in a jaeger
    document, an ISO-8601 timestamp in a data prepper document. *)
Inductive StartTime : Type :=
| Micros (us : Z)
| Iso (timestamp : string).

(** The fields of [_source] that the code reads.  [status_code] is the
    property named ['status.code']. *)
Record Source : Type := {
  spanID : option string;
  spanId : option string;
  duration : option Z;
  durationInNanos : option Z;
  process : option Process;
  serviceName : option string;
  operationName : option string;
  name : option string;
  tag : option Tag;
  status_code : option Z;
  startTime : option StartTime;
  references : option (list SpanReference);
  parentSpanId : option string
}.

Record ParsedHit : Type := { _source : Source }.

(** A property key: [obj[v]] converts [v] to a string. *)
Definition propKey (v : option string) : string := default "undefined" v.

(** Truthiness of a value that is a string or [undefined]. *)
Definition truthy (v : option string) : bool :=
  match v with
  | Some s => bool_decide (s ≠ "")
  | None => false
  end.

(** A number read from a field that may be absent: arithmetic on
    [undefined] gives [NaN]. *)
Definition toNumber (v : option Z) : number := from_option ofZ NaN v.

(** Modelled from the spec: [microToMilliSec] and [nanoToMilliSec] of
    [components/common/helper_functions], which is not among the sources;
    "microseconds to milliseconds (divide by 1000), nanoseconds to
    milliseconds (divide by 1,000,000)". *)
Definition microToMilliSec (micro : number) : number := divBy micro 1000.
Definition nanoToMilliSec (nano : number) : number := divBy nano 1000000.

(** ** The span parser *)

(** The object returned by [parseSpanHitData]. *)
Record SpanHitData : Type := {
  hd_spanId : option string;
  hd_durationInMs : number;
  hd_serviceName : option string;
  hd_name : option string;
  hd_error : string
}.

Definition errorMark : string := " ⚠ Error".

Definition parseSpanHitData (span : ParsedHit) (mode : TraceAnalyticsMode)
  : result SpanHitData :=
  let src := _source span in
  let spanId := if isJaeger mode then spanID src else spanId src in
  let durationInMs :=
    if isJaeger mode
    then round2 (microToMilliSec (toNumber (duration src)))
    else round2 (nanoToMilliSec (toNumber (durationInNanos src))) in
  serviceName ←
    (if isJaeger mode
     then match process src with
          | Some p => Ok (process_serviceName p)
          | None => Throw "TypeError: Cannot read properties of undefined"
          end
     else Ok (serviceName src));
  let name := if isJaeger mode then operationName src else name src in
  let error :=
    if isJaeger mode
    then (if bool_decide (tag src ≫= tag_error = Some true)
          then errorMark else "")
    else (if bool_decide (status_code src = Some 2%Z)
          then errorMark else "") in
  Ok {| hd_spanId := spanId; hd_durationInMs := durationInMs;
        hd_serviceName := serviceName; hd_name := name; hd_error := error |}.

(** ** The hierarchy builder *)

(** [HierarchicalSpan]: [children] holds references to nodes of the span
    map. *)
Record HierarchicalSpan : Type := {
  hit : ParsedHit;
  startTimeInNanos : number;
  children : list string
}.

(** The state of [hitsToHierarchicalSpans].  [spanMap] holds the nodes that
    [spanMap[key]] finds: the own properties of the object and, under
    [__proto__], the node that was assigned to this key and is the prototype
    of the object since.  [prototypeChildren] tells that [Object.prototype]
    has got a property [children].  [thrown] tells that the call has thrown a
    [TypeError]: it returns nothing then, so that what the other fields hold
    is of no consequence, and the passes are followed to their end. *)
Record Hierarchy : Type := {
  spanMap : gmap string HierarchicalSpan;
  rootSpans : list string;
  alreadyAddedRootSpans : gset (option string);
  prototypeChildren : bool;
  thrown : bool
}.

(** [Number(v)] for the value of [_source.startTime]; a timestamp in ISO-8601
    form is not a numeric literal. *)
Definition Number (v : option StartTime) : number :=
  match v with
  | Some (Micros us) => ofZ us
  | Some (Iso _) => NaN
  | None => NaN
  end.

Section Builder.

(** [parseIsoToNano] of [components/common/helper_functions] is not among the
    sources; it is applied to whatever [_source.startTime] holds. *)
Variable parseIsoToNano : option StartTime → number.

Definition getStartTimeInNanos (hit : ParsedHit) (mode : TraceAnalyticsMode)
  : number :=
  if isJaeger mode
  then mul (Number (startTime (_source hit))) (ofZ 1000)
  else parseIsoToNano (startTime (_source hit)).

(** [hit._source[spanIdKey]] *)
Definition spanIdOf (mode : TraceAnalyticsMode) (hit : ParsedHit)
  : option string :=
  if isJaeger mode then spanID (_source hit) else spanId (_source hit).

(** First pass: [spanMap[id] = { hit, startTimeInNanos, children: [] }].  For
    the key [__proto__] the assignment makes the node the prototype of the
    object, where [spanMap['__proto__']] finds it. *)
Definition indexHit (mode : TraceAnalyticsMode)
    (m : gmap string HierarchicalSpan) (hit : ParsedHit)
  : gmap string HierarchicalSpan :=
  <[propKey (spanIdOf mode hit) :=
      {| hit := hit; startTimeInNanos := getStartTimeInNanos hit mode;
         children := [] |}]> m.

(** What [spanMap[key]] is. *)
Inductive Found : Type :=
| FoundSpan
| FoundNumber (value : number)
| FoundPrototype
| FoundObject
| NotFound.

(** The field [key] of a node that is the prototype of the span map: the
    hit (an object), the start time (a number) or the children (an array). *)
Definition nodeField (node : HierarchicalSpan) (key : string) : Found :=
  if bool_decide (key = "hit") then FoundObject
  else if bool_decide (key = "startTimeInNanos")
  then FoundNumber (startTimeInNanos node)
  else if bool_decide (key = "children") then FoundObject
  else NotFound.

(** The property [key] of [Object.prototype]: one of its functions, or the
    array [children] once it was added. *)
Definition objectPrototypeField (prototypeChildren : bool) (key : string)
  : Found :=
  if bool_decide (is_Some (objectPrototype !! key)) then FoundObject
  else if prototypeChildren && bool_decide (key = "children") then FoundObject
  else NotFound.

(** [spanMap[key]] for the span map [m]: a node of the map; or, for
    [__proto__] without a node, [Object.prototype]; or what the map
    inherits, from the node that is its prototype first and from
    [Object.prototype] then. *)
Definition lookupProperty (m : gmap string HierarchicalSpan)
    (prototypeChildren : bool) (key : string) : Found :=
  match m !! key with
  | Some _ => FoundSpan
  | None =>
      if bool_decide (key = "__proto__") then FoundPrototype
      else
        match m !! "__proto__" with
        | Some prototype =>
            match nodeField prototype key with
            | NotFound => objectPrototypeField prototypeChildren key
            | found => found
            end
        | None => objectPrototypeField prototypeChildren key
        end
  end.

Definition getProperty (st : Hierarchy) (key : string) : Found :=
  lookupProperty (spanMap st) (prototypeChildren st) key.

(** Truthiness of what was found. *)
Definition truthyFound (found : Found) : bool :=
  match found with
  | NotFound => false
  | FoundNumber value => truthyNumber value
  | _ => true
  end.

(** [parent.children.push(child)] on the node stored under [parent]. *)
Definition pushChild (parent child : string)
    (m : gmap string HierarchicalSpan) : gmap string HierarchicalSpan :=
  alter (λ n, {| hit := hit n; startTimeInNanos := startTimeInNanos n;
                 children := children n ++ [child] |}) parent m.

(** A [TypeError] is thrown. *)
Definition throwTypeError (st : Hierarchy) : Hierarchy :=
  {| spanMap := spanMap st; rootSpans := rootSpans st;
     alreadyAddedRootSpans := alreadyAddedRootSpans st;
     prototypeChildren := prototypeChildren st; thrown := true |}.

(** [if (!parentSpan.children) parentSpan.children = []] for what was found
    as [parentSpan].  A node has its array.  [Object.prototype] gets the
    property, unless it has it.  A number has no property [children] unless
    [Object.prototype] has it, and a property cannot be created on a number:
    the assignment throws.  Any other object gets the property or has it.
    Nothing can be read from [undefined]. *)
Definition ensureChildren (parentSpan : Found) (st : Hierarchy) : Hierarchy :=
  match parentSpan with
  | FoundSpan | FoundObject => st
  | FoundPrototype =>
      {| spanMap := spanMap st; rootSpans := rootSpans st;
         alreadyAddedRootSpans := alreadyAddedRootSpans st;
         prototypeChildren := true; thrown := thrown st |}
  | FoundNumber _ => if prototypeChildren st then st else throwTypeError st
  | NotFound => throwTypeError st
  end.

(** [parentSpan.children.push(child)] for what was found as [parentSpan]
    under the key [parent]: only the array of a node is part of the
    hierarchy. *)
Definition pushTo (parent : string) (parentSpan : Found) (child : string)
    (st : Hierarchy) : Hierarchy :=
  match parentSpan with
  | FoundSpan =>
      {| spanMap := pushChild parent child (spanMap st);
         rootSpans := rootSpans st;
         alreadyAddedRootSpans := alreadyAddedRootSpans st;
         prototypeChildren := prototypeChildren st; thrown := thrown st |}
  | _ => st
  end.

Definition addRootSpan (spanId : option string) (st : Hierarchy) : Hierarchy :=
  if decide (spanId ∈ alreadyAddedRootSpans st) then st
  else {| spanMap := spanMap st;
          rootSpans := rootSpans st ++ [propKey spanId];
          alreadyAddedRootSpans := {[spanId]} ∪ alreadyAddedRootSpans st;
          prototypeChildren := prototypeChildren st; thrown := thrown st |}.

(** The body of [references.forEach] for the span [spanId]. *)
Definition linkReference (spanId : option string) (st : Hierarchy)
    (ref : SpanReference) : Hierarchy :=
  let st1 :=
    if decide (refType ref = CHILD_OF) then
      let parentSpan := getProperty st (ref_spanID ref) in
      if truthyFound parentSpan
      then pushTo (ref_spanID ref) parentSpan (propKey spanId)
             (ensureChildren parentSpan st)
      else st
    else st in
  if decide (refType ref = FOLLOWS_FROM) then
    (if decide (spanId ∈ alreadyAddedRootSpans st1) then st1
     else addRootSpan spanId st1)
  else st1.

Definition isFollowsFrom (ref : SpanReference) : bool :=
  bool_decide (refType ref = FOLLOWS_FROM).

(** Second pass, one hit. *)
Definition linkHit (mode : TraceAnalyticsMode) (st : Hierarchy)
    (hit : ParsedHit) : Hierarchy :=
  let source := _source hit in
  if isJaeger mode then
    let refs := default [] (references source) in
    let st1 := foldl (linkReference (spanID source)) st refs in
    if bool_decide (length refs = 0) || forallb isFollowsFrom refs
    then addRootSpan (spanID source) st1
    else st1
  else
    if truthy (parentSpanId source)
       && truthyFound (getProperty st (propKey (parentSpanId source)))
    then
      let parentSpan := getProperty st (propKey (parentSpanId source)) in
      let st1 := ensureChildren parentSpan st in
      if truthyFound (getProperty st1 (propKey (spanId source)))
      then pushTo (propKey (parentSpanId source)) parentSpan
             (propKey (spanId source)) st1
      else st1
    else
      if truthy (spanId source)
         && truthyFound (getProperty st (propKey (spanId source)))
      then addRootSpan (spanId source) st
      else st.

(** The function returns [rootSpans]; the nodes they refer to live in
    [spanMap]. *)
Definition hitsToHierarchicalSpans (hits : list ParsedHit)
    (mode : TraceAnalyticsMode) : Hierarchy :=
  let spanMap := foldl (indexHit mode) ∅ hits in
  foldl (linkHit mode)
    {| spanMap := spanMap; rootSpans := []; alreadyAddedRootSpans := ∅;
       prototypeChildren := false; thrown := false |}
    hits.

End Builder.

(** ** The timeline layout *)

(** The fields of a bar that depend on the span; the constant ones ([name],
    [width], [type], [orientation], [hoverinfo]) are left out.  [pd_x] and
    [pd_y] are the single elements of the arrays [x] and [y], [pd_base] is
    [base]. *)
Record PlotData : Type := {
  pd_x : number;
  pd_y : option string;
  pd_customdata : option string * number * number;
  pd_marker_color : option string;
  pd_base : number;
  pd_spanId : option string
}.

(** The fields of a label that depend on the span. *)
Record Annotation : Type := {
  an_x : number;
  an_y : option string;
  text : string
}.

(** What [createPlotlyData] accumulates and returns. *)
Record Chart : Type := {
  data : list PlotData;
  annotations : list Annotation;
  maxX : number
}.

(** A value in a template literal. *)
Definition display (v : option string) : string := default "undefined" v.

Definition dquote : string := String (Ascii.ascii_of_nat 34) EmptyString.

Definition labelText (error : string) (serviceName name : option string)
    (durationInMs : number) : string :=
  (if bool_decide (error ≠ "")
   then "<span style=" +:+ dquote +:+ "color: red;" +:+ dquote +:+ ">"
        +:+ error +:+ "</span>&nbsp;&nbsp;"
   else "")
  +:+ display serviceName +:+ ": " +:+ display name +:+ " - "
  +:+ toFixed2 durationInMs +:+ "ms".

Section Layout.

Variable spanMap : gmap string HierarchicalSpan.
Variable mode : TraceAnalyticsMode.
Variable colorMap : gmap string string.
Variable startTimeInMs : number.

(** [startTimeInNanos] of the node behind a reference. *)
Definition startOf (ref : string) : number :=
  from_option startTimeInNanos NaN (spanMap !! ref).

(** The comparator [(a, b) => a.startTimeInNanos - b.startTimeInNanos] says
    that [a] goes after [b] when its value is positive. *)
Definition goesAfter (a b : string) : bool :=
  gt (sub (startOf a) (startOf b)) (ofZ 0).

(** [Array.prototype.sort] with that comparator.  The sort is stable: an
    element is placed before the first one that it does not go after. *)
Fixpoint insertSpan (a : string) (l : list string) : list string :=
  match l with
  | [] => [a]
  | b :: l' => if goesAfter a b then b :: insertSpan a l' else a :: b :: l'
  end.

Definition sortSpans (l : list string) : list string :=
  foldr insertSpan [] l.

(** The constants [delayInMs], [spanBar] and [spanBarLabel] of [processSpan],
    for the node [span] and the fields [p] parsed from its hit. *)
Definition delayInMs (span : HierarchicalSpan) : number :=
  sub (nanoToMilliSec (startTimeInNanos span)) startTimeInMs.

Definition spanBar (span : HierarchicalSpan) (p : SpanHitData) : PlotData :=
  {| pd_x := hd_durationInMs p;
     pd_y := hd_spanId p;
     pd_customdata := (hd_spanId p, hd_durationInMs p, delayInMs span);
     pd_marker_color := colorMap !! propKey (hd_serviceName p);
     pd_base := delayInMs span;
     pd_spanId := hd_spanId p |}.

Definition spanBarLabel (span : HierarchicalSpan) (p : SpanHitData)
  : Annotation :=
  {| an_x := delayInMs span;
     an_y := hd_spanId p;
     text := labelText (hd_error p) (hd_serviceName p) (hd_name p)
               (hd_durationInMs p) |}.

(** The part of [processSpan] before the recursion: [maxX] is raised, the bar
    and the label of the span are pushed. *)
Definition emitSpan (acc : Chart) (span : HierarchicalSpan) : result Chart :=
  p ← parseSpanHitData (hit span) mode;
  Ok {| data := data acc ++ [spanBar span p];
        annotations := annotations acc ++ [spanBarLabel span p];
        maxX := max (maxX acc) (add (delayInMs span) (hd_durationInMs p)) |}.

(** [processSpan]; [fuel] bounds the depth of the recursion, which has no
    bound of its own when the [children] references form a cycle.  The source
    sorts each [children] array in place and walks the sorted array.  The
    walk of a node does not reach the node again unless the recursion runs
    for ever, and a sorted array is left as it is by a later sort
    ([sortSpans_idempotent], for finite start times), so that a node reached
    twice is laid out the same way both times: the sort is modelled on the
    children as the hierarchy builder left them. *)
Fixpoint processSpan (fuel : nat) (acc : Chart) (ref : string) : result Chart :=
  match fuel with
  | O => Exhausted
  | S fuel' =>
      match spanMap !! ref with
      | None => Throw "TypeError: Cannot read properties of undefined"
      | Some span =>
          acc' ← emitSpan acc span;
          forEach (processSpan fuel') (sortSpans (children span)) acc'
      end
  end.

Definition createPlotlyData (fuel : nat) (spans : list string) : result Chart :=
  forEach (processSpan fuel) (sortSpans spans)
    {| data := []; annotations := []; maxX := ofZ 0 |}.

End Layout.

(** ** The panel: chart model, zoom range and visible annotations *)

Record PanelState : Type := {
  gantt : list PlotData;
  ganttAnnotations : list Annotation;
  ganttMax : number;
  selectedRange : number * number
}.

(** The state before any payload has been laid out. *)
Definition initialPanel : PanelState :=
  {| gantt := []; ganttAnnotations := []; ganttMax := ofZ 0;
     selectedRange := (ofZ 0, ofZ 0) |}.

(** [fullRange = [0, data.ganttMax * 1.1]] *)
Definition fullRange (st : PanelState) : number * number :=
  (ofZ 0, mul (ganttMax st) (fin (11 # 10))).

(** The click handler of the reset button: [setSelectedRange(fullRange)]. *)
Definition resetZoom (st : PanelState) : PanelState :=
  {| gantt := gantt st; ganttAnnotations := ganttAnnotations st;
     ganttMax := ganttMax st; selectedRange := fullRange st |}.

(** [setSelectedRange([x0, x1])] *)
Definition setSelectedRange (range : number * number) (st : PanelState)
  : PanelState :=
  {| gantt := gantt st; ganttAnnotations := ganttAnnotations st;
     ganttMax := ganttMax st; selectedRange := range |}.

(** The position of annotation [i] in the layout of the timeline. *)
Definition normalizedX (st : PanelState) (i : nat) (annotation : Annotation)
  : result number :=
  if lt (an_x annotation) (selectedRange st).1 then
    match gantt st !! i with
    | None => Throw "TypeError: Cannot read properties of undefined"
    | Some bar =>
        if bool_decide (an_y annotation = pd_y bar)
           && gt (add (pd_base bar) (pd_x bar)) (selectedRange st).1
        then Ok (selectedRange st).1
        else Ok (an_x annotation)
    end
  else Ok (an_x annotation).

Fixpoint layoutAnnotationsFrom (st : PanelState) (i : nat)
    (l : list Annotation) : result (list Annotation) :=
  match l with
  | [] => Ok []
  | annotation :: l' =>
      nx ← normalizedX st i annotation;
      rest ← layoutAnnotationsFrom st (S i) l';
      Ok ({| an_x := nx; an_y := an_y annotation; text := text annotation |}
            :: rest)
  end.

(** [layout.annotations] *)
Definition layoutAnnotations (st : PanelState) : result (list Annotation) :=
  layoutAnnotationsFrom st 0 (ganttAnnotations st).

Section Panel.

Variable parseIsoToNano : option StartTime → number.

(** The effect that runs when the payload changes, from the parsed hits on:
    the hierarchy is built, the start of the earliest span handed to the
    layout is taken, the chart is laid out, and the zoom is reset.  When the
    hierarchy builder throws, nothing else is done; the message is that of
    the assignment in strict code, without the number that it quotes. *)
Definition loadHits (fuel : nat) (hits : list ParsedHit)
    (mode : TraceAnalyticsMode) (colorMap : gmap string string)
    (st : PanelState) : result PanelState :=
  let hierarchicalSpans := hitsToHierarchicalSpans parseIsoToNano hits mode in
  if thrown hierarchicalSpans
  then Throw "TypeError: Cannot create property 'children' on number"
  else
  let startTimeInMs :=
    minOf ((λ ref, nanoToMilliSec (startOf (spanMap hierarchicalSpans) ref))
             <$> rootSpans hierarchicalSpans) in
  chart ← createPlotlyData (spanMap hierarchicalSpans) mode colorMap
            startTimeInMs fuel (rootSpans hierarchicalSpans);
  Ok {| gantt := data chart; ganttAnnotations := annotations chart;
        ganttMax := maxX chart;
        selectedRange := (ofZ 0, mul (maxX chart) (fin (11 # 10))) |}.

End Panel.

(** ** Requests: the percentile of a latency *)

(** [arr[mid] < target]; an index outside of the array reads [undefined],
    which compares false. *)
Definition belowTarget (arr : list number) (target : number) (mid : nat)
  : bool :=
  match arr !! mid with
  | Some v => lt v target
  | None => false
  end.

Section BinarySearch.

Import Equations.Prop.Equations.

(** The loop [while (low < high)] of [binarySearch].  The counters are
    indices, and [Math.floor((low + high) / 2)] is the quotient of the
    division by two.  The distance [high - low] shrinks in every round. *)
Equations binarySearchLoop (arr : list number) (target : number)
    (low high : nat) : nat by wf (high - low) Nat.lt :=
binarySearchLoop arr target low high with decide (low < high)%nat := {
  | left _ =>
      if belowTarget arr target ((low + high) / 2)
      then binarySearchLoop arr target ((low + high) / 2 + 1) high
      else binarySearchLoop arr target low ((low + high) / 2)
  | right _ => low }.
Next Obligation.
  intros. unfold Nat.lt.
  change (Nat.divmod (low + high) 1 0 1).1 with ((low + high) / 2).
  pose proof (Nat.div_mod_eq (low + high) 2).
  pose proof (Nat.mod_upper_bound (low + high) 2). lia.
Qed.
Next Obligation.
  intros. unfold Nat.lt.
  change (Nat.divmod (low + high) 1 0 1).1 with ((low + high) / 2).
  pose proof (Nat.div_mod_eq (low + high) 2).
  pose proof (Nat.mod_upper_bound (low + high) 2). lia.
Qed.

End BinarySearch.

(** [binarySearch], the helper of [handleTracesRequest], for an array of
    numbers or [undefined]: [arr] is [percentileRanges[key]], which is
    [undefined] when the lookup finds nothing. *)
Definition binarySearch (arr : option (list number)) (target : number)
  : number :=
  match arr with
  | None => NaN
  | Some arr =>
      let low := binarySearchLoop arr target 0 (length arr) in
      max (ofZ 0) (min (ofZ 100) (ofZ (Z.of_nat low)))
  end.

(** [binarySearch] for a value that is no array of numbers: such a value
    reaches it when [percentileRanges[key]] finds an inherited property.  A
    number that is zero or [NaN] is falsy.  Every other value is truthy.  For
    a number and for an object without a [length], [high] is [undefined] and
    [low < high] is false, so that the loop is not entered.  For a function,
    [high] is the number of its parameters and every [arr[mid]] is
    [undefined], as for an array without elements. *)
Definition binarySearchOther (arr : OtherValue) (target : number) : number :=
  match arr with
  | NumberValue value =>
      if truthyNumber value
      then max (ofZ 0) (min (ofZ 100) (ofZ 0))
      else NaN
  | ObjectValue => max (ofZ 0) (min (ofZ 100) (ofZ 0))
  | FunctionValue arity =>
      let low := binarySearchLoop [] target 0 arity in
      max (ofZ 0) (min (ofZ 100) (ofZ (Z.of_nat low)))
  end.

(** ** Requests: the payload of a trace *)

(** [Hit]: a search hit.  The values of [sort] are those that the search
    reports for a numeric sort field. *)
Record Hit : Type := {
  hit_index : string;
  hit_id : string;
  hit_score : option number;
  hit_source : Source;
  hit_sort : option (list number)
}.

(** What [hits.hits] holds when [hits] is present: [None] stands for a value
    that is not an array. *)
Record Hits : Type := { hits_hits : option (list Hit) }.

(** [ParsedResponse]: [None] stands for a [hits] that is absent or falsy. *)
Record ParsedResponse : Type := { response_hits : option Hits }.

Definition normalizePayload (parsed : ParsedResponse) : list Hit :=
  match response_hits parsed with
  | Some hits =>
      match hits_hits hits with
      | Some l => l
      | None => []
      end
  | None => []
  end.

(** [Array.prototype.sort] with a comparator, given as the test whether the
    comparator is positive ([a] goes after [b]).  The sort is stable: an
    element is placed before the first one that it does not go after. *)
Fixpoint insertSorted {A} (after : A → A → bool) (a : A) (l : list A)
  : list A :=
  match l with
  | [] => [a]
  | b :: l' =>
      if after a b then b :: insertSorted after a l' else a :: b :: l'
  end.

Definition stableSort {A} (after : A → A → bool) (l : list A) : list A :=
  foldr (insertSorted after) [] l.

(** [hit.sort[0]]; reading it from a missing or empty [sort] gives
    [undefined], a [NaN] in arithmetic. *)
Definition firstSortValue (hit : Hit) : number :=
  match hit_sort hit with
  | Some (v :: _) => v
  | _ => NaN
  end.

(** The comparator [(a, b) => b.sort[0] - a.sort[0]] is positive. *)
Definition sortsAfter (a b : Hit) : bool :=
  gt (sub (firstSortValue b) (firstSortValue a)) (ofZ 0).

Section Payload.

Variable parseIsoToNano : option StartTime → number.

(** A search hit where a [ParsedHit] is expected. *)
Definition asParsedHit (hit : Hit) : ParsedHit :=
  {| _source := hit_source hit |}.

(** The callback of [normalizedData.map] in [handlePayloadRequest]:
    [{ ...hit, sort: hit.sort && hit.sort[0] ? hit.sort : [time] }]. *)
Definition withSortKey (mode : TraceAnalyticsMode) (hit : Hit) : Hit :=
  let time := getStartTimeInNanos parseIsoToNano (asParsedHit hit) mode in
  {| hit_index := hit_index hit;
     hit_id := hit_id hit;
     hit_score := hit_score hit;
     hit_source := hit_source hit;
     hit_sort :=
       Some (match hit_sort hit with
             | Some (v :: rest) =>
                 if truthyNumber v then v :: rest else [time]
             | _ => [time]
             end) |}.

(** [sortedData] of [handlePayloadRequest], the array that is serialised as
    the payload of the trace. *)
Definition sortedData (response : ParsedResponse) (mode : TraceAnalyticsMode)
  : list Hit :=
  stableSort sortsAfter (withSortKey mode <$> normalizePayload response).

End Payload.

(** ** The panel: span filters *)

(** [TraceFilter]; the value of a filter is any value. *)
Record TraceFilter (V : Type) : Type := {
  tf_field : string;
  tf_value : V
}.
Arguments tf_field {V} _.
Arguments tf_value {V} _.

(** [Array.prototype.findIndex]: the index of the first element that
    satisfies the test, [-1] when there is none. *)
Fixpoint findIndexFrom {A} (test : A → bool) (l : list A) (i : Z) : Z :=
  match l with
  | [] => (-1)%Z
  | a :: l' => if test a then i else findIndexFrom test l' (i + 1)%Z
  end.

Definition findIndex {A} (test : A → bool) (l : list A) : Z :=
  findIndexFrom test l 0%Z.

(** [Array.prototype.splice(start, deleteCount, ...items)], the array after
    the call: a negative [start] counts from the end, a [start] beyond the
    end is the end, and no more elements are removed than there are. *)
Definition splice {A} (start deleteCount : Z) (items l : list A) : list A :=
  let len := Z.of_nat (length l) in
  let actualStart :=
    if (start <? 0)%Z then Z.max (len + start) 0 else Z.min start len in
  let actualDeleteCount := Z.min (Z.max deleteCount 0) (len - actualStart) in
  take (Z.to_nat actualStart) l
  ++ items
  ++ drop (Z.to_nat (actualStart + actualDeleteCount)) l.

Section SpanFilters.

Context {V : Type}.

(** [addSpanFilter]: the filters that are handed to
    [props.setSpanFiltersWithStorage]. *)
Definition addSpanFilter (spanFilters : list (TraceFilter V))
    (field : string) (value : V) : list (TraceFilter V) :=
  let newFilters := spanFilters in
  let index :=
    findIndex (λ f, bool_decide (field = tf_field f)) newFilters in
  if bool_decide (index = (-1)%Z)
  then newFilters ++ [{| tf_field := field; tf_value := value |}]
  else splice index 1 [{| tf_field := field; tf_value := value |}] newFilters.

(** [removeSpanFilter]: the filters that are handed to
    [props.setSpanFiltersWithStorage], [None] when it is not called. *)
Definition removeSpanFilter (spanFilters : list (TraceFilter V))
    (field : string) : option (list (TraceFilter V)) :=
  let newFilters := spanFilters in
  let index :=
    findIndex (λ f, bool_decide (field = tf_field f)) newFilters in
  if bool_decide (index ≠ (-1)%Z)
  then Some (splice index 1 [] newFilters)
  else None.

End SpanFilters.

(** ** The panel: zooming *)

(** What [onRelayoutHandler] reads from the event of the plot: the values
    found by [get] at [xaxis.range[0]], [xaxis.range[1]], [selections[0].x0]
    and [selections[0].x1].  The values are numbers; [None] stands for a
    value that is not there, for which [get] returns the default [null]. *)
Record PlotSelectionEvent : Type := {
  xaxis_range_0 : option number;
  xaxis_range_1 : option number;
  selections_0_x0 : option number;
  selections_0_x1 : option number
}.

(** Truthiness of a number or [null]. *)
Definition truthyValue (v : option number) : bool :=
  match v with
  | Some a => truthyNumber a
  | None => false
  end.

(** [a || b] *)
Definition orValue (a b : option number) : option number :=
  if truthyValue a then a else b.

Definition onRelayoutHandler (event : PlotSelectionEvent) (st : PanelState)
  : PanelState :=
  let x0 := orValue (xaxis_range_0 event) (selections_0_x0 event) in
  let x1 := orValue (xaxis_range_1 event) (selections_0_x1 event) in
  match x0, x1 with
  | Some a, Some b =>
      if truthyNumber a && truthyNumber b
      then setSelectedRange (a, b) st
      else setSelectedRange (fullRange st) st
  | _, _ => setSelectedRange (fullRange st) st
  end.

(** [isDisabled] of the button that resets the zoom. *)
Definition isDisabled (st : PanelState) : bool :=
  strictEq (selectedRange st).1 (fullRange st).1
  && strictEq (selectedRange st).2 (fullRange st).2.

(** [totalItems] of the title of the panel: [data.gantt.length / 2]. *)
Definition totalItems (st : PanelState) : number :=
  divBy (ofZ (Z.of_nat (length (gantt st)))) 2.

(** ** Requests: the tables of traces *)

(** [mode === 'data_prepper' || mode === 'custom_data_prepper'] *)
Definition isDataPrepper (mode : TraceAnalyticsMode) : bool :=
  match mode with
  | data_prepper | custom_data_prepper => true
  | jaeger => false
  end.

(** A value of a document: what [JSON.parse] can produce.  The fields of an
    object are listed in the order in which they are enumerated. *)
#[warnings="-register-all"]
Inductive JsonValue : Type :=
| JsonNull
| JsonBool (b : bool)
| JsonNumber (n : number)
| JsonString (s : string)
| JsonArray (items : list JsonValue)
| JsonObject (fields : list (string * JsonValue)).

(** lodash [isArray] and [isObject]. *)
Definition isArray (v : JsonValue) : bool :=
  match v with JsonArray _ => true | _ => false end.

Definition isObject (v : JsonValue) : bool :=
  match v with JsonArray _ | JsonObject _ => true | _ => false end.

(** [f || g] for two functions: a function is truthy, so that the value is
    [f]. *)
Definition orFunction {A B} (f g : A → B) : A → B := f.

(** lodash [omitBy(object, predicate)]; for a missing object the result is
    the empty object. *)
Definition omitBy (object : option (list (string * JsonValue)))
    (predicate : JsonValue → bool) : list (string * JsonValue) :=
  filter (λ kv, predicate kv.2 = false) (default [] object).

(** The aggregations that a bucket of traces carries: [{ value }] and
    [{ doc_count }]. *)
Record Metric : Type := { metric_value : option number }.
Record DocCount : Type := { doc_count : option number }.

(** A bucket of [bucket.trace_group.buckets]. *)
Record KeyBucket : Type := { kb_key : option string }.

(** A bucket of [aggregations.traces.buckets].  A field that is [None] is
    absent; [tb_trace_group] is [bucket.trace_group.buckets]. *)
Record TraceBucket : Type := {
  tb_key : option string;
  tb_trace_group : option (list KeyBucket);
  tb_latency : option Metric;
  tb_last_updated : option Metric;
  tb_error_count : option DocCount
}.

(** A row of the table of traces; [trace_group] and
    [percentile_in_trace_group] are [None] for a row that has no such
    field. *)
Record TraceItem : Type := {
  trace_id : option string;
  trace_group : option (option string);
  latency : option number;
  last_updated : string;
  error_count : option number;
  percentile_in_trace_group : option number;
  actions : string
}.

(** An element of the array given to [setItems]. *)
Inductive Item : Type :=
| TraceRow (row : TraceItem)
| Document (fields : list (string * JsonValue)).

(** The calls that a request handler makes once the requests are settled;
    [ReportError] stands for [console.error] followed by the error toast
    with the given title. *)
Inductive Call : Type :=
| SetItems (items : list Item)
| SetTotalHits (totalHits : number)
| SetUniqueTraces (count : number)
| ReportError (title : string).

(** [array.map(f)] with a callback that may throw. *)
Fixpoint mapResult {A B} (f : A → result B) (l : list A) : result (list B) :=
  match l with
  | [] => Ok []
  | a :: l' => b ← f a; bs ← mapResult f l'; Ok (b :: bs)
  end.

(** [object.field] on an object that may be missing. *)
Definition readFrom {A} (object : option A) : result A :=
  match object with
  | Some o => Ok o
  | None => Throw "TypeError: Cannot read properties of undefined"
  end.

(** The response of the query for traces: [unique_traces] is
    [response?.aggregations?.unique_traces?.value] and [traces_buckets] is
    [response?.aggregations?.traces?.buckets]. *)
Record TracesResponse : Type := {
  unique_traces : option number;
  traces_buckets : option (list TraceBucket)
}.

(** A bucket of the percentiles of a trace group: [pb_values] holds
    [Object.values(traceGroup.percentiles.values)]. *)
Record PercentileBucket : Type := {
  pb_key : option string;
  pb_values : option (list number)
}.

(** The response of the query for percentiles: [percentile_buckets] is
    [response.aggregations.trace_group_name.buckets]. *)
Record PercentileResponse : Type := {
  percentile_buckets : option (list PercentileBucket)
}.

(** The response of the query on custom indices: [custom_hits] is
    [response?.hits?.hits], [custom_total] is [response?.hits?.total?.value]
    and [custom_buckets] is [response?.aggregations?.traces?.buckets]. *)
Record CustomHit : Type := {
  custom_source : option (list (string * JsonValue))
}.

Record CustomResponse : Type := {
  custom_hits : option (list CustomHit);
  custom_total : option number;
  custom_buckets : option (list TraceBucket)
}.

(** What [percentileRanges[key]] is: an array that the map holds, a value that
    it inherits, or [undefined]. *)
Inductive RangeFound : Type :=
| FoundRange (values : list number)
| FoundOther (value : OtherValue)
| NoRange.

(** [values[key]] for a key that is the decimal form of an index, counted
    from [i]. *)
Fixpoint elementAt (values : list number) (i : nat) (key : string)
  : option number :=
  match values with
  | [] => None
  | value :: values' =>
      if bool_decide (key = pretty i) then Some value
      else elementAt values' (S i) key
  end.

Section Tables.

(** [moment(value).format(TRACE_ANALYTICS_DATE_FORMAT)]: the library and the
    format are not among the sources. *)
Variable formatDate : option number → string.

(** The functions of [Array.prototype] with their [length]; which functions
    there are depends on the edition of the language. *)
Variable arrayPrototype : gmap string nat.

(** The property [key] of an array that is the prototype of a map: one of its
    elements, its [length], or a function of [Array.prototype]. *)
Definition arrayField (prototype : list number) (key : string)
  : option OtherValue :=
  match elementAt prototype 0 key with
  | Some value => Some (NumberValue value)
  | None =>
      if bool_decide (key = "length")
      then Some (NumberValue (ofZ (Z.of_nat (length prototype))))
      else FunctionValue <$> arrayPrototype !! key
  end.

(** [percentileRanges[key]].  The map holds the arrays that the lookup finds
    as own properties and, under [__proto__], the array that was assigned to
    this key and is the prototype of the object since.  What the object
    inherits comes from this array first and from [Object.prototype] then. *)
Definition getRange (percentileRanges : gmap string (list number))
    (key : string) : RangeFound :=
  match percentileRanges !! key with
  | Some values => FoundRange values
  | None =>
      match percentileRanges !! "__proto__"
            ≫= λ prototype, arrayField prototype key with
      | Some value => FoundOther value
      | None =>
          match objectPrototype !! key with
          | Some value => FoundOther value
          | None => NoRange
          end
      end
  end.

(** [binarySearch(percentileRanges[key], target)] *)
Definition percentileIn (percentileRanges : gmap string (list number))
    (key : string) (target : number) : number :=
  match getRange percentileRanges key with
  | FoundRange values => binarySearch (Some values) target
  | FoundOther value => binarySearchOther value target
  | NoRange => binarySearch None target
  end.

(** The callback of [.then] on the request for percentiles.  For the key
    [__proto__] the assignment makes the array the prototype of [map]. *)
Definition percentileRangesOf (response : PercentileResponse)
  : result (gmap string (list number)) :=
  buckets ← readFrom (percentile_buckets response);
  forEach
    (λ (map : gmap string (list number)) traceGroup,
       values ← readFrom (pb_values traceGroup);
       Ok (<[propKey (pb_key traceGroup) :=
               nanoToMilliSec <$> (values : list number)]> map))
    buckets ∅.

(** The row of a bucket without the fields of a trace group. *)
Definition plainRow (bucket : TraceBucket) : result TraceItem :=
  latency ← readFrom (tb_latency bucket);
  last_updated ← readFrom (tb_last_updated bucket);
  error_count ← readFrom (tb_error_count bucket);
  Ok {| trace_id := tb_key bucket;
        trace_group := None;
        latency := metric_value latency;
        last_updated := formatDate (metric_value last_updated);
        error_count := doc_count error_count;
        percentile_in_trace_group := None;
        actions := "#" |}.

(** The callback of [buckets.map] in [handleTracesRequest]. *)
Definition traceRow (mode : TraceAnalyticsMode)
    (percentileRanges : gmap string (list number)) (bucket : TraceBucket)
  : result TraceItem :=
  if isDataPrepper mode then
    groups ← readFrom (tb_trace_group bucket);
    let group := head groups ≫= kb_key in
    latency ← readFrom (tb_latency bucket);
    last_updated ← readFrom (tb_last_updated bucket);
    error_count ← readFrom (tb_error_count bucket);
    Ok {| trace_id := tb_key bucket;
          trace_group := Some group;
          latency := metric_value latency;
          last_updated := formatDate (metric_value last_updated);
          error_count := doc_count error_count;
          percentile_in_trace_group :=
            Some (percentileIn percentileRanges (propKey group)
                    (from_option id NaN (metric_value latency)));
          actions := "#" |}
  else plainRow bucket.

(** [handleTracesRequest], from the two requests on: [responseResult] and
    [percentileResponse] are the outcomes of the request for traces and of
    the request for percentiles, [None] for a request that was rejected;
    [setUniqueTraces] tells whether the caller passed this setter. *)
Definition handleTracesRequest (responseResult : option TracesResponse)
    (percentileResponse : option PercentileResponse)
    (mode : TraceAnalyticsMode) (setUniqueTraces : bool) : list Call :=
  let percentileRangesResult : option (gmap string (list number)) :=
    if isDataPrepper mode then
      match percentileResponse with
      | Some response =>
          match percentileRangesOf response with
          | Ok map => Some map
          | _ => None
          end
      | None => None
      end
    else Some ∅ in
  match responseResult with
  | None => [SetItems []]
  | Some response =>
      let percentileRanges := default ∅ percentileRangesResult in
      let counted :=
        if setUniqueTraces
        then [SetUniqueTraces (default (ofZ 0) (unique_traces response))]
        else [] in
      match traces_buckets response with
      | None | Some [] => counted ++ [SetItems []]
      | Some buckets =>
          match mapResult (traceRow mode percentileRanges) buckets with
          | Ok newItems => counted ++ [SetItems (TraceRow <$> newItems)]
          | _ => counted ++ [ReportError "Failed to retrieve traces"]
          end
      end
  end.

(** [handleCustomIndicesTracesRequest], from the request on: [response] is
    [None] for a request that was rejected. *)
Definition handleCustomIndicesTracesRequest (response : option CustomResponse)
    (mode : TraceAnalyticsMode) : list Call :=
  match response with
  | None => [ReportError "Failed to retrieve custom indices traces"]
  | Some response =>
      let hits := default [] (custom_hits response) in
      let totalHits := default (ofZ 0) (custom_total response) in
      if bool_decide (length hits = 0)
      then [SetTotalHits totalHits; SetItems []]
      else if isDataPrepper mode then
        let results :=
          (λ val, omitBy (custom_source val) (orFunction isArray isObject))
            <$> hits in
        [SetTotalHits totalHits; SetItems (Document <$> results)]
      else
        let buckets := default [] (custom_buckets response) in
        match mapResult plainRow buckets with
        | Ok results =>
            [SetTotalHits totalHits; SetItems (TraceRow <$> results)]
        | _ =>
            [SetTotalHits totalHits;
             ReportError "Failed to retrieve custom indices traces"]
        end
  end.

End Tables.

(** ** Hits used in the examples *)

Definition childOf (parent : string) : SpanReference :=
  {| refType := CHILD_OF; ref_spanID := parent |}.

Definition followsFrom (earlier : string) : SpanReference :=
  {| refType := FOLLOWS_FROM; ref_spanID := earlier |}.

(** A jaeger document: times in microseconds. *)
Definition jaegerSpan (id : string) (start dur : Z)
    (refs : list SpanReference) : ParsedHit :=
  {| _source :=
       {| spanID := Some id; spanId := None;
          duration := Some dur; durationInNanos := None;
          process := Some {| process_serviceName := Some "frontend" |};
          serviceName := None;
          operationName := Some "GET"; name := None;
          tag := None; status_code := None;
          startTime := Some (Micros start);
          references := Some refs; parentSpanId := None |} |}.

(** The same document without its [process] field. *)
Definition jaegerSpanWithoutProcess (id : string) (start dur : Z) : ParsedHit :=
  {| _source :=
       {| spanID := Some id; spanId := None;
          duration := Some dur; durationInNanos := None;
          process := None; serviceName := None;
          operationName := Some "GET"; name := None;
          tag := None; status_code := None;
          startTime := Some (Micros start);
          references := Some []; parentSpanId := None |} |}.

(** A data prepper document: the duration in nanoseconds, the parent in
    [parentSpanId] (empty for a root). *)
Definition dataPrepperSpan (id timestamp : string) (dur : Z)
    (parent : string) : ParsedHit :=
  {| _source :=
       {| spanID := None; spanId := Some id;
          duration := None; durationInNanos := Some dur;
          process := None; serviceName := Some "frontend";
          operationName := None; name := Some "GET";
          tag := None; status_code := None;
          startTime := Some (Iso timestamp);
          references := None; parentSpanId := Some parent |} |}.

(** A stand-in for [parseIsoToNano] in examples of the data prepper mode: the
    timestamp is a string of [n] characters for the instant [n] ms. *)
Definition timestampLength (v : option StartTime) : number :=
  match v with
  | Some (Iso s) => ofZ (Z.of_nat (String.length s) * 1000000)
  | _ => NaN
  end.

(** No colour is assigned in the examples. *)
Definition noColors : gmap string string := ∅.

(** A trace of three jaeger spans: a root, a child of the root that starts
    2 ms later, and a span without references that starts 1 ms after the
    root. *)
Definition scenarioHits : list ParsedHit :=
  [ jaegerSpan "R" 0 10000 [];
    jaegerSpan "C1" 2000 5000 [childOf "R"];
    jaegerSpan "C2" 1000 3000 [] ].

(** The panel after these hits were loaded. *)
Definition scenarioPanel : PanelState :=
  Eval vm_compute in
    match loadHits timestampLength 10 scenarioHits jaeger noColors initialPanel
    with
    | Ok st => st
    | _ => initialPanel
    end.

(** A span with one [CHILD_OF] reference to each of two other spans. *)
Definition twoParentsHits : list ParsedHit :=
  [ jaegerSpan "A" 0 10000 [];
    jaegerSpan "B" 0 10000 [];
    jaegerSpan "C" 1000 5000 [childOf "A"; childOf "B"] ].

(** A span whose only reference names a span that is not in the trace. *)
Definition danglingHits : list ParsedHit :=
  [ jaegerSpan "R" 0 10000 [];
    jaegerSpan "X" 1000 5000 [childOf "missing"] ].

(** A child that starts 5 ms before its parent. *)
Definition earlyChildHits : list ParsedHit :=
  [ jaegerSpan "R" 10000 1000 [];
    jaegerSpan "C" 5000 1000 [childOf "R"] ].

Definition earlyChildPanel : PanelState :=
  Eval vm_compute in
    match loadHits timestampLength 10 earlyChildHits jaeger noColors
            initialPanel
    with
    | Ok st => st
    | _ => initialPanel
    end.

(** A single span of 1234 microseconds. *)
Definition shortSpanHits : list ParsedHit := [ jaegerSpan "R" 0 1234 [] ].

Definition shortSpanPanel : PanelState :=
  Eval vm_compute in
    match loadHits timestampLength 10 shortSpanHits jaeger noColors
            initialPanel
    with
    | Ok st => st
    | _ => initialPanel
    end.

Definition twoParentsPanel : PanelState :=
  Eval vm_compute in
    match loadHits timestampLength 10 twoParentsHits jaeger noColors
            initialPanel
    with
    | Ok st => st
    | _ => initialPanel
    end.

(** Two spans that are each the child of the other. *)
Definition cyclicHits : list ParsedHit :=
  [ jaegerSpan "A" 0 10000 [childOf "B"];
    jaegerSpan "B" 1000 5000 [childOf "A"] ].

(** Two children of one root that start at the same microsecond. *)
Definition tiedHits : list ParsedHit :=
  [ jaegerSpan "R" 0 10000 [];
    jaegerSpan "A" 1000 5000 [childOf "R"];
    jaegerSpan "B" 1000 3000 [childOf "R"] ].

Definition tiedPanel : PanelState :=
  Eval vm_compute in
    match loadHits timestampLength 10 tiedHits jaeger noColors initialPanel
    with
    | Ok st => st
    | _ => initialPanel
    end.

(** A span that is a child of a span and also follows from it, and starts in
    the same microsecond. *)
Definition dualHits : list ParsedHit :=
  [ jaegerSpan "X" 0 5000 [childOf "A"; followsFrom "A"];
    jaegerSpan "A" 0 10000 [] ].

Definition dualPanel : PanelState :=
  Eval vm_compute in
    match loadHits timestampLength 10 dualHits jaeger noColors initialPanel
    with
    | Ok st => st
    | _ => initialPanel
    end.

(** A root of 100 ms with two children that start at 10 ms: one of 50 ms and
    one of 5 ms. *)
Definition zoomHits : list ParsedHit :=
  [ jaegerSpan "R" 0 100000 [];
    jaegerSpan "S1" 10000 50000 [childOf "R"];
    jaegerSpan "S2" 10000 5000 [childOf "R"] ].

Definition zoomPanel : PanelState :=
  Eval vm_compute in
    match loadHits timestampLength 10 zoomHits jaeger noColors initialPanel
    with
    | Ok st => st
    | _ => initialPanel
    end.

(** A jaeger document without its [duration] field. *)
Definition jaegerSpanWithoutDuration (id : string) (start : Z) : ParsedHit :=
  {| _source :=
       {| spanID := Some id; spanId := None;
          duration := None; durationInNanos := None;
          process := Some {| process_serviceName := Some "frontend" |};
          serviceName := None;
          operationName := Some "GET"; name := None;
          tag := None; status_code := None;
          startTime := Some (Micros start);
          references := Some []; parentSpanId := None |} |}.

(** A span of 10 ms and a span without a duration. *)
Definition openEndedHits : list ParsedHit :=
  [ jaegerSpan "R" 0 10000 []; jaegerSpanWithoutDuration "S" 1000 ].

Definition openEndedPanel : PanelState :=
  Eval vm_compute in
    match loadHits timestampLength 10 openEndedHits jaeger noColors
            initialPanel
    with
    | Ok st => st
    | _ => initialPanel
    end.

(** A search hit around a document, with its sort values. *)
Definition searchHit (doc : ParsedHit) (sort : option (list number)) : Hit :=
  {| hit_index := "otel-v1-apm-span"; hit_id := "";
     hit_score := None; hit_source := _source doc; hit_sort := sort |}.

(** A response with three hits: one sorted at 2, one without sort values that
    starts at 5 microseconds, and one sorted at 7. *)
Definition payloadResponse : ParsedResponse :=
  {| response_hits :=
       Some {| hits_hits :=
                 Some [ searchHit (jaegerSpan "a" 0 10 []) (Some [fin 2]);
                        searchHit (jaegerSpan "b" 5 10 []) None;
                        searchHit (jaegerSpan "c" 0 10 []) (Some [fin 7]) ] |} |}.

(** A root with a child, and two spans that are each the child of the other:
    in data prepper form and in jaeger form. *)
Definition strayLoopHits : list ParsedHit :=
  [ dataPrepperSpan "a" "xxx" 1000000 "b";
    dataPrepperSpan "b" "xxxx" 1000000 "a";
    dataPrepperSpan "r" "x" 5000000 "";
    dataPrepperSpan "c" "xx" 1000000 "r" ].

Definition strayCycleHits : list ParsedHit :=
  [ jaegerSpan "A" 3000 1000 [childOf "B"];
    jaegerSpan "B" 4000 1000 [childOf "A"];
    jaegerSpan "R" 0 5000 [];
    jaegerSpan "C" 1000 1000 [childOf "R"] ].

(** A span with the id [__proto__] and a span that names [startTimeInNanos]
    as its parent. *)
Definition prototypeHits : list ParsedHit :=
  [ jaegerSpan "__proto__" 1000 5000 [];
    jaegerSpan "b" 2000 1000 [childOf "startTimeInNanos"] ].

(** A span whose parent is named like a function of [Object.prototype], and
    a child of this span. *)
Definition inheritedParentHits : list ParsedHit :=
  [ dataPrepperSpan "a" "x" 1000000 "constructor";
    dataPrepperSpan "b" "xx" 1000000 "a" ].

(** A span whose parent is named [__proto__], and two spans whose parent is
    named [children], one before it and one after it. *)
Definition pollutingHits : list ParsedHit :=
  [ dataPrepperSpan "a" "x" 1000000 "children";
    dataPrepperSpan "b" "xx" 1000000 "__proto__";
    dataPrepperSpan "c" "xxx" 1000000 "children" ].

(** A stand-in for the formatting of a date in examples. *)
Definition noDate (value : option number) : string := "".

(** Three of the functions of [Array.prototype]. *)
Definition arrayFunctions : gmap string nat :=
  list_to_map [("push", 1); ("slice", 2); ("reverse", 0)].

(** A bucket of a trace with its trace group and its latency in
    milliseconds. *)
Definition traceBucket (id group : string) (ms : Z) : TraceBucket :=
  {| tb_key := Some id;
     tb_trace_group := Some [ {| kb_key := Some group |} ];
     tb_latency := Some {| metric_value := Some (ofZ ms) |};
     tb_last_updated := Some {| metric_value := Some (ofZ 0) |};
     tb_error_count := Some {| doc_count := Some (ofZ 0) |} |}.

(** Two traces of the group [checkout], one of 3 ms and one of 20 ms. *)
Definition tableResponse : TracesResponse :=
  {| unique_traces := Some (ofZ 2);
     traces_buckets :=
       Some [ traceBucket "t1" "checkout" 3; traceBucket "t2" "checkout" 20 ] |}.

(** The percentiles of the group [checkout], in nanoseconds: 1 ms, 2 ms,
    5 ms and 9 ms. *)
Definition tablePercentiles : PercentileResponse :=
  {| percentile_buckets :=
       Some [ {| pb_key := Some "checkout";
                 pb_values := Some [ ofZ 1000000; ofZ 2000000;
                                     ofZ 5000000; ofZ 9000000 ] |} ] |}.

(** A trace of a group that is named like a function of [Object.prototype]
    and a trace of a group without percentiles. *)
Definition inheritedGroupResponse : TracesResponse :=
  {| unique_traces := Some (ofZ 2);
     traces_buckets :=
       Some [ traceBucket "t1" "constructor" 3;
              traceBucket "t2" "payment" 20 ] |}.


(** ** Notions used to state the properties *)

(** Where a bar ends on the time axis. *)
Definition barEnd (bar : PlotData) : number := add (pd_base bar) (pd_x bar).

(** The greatest end among the bars, and zero when there is none or when all
    ends are negative. *)
Definition maxEnd (bars : list PlotData) : number :=
  foldl (λ m bar, max m (barEnd bar)) (ofZ 0) bars.

(** One call of [processSpan]: the reference it was given, the node behind
    it and the fields parsed from the node's hit. *)
Record Visit : Type := {
  v_ref : string;
  v_span : HierarchicalSpan;
  v_fields : SpanHitData
}.

Section Visits.

Variable spanMap : gmap string HierarchicalSpan.
Variable mode : TraceAnalyticsMode.
Variable colorMap : gmap string string.
Variable startTimeInMs : number.

Definition visitOk (v : Visit) : Prop :=
  spanMap !! v_ref v = Some (v_span v)
  ∧ parseSpanHitData (hit (v_span v)) mode = Ok (v_fields v).

(** The hit of the node behind a reference is one that the parser accepts. *)
Definition parsedAt (ref : string) : Prop :=
  ∀ span, spanMap !! ref = Some span →
          ∃ p, parseSpanHitData (hit span) mode = Ok p.

Definition visitBar (v : Visit) : PlotData :=
  spanBar colorMap startTimeInMs (v_span v) (v_fields v).

Definition visitLabel (v : Visit) : Annotation :=
  spanBarLabel startTimeInMs (v_span v) (v_fields v).

(** The chart after the calls [vs], in this order, starting from [acc]. *)
Definition chartAfter (acc : Chart) (vs : list Visit) : Chart :=
  {| data := data acc ++ (visitBar <$> vs);
     annotations := annotations acc ++ (visitLabel <$> vs);
     maxX := foldl (λ m v, max m (barEnd (visitBar v))) (maxX acc) vs |}.

End Visits.

(** The references that [processSpan] is called with, in the order of the
    calls: a node, then the nodes below each of its children, the children
    taken by start time. *)
Fixpoint walkEach (w : string → option (list string)) (l : list string)
  : option (list string) :=
  match l with
  | [] => Some []
  | c :: l' =>
      match w c, walkEach w l' with
      | Some a, Some b => Some (a ++ b)
      | _, _ => None
      end
  end.

Section Walk.

Variable spanMap : gmap string HierarchicalSpan.

Fixpoint walk (fuel : nat) (ref : string) : option (list string) :=
  match fuel with
  | O => None
  | S fuel' =>
      match spanMap !! ref with
      | None => None
      | Some span =>
          cons ref <$> walkEach (walk fuel') (sortSpans spanMap (children span))
      end
  end.

Definition walkAll (fuel : nat) (spans : list string) : option (list string) :=
  walkEach (walk fuel) (sortSpans spanMap spans).

End Walk.

Definition emptyChart : Chart :=
  {| data := []; annotations := []; maxX := ofZ 0 |}.

(** ** Notions used to state the properties of the hierarchy *)

(** What was found is [Object.prototype]; what was found is a number other
    than zero and [NaN]. *)
Definition foundPrototype (found : Found) : bool :=
  match found with FoundPrototype => true | _ => false end.

Definition foundNumber (found : Found) : bool :=
  match found with FoundNumber value => truthyNumber value | _ => false end.

(** Two span maps hold the same nodes up to their children. *)
Definition sameNodes (m1 m2 : gmap string HierarchicalSpan) : Prop :=
  ∀ k, startTimeInNanos <$> m1 !! k = startTimeInNanos <$> m2 !! k.

Section Links.

Variable parseIsoToNano : option StartTime → number.
Variable mode : TraceAnalyticsMode.

(** The key under which the node of a hit is stored. *)
Definition keyOf (hit : ParsedHit) : string := propKey (spanIdOf mode hit).

(** The node that the first pass creates for a hit. *)
Definition freshNode (hit : ParsedHit) : HierarchicalSpan :=
  {| hit := hit;
     startTimeInNanos := getStartTimeInNanos parseIsoToNano hit mode;
     children := [] |}.

(** The span map after the first pass. *)
Definition indexHits (hits : list ParsedHit) : gmap string HierarchicalSpan :=
  foldl (indexHit parseIsoToNano mode) ∅ hits.

(** The state in which the second pass starts. *)
Definition unlinked (m : gmap string HierarchicalSpan) : Hierarchy :=
  {| spanMap := m; rootSpans := []; alreadyAddedRootSpans := ∅;
     prototypeChildren := false; thrown := false |}.

Variable m0 : gmap string HierarchicalSpan.

(** A [CHILD_OF] reference whose target is a span of the map. *)
Definition resolvableChildOf (ref : SpanReference) : Prop :=
  refType ref = CHILD_OF ∧ is_Some (m0 !! ref_spanID ref).

#[global] Instance resolvableChildOf_dec ref : Decision (resolvableChildOf ref).
Proof. unfold resolvableChildOf. apply _. Defined.

(** The parent links of a hit that resolve, in the order in which the second
    pass follows them: the targets of its resolvable [CHILD_OF] references in
    jaeger mode, its non-empty resolvable [parentSpanId] otherwise. *)
Definition parentsOf (hit : ParsedHit) : list string :=
  if isJaeger mode then
    ref_spanID <$>
      filter resolvableChildOf (default [] (references (_source hit)))
  else if truthy (parentSpanId (_source hit))
          && bool_decide (is_Some (m0 !! propKey (parentSpanId (_source hit))))
       then [propKey (parentSpanId (_source hit))]
       else [].

(** What a hit appends to the children of the node [k]. *)
Definition attachedTo (k : string) (hit : ParsedHit) : list string :=
  (λ _, keyOf hit) <$> filter (λ p, p = k) (parentsOf hit).

(** The children of the node [k] once all of [hits] are linked. *)
Definition childrenOf (hits : list ParsedHit) (k : string) : list string :=
  hits ≫= attachedTo k.

(** The names under which the second pass looks for the parents of a hit:
    the targets of its [CHILD_OF] references in jaeger mode, its non-empty
    [parentSpanId] otherwise. *)
Definition linkNames (hit : ParsedHit) : list string :=
  if isJaeger mode then
    ref_spanID <$>
      filter (λ r, refType r = CHILD_OF)
        (default [] (references (_source hit)))
  else if truthy (parentSpanId (_source hit))
       then [propKey (parentSpanId (_source hit))]
       else [].

(** A parent link of the hit finds [Object.prototype], which gets the
    property [children] then; a parent link of the hit finds a number other
    than zero and [NaN], which makes the second pass throw. *)
Definition findsPrototype (hit : ParsedHit) : bool :=
  existsb (λ k, foundPrototype (lookupProperty m0 false k)) (linkNames hit).

Definition findsNumber (hit : ParsedHit) : bool :=
  existsb (λ k, foundNumber (lookupProperty m0 false k)) (linkNames hit).

(** Whether [Object.prototype] has the property [children] once the hits [l]
    are linked. *)
Definition pollutedAfter (l : list ParsedHit) : bool :=
  existsb findsPrototype l.

(** Whether the second pass registers a hit as a root: in jaeger mode a hit
    without references or with a [FOLLOWS_FROM] reference, otherwise a hit
    with a non-empty id whose [parentSpanId] is empty or finds nothing.
    [polluted] tells whether [Object.prototype] has the property [children]
    when the hit is linked. *)
Definition registersRootIn (polluted : bool) (hit : ParsedHit) : bool :=
  if isJaeger mode then
    let refs := default [] (references (_source hit)) in
    bool_decide (refs = []) || existsb isFollowsFrom refs
  else
    negb (truthy (parentSpanId (_source hit))
          && truthyFound
               (lookupProperty m0 polluted
                  (propKey (parentSpanId (_source hit)))))
    && truthy (spanId (_source hit)).

(** The same before any property was added to [Object.prototype]. *)
Definition registersRoot (hit : ParsedHit) : bool := registersRootIn false hit.

(** A node with more children. *)
Definition addChildren (l : list string) (n : HierarchicalSpan)
  : HierarchicalSpan :=
  {| hit := hit n; startTimeInNanos := startTimeInNanos n;
     children := children n ++ l |}.

End Links.

(** The root part of a state: the roots and the ids already added. *)
Definition rootPart (st : Hierarchy) : list string * gset (option string) :=
  (rootSpans st, alreadyAddedRootSpans st).


(** ** The claims in the words of the specification *)

Section Claims.

Variable parseIsoToNano : option StartTime → number.
Variable mode : TraceAnalyticsMode.

(** How often a node is stored as a child, over all children lists. *)
Definition childOccurrences (m : gmap string HierarchicalSpan) (c : string)
  : nat :=
  length (filter (λ k, k = c) ((map_to_list m).*2 ≫= children)).

(** "No node is stored as a child of more than one parent": each node occurs
    at most once in the union of all children lists. *)
Definition singleOwner (m : gmap string HierarchicalSpan) : Prop :=
  ∀ c, childOccurrences m c ≤ 1.

(** The duration of a hit in milliseconds, as converted from its raw
    field. *)
Definition rawDurationMs (hit : ParsedHit) : number :=
  if isJaeger mode
  then microToMilliSec (toNumber (duration (_source hit)))
  else nanoToMilliSec (toNumber (durationInNanos (_source hit))).

(** The start of a hit in milliseconds. *)
Definition startMs (hit : ParsedHit) : number :=
  nanoToMilliSec (getStartTimeInNanos parseIsoToNano hit mode).

(** "The earliest start time across the whole input dataset". *)
Definition globalMinStartMs (hits : list ParsedHit) : number :=
  minOf (startMs <$> hits).

(** The earliest start time among the roots of a hierarchy. *)
Definition rootMinStartMs (h : Hierarchy) : number :=
  minOf ((λ ref, nanoToMilliSec (startOf (spanMap h) ref)) <$> rootSpans h).

(** "Every bar starts at the start of its span minus the earliest start of
    the dataset." *)
Definition offsetsFromGlobalMin (hits : list ParsedHit)
    (bars : list PlotData) : Prop :=
  ∀ bar hit, bar ∈ bars → hit ∈ hits → pd_y bar = spanIdOf mode hit →
    pd_base bar = sub (startMs hit) (globalMinStartMs hits).

(** "The lengths of the bars are the unrounded conversions of the raw
    durations." *)
Definition unroundedLengths (hits : list ParsedHit) (bars : list PlotData)
  : Prop :=
  ∀ bar hit, bar ∈ bars → hit ∈ hits → pd_y bar = spanIdOf mode hit →
    pd_x bar = rawDurationMs hit.

(** A bar and its label are those of a hit: the offset is the unrounded
    start of the hit relative to [startTimeInMs], the length is the duration
    of the hit rounded to two decimals, and the label prints that length. *)
Definition barOfHit (startTimeInMs : number) (hit : ParsedHit)
    (bar : PlotData) (label : Annotation) : Prop :=
  pd_y bar = spanIdOf mode hit
  ∧ pd_base bar = sub (startMs hit) startTimeInMs
  ∧ pd_x bar = round2 (rawDurationMs hit)
  ∧ an_y label = spanIdOf mode hit
  ∧ an_x label = pd_base bar
  ∧ ∃ error serviceName name,
      text label = labelText error serviceName name (pd_x bar).

(** A visit of a node of the hierarchy is the visit of a hit. *)
Definition visitOfHit (hits : list ParsedHit) (v : Visit) : Prop :=
  ∃ h, h ∈ hits ∧ keyOf mode h = v_ref v
       ∧ spanMap (hitsToHierarchicalSpans parseIsoToNano hits mode)
           !! v_ref v = Some (v_span v)
       ∧ hit (v_span v) = h
       ∧ startTimeInNanos (v_span v)
         = getStartTimeInNanos parseIsoToNano h mode
       ∧ parseSpanHitData h mode = Ok (v_fields v).

(** A hit with a finite start time and a finite duration that is not
    negative. *)
Definition wellTimed (hit : ParsedHit) : Prop :=
  isFinite (getStartTimeInNanos parseIsoToNano hit mode)
  ∧ isFinite (rawDurationMs hit)
  ∧ le (ofZ 0) (rawDurationMs hit).

End Claims.

(** ** Order in a sequence, and hit sets that form a forest *)

(** [a] occurs in [l] and [b] occurs somewhere after it. *)
Fixpoint before {A} (l : list A) (a b : A) : Prop :=
  match l with
  | [] => False
  | c :: l' => (c = a ∧ b ∈ l') ∨ before l' a b
  end.

Section Ascending.

Variable spanMap : gmap string HierarchicalSpan.

(** The start time behind a reference as a rational, when it is finite. *)
Definition startOfQ (k : string) : Q :=
  match startOf spanMap k with Fin q => q | _ => 0 end.

Definition finiteStart (k : string) : Prop := isFinite (startOf spanMap k).

(** Elements appear in ascending order of their start times. *)
Definition ascending (l : list string) : Prop :=
  ∀ a b, before l a b → (startOfQ a <= startOfQ b)%Q.

End Ascending.

(** [k] is [a] or a node below [a]: the parent links lead from [k] up to
    [a]. *)
Inductive below (par : string → option string) (a : string)
  : string → Prop :=
| below_refl : below par a a
| below_step (k p : string) :
    par k = Some p → below par a p → below par a k.

Section Tree.

Variable parseIsoToNano : option StartTime → number.
Variable mode : TraceAnalyticsMode.
Variable hits : list ParsedHit.

(** The first parent link of a hit that resolves, and the same for the hit
    stored under a key. *)
Definition parentKey (h : ParsedHit) : option string :=
  head (parentsOf mode (indexHits parseIsoToNano mode hits) h).

Definition parentOfKey (k : string) : option string :=
  indexHits parseIsoToNano mode hits !! k ≫= λ n, parentKey (hit n).

(** The references that the walk from [k] passes when it has fuel. *)
Definition subtree (spanMap : gmap string HierarchicalSpan) (fuel : nat)
    (k : string) : list string :=
  default [] (walk spanMap fuel k).

(** The number of parent links from a key up to a root, when there are less
    than [fuel]. *)
Fixpoint depthOf (fuel : nat) (k : string) : option nat :=
  match fuel with
  | O => None
  | S fuel' =>
      match parentOfKey k with
      | None => Some O
      | Some p => S <$> depthOf fuel' p
      end
  end.

(** A hit has one place in the hierarchy: it registers as a root or it has
    one parent link that resolves, and not both. *)
Definition onePlace (h : ParsedHit) : bool :=
  bool_decide
    (length (parentsOf mode (indexHits parseIsoToNano mode hits) h)
     + (if registersRoot mode (indexHits parseIsoToNano mode hits) h
        then 1 else 0) = 1).

Definition reachesRoot (h : ParsedHit) : bool :=
  bool_decide (is_Some (depthOf (length hits) (keyOf mode h))).

Definition accepted (h : ParsedHit) : bool :=
  match parseSpanHitData h mode with Ok _ => true | _ => false end.

(** The hierarchy builder does not throw on a hit: none of its parent links
    finds a number. *)
Definition linked (h : ParsedHit) : bool :=
  negb (findsNumber mode (indexHits parseIsoToNano mode hits) h).

(** The hits form a forest: their keys are distinct, every hit has one place,
    the parent links have no cycle, and the parser and the hierarchy builder
    accept every hit. *)
Definition treeShaped : bool :=
  bool_decide (NoDup (keyOf mode <$> hits))
  && forallb onePlace hits
  && forallb reachesRoot hits
  && forallb accepted hits
  && forallb linked hits.

(** The span id of the hit stored under a key. *)
Definition spanIdOfKey (k : string) : option string :=
  from_option (λ n, spanIdOf mode (hit n)) None
    (indexHits parseIsoToNano mode hits !! k).

(** The references that the layout of a forest passes, in order: the roots
    by start time, each followed by its subtree. *)
Definition treeWalk : list string :=
  sortSpans (spanMap (hitsToHierarchicalSpans parseIsoToNano hits mode))
    (rootSpans (hitsToHierarchicalSpans parseIsoToNano hits mode))
  ≫= subtree (spanMap (hitsToHierarchicalSpans parseIsoToNano hits mode))
       (length hits).

(** The number of parent links above a key. *)
Definition levelOf (k : string) : nat := default 0 (depthOf (length hits) k).

(** Two hits hang from the same place: both are roots or both have the same
    parent. *)
Definition siblings (a b : ParsedHit) : Prop := parentKey a = parentKey b.

(** The start time of a node as a rational, when it is finite. *)
Definition startQ (h : ParsedHit) : Q :=
  match getStartTimeInNanos parseIsoToNano h mode with
  | Fin q => q
  | _ => 0
  end.

End Tree.

(** ** More claims in the words of the specification *)

Section TreeClaims.

Variable parseIsoToNano : option StartTime → number.
Variable mode : TraceAnalyticsMode.
Variable hits : list ParsedHit.

(** "The parent and reference ids all resolve within the set." *)
Definition referencesResolve : bool :=
  forallb
    (λ h,
       if isJaeger mode
       then forallb (λ r, bool_decide (ref_spanID r ∈ keyOf mode <$> hits))
              (default [] (references (_source h)))
       else negb (truthy (parentSpanId (_source h)))
            || bool_decide
                 (propKey (parentSpanId (_source h)) ∈ keyOf mode <$> hits))
    hits.

(** "Every input span appears exactly once": the ids of the bars are the ids
    of the hits, up to their order. *)
Definition everySpanOnce (bars : list PlotData) : Prop :=
  pd_y <$> bars ≡ₚ spanIdOf mode <$> hits.

(** "The sibling with the smaller or equal start time appears at the smaller
    index." *)
Definition earlierOrEqualFirst (ids : list (option string)) : Prop :=
  ∀ a b, a ∈ hits → b ∈ hits → a ≠ b →
    siblings parseIsoToNano mode hits a b →
    (startQ parseIsoToNano mode a <= startQ parseIsoToNano mode b)%Q →
    before ids (spanIdOf mode a) (spanIdOf mode b).

(** "The position of [p] precedes every position of [d]." *)
Definition precedesAll (ids : list (option string)) (p d : option string)
  : Prop :=
  ∀ j, ids !! j = Some d → ∃ i, i < j ∧ ids !! i = Some p.

End TreeClaims.

(** ** Notions used to state further properties *)

(** The filters as a finite map from fields to values; the first filter of a
    field counts. *)
Definition filterValues {V} (filters : list (TraceFilter V)) : gmap string V :=
  list_to_map ((λ f, (tf_field f, tf_value f)) <$> filters).

(** An event without a range, as for a double click on the plot. *)
Definition noRange : PlotSelectionEvent :=
  {| xaxis_range_0 := None; xaxis_range_1 := None;
     selections_0_x0 := None; selections_0_x1 := None |}.

(** The range shown is the full range, or none of its ends is zero or
    [NaN]. *)
Definition fullOrInside (st : PanelState) : Prop :=
  selectedRange st = fullRange st
  ∨ (truthyNumber (selectedRange st).1 = true
     ∧ truthyNumber (selectedRange st).2 = true).

(** The first sort value of a hit as a rational, when it is finite. *)
Definition sortKeyQ (hit : Hit) : Q :=
  match firstSortValue hit with Fin q => q | _ => 0 end.

(** The nodes that can be reached from the roots through the [children]
    arrays. *)
Inductive reachable (spanMap : gmap string HierarchicalSpan)
    (roots : list string) : string → Prop :=
| reachable_root (r : string) : r ∈ roots → reachable spanMap roots r
| reachable_child (k c : string) (n : HierarchicalSpan) :
    reachable spanMap roots k → spanMap !! k = Some n → c ∈ children n →
    reachable spanMap roots c.

(** A parent link of a hit finds a number in the span map: the node of a hit
    is the prototype of the map, its start time is neither zero nor [NaN],
    no span has the id [startTimeInNanos], and a hit names
    [startTimeInNanos] as a parent. *)
Definition linkFindsStartTime (parseIsoToNano : option StartTime → number)
    (mode : TraceAnalyticsMode) (hits : list ParsedHit) : Prop :=
  ∃ p h,
    indexHits parseIsoToNano mode hits !! "__proto__" = Some p
    ∧ truthyNumber (startTimeInNanos p) = true
    ∧ ("startTimeInNanos" ∉ keyOf mode <$> hits)
    ∧ h ∈ hits
    ∧ "startTimeInNanos" ∈ linkNames mode h.

(** A name finds nothing in the span map [m]: it is no key of the map and no
    property that the map inherits, from [Object.prototype] or from a node
    that is its prototype. *)
Definition findsNothing (m : gmap string HierarchicalSpan) (polluted : bool)
    (name : string) : Prop :=
  m !! name = None
  ∧ objectPrototype !! name = None
  ∧ (polluted = true → name ≠ "children")
  ∧ ∀ p, m !! "__proto__" = Some p →
         name ≠ "hit" ∧ name ≠ "children"
         ∧ (name = "startTimeInNanos" →
            truthyNumber (startTimeInNanos p) = false).

(** ** Chains of parent links *)

Section Chains.

Variable parseIsoToNano : option StartTime → number.
Variable mode : TraceAnalyticsMode.
Variable hits : list ParsedHit.

(** The key at which the chain of parent links from a key ends, when the
    chain has less than [fuel] links. *)
Fixpoint topOf (fuel : nat) (k : string) : option string :=
  match fuel with
  | O => None
  | S fuel' =>
      match parentOfKey parseIsoToNano mode hits k with
      | None => Some k
      | Some p => topOf fuel' p
      end
  end.

(** The chain of parent links from a key ends in a root. *)
Definition rooted (k : string) : bool :=
  match topOf (length hits) k with
  | Some r =>
      bool_decide
        (r ∈ rootSpans (hitsToHierarchicalSpans parseIsoToNano hits mode))
  | None => false
  end.

(** A hit has at most one place in the hierarchy: it registers as a root, or
    it has one parent link that resolves, or neither. *)
Definition atMostOnePlace (h : ParsedHit) : Prop :=
  length (parentsOf mode (indexHits parseIsoToNano mode hits) h)
  + (if registersRoot mode (indexHits parseIsoToNano mode hits) h
     then 1 else 0) ≤ 1.

End Chains.

(** ** Sanity checks of the number model *)

Example round2_half_up : round2 (fin (1235 # 1000)) = fin (124 # 100).
Proof. reflexivity. Qed.

Example toFixed2_pads : toFixed2 (fin (5 # 100)) = "0.05".
Proof. vm_compute. reflexivity. Qed.

Example toFixed2_negative : toFixed2 (fin (- 1 # 1000)) = "-0.00".
Proof. vm_compute. reflexivity. Qed.

(** * Properties *)

(** ** Results and loops *)

Lemma bind_Ok {A B} (r : result A) (k : A → result B) (b : B) :
  (r ≫= k) = Ok b ↔ ∃ a, r = Ok a ∧ k a = Ok b.
Proof.
  destruct r; simpl; split; try (intros [a' [? ?]]); try discriminate; eauto.
  intros. simplify_eq. assumption.
Qed.

Lemma forEach_app {A S} (f : S → A → result S) (l1 l2 : list A) (s : S) :
  forEach f (l1 ++ l2) s = (forEach f l1 s ≫= forEach f l2).
Proof.
  revert s. induction l1 as [|a l1 IH]; intros s; simpl; [reflexivity|].
  destruct (f s a); simpl; auto.
Qed.

(** An invariant of the callback is an invariant of the loop. *)
Lemma forEach_invariant {A S} (P : S → Prop) (f : S → A → result S)
    (l : list A) (s s' : S) :
  (∀ s1 a s2, a ∈ l → P s1 → f s1 a = Ok s2 → P s2) →
  P s → forEach f l s = Ok s' → P s'.
Proof.
  revert s. induction l as [|a l IH]; intros s Hstep Hs Hrun; simpl in Hrun.
  - congruence.
  - apply bind_Ok in Hrun as (s1 & Hfa & Hrest).
    apply (IH s1); [|eapply Hstep; eauto; left|exact Hrest].
    intros ? ? ? ?. apply Hstep. now right.
Qed.

(** ** Numbers *)

Lemma qltb_lt (p q : Q) : qltb p q = true ↔ (p < q)%Q.
Proof.
  unfold qltb. rewrite Qlt_alt. destruct (p ?= q)%Q; split; congruence.
Qed.

Lemma qltb_ge (p q : Q) : qltb p q = false ↔ (q <= p)%Q.
Proof.
  rewrite <- not_true_iff_false, qltb_lt. split; [apply Qnot_lt_le|apply Qle_not_lt].
Qed.

(** Equal rationals have the same representative. *)
Lemma fin_eq (p q : Q) : (p == q)%Q → fin p = fin q.
Proof. intros H. unfold fin. f_equal. now apply Qred_complete. Qed.

Lemma le_refl (a : number) : isFinite a → le a a.
Proof. destruct a; simpl; try tauto. intros _. apply Qle_refl. Qed.

Lemma le_trans (a b c : number) : le a b → le b c → le a c.
Proof.
  destruct a, b, c; simpl; try tauto. apply Qle_trans.
Qed.

(** What is at most [b] is not greater than [b]. *)
Lemma le_not_gt (a b : number) : le a b → gt a b = false.
Proof.
  unfold gt. destruct a as [| | |p], b as [| | |q]; simpl; try tauto.
  apply qltb_ge.
Qed.

Lemma max_finite (a b : number) : isFinite a → isFinite b → isFinite (max a b).
Proof.
  destruct a, b; simpl; try tauto. intros _ _. now destruct (qltb q q0).
Qed.

Lemma max_le_l (a b : number) : isFinite a → isFinite b → le a (max a b).
Proof.
  destruct a as [| | |p], b as [| | |q]; simpl; try tauto. intros _ _.
  destruct (qltb p q) eqn:E; simpl.
  - apply Qlt_le_weak. now apply qltb_lt.
  - apply Qle_refl.
Qed.

Lemma max_le_r (a b : number) : isFinite a → isFinite b → le b (max a b).
Proof.
  destruct a as [| | |p], b as [| | |q]; simpl; try tauto. intros _ _.
  destruct (qltb p q) eqn:E; simpl.
  - apply Qle_refl.
  - now apply qltb_ge.
Qed.

Lemma max_cases (a b : number) :
  isFinite a → isFinite b → max a b = a ∨ max a b = b.
Proof.
  destruct a as [| | |p], b as [| | |q]; simpl; try tauto. intros _ _.
  destruct (qltb p q); auto.
Qed.

Lemma min_cases (a b : number) :
  isFinite a → isFinite b → min a b = a ∨ min a b = b.
Proof.
  destruct a as [| | |p], b as [| | |q]; simpl; try tauto. intros _ _.
  destruct (qltb q p); auto.
Qed.

(** The running maximum over finite ends, from a finite start [m]. *)
Lemma running_max_spec (bars : list PlotData) : ∀ m,
  isFinite m → Forall (λ bar, isFinite (barEnd bar)) bars →
  let r := foldl (λ m bar, max m (barEnd bar)) m bars in
  isFinite r ∧ le m r
  ∧ Forall (λ bar, le (barEnd bar) r) bars
  ∧ (r = m ∨ ∃ bar, bar ∈ bars ∧ r = barEnd bar).
Proof.
  induction bars as [|bar bars IH]; intros m Hm Hfin; simpl.
  - repeat split; auto using le_refl.
  - inversion Hfin as [|? ? Hbar Hbars]; subst.
    destruct (IH (max m (barEnd bar)) (max_finite _ _ Hm Hbar) Hbars)
      as (Hr & Hle & Hall & Hwho).
    repeat split.
    + exact Hr.
    + apply (le_trans _ (max m (barEnd bar))); [now apply max_le_l|exact Hle].
    + constructor; [|exact Hall].
      apply (le_trans _ (max m (barEnd bar))); [now apply max_le_r|exact Hle].
    + destruct Hwho as [Heq|(b & Hb & Heq)].
      * destruct (max_cases m (barEnd bar) Hm Hbar) as [E|E].
        -- left. now rewrite Heq, E.
        -- right. exists bar. split; [left|]. now rewrite Heq, E.
      * right. exists b. split; [now right|assumption].
Qed.

(** *** Finite and non-negative numbers *)

Lemma fin_finite (q : Q) : isFinite (fin q).
Proof. exact I. Qed.

Lemma divBy_finite (a : number) (d : positive) :
  isFinite a → isFinite (divBy a d).
Proof. now destruct a. Qed.

Lemma sub_finite (a b : number) : isFinite a → isFinite b → isFinite (sub a b).
Proof. now destruct a, b. Qed.

Lemma add_finite (a b : number) : isFinite a → isFinite b → isFinite (add a b).
Proof. now destruct a, b. Qed.

Lemma round2_finite (a : number) : isFinite a → isFinite (round2 a).
Proof. now destruct a. Qed.

Lemma sub_diag (a : number) : isFinite a → sub a a = ofZ 0.
Proof.
  destruct a as [| | |q]; simpl; try tauto. intros _.
  unfold sub, neg, add, ofZ. apply fin_eq. unfold fin.
  rewrite Qred_correct. change (inject_Z 0) with 0%Q. lra.
Qed.

Lemma le_zero_Fin (q : Q) : le (ofZ 0) (Fin q) ↔ (0 <= q)%Q.
Proof. reflexivity. Qed.

Lemma le_zero_fin (q : Q) : le (ofZ 0) (fin q) ↔ (0 <= q)%Q.
Proof. unfold fin. rewrite le_zero_Fin, Qred_correct. reflexivity. Qed.

Lemma divBy_nonneg (a : number) (d : positive) :
  le (ofZ 0) a → le (ofZ 0) (divBy a d).
Proof.
  destruct a as [| | |q]; try (simpl; tauto). intros Hq. apply (proj1 (le_zero_Fin q)) in Hq.
  change (le (ofZ 0) (fin (q / inject_Z (Z.pos d)))). apply le_zero_fin.
  apply Qle_shift_div_l; [reflexivity|]. now rewrite Qmult_0_l.
Qed.

Lemma round2_nonneg (a : number) : le (ofZ 0) a → le (ofZ 0) (round2 a).
Proof.
  destruct a as [| | |q]; try (simpl; tauto). intros Hq. apply (proj1 (le_zero_Fin q)) in Hq.
  change (le (ofZ 0) (fin (inject_Z (mathRound (q * 100)) / 100))).
  apply le_zero_fin. apply Qle_shift_div_l; [reflexivity|].
  rewrite Qmult_0_l. change 0%Q with (inject_Z 0). rewrite <- Zle_Qle.
  unfold mathRound. rewrite <- (Qfloor_Z 0). apply Qfloor_resp_le.
  change (inject_Z 0) with 0%Q. lra.
Qed.

Lemma add_zero_nonneg (b : number) :
  le (ofZ 0) b → le (ofZ 0) (add (ofZ 0) b).
Proof.
  destruct b as [| | |q]; try (simpl; tauto). intros Hq. apply (proj1 (le_zero_Fin q)) in Hq.
  change (le (ofZ 0) (fin (Qred (inject_Z 0) + q))). apply le_zero_fin.
  rewrite Qred_correct. change (inject_Z 0) with 0%Q. lra.
Qed.

(** A number in lowest terms that is at most zero and at least zero is
    zero. *)
Lemma le_zero_antisym (q : Q) :
  le (fin q) (ofZ 0) → le (ofZ 0) (fin q) → fin q = ofZ 0.
Proof.
  intros H1 H2. apply (proj1 (le_zero_fin q)) in H2.
  change (Qred q <= 0)%Q in H1. rewrite Qred_correct in H1.
  apply fin_eq. change (inject_Z 0) with 0%Q. now apply Qle_antisym.
Qed.

(** [Math.min] of finite arguments, at least one, is one of them. *)
Lemma minOf_finite (l : list number) :
  l ≠ [] → Forall isFinite l → isFinite (minOf l) ∧ minOf l ∈ l.
Proof.
  induction l as [|a l IH]; intros Hne Hfin; [congruence|].
  apply Forall_cons in Hfin as [Ha Hfin]. unfold minOf. simpl.
  destruct l as [|b l].
  - simpl. destruct a; simpl in *; try tauto. split; [exact I|left].
  - destruct (IH ltac:(discriminate) Hfin) as [Hm Hin].
    fold (minOf (b :: l)).
    destruct (min_cases a (minOf (b :: l)) Ha Hm) as [-> | ->].
    + split; [exact Ha|left].
    + split; [exact Hm|now right].
Qed.

(** ** The layout as a sequence of visits *)

Section LayoutFacts.

Variable spanMap : gmap string HierarchicalSpan.
Variable mode : TraceAnalyticsMode.
Variable colorMap : gmap string string.
Variable startTimeInMs : number.

Local Abbreviation visited := (visitOk spanMap mode).
Local Abbreviation after := (chartAfter colorMap startTimeInMs).
Local Abbreviation emit := (emitSpan mode colorMap startTimeInMs).
Local Abbreviation visitSpan :=
  (processSpan spanMap mode colorMap startTimeInMs).
Local Abbreviation layout :=
  (createPlotlyData spanMap mode colorMap startTimeInMs).

Lemma chartAfter_nil acc : after acc [] = acc.
Proof. destruct acc. unfold chartAfter. simpl. now rewrite !app_nil_r. Qed.

Lemma chartAfter_app acc vs1 vs2 :
  after (after acc vs1) vs2 = after acc (vs1 ++ vs2).
Proof.
  unfold chartAfter. simpl.
  now rewrite !fmap_app, !app_assoc, foldl_app.
Qed.

Lemma emitSpan_visit acc ref span acc' :
  spanMap !! ref = Some span → emit acc span = Ok acc' →
  ∃ v, visited v ∧ v_ref v = ref ∧ v_span v = span ∧ acc' = after acc [v].
Proof.
  intros Href Hemit. unfold emitSpan in Hemit.
  apply bind_Ok in Hemit as (p & Hp & Hacc).
  exists {| v_ref := ref; v_span := span; v_fields := p |}.
  split; [split; assumption|]. do 2 (split; [reflexivity|]).
  now inversion Hacc.
Qed.

(** Every chart that [processSpan] returns is the chart it was given
    followed by the bars and labels of a sequence of visits, each of a node of
    the span map whose hit was parsed; the visits are those of the walk. *)
Lemma forEach_processSpan_visits (run : Chart → string → result Chart)
    (w : string → option (list string)) :
  (∀ acc ref acc', run acc ref = Ok acc' →
     ∃ vs, w ref = Some (v_ref <$> vs) ∧ Forall visited vs
           ∧ acc' = after acc vs) →
  ∀ l acc acc', forEach run l acc = Ok acc' →
  ∃ vs, walkEach w l = Some (v_ref <$> vs) ∧ Forall visited vs
        ∧ acc' = after acc vs.
Proof.
  intros Hrun. induction l as [|c l IHl]; intros acc acc' Hl; simpl in Hl.
  - exists []. inversion Hl. split; [reflexivity|].
    split; [constructor|]. now rewrite chartAfter_nil.
  - apply bind_Ok in Hl as (acc1 & Hc & Hl).
    apply Hrun in Hc as (vs1 & Hw1 & Hvs1 & ->).
    apply IHl in Hl as (vs2 & Hw2 & Hvs2 & ->).
    exists (vs1 ++ vs2). simpl. rewrite Hw1, Hw2, fmap_app.
    split; [reflexivity|]. split; [now apply Forall_app|].
    now rewrite chartAfter_app.
Qed.

Lemma processSpan_visits fuel : ∀ acc ref acc',
  visitSpan fuel acc ref = Ok acc' →
  ∃ vs, walk spanMap fuel ref = Some (v_ref <$> vs) ∧ Forall visited vs
        ∧ acc' = after acc vs.
Proof.
  induction fuel as [|fuel IH]; intros acc ref acc' Hrun; simpl in Hrun.
  - discriminate.
  - simpl. destruct (spanMap !! ref) as [span|] eqn:Hspan; [|discriminate].
    apply bind_Ok in Hrun as (acc1 & Hemit & Hrest).
    destruct (emitSpan_visit _ _ _ _ Hspan Hemit) as (v & Hv & Hr & _ & ->).
    apply (forEach_processSpan_visits _ _ IH) in Hrest
      as (vs & Hw & Hvs & ->).
    exists (v :: vs). rewrite Hw. simpl. rewrite Hr.
    split; [reflexivity|]. split; [now constructor|].
    now rewrite chartAfter_app.
Qed.

Lemma createPlotlyData_visits fuel spans chart :
  layout fuel spans = Ok chart →
  ∃ vs, walkAll spanMap fuel spans = Some (v_ref <$> vs) ∧ Forall visited vs
        ∧ chart = after emptyChart vs.
Proof.
  unfold createPlotlyData, walkAll. fold emptyChart. intros H.
  apply (forEach_processSpan_visits _ _ (processSpan_visits fuel)) in H.
  exact H.
Qed.

(** Conversely, the layout returns when the walk does and the hits of the
    nodes on its way are parsed. *)
Lemma forEach_processSpan_returns (run : Chart → string → result Chart)
    (w : string → option (list string)) (parsed : string → Prop) :
  (∀ acc ref ks, w ref = Some ks → Forall parsed ks →
     ∃ acc', run acc ref = Ok acc') →
  (∀ acc ref acc', run acc ref = Ok acc' →
     ∃ vs, w ref = Some (v_ref <$> vs) ∧ Forall visited vs
           ∧ acc' = after acc vs) →
  ∀ l acc ks, walkEach w l = Some ks → Forall parsed ks →
  ∃ acc', forEach run l acc = Ok acc'.
Proof.
  intros Hret Hvis. induction l as [|c l IHl]; intros acc ks Hw Hks;
    simpl in *.
  - eauto.
  - destruct (w c) as [k1|] eqn:Hc; [|discriminate].
    destruct (walkEach w l) as [k2|] eqn:Hl; [|discriminate].
    inversion Hw; subst ks. apply Forall_app in Hks as [Hk1 Hk2].
    destruct (Hret acc c k1 Hc Hk1) as (acc1 & Hacc1). rewrite Hacc1. simpl.
    eapply IHl; eauto.
Qed.

Lemma processSpan_returns fuel : ∀ acc ref ks,
  walk spanMap fuel ref = Some ks → Forall (parsedAt spanMap mode) ks →
  ∃ acc', visitSpan fuel acc ref = Ok acc'.
Proof.
  induction fuel as [|fuel IH]; intros acc ref ks Hw Hks; simpl in *.
  - discriminate.
  - destruct (spanMap !! ref) as [span|] eqn:Hspan; [|discriminate].
    destruct (walkEach _ _) as [rest|] eqn:Hrest; [|discriminate].
    inversion Hw; subst ks. apply Forall_cons in Hks as [Href Hks].
    destruct (Href span Hspan) as (p & Hp).
    unfold emitSpan. rewrite Hp. simpl.
    eapply forEach_processSpan_returns; eauto using processSpan_visits.
Qed.

Lemma createPlotlyData_returns fuel spans ks :
  walkAll spanMap fuel spans = Some ks → Forall (parsedAt spanMap mode) ks →
  ∃ chart, layout fuel spans = Ok chart.
Proof.
  unfold createPlotlyData, walkAll. intros Hw Hks.
  eapply forEach_processSpan_returns;
    eauto using processSpan_visits, processSpan_returns.
Qed.

(** The chart that [createPlotlyData] returns, field by field. *)
Lemma createPlotlyData_chart fuel spans chart :
  layout fuel spans = Ok chart →
  ∃ vs, walkAll spanMap fuel spans = Some (v_ref <$> vs)
    ∧ Forall visited vs
    ∧ data chart = visitBar colorMap startTimeInMs <$> vs
    ∧ annotations chart = visitLabel startTimeInMs <$> vs
    ∧ maxX chart = maxEnd (data chart).
Proof.
  intros H. apply createPlotlyData_visits in H as (vs & Hw & Hvs & ->).
  exists vs. split; [exact Hw|]. split; [exact Hvs|].
  do 2 (split; [reflexivity|]).
  unfold maxEnd, chartAfter, emptyChart, data, maxX.
  now rewrite app_nil_l, foldl_fmap.
Qed.

End LayoutFacts.

(** ** The panel *)

(** What [loadHits] stores is what the layout returned for the roots of the
    hierarchy and the earliest start among these roots. *)
Lemma loadHits_chart parseIsoToNano fuel hits mode colorMap st st' :
  loadHits parseIsoToNano fuel hits mode colorMap st = Ok st' →
  let h := hitsToHierarchicalSpans parseIsoToNano hits mode in
  let startTimeInMs :=
    minOf ((λ ref, nanoToMilliSec (startOf (spanMap h) ref))
             <$> rootSpans h) in
  ∃ chart,
    createPlotlyData (spanMap h) mode colorMap startTimeInMs fuel (rootSpans h)
      = Ok chart
    ∧ gantt st' = data chart
    ∧ ganttAnnotations st' = annotations chart
    ∧ ganttMax st' = maxX chart
    ∧ selectedRange st' = (ofZ 0, mul (maxX chart) (fin (11 # 10))).
Proof.
  unfold loadHits. intros H.
  destruct (thrown (hitsToHierarchicalSpans parseIsoToNano hits mode));
    [discriminate|].
  apply bind_Ok in H as (chart & Hchart & Hst).
  exists chart. inversion Hst. simpl. auto.
Qed.

(** A payload is loaded only when the hierarchy builder returned. *)
Lemma loadHits_built parseIsoToNano fuel hits mode colorMap st st' :
  loadHits parseIsoToNano fuel hits mode colorMap st = Ok st' →
  thrown (hitsToHierarchicalSpans parseIsoToNano hits mode) = false.
Proof.
  unfold loadHits.
  now destruct (thrown (hitsToHierarchicalSpans parseIsoToNano hits mode)).
Qed.

(** What [loadHits] does when the hierarchy builder returned. *)
Lemma loadHits_unthrown parseIsoToNano fuel hits mode colorMap st :
  thrown (hitsToHierarchicalSpans parseIsoToNano hits mode) = false →
  loadHits parseIsoToNano fuel hits mode colorMap st
  = chart ← createPlotlyData
              (spanMap (hitsToHierarchicalSpans parseIsoToNano hits mode))
              mode colorMap
              (minOf ((λ ref, nanoToMilliSec
                                (startOf
                                   (spanMap (hitsToHierarchicalSpans
                                               parseIsoToNano hits mode)) ref))
                        <$> rootSpans (hitsToHierarchicalSpans
                                         parseIsoToNano hits mode)))
              fuel
              (rootSpans (hitsToHierarchicalSpans parseIsoToNano hits mode));
    Ok {| gantt := data chart; ganttAnnotations := annotations chart;
          ganttMax := maxX chart;
          selectedRange := (ofZ 0, mul (maxX chart) (fin (11 # 10))) |}.
Proof. unfold loadHits. now intros ->. Qed.

(** The labels shown for a state in which label [i] belongs to bar [i]. *)
Lemma layoutAnnotationsFrom_aligned (st : PanelState) :
  ∀ (anns : list Annotation) (i : nat),
  (∀ j a, anns !! j = Some a →
     ∃ bar, gantt st !! (i + j) = Some bar ∧ an_y a = pd_y bar) →
  ∃ shown,
    layoutAnnotationsFrom st i anns = Ok shown
    ∧ length shown = length anns
    ∧ ∀ j a bar a',
        anns !! j = Some a → gantt st !! (i + j) = Some bar →
        shown !! j = Some a' →
        an_y a' = an_y a ∧ text a' = text a
        ∧ an_x a' =
            if lt (an_x a) (selectedRange st).1
               && gt (barEnd bar) (selectedRange st).1
            then (selectedRange st).1 else an_x a.
Proof.
  induction anns as [|a anns IH]; intros i Hal; simpl.
  - exists []. do 2 (split; [reflexivity|]).
    intros j ? ? ? Hj. destruct j; discriminate.
  - destruct (Hal 0 a eq_refl) as (bar & Hbar & Hy).
    rewrite Nat.add_0_r in Hbar.
    destruct (IH (S i)) as (rest & Hrest & Hlen & Hprop).
    { intros j a' Hj. destruct (Hal (S j) a' Hj) as (b & Hb & ?).
      exists b. now rewrite Nat.add_succ_comm. }
    assert (Hnx : normalizedX st i a =
      Ok (if lt (an_x a) (selectedRange st).1
             && gt (barEnd bar) (selectedRange st).1
          then (selectedRange st).1 else an_x a)).
    { unfold normalizedX. rewrite Hbar.
      destruct (lt (an_x a) (selectedRange st).1); simpl; [|reflexivity].
      rewrite bool_decide_eq_true_2 by assumption. simpl.
      unfold barEnd. now destruct (gt _ _). }
    rewrite Hnx. simpl. rewrite Hrest. simpl. eexists. split; [reflexivity|].
    split; [simpl; now rewrite Hlen|].
    intros [|j] a1 bar1 a1' Ha1 Hbar1 Ha1'; simpl in *.
    + rewrite Nat.add_0_r in Hbar1. simplify_eq. simpl. auto.
    + rewrite <- Nat.add_succ_comm in Hbar1. eauto.
Qed.

(** ** The hierarchy builder *)

Lemma filter_one {A} (P : A → Prop) `{∀ a, Decision (P a)} (a : A) :
  filter P [a] = if decide (P a) then [a] else [].
Proof. apply (filter_singleton P a []). Qed.

Lemma addChildren_nil (n : HierarchicalSpan) : addChildren [] n = n.
Proof. destruct n. unfold addChildren. simpl. now rewrite app_nil_r. Qed.

Lemma addChildren_app (l1 l2 : list string) (n : HierarchicalSpan) :
  addChildren l2 (addChildren l1 n) = addChildren (l1 ++ l2) n.
Proof. unfold addChildren. simpl. now rewrite app_assoc. Qed.

Lemma addChildren_nil_fmap (o : option HierarchicalSpan) :
  addChildren [] <$> o = o.
Proof. destruct o; simpl; [|reflexivity]. now rewrite addChildren_nil. Qed.

Lemma addChildren_app_fmap (l1 l2 : list string) (o : option HierarchicalSpan) :
  addChildren l2 <$> (addChildren l1 <$> o) = addChildren (l1 ++ l2) <$> o.
Proof. destruct o; simpl; [|reflexivity]. now rewrite addChildren_app. Qed.

Lemma pushChild_lookup (p c k : string) (m : gmap string HierarchicalSpan) :
  pushChild p c m !! k
  = addChildren (if decide (p = k) then [c] else []) <$> m !! k.
Proof.
  unfold pushChild. rewrite lookup_alter. destruct (decide (p = k)) as [->|].
  - reflexivity.
  - now rewrite addChildren_nil_fmap.
Qed.

Lemma addRootSpan_spanMap sid st : spanMap (addRootSpan sid st) = spanMap st.
Proof. unfold addRootSpan. now destruct (decide _). Qed.

Lemma addRootSpan_prototypeChildren sid st :
  prototypeChildren (addRootSpan sid st) = prototypeChildren st.
Proof. unfold addRootSpan. now destruct (decide _). Qed.

Lemma addRootSpan_thrown sid st : thrown (addRootSpan sid st) = thrown st.
Proof. unfold addRootSpan. now destruct (decide _). Qed.

Lemma addRootSpan_idempotent sid st :
  addRootSpan sid (addRootSpan sid st) = addRootSpan sid st.
Proof.
  unfold addRootSpan.
  destruct (decide (sid ∈ alreadyAddedRootSpans st)) as [Hin|Hout]; simpl.
  - now rewrite decide_True.
  - rewrite decide_True; [reflexivity|set_solver].
Qed.

(** [addRootSpan] reads and writes the root part only. *)
Lemma addRootSpan_rootPart sid st1 st2 :
  rootPart st1 = rootPart st2 →
  rootPart (addRootSpan sid st1) = rootPart (addRootSpan sid st2).
Proof.
  unfold rootPart, addRootSpan. intros [= Hr Ha]. rewrite Ha.
  destruct (decide _); simpl; congruence.
Qed.

Lemma existsb_same {A} (f g : A → bool) (l : list A) :
  (∀ a, f a = g a) → existsb f l = existsb g l.
Proof.
  intros H. induction l as [|a l IH]; [reflexivity|]. simpl.
  now rewrite H, IH.
Qed.

(** *** Lookups in the span map *)

Lemma sameNodes_is_Some (m1 m2 : gmap string HierarchicalSpan) (k : string) :
  sameNodes m1 m2 → is_Some (m1 !! k) ↔ is_Some (m2 !! k).
Proof.
  intros H. rewrite <- (fmap_is_Some startTimeInNanos (m1 !! k)), (H k).
  apply fmap_is_Some.
Qed.

Lemma sameNodes_children (m m0 : gmap string HierarchicalSpan)
    (c : string → list string) :
  (∀ k, m !! k = addChildren (c k) <$> m0 !! k) → sameNodes m m0.
Proof. intros H k. rewrite H. now destruct (m0 !! k). Qed.

Lemma sameNodes_refl (m : gmap string HierarchicalSpan) : sameNodes m m.
Proof. now intros k. Qed.

(** A lookup finds a node exactly under the keys of the map. *)
Lemma lookupProperty_span (m : gmap string HierarchicalSpan) (b : bool)
    (k : string) :
  lookupProperty m b k = FoundSpan ↔ is_Some (m !! k).
Proof.
  unfold lookupProperty. destruct (m !! k) as [n|]; [split; eauto|].
  split; [|intros [? ?]; discriminate].
  unfold nodeField, objectPrototypeField.
  repeat case_match; discriminate.
Qed.

Lemma truthyFound_span (m : gmap string HierarchicalSpan) (b : bool)
    (k : string) :
  is_Some (m !! k) → truthyFound (lookupProperty m b k) = true.
Proof. intros H. apply (lookupProperty_span m b) in H. now rewrite H. Qed.

(** A lookup reads the keys of the map and the start time of its prototype
    only. *)
Lemma lookupProperty_same (m1 m2 : gmap string HierarchicalSpan) (b : bool)
    (k : string) :
  sameNodes m1 m2 → lookupProperty m1 b k = lookupProperty m2 b k.
Proof.
  intros H. unfold lookupProperty.
  pose proof (H k) as Hk. pose proof (H "__proto__") as Hp.
  destruct (m1 !! k), (m2 !! k); try discriminate; [reflexivity|].
  destruct (bool_decide _); [reflexivity|].
  destruct (m1 !! "__proto__") as [p1|], (m2 !! "__proto__") as [p2|];
    try discriminate; [|reflexivity].
  simpl in Hp. injection Hp as Hp. unfold nodeField. now rewrite Hp.
Qed.

(** [Object.prototype] is found under [__proto__] alone, when no node is
    the prototype. *)
Lemma foundPrototype_iff (m : gmap string HierarchicalSpan) (b : bool)
    (k : string) :
  foundPrototype (lookupProperty m b k) = true
  ↔ k = "__proto__" ∧ m !! "__proto__" = None.
Proof.
  unfold lookupProperty. destruct (m !! k) as [n|] eqn:Hk.
  - simpl. split; [discriminate|]. intros [-> Hn]. congruence.
  - case_bool_decide as Hp.
    + subst k. simpl. split; auto.
    + unfold nodeField, objectPrototypeField.
      repeat case_match; simpl;
        (split; [discriminate|intros [? _]; contradiction]).
Qed.

(** A number is found only when a node is the prototype. *)
Lemma foundNumber_prototype (m : gmap string HierarchicalSpan) (b : bool)
    (k : string) :
  foundNumber (lookupProperty m b k) = true → is_Some (m !! "__proto__").
Proof.
  unfold lookupProperty. destruct (m !! k) as [n|]; [discriminate|].
  case_bool_decide; [discriminate|].
  destruct (m !! "__proto__") as [p|]; [eauto|].
  unfold objectPrototypeField. repeat case_match; discriminate.
Qed.

Lemma foundPrototype_polluted (m : gmap string HierarchicalSpan) (b : bool)
    (k : string) :
  foundPrototype (lookupProperty m b k)
  = foundPrototype (lookupProperty m false k).
Proof.
  unfold lookupProperty. destruct (m !! k) as [n|]; [reflexivity|].
  case_bool_decide; [reflexivity|].
  unfold nodeField, objectPrototypeField. repeat case_match; reflexivity.
Qed.

Lemma foundNumber_polluted (m : gmap string HierarchicalSpan) (b : bool)
    (k : string) :
  foundNumber (lookupProperty m b k) = foundNumber (lookupProperty m false k).
Proof.
  unfold lookupProperty. destruct (m !! k) as [n|]; [reflexivity|].
  case_bool_decide; [reflexivity|].
  unfold nodeField, objectPrototypeField.
  repeat case_match; simplify_eq; reflexivity.
Qed.

(** What is found before [Object.prototype] has a property [children] is
    found afterwards. *)
Lemma truthyFound_polluted (m : gmap string HierarchicalSpan) (b : bool)
    (k : string) :
  truthyFound (lookupProperty m false k) = true →
  truthyFound (lookupProperty m b k) = true.
Proof.
  unfold lookupProperty. destruct (m !! k) as [n|]; [auto|].
  case_bool_decide; [auto|].
  unfold nodeField, objectPrototypeField.
  repeat case_match; simplify_eq; simpl; auto; discriminate.
Qed.

Lemma foundPrototype_truthy (f : Found) :
  foundPrototype f = true → truthyFound f = true.
Proof. now destruct f. Qed.

Lemma foundNumber_truthy (f : Found) :
  foundNumber f = true → truthyFound f = true.
Proof. now destruct f. Qed.

(** *** What the second pass does with what it found *)

Lemma ensureChildren_spanMap f st : spanMap (ensureChildren f st) = spanMap st.
Proof. unfold ensureChildren, throwTypeError. now repeat case_match. Qed.

Lemma ensureChildren_rootPart f st :
  rootPart (ensureChildren f st) = rootPart st.
Proof. unfold ensureChildren, throwTypeError. now repeat case_match. Qed.

Lemma ensureChildren_prototypeChildren f st :
  prototypeChildren (ensureChildren f st)
  = prototypeChildren st || foundPrototype f.
Proof.
  unfold ensureChildren, throwTypeError.
  repeat case_match; simpl; now rewrite ?orb_false_r, ?orb_true_r.
Qed.

Lemma ensureChildren_thrown f st :
  truthyFound f = true →
  thrown (ensureChildren f st)
  = thrown st || (foundNumber f && negb (prototypeChildren st)).
Proof.
  unfold ensureChildren, throwTypeError. intros Hf.
  destruct f; simpl in *; try discriminate; rewrite ?orb_false_r; try reflexivity.
  rewrite Hf. destruct (prototypeChildren st); simpl;
    now rewrite ?orb_false_r, ?orb_true_r.
Qed.

Lemma pushTo_spanMap p f c st :
  spanMap (pushTo p f c st)
  = match f with
    | FoundSpan => pushChild p c (spanMap st)
    | _ => spanMap st
    end.
Proof. now destruct f. Qed.

Lemma pushTo_rootPart p f c st : rootPart (pushTo p f c st) = rootPart st.
Proof. now destruct f. Qed.

Lemma pushTo_prototypeChildren p f c st :
  prototypeChildren (pushTo p f c st) = prototypeChildren st.
Proof. now destruct f. Qed.

Lemma pushTo_thrown p f c st : thrown (pushTo p f c st) = thrown st.
Proof. now destruct f. Qed.

Section BuilderFacts.

Variable parseIsoToNano : option StartTime → number.
Variable mode : TraceAnalyticsMode.

Local Abbreviation key := (keyOf mode).

(** The notions of the previous section read the map through its keys and
    the start times of its nodes only. *)
Lemma parentsOf_dom (m1 m2 : gmap string HierarchicalSpan) hit :
  sameNodes m1 m2 → parentsOf mode m1 hit = parentsOf mode m2 hit.
Proof.
  intros Hdom. unfold parentsOf. destruct (isJaeger mode).
  - f_equal. apply list_filter_iff. intros ref. unfold resolvableChildOf.
    now rewrite (sameNodes_is_Some m1 m2).
  - now rewrite (bool_decide_ext _ _
                   (sameNodes_is_Some m1 m2
                      (propKey (parentSpanId (_source hit))) Hdom)).
Qed.

Lemma registersRootIn_dom (m1 m2 : gmap string HierarchicalSpan) b hit :
  sameNodes m1 m2 →
  registersRootIn mode m1 b hit = registersRootIn mode m2 b hit.
Proof.
  intros Hdom. unfold registersRootIn. destruct (isJaeger mode); [reflexivity|].
  now rewrite (lookupProperty_same m1 m2).
Qed.

Lemma attachedTo_dom (m1 m2 : gmap string HierarchicalSpan) k hit :
  sameNodes m1 m2 → attachedTo mode m1 k hit = attachedTo mode m2 k hit.
Proof. intros Hdom. unfold attachedTo. now rewrite (parentsOf_dom m1 m2). Qed.

Lemma findsPrototype_dom (m1 m2 : gmap string HierarchicalSpan) hit :
  sameNodes m1 m2 → findsPrototype mode m1 hit = findsPrototype mode m2 hit.
Proof.
  intros Hdom. unfold findsPrototype. apply existsb_same. intros k.
  now rewrite (lookupProperty_same m1 m2).
Qed.

Lemma findsNumber_dom (m1 m2 : gmap string HierarchicalSpan) hit :
  sameNodes m1 m2 → findsNumber mode m1 hit = findsNumber mode m2 hit.
Proof.
  intros Hdom. unfold findsNumber. apply existsb_same. intros k.
  now rewrite (lookupProperty_same m1 m2).
Qed.

(** A hit that registers as a root when [Object.prototype] has the property
    [children] does so when it has not. *)
Lemma registersRootIn_registersRoot (m0 : gmap string HierarchicalSpan) b hit :
  registersRootIn mode m0 b hit = true → registersRoot mode m0 hit = true.
Proof.
  unfold registersRoot, registersRootIn. destruct (isJaeger mode); [auto|].
  intros [Hp Hid]%andb_true_iff. rewrite Hid, andb_true_r.
  apply negb_true_iff in Hp. apply negb_true_iff.
  apply andb_false_iff in Hp as [Hp|Hp]; [now rewrite Hp|].
  apply andb_false_iff. right.
  destruct (truthyFound (lookupProperty m0 false _)) eqn:E; [|reflexivity].
  now rewrite (truthyFound_polluted m0 b _ E) in Hp.
Qed.

Lemma registersRootIn_jaeger (m0 : gmap string HierarchicalSpan) b hit :
  isJaeger mode = true →
  registersRootIn mode m0 b hit = registersRoot mode m0 hit.
Proof. intros H. unfold registersRoot, registersRootIn. now rewrite H. Qed.

Lemma findsPrototype_prototype (m0 : gmap string HierarchicalSpan) hit :
  findsPrototype mode m0 hit = true → m0 !! "__proto__" = None.
Proof.
  unfold findsPrototype. intros (k & _ & Hk)%existsb_exists.
  now apply foundPrototype_iff in Hk as [_ Hk].
Qed.

Lemma findsNumber_prototype (m0 : gmap string HierarchicalSpan) hit :
  findsNumber mode m0 hit = true → is_Some (m0 !! "__proto__").
Proof.
  unfold findsNumber. intros (k & _ & Hk)%existsb_exists.
  now apply foundNumber_prototype in Hk.
Qed.

(** *** The references of one jaeger hit *)

Local Abbreviation childOfTargets :=
  (λ refs : list SpanReference,
     ref_spanID <$> filter (λ r, refType r = CHILD_OF) refs).

Lemma linkReference_spec (sid : option string) (st : Hierarchy)
    (ref : SpanReference) :
  let st' := linkReference sid st ref in
  (∀ k, spanMap st' !! k
        = addChildren
            ((λ _, propKey sid) <$>
               filter (λ p, p = k)
                 (ref_spanID <$> filter (resolvableChildOf (spanMap st)) [ref]))
          <$> spanMap st !! k)
  ∧ rootPart st'
    = rootPart (if isFollowsFrom ref then addRootSpan sid st else st)
  ∧ prototypeChildren st'
    = prototypeChildren st
      || existsb (λ k, foundPrototype (lookupProperty (spanMap st) false k))
           (childOfTargets [ref])
  ∧ ((prototypeChildren st = true → spanMap st !! "__proto__" = None) →
     thrown st'
     = thrown st
       || existsb (λ k, foundNumber (lookupProperty (spanMap st) false k))
            (childOfTargets [ref])).
Proof.
  unfold linkReference, isFollowsFrom, getProperty. rewrite !filter_one.
  unfold resolvableChildOf at 1.
  destruct ref as [[] target]; simpl.
  - (* CHILD_OF *)
    rewrite !orb_false_r.
    rewrite <- (foundPrototype_polluted (spanMap st) (prototypeChildren st)).
    rewrite <- (foundNumber_polluted (spanMap st) (prototypeChildren st)).
    pose proof (lookupProperty_span (spanMap st) (prototypeChildren st) target)
      as Hspan.
    pose proof (foundNumber_prototype (spanMap st) (prototypeChildren st)
                  target) as Hnum.
    destruct (lookupProperty (spanMap st) (prototypeChildren st) target)
      as [|v| | |] eqn:Hf; simpl.
    + (* a node *)
      rewrite decide_True by (split; [reflexivity|now apply Hspan]).
      rewrite !orb_false_r.
      split; [|split; [reflexivity|split; [reflexivity|reflexivity]]].
      intros k. rewrite pushChild_lookup. simpl. rewrite filter_one.
      now destruct (decide (target = k)).
    + (* a number *)
      rewrite decide_False
        by (intros [_ H]; apply Hspan in H; discriminate).
      destruct (truthyNumber v) eqn:Hv; simpl.
      * destruct (prototypeChildren st) eqn:Hp; simpl.
        -- split; [intros k; now rewrite addChildren_nil_fmap|].
           split; [reflexivity|]. split; [exact Hp|]. intros Hinv.
           destruct (Hnum Hv) as [p Hp']. rewrite (Hinv eq_refl) in Hp'.
           discriminate.
        -- split; [intros k; now rewrite addChildren_nil_fmap|].
           split; [reflexivity|]. split; [exact Hp|].
           intros _. now rewrite orb_true_r.
      * rewrite !orb_false_r.
        split; [intros k; now rewrite addChildren_nil_fmap|]. auto.
    + (* Object.prototype *)
      rewrite decide_False
        by (intros [_ H]; apply Hspan in H; discriminate).
      rewrite orb_false_r, orb_true_r.
      split; [intros k; now rewrite addChildren_nil_fmap|]. auto.
    + (* another object *)
      rewrite decide_False
        by (intros [_ H]; apply Hspan in H; discriminate).
      rewrite !orb_false_r.
      split; [intros k; now rewrite addChildren_nil_fmap|]. auto.
    + (* nothing *)
      rewrite decide_False
        by (intros [_ H]; apply Hspan in H; discriminate).
      rewrite !orb_false_r.
      split; [intros k; now rewrite addChildren_nil_fmap|]. auto.
  - (* FOLLOWS_FROM *)
    rewrite !orb_false_r.
    split; [|split; [|split]].
    + intros k. rewrite addChildren_nil_fmap.
      destruct (decide _); [reflexivity|now rewrite addRootSpan_spanMap].
    + destruct (decide (sid ∈ alreadyAddedRootSpans st)) as [Hin|Hout];
        [|reflexivity].
      unfold addRootSpan. now rewrite decide_True.
    + destruct (decide _); [reflexivity|apply addRootSpan_prototypeChildren].
    + intros _. destruct (decide _); [reflexivity|apply addRootSpan_thrown].
Qed.

Lemma linkReference_dom sid st ref k :
  is_Some (spanMap (linkReference sid st ref) !! k) ↔ is_Some (spanMap st !! k).
Proof.
  destruct (linkReference_spec sid st ref) as [Hmap _]. rewrite Hmap.
  now rewrite fmap_is_Some.
Qed.

Lemma foldl_linkReference_spec (sid : option string) (refs : list SpanReference)
    (st : Hierarchy) :
  let st' := foldl (linkReference sid) st refs in
  (∀ k, spanMap st' !! k
        = addChildren
            ((λ _, propKey sid) <$>
               filter (λ p, p = k)
                 (ref_spanID <$> filter (resolvableChildOf (spanMap st)) refs))
          <$> spanMap st !! k)
  ∧ rootPart st'
    = rootPart (if existsb isFollowsFrom refs then addRootSpan sid st else st)
  ∧ prototypeChildren st'
    = prototypeChildren st
      || existsb (λ k, foundPrototype (lookupProperty (spanMap st) false k))
           (childOfTargets refs)
  ∧ ((prototypeChildren st = true → spanMap st !! "__proto__" = None) →
     thrown st'
     = thrown st
       || existsb (λ k, foundNumber (lookupProperty (spanMap st) false k))
            (childOfTargets refs)).
Proof.
  induction refs as [|ref refs IH] using rev_ind; simpl.
  - rewrite !orb_false_r. split; [|auto].
    intros k. now rewrite addChildren_nil_fmap.
  - rewrite foldl_app. simpl. destruct IH as (IHmap & IHroot & IHp & IHt).
    set (st1 := foldl (linkReference sid) st refs) in *.
    destruct (linkReference_spec sid st1 ref) as (Hmap & Hroot & Hp & Ht).
    assert (Hsame : sameNodes (spanMap st1) (spanMap st))
      by exact (sameNodes_children _ _ _ IHmap).
    assert (Hfound : ∀ b k, lookupProperty (spanMap st1) b k
                            = lookupProperty (spanMap st) b k)
      by (intros b k; now apply lookupProperty_same).
    split; [|split; [|split]].
    + assert (Hf : ∀ l : list SpanReference,
                filter (resolvableChildOf (spanMap st1)) l
                        = filter (resolvableChildOf (spanMap st)) l).
      { intros l. apply list_filter_iff. intros r. unfold resolvableChildOf.
        now rewrite (sameNodes_is_Some _ _ _ Hsame). }
      intros k. rewrite Hmap, IHmap, addChildren_app_fmap, Hf.
      now rewrite filter_app, fmap_app, filter_app, fmap_app.
    + rewrite Hroot, existsb_app. simpl. rewrite orb_false_r.
      destruct (isFollowsFrom ref).
      * rewrite orb_true_r.
        destruct (existsb isFollowsFrom refs).
        -- rewrite (addRootSpan_rootPart sid st1 (addRootSpan sid st) IHroot).
           now rewrite addRootSpan_idempotent.
        -- now apply addRootSpan_rootPart.
      * now rewrite orb_false_r.
    + rewrite Hp, IHp, filter_app, fmap_app, existsb_app, <- orb_assoc.
      do 2 f_equal. apply existsb_same. intros k. now rewrite Hfound.
    + intros Hinv. rewrite Ht.
      * rewrite (IHt Hinv), filter_app, fmap_app, existsb_app, <- orb_assoc.
        do 2 f_equal. apply existsb_same. intros k. now rewrite Hfound.
      * intros Hpol. rewrite IHmap.
        rewrite IHp in Hpol. apply orb_true_iff in Hpol as [Hpol|Hpol].
        -- now rewrite (Hinv Hpol).
        -- apply existsb_exists in Hpol as (k & _ & Hk).
           apply foundPrototype_iff in Hk as [_ Hk]. now rewrite Hk.
Qed.

(** *** One hit *)

Lemma linkNames_jaeger (hit : ParsedHit) :
  isJaeger mode = true →
  linkNames mode hit
  = childOfTargets (default [] (references (_source hit))).
Proof. intros H. unfold linkNames. now rewrite H. Qed.

Lemma linkHit_spec (st : Hierarchy) (hit : ParsedHit) :
  is_Some (spanMap st !! key hit) →
  let st' := linkHit mode st hit in
  (∀ k, spanMap st' !! k
        = addChildren (attachedTo mode (spanMap st) k hit) <$> spanMap st !! k)
  ∧ rootPart st'
    = rootPart (if registersRootIn mode (spanMap st) (prototypeChildren st) hit
                then addRootSpan (spanIdOf mode hit) st else st)
  ∧ prototypeChildren st'
    = prototypeChildren st || findsPrototype mode (spanMap st) hit
  ∧ ((prototypeChildren st = true → spanMap st !! "__proto__" = None) →
     thrown st' = thrown st || findsNumber mode (spanMap st) hit).
Proof.
  intros Hkey. unfold linkHit, attachedTo, parentsOf, registersRootIn,
    findsPrototype, findsNumber, linkNames, keyOf, spanIdOf in *.
  destruct (isJaeger mode) eqn:Hmode.
  - set (refs := default [] (references (_source hit))).
    destruct (foldl_linkReference_spec (spanID (_source hit)) refs st)
      as (Hmap & Hroot & Hp & Ht).
    set (st1 := foldl (linkReference (spanID (_source hit))) st refs) in *.
    assert (Hall : forallb isFollowsFrom refs = true →
                   bool_decide (refs = []) || existsb isFollowsFrom refs = true).
    { destruct refs as [|r refs']; [reflexivity|]. simpl.
      intros [-> _]%andb_true_iff. reflexivity. }
    assert (Hlen : bool_decide (length refs = 0) = bool_decide (refs = [])).
    { apply bool_decide_ext. now destruct refs. }
    rewrite Hlen.
    destruct (bool_decide (refs = []) || forallb isFollowsFrom refs) eqn:Hroots.
    + assert (Hreg : bool_decide (refs = []) || existsb isFollowsFrom refs
                     = true).
      { apply orb_true_iff in Hroots as [H|H]; [now rewrite H|now apply Hall]. }
      rewrite Hreg. split; [|split; [|split]].
      * intros k. now rewrite addRootSpan_spanMap, Hmap.
      * rewrite (addRootSpan_rootPart _ st1 _ Hroot).
        destruct (existsb isFollowsFrom refs);
          [now rewrite addRootSpan_idempotent|reflexivity].
      * now rewrite addRootSpan_prototypeChildren.
      * intros Hinv. now rewrite addRootSpan_thrown, (Ht Hinv).
    + apply orb_false_iff in Hroots as [Hnil _]. rewrite Hnil. simpl.
      split; [exact Hmap|]. split; [exact Hroot|]. split; [exact Hp|exact Ht].
  - unfold getProperty.
    set (pk := propKey (parentSpanId (_source hit))).
    pose proof (lookupProperty_span (spanMap st) (prototypeChildren st) pk)
      as Hspan.
    pose proof (foundPrototype_polluted (spanMap st) (prototypeChildren st) pk)
      as Hproto.
    pose proof (foundNumber_polluted (spanMap st) (prototypeChildren st) pk)
      as Hnumber.
    pose proof (foundNumber_prototype (spanMap st) (prototypeChildren st) pk)
      as Hnum.
    assert (Hid : ∀ st1, spanMap st1 = spanMap st →
              truthyFound (lookupProperty (spanMap st1) (prototypeChildren st1)
                             (propKey (spanId (_source hit)))) = true).
    { intros st1 ->. now apply truthyFound_span. }
    destruct (truthy (parentSpanId (_source hit))) eqn:Hparent; simpl.
    + rewrite !orb_false_r, <- Hproto, <- Hnumber.
      destruct (truthyFound (lookupProperty (spanMap st) (prototypeChildren st)
                               pk)) eqn:Hfound; simpl.
      * rewrite (Hid _ (ensureChildren_spanMap _ st)).
        rewrite pushTo_rootPart, ensureChildren_rootPart,
          pushTo_prototypeChildren, pushTo_thrown,
          ensureChildren_prototypeChildren,
          (ensureChildren_thrown _ st Hfound), pushTo_spanMap,
          ensureChildren_spanMap.
        split; [|split; [reflexivity|split; [reflexivity|]]].
        -- intros k.
           destruct (lookupProperty (spanMap st) (prototypeChildren st) pk)
             eqn:Hf.
           ++ rewrite bool_decide_eq_true_2 by now apply Hspan.
              rewrite pushChild_lookup, filter_one.
              now destruct (decide _).
           ++ rewrite bool_decide_eq_false_2
                by (intros H; apply Hspan in H; discriminate).
              now rewrite addChildren_nil_fmap.
           ++ rewrite bool_decide_eq_false_2
                by (intros H; apply Hspan in H; discriminate).
              now rewrite addChildren_nil_fmap.
           ++ rewrite bool_decide_eq_false_2
                by (intros H; apply Hspan in H; discriminate).
              now rewrite addChildren_nil_fmap.
           ++ discriminate.
        -- intros Hinv. f_equal.
           destruct (foundNumber _) eqn:E; [|reflexivity]. simpl.
           destruct (prototypeChildren st) eqn:Hp; [|reflexivity].
           destruct (Hnum eq_refl) as [p Hp']. rewrite (Hinv eq_refl) in Hp'.
           discriminate.
      * assert (Hno : ¬ is_Some (spanMap st !! pk)).
        { intros H. apply Hspan in H. rewrite H in Hfound. discriminate. }
        rewrite bool_decide_eq_false_2 by exact Hno.
        assert (Hfp : foundPrototype
                        (lookupProperty (spanMap st) (prototypeChildren st) pk)
                      = false).
        { destruct (foundPrototype _) eqn:E; [|reflexivity].
          apply foundPrototype_truthy in E. congruence. }
        assert (Hfn : foundNumber
                        (lookupProperty (spanMap st) (prototypeChildren st) pk)
                      = false).
        { destruct (foundNumber _) eqn:E; [|reflexivity].
          apply foundNumber_truthy in E. congruence. }
        rewrite Hfp, Hfn, !orb_false_r.
        destruct (truthy (spanId (_source hit))); simpl.
        -- rewrite (Hid st eq_refl).
           split; [intros k; now rewrite addRootSpan_spanMap,
                                   addChildren_nil_fmap|].
           split; [reflexivity|].
           split; [apply addRootSpan_prototypeChildren|].
           intros _. apply addRootSpan_thrown.
        -- split; [intros k; now rewrite addChildren_nil_fmap|]. auto.
    + rewrite !orb_false_r.
      destruct (truthy (spanId (_source hit))); simpl.
      * rewrite (Hid st eq_refl).
        split; [intros k; now rewrite addRootSpan_spanMap,
                                addChildren_nil_fmap|].
        split; [reflexivity|].
        split; [apply addRootSpan_prototypeChildren|].
        intros _. apply addRootSpan_thrown.
      * split; [intros k; now rewrite addChildren_nil_fmap|]. auto.
Qed.

(** *** The second pass *)

Lemma rootPart_rootSpans st1 st2 :
  rootPart st1 = rootPart st2 → rootSpans st1 = rootSpans st2.
Proof. unfold rootPart. congruence. Qed.

Lemma rootPart_alreadyAdded st1 st2 :
  rootPart st1 = rootPart st2 →
  alreadyAddedRootSpans st1 = alreadyAddedRootSpans st2.
Proof. unfold rootPart. congruence. Qed.

Lemma pollutedAfter_snoc (m0 : gmap string HierarchicalSpan)
    (l : list ParsedHit) (x : ParsedHit) :
  pollutedAfter mode m0 (l ++ [x])
  = pollutedAfter mode m0 l || findsPrototype mode m0 x.
Proof.
  unfold pollutedAfter. rewrite existsb_app. simpl. now rewrite orb_false_r.
Qed.

(** A hit of [l ++ [x]] with the hits before it: a hit of [l], or [x]. *)
Lemma split_snoc {A} (l : list A) (x : A) (P : list A → A → Prop) :
  (∃ l1 h l2, l ++ [x] = l1 ++ h :: l2 ∧ P l1 h)
  ↔ (∃ l1 h l2, l = l1 ++ h :: l2 ∧ P l1 h) ∨ P l x.
Proof.
  split.
  - intros (l1 & h & l2 & Heq & HP).
    destruct l2 as [|y l2 _] using rev_ind.
    + apply app_inj_tail in Heq as [-> ->]. now right.
    + change (l1 ++ h :: l2 ++ [y]) with (l1 ++ (h :: l2) ++ [y]) in Heq.
      rewrite app_assoc in Heq. apply app_inj_tail in Heq as [-> ->].
      left. eauto.
  - intros [(l1 & h & l2 & -> & HP)|HP].
    + exists l1, h, (l2 ++ [x]). split; [|exact HP].
      now rewrite <- app_assoc.
    + exists l, x, []. auto.
Qed.

(** After the second pass over [l], from a map [m0] that has a node for
    every hit of [l]: the nodes are those of [m0] with the children that the
    hits attach; [Object.prototype] has the property [children] when a parent
    link found it; the pass threw when a parent link found a number; the
    roots are the keys of the hits that register a root when they are
    linked. *)
Lemma second_pass_spec (m0 : gmap string HierarchicalSpan)
    (l : list ParsedHit) :
  (∀ h, h ∈ l → is_Some (m0 !! key h)) →
  let st' := foldl (linkHit mode) (unlinked m0) l in
  (∀ k, spanMap st' !! k = addChildren (childrenOf mode m0 l k) <$> m0 !! k)
  ∧ prototypeChildren st' = pollutedAfter mode m0 l
  ∧ thrown st' = existsb (findsNumber mode m0) l
  ∧ (∀ sid, sid ∈ alreadyAddedRootSpans st'
            ↔ ∃ l1 h l2, l = l1 ++ h :: l2
                ∧ spanIdOf mode h = sid
                ∧ registersRootIn mode m0 (pollutedAfter mode m0 l1) h = true)
  ∧ (∀ k, k ∈ rootSpans st'
          ↔ ∃ l1 h l2, l = l1 ++ h :: l2
              ∧ key h = k
              ∧ registersRootIn mode m0 (pollutedAfter mode m0 l1) h = true)
  ∧ rootSpans st' `sublist_of` key <$> l
  ∧ (NoDup (spanIdOf mode <$> l) →
     isJaeger mode = true ∨ pollutedAfter mode m0 l = false →
     rootSpans st' = key <$> filter (λ h, registersRoot mode m0 h = true) l).
Proof.
  induction l as [|x l IH] using rev_ind; intros Hkeys; simpl.
  - split; [intros k; now rewrite addChildren_nil_fmap|].
    do 2 (split; [reflexivity|]).
    split; [intros sid; split;
              [set_solver|intros (l1 & h & l2 & Heq & _);
                          now destruct l1]|].
    split; [intros k; split;
              [intros Hk; inversion Hk|intros (l1 & h & l2 & Heq & _);
                                       now destruct l1]|].
    split; [constructor|reflexivity].
  - rewrite foldl_app. simpl.
    destruct IH as (IHmap & IHp & IHt & IHadded & IHroots & IHsub & IHexact).
    { intros h Hh. apply Hkeys. apply elem_of_app. now left. }
    set (st1 := foldl (linkHit mode) (unlinked m0) l) in *.
    assert (Hsame : sameNodes (spanMap st1) m0)
      by exact (sameNodes_children _ _ _ IHmap).
    destruct (linkHit_spec st1 x) as (Hmap & Hroot & Hp & Ht).
    { apply (sameNodes_is_Some _ _ _ Hsame), Hkeys, elem_of_app.
      right. now left. }
    rewrite (registersRootIn_dom _ m0 _ x Hsame), IHp in Hroot.
    rewrite (findsPrototype_dom _ m0 x Hsame) in Hp.
    rewrite (findsNumber_dom _ m0 x Hsame) in Ht.
    split; [|split; [|split; [|split; [|split; [|split]]]]].
    + intros k. rewrite Hmap, IHmap, addChildren_app_fmap.
      rewrite (attachedTo_dom _ m0 k x Hsame).
      unfold childrenOf. now rewrite bind_app, bind_singleton.
    + now rewrite Hp, IHp, pollutedAfter_snoc.
    + rewrite Ht, IHt, existsb_app; [simpl; now rewrite orb_false_r|].
      intros Hpol. rewrite IHmap. rewrite IHp in Hpol.
      apply existsb_exists in Hpol as (h & _ & Hh).
      now rewrite (findsPrototype_prototype m0 h Hh).
    + intros sid. rewrite (rootPart_alreadyAdded _ _ Hroot).
      rewrite (split_snoc l x
                 (λ l1 h, spanIdOf mode h = sid
                          ∧ registersRootIn mode m0 (pollutedAfter mode m0 l1) h
                            = true)).
      rewrite <- IHadded.
      destruct (registersRootIn mode m0 (pollutedAfter mode m0 l) x) eqn:Hreg.
      * unfold addRootSpan. destruct (decide _) as [Hin|Hout]; simpl.
        -- split; [auto|]. intros [H|[<- _]]; assumption.
        -- rewrite elem_of_union, elem_of_singleton.
           split; [intros [->|H]; auto|intros [H|[<- _]]; auto].
      * split; [auto|]. intros [H|[_ H]]; [assumption|discriminate].
    + intros k. rewrite (rootPart_rootSpans _ _ Hroot).
      rewrite (split_snoc l x
                 (λ l1 h, key h = k
                          ∧ registersRootIn mode m0 (pollutedAfter mode m0 l1) h
                            = true)).
      rewrite <- IHroots.
      destruct (registersRootIn mode m0 (pollutedAfter mode m0 l) x) eqn:Hreg.
      * unfold addRootSpan. destruct (decide _) as [Hin|Hout]; simpl.
        -- split; [auto|]. intros [H|[<- _]]; [assumption|].
           apply IHadded in Hin as (l1 & h' & l2 & Heq & Hsid & Hr').
           apply IHroots. exists l1, h', l2. split; [exact Heq|].
           split; [|exact Hr']. unfold keyOf. now rewrite Hsid.
        -- rewrite elem_of_app, list_elem_of_singleton.
           split; [intros [H| ->]; auto|intros [H|[<- _]]; auto].
      * split; [auto|]. intros [H|[_ H]]; [assumption|discriminate].
    + rewrite (rootPart_rootSpans _ _ Hroot), fmap_app. simpl.
      destruct (registersRootIn mode m0 (pollutedAfter mode m0 l) x).
      * unfold addRootSpan. destruct (decide _); simpl.
        -- now apply sublist_inserts_r.
        -- now apply sublist_app.
      * now apply sublist_inserts_r.
    + intros Hnodup Hclean. rewrite fmap_app in Hnodup.
      apply NoDup_app in Hnodup as (Hnd & Hfresh & _).
      assert (Hclean1 : isJaeger mode = true ∨ pollutedAfter mode m0 l = false).
      { destruct Hclean as [H|H]; [now left|right].
        rewrite pollutedAfter_snoc in H. now apply orb_false_iff in H as [H _]. }
      assert (Hreg : registersRootIn mode m0 (pollutedAfter mode m0 l) x
                     = registersRoot mode m0 x).
      { destruct Hclean1 as [H|H]; [now apply registersRootIn_jaeger|].
        now rewrite H. }
      rewrite Hreg in Hroot.
      rewrite (rootPart_rootSpans _ _ Hroot), filter_app, fmap_app.
      rewrite filter_one.
      destruct (registersRoot mode m0 x) eqn:Hr.
      * rewrite decide_True by reflexivity.
        unfold addRootSpan. destruct (decide _) as [Hin|Hout]; simpl.
        -- exfalso. apply IHadded in Hin as (l1 & h' & l2 & Heq & Hsid & _).
           apply (Hfresh (spanIdOf mode h')).
           ++ apply list_elem_of_fmap_2. rewrite Heq. apply elem_of_app.
              right. left.
           ++ rewrite Hsid. now left.
        -- now rewrite (IHexact Hnd Hclean1).
      * rewrite decide_False by discriminate. simpl.
        rewrite app_nil_r. now apply IHexact.
Qed.

End BuilderFacts.

(** ** Sorting and walking *)

Section WalkFacts.

Variable spanMap : gmap string HierarchicalSpan.

Lemma insertSpan_perm (a : string) (l : list string) :
  insertSpan spanMap a l ≡ₚ a :: l.
Proof.
  induction l as [|b l IH]; simpl; [reflexivity|].
  destruct (goesAfter spanMap a b); [|reflexivity].
  rewrite IH. apply perm_swap.
Qed.

Lemma sortSpans_perm (l : list string) : sortSpans spanMap l ≡ₚ l.
Proof.
  induction l as [|a l IH]; simpl; [reflexivity|].
  rewrite insertSpan_perm. now rewrite IH.
Qed.

Lemma elem_of_sortSpans (l : list string) (k : string) :
  k ∈ sortSpans spanMap l ↔ k ∈ l.
Proof. now rewrite sortSpans_perm. Qed.

Lemma walkEach_elem (w : string → option (list string)) (l ks : list string)
    (k : string) :
  walkEach w l = Some ks → k ∈ ks →
  ∃ c kc, c ∈ l ∧ w c = Some kc ∧ k ∈ kc.
Proof.
  revert ks. induction l as [|c l IH]; intros ks Hw Hk; simpl in Hw.
  - inversion Hw; subst. inversion Hk.
  - destruct (w c) as [k1|] eqn:Hc; [|discriminate].
    destruct (walkEach w l) as [k2|] eqn:Hl; [|discriminate].
    inversion Hw; subst ks. apply elem_of_app in Hk as [Hk|Hk].
    + exists c, k1. split; [left|]. auto.
    + destruct (IH k2 eq_refl Hk) as (c' & kc & ? & ? & ?).
      exists c', kc. split; [now right|]. auto.
Qed.

(** A reference reached by the walk is the one it started from or a child
    of a node of the map, and it is the key of a node. *)
Lemma walk_reached (fuel : nat) : ∀ (ref : string) (ks : list string)
    (k : string),
  walk spanMap fuel ref = Some ks → k ∈ ks →
  is_Some (spanMap !! k)
  ∧ (k = ref ∨ ∃ p n, spanMap !! p = Some n ∧ k ∈ children n).
Proof.
  induction fuel as [|fuel IH]; intros ref ks k Hw Hk; simpl in Hw.
  - discriminate.
  - destruct (spanMap !! ref) as [span|] eqn:Hspan; [|discriminate].
    destruct (walkEach _ _) as [rest|] eqn:Hrest; [|discriminate].
    inversion Hw; subst ks. apply elem_of_cons in Hk as [->|Hk].
    + split; [eauto|now left].
    + destruct (walkEach_elem _ _ _ _ Hrest Hk) as (c & kc & Hc & Hwc & Hkc).
      rewrite elem_of_sortSpans in Hc.
      destruct (IH c kc k Hwc Hkc) as [Hsome [->|Hchild]].
      * split; [exact Hsome|]. right. eauto.
      * split; [exact Hsome|]. now right.
Qed.

Lemma walkAll_reached (fuel : nat) (spans ks : list string) (k : string) :
  walkAll spanMap fuel spans = Some ks → k ∈ ks →
  is_Some (spanMap !! k)
  ∧ (k ∈ spans ∨ ∃ p n, spanMap !! p = Some n ∧ k ∈ children n).
Proof.
  unfold walkAll. intros Hw Hk.
  destruct (walkEach_elem _ _ _ _ Hw Hk) as (c & kc & Hc & Hwc & Hkc).
  rewrite elem_of_sortSpans in Hc.
  destruct (walk_reached fuel c kc k Hwc Hkc) as [Hsome [->|Hchild]]; auto.
Qed.

Lemma walkEach_head (w : string → option (list string)) (l ks : list string)
    (c : string) :
  (∀ c kc, w c = Some kc → c ∈ kc) →
  walkEach w l = Some ks → c ∈ l → c ∈ ks.
Proof.
  intros Hhead. revert ks. induction l as [|b l IH]; intros ks Hw Hc;
    [inversion Hc|].
  simpl in Hw. destruct (w b) as [k1|] eqn:Hb; [|discriminate].
  destruct (walkEach w l) as [k2|] eqn:Hl; [|discriminate].
  inversion Hw; subst ks. apply elem_of_app.
  apply elem_of_cons in Hc as [->|Hc]; [left; eauto|right; eauto].
Qed.

Lemma walk_head (fuel : nat) (ref : string) (ks : list string) :
  walk spanMap fuel ref = Some ks → ref ∈ ks.
Proof.
  destruct fuel as [|fuel]; simpl; [discriminate|].
  destruct (spanMap !! ref); [|discriminate].
  destruct (walkEach _ _); [|discriminate]. intros [= <-]. left.
Qed.

(** The walk passes every reference it is started from. *)
Lemma walkAll_roots (fuel : nat) (spans ks : list string) (r : string) :
  walkAll spanMap fuel spans = Some ks → r ∈ spans → r ∈ ks.
Proof.
  unfold walkAll. intros Hw Hr.
  apply (walkEach_head _ _ _ r (walk_head fuel) Hw).
  now rewrite elem_of_sortSpans.
Qed.

End WalkFacts.

(** ** The two passes together *)

Section HierarchyFacts.

Variable parseIsoToNano : option StartTime → number.
Variable mode : TraceAnalyticsMode.

Local Abbreviation key := (keyOf mode).
Local Abbreviation index := (indexHits parseIsoToNano mode).
Local Abbreviation build :=
  (λ hits, hitsToHierarchicalSpans parseIsoToNano hits mode).

Lemma indexHits_snoc (hits : list ParsedHit) (x : ParsedHit) :
  index (hits ++ [x])
  = <[key x := freshNode parseIsoToNano mode x]> (index hits).
Proof. unfold indexHits. now rewrite foldl_app. Qed.

(** Every node of the first pass is the fresh node of a hit, stored under the
    key of that hit. *)
Lemma indexHits_lookup (hits : list ParsedHit) (k : string)
    (n : HierarchicalSpan) :
  index hits !! k = Some n →
  ∃ h, h ∈ hits ∧ key h = k ∧ n = freshNode parseIsoToNano mode h.
Proof.
  induction hits as [|x hits IH] using rev_ind.
  - unfold indexHits. simpl. now rewrite lookup_empty.
  - rewrite indexHits_snoc, lookup_insert.
    destruct (decide (key x = k)) as [Hk|Hk].
    + intros [= <-]. exists x. split; [apply elem_of_app; right; left|]. auto.
    + intros H. destruct (IH H) as (h & Hh & ? & ?).
      exists h. split; [apply elem_of_app; now left|]. auto.
Qed.

Lemma indexHits_is_Some (hits : list ParsedHit) (k : string) :
  is_Some (index hits !! k) ↔ k ∈ key <$> hits.
Proof.
  induction hits as [|x hits IH] using rev_ind.
  - unfold indexHits. simpl. rewrite lookup_empty. split.
    + intros [? ?]; discriminate.
    + intros H; inversion H.
  - rewrite indexHits_snoc, lookup_insert_is_Some', IH, fmap_app, elem_of_app.
    simpl. rewrite list_elem_of_singleton. intuition auto.
Qed.

(** With distinct keys, the node of a hit is the fresh node of this hit. *)
Lemma indexHits_unique (hits : list ParsedHit) (h : ParsedHit) :
  NoDup (key <$> hits) → h ∈ hits →
  index hits !! key h = Some (freshNode parseIsoToNano mode h).
Proof.
  induction hits as [|x hits IH] using rev_ind; intros Hnd Hh.
  - inversion Hh.
  - rewrite fmap_app in Hnd. apply NoDup_app in Hnd as (Hnd & Hfresh & _).
    rewrite indexHits_snoc, lookup_insert.
    apply elem_of_app in Hh as [Hh|Hh%list_elem_of_singleton].
    + rewrite decide_False; [now apply IH|].
      intros Heq. apply (Hfresh (key h)).
      * now apply list_elem_of_fmap_2.
      * rewrite <- Heq. now left.
    + subst h. now rewrite decide_True.
Qed.

(** The two passes of [hitsToHierarchicalSpans]. *)
Lemma hierarchy_passes (hits : list ParsedHit) :
  build hits = foldl (linkHit mode) (unlinked (index hits)) hits
  ∧ ∀ h, h ∈ hits → is_Some (index hits !! key h).
Proof.
  split; [reflexivity|].
  intros h Hh. apply indexHits_is_Some. now apply list_elem_of_fmap_2.
Qed.

(** The hierarchy that [hitsToHierarchicalSpans] returns: the nodes with
    their children; every root is the key of a hit that registers as a root;
    and when no property was added to [Object.prototype], the roots are the
    keys of these hits, in the order of the hits. *)
Lemma hierarchy_spec (hits : list ParsedHit) :
  let m0 := index hits in
  (∀ k, spanMap (build hits) !! k
        = addChildren (childrenOf mode m0 hits k) <$> m0 !! k)
  ∧ (∀ k, k ∈ rootSpans (build hits)
          → ∃ h, h ∈ hits ∧ key h = k ∧ registersRoot mode m0 h = true)
  ∧ (NoDup (spanIdOf mode <$> hits) →
     isJaeger mode = true ∨ pollutedAfter mode m0 hits = false →
     rootSpans (build hits)
     = key <$> filter (λ h, registersRoot mode m0 h = true) hits).
Proof.
  destruct (hierarchy_passes hits) as [-> Hkeys].
  destruct (second_pass_spec mode (index hits) hits Hkeys)
    as (Hm & _ & _ & _ & Hr & _ & He).
  split; [exact Hm|]. split; [|exact He].
  intros k (l1 & h & l2 & Heq & Hk & Hreg)%Hr.
  exists h. split; [rewrite Heq; apply elem_of_app; right; left|].
  split; [exact Hk|]. now apply registersRootIn_registersRoot in Hreg.
Qed.

(** The roots, whatever was added to [Object.prototype]: the keys of the
    hits that register as a root when they are linked. *)
Lemma hierarchy_roots_iff (hits : list ParsedHit) (k : string) :
  k ∈ rootSpans (build hits)
  ↔ ∃ l1 h l2, hits = l1 ++ h :: l2 ∧ key h = k
      ∧ registersRootIn mode (index hits) (pollutedAfter mode (index hits) l1) h
        = true.
Proof.
  destruct (hierarchy_passes hits) as [-> Hkeys].
  destruct (second_pass_spec mode (index hits) hits Hkeys)
    as (_ & _ & _ & _ & Hr & _). apply Hr.
Qed.

Lemma hierarchy_roots_sublist (hits : list ParsedHit) :
  rootSpans (build hits) `sublist_of` key <$> hits.
Proof.
  destruct (hierarchy_passes hits) as [-> Hkeys].
  destruct (second_pass_spec mode (index hits) hits Hkeys)
    as (_ & _ & _ & _ & _ & Hs & _). exact Hs.
Qed.

(** The builder throws exactly when a parent link finds a number. *)
Lemma hierarchy_thrown (hits : list ParsedHit) :
  thrown (build hits) = existsb (findsNumber mode (index hits)) hits.
Proof.
  destruct (hierarchy_passes hits) as [-> Hkeys].
  destruct (second_pass_spec mode (index hits) hits Hkeys)
    as (_ & _ & Ht & _). exact Ht.
Qed.

Lemma hierarchy_polluted (hits : list ParsedHit) :
  prototypeChildren (build hits) = pollutedAfter mode (index hits) hits.
Proof.
  destruct (hierarchy_passes hits) as [-> Hkeys].
  destruct (second_pass_spec mode (index hits) hits Hkeys)
    as (_ & Hp & _). exact Hp.
Qed.

(** A node of the hierarchy carries the hit and the start time of a hit
    with its key, and the children attached to that key. *)
Lemma hierarchy_lookup (hits : list ParsedHit) (k : string)
    (n : HierarchicalSpan) :
  spanMap (build hits) !! k = Some n →
  ∃ h, h ∈ hits ∧ key h = k ∧ hit n = h
       ∧ startTimeInNanos n = getStartTimeInNanos parseIsoToNano h mode
       ∧ children n = childrenOf mode (index hits) hits k.
Proof.
  destruct (hierarchy_spec hits) as (Hm & _ & _). rewrite Hm.
  destruct (index hits !! k) as [n0|] eqn:Hn0; [|discriminate].
  intros [= <-].
  destruct (indexHits_lookup hits k n0 Hn0) as (h & Hh & Hk & ->).
  exists h. simpl. auto.
Qed.

Lemma hierarchy_is_Some (hits : list ParsedHit) (k : string) :
  is_Some (spanMap (build hits) !! k) ↔ k ∈ key <$> hits.
Proof.
  destruct (hierarchy_spec hits) as (Hm & _ & _).
  now rewrite Hm, fmap_is_Some, indexHits_is_Some.
Qed.

End HierarchyFacts.

(** ** What the panel shows, in terms of the hits *)

Lemma parseSpanHitData_fields (span : ParsedHit) (mode : TraceAnalyticsMode)
    (p : SpanHitData) :
  parseSpanHitData span mode = Ok p →
  hd_spanId p = spanIdOf mode span
  ∧ hd_durationInMs p = round2 (rawDurationMs mode span).
Proof.
  unfold parseSpanHitData, spanIdOf, rawDurationMs. intros H.
  apply bind_Ok in H as (s & _ & H). inversion H. simpl.
  now destruct (isJaeger mode).
Qed.

Section Loaded.

Variable parseIsoToNano : option StartTime → number.
Variable mode : TraceAnalyticsMode.
Variable colorMap : gmap string string.

Local Abbreviation build :=
  (λ hits, hitsToHierarchicalSpans parseIsoToNano hits mode).

Lemma loadHits_visits fuel hits st st' :
  loadHits parseIsoToNano fuel hits mode colorMap st = Ok st' →
  ∃ vs,
    walkAll (spanMap (build hits)) fuel (rootSpans (build hits))
      = Some (v_ref <$> vs)
    ∧ Forall (visitOfHit parseIsoToNano mode hits) vs
    ∧ gantt st' = visitBar colorMap (rootMinStartMs (build hits)) <$> vs
    ∧ ganttAnnotations st' = visitLabel (rootMinStartMs (build hits)) <$> vs
    ∧ ganttMax st' = maxEnd (gantt st').
Proof.
  intros Hload.
  destruct (loadHits_chart _ _ _ _ _ _ _ Hload)
    as (chart & Hchart & Hg & Ha & Hmax & _).
  apply createPlotlyData_chart in Hchart as (vs & Hw & Hvs & Hd & Hl & Hm).
  exists vs. split; [exact Hw|]. split; [|split; [|split]].
  - eapply Forall_impl; [exact Hvs|]. intros v [Hv Hp].
    destruct (hierarchy_lookup _ _ _ _ _ Hv) as (h & Hh & Hk & Hhit & Hs & _).
    exists h. rewrite Hhit in Hp. auto 7.
  - now rewrite Hg, Hd.
  - now rewrite Ha, Hl.
  - now rewrite Hmax, Hm, Hg.
Qed.

(** Bar [i] and label [i] are those of one hit. *)
Lemma loadHits_bars fuel hits st st' :
  loadHits parseIsoToNano fuel hits mode colorMap st = Ok st' →
  length (ganttAnnotations st') = length (gantt st')
  ∧ ∀ i bar, gantt st' !! i = Some bar →
      ∃ h label, h ∈ hits ∧ ganttAnnotations st' !! i = Some label
        ∧ barOfHit parseIsoToNano mode (rootMinStartMs (build hits))
            h bar label.
Proof.
  intros Hload.
  destruct (loadHits_visits _ _ _ _ Hload) as (vs & _ & Hvs & Hg & Ha & _).
  split; [now rewrite Hg, Ha, !length_fmap|].
  intros i bar Hi. rewrite Hg, list_lookup_fmap in Hi.
  destruct (vs !! i) as [v|] eqn:Hv; [|discriminate].
  injection Hi as <-.
  rewrite Forall_lookup in Hvs.
  destruct (Hvs i v Hv) as (h & Hh & _ & _ & Hhit & Hstart & Hp).
  destruct (parseSpanHitData_fields _ _ _ Hp) as [Hid Hdur].
  exists h, (visitLabel (rootMinStartMs (build hits)) v).
  split; [exact Hh|]. split; [now rewrite Ha, list_lookup_fmap, Hv|].
  unfold barOfHit, visitBar, visitLabel, spanBar, spanBarLabel, delayInMs,
    startMs. simpl. rewrite Hstart, Hid, Hdur.
  repeat split; eauto.
Qed.

(** With finite start times and finite durations that are not negative, the
    maximal extent is the greatest end of a bar. *)
Lemma loadHits_max_attained fuel hits st st' :
  loadHits parseIsoToNano fuel hits mode colorMap st = Ok st' →
  (∀ h, h ∈ hits → wellTimed parseIsoToNano mode h) →
  gantt st' ≠ [] →
  Forall (λ bar, le (barEnd bar) (ganttMax st')) (gantt st')
  ∧ ∃ bar, bar ∈ gantt st' ∧ ganttMax st' = barEnd bar.
Proof.
  intros Hload Htimed Hbars.
  destruct (loadHits_visits _ _ _ _ Hload) as (vs & Hw & Hvs & Hg & _ & Hmax).
  set (t0 := rootMinStartMs (build hits)) in *.
  rewrite Forall_forall in Hvs.
  (* the earliest root *)
  assert (Hroots : rootSpans (build hits) ≠ []).
  { intros Hnil. rewrite Hnil in Hw. unfold walkAll in Hw. simpl in Hw.
    injection Hw as Hw. symmetry in Hw. apply fmap_nil_inv in Hw.
    apply Hbars. now rewrite Hg, Hw. }
  assert (Hrootfin : ∀ r, r ∈ rootSpans (build hits) →
            isFinite (startOf (spanMap (build hits)) r)).
  { intros r Hr.
    destruct (hierarchy_spec parseIsoToNano mode hits) as (_ & Hiff & _).
    apply Hiff in Hr as (h & Hh & Hk & _).
    destruct (proj2 (hierarchy_is_Some parseIsoToNano mode hits r)) as [n Hn].
    { rewrite <- Hk. now apply list_elem_of_fmap_2. }
    unfold startOf. rewrite Hn. simpl.
    destruct (hierarchy_lookup _ _ _ _ _ Hn) as (h' & Hh' & _ & _ & -> & _).
    apply (Htimed h' Hh'). }
  destruct (minOf_finite
              ((λ ref, nanoToMilliSec (startOf (spanMap (build hits)) ref))
                 <$> rootSpans (build hits))) as [Ht0 Hin].
  { intros Hnil. apply fmap_nil_inv in Hnil. contradiction. }
  { apply Forall_fmap, Forall_forall. intros r Hr. simpl.
    now apply divBy_finite, Hrootfin. }
  fold (rootMinStartMs (build hits)) in Ht0, Hin. fold t0 in Ht0, Hin.
  apply list_elem_of_fmap in Hin as (r & Hr0 & Hr).
  (* all ends are finite *)
  assert (Hends : ∀ v, v ∈ vs →
            isFinite (barEnd (visitBar colorMap t0 v))
            ∧ (v_ref v = r → le (ofZ 0) (barEnd (visitBar colorMap t0 v))
                             ∧ ∃ q, barEnd (visitBar colorMap t0 v) = fin q)).
  { intros v Hv. destruct (Hvs v Hv) as (h & Hh & _ & Hlook & _ & Hs & Hp).
    destruct (Htimed h Hh) as (Hsf & Hdf & Hdn).
    apply parseSpanHitData_fields in Hp as [_ Hdur].
    unfold barEnd, visitBar, spanBar, delayInMs. simpl. rewrite Hs, Hdur.
    split.
    - apply add_finite; [apply sub_finite; [now apply divBy_finite|exact Ht0]|].
      now apply round2_finite.
    - intros Href. rewrite Href in Hlook.
      assert (Hstart : nanoToMilliSec
                         (getStartTimeInNanos parseIsoToNano h mode) = t0).
      { rewrite Hr0. unfold startOf. rewrite Hlook. simpl. now rewrite Hs. }
      rewrite Hstart, (sub_diag t0 Ht0).
      split; [now apply add_zero_nonneg, round2_nonneg|].
      pose proof (round2_finite _ Hdf) as Hfin.
      destruct (round2 (rawDurationMs mode h)); try contradiction.
      eexists. reflexivity. }
  (* the running maximum *)
  destruct (running_max_spec (gantt st') (ofZ 0) I) as (_ & _ & Hall & Hwho).
  { rewrite Hg. apply Forall_fmap, Forall_forall. intros v Hv.
    apply (Hends v Hv). }
  fold (maxEnd (gantt st')) in Hall, Hwho. rewrite <- Hmax in Hall, Hwho.
  split; [exact Hall|].
  destruct Hwho as [Hzero|Hbar]; [|exact Hbar].
  assert (Hvisited : r ∈ v_ref <$> vs).
  { eapply walkAll_roots; [exact Hw|exact Hr]. }
  apply list_elem_of_fmap in Hvisited as (v & Href & Hv).
  destruct (Hends v Hv) as [_ Hnonneg].
  destruct (Hnonneg (eq_sym Href)) as [Hge [q Hq]].
  exists (visitBar colorMap t0 v).
  split; [rewrite Hg; now apply list_elem_of_fmap_2|].
  rewrite Forall_forall in Hall.
  assert (Hle : le (barEnd (visitBar colorMap t0 v)) (ganttMax st')).
  { apply Hall. rewrite Hg. now apply list_elem_of_fmap_2. }
  rewrite Hzero in Hle |- *. rewrite Hq in Hle, Hge |- *.
  symmetry. now apply le_zero_antisym.
Qed.

End Loaded.

(** ** Relative order *)

Section Before.

Context {A : Type}.
Implicit Types (l : list A) (a b : A).

Lemma before_app l1 l2 a b :
  before (l1 ++ l2) a b
  ↔ before l1 a b ∨ before l2 a b ∨ (a ∈ l1 ∧ b ∈ l2).
Proof.
  induction l1 as [|c l1 IH]; simpl.
  - split; [auto|]. intros [[]|[H|[H _]]]; [exact H|inversion H].
  - rewrite IH, elem_of_app, elem_of_cons. clear IH. split.
    + intros [[-> [Hb|Hb]]|[H|[H|[Ha Hb]]]]; auto 7.
    + intros [[[-> Hb]|H]|[H|[[->|Ha] Hb]]]; auto 7.
Qed.

Lemma before_elem_of l a b : before l a b → a ∈ l ∧ b ∈ l.
Proof.
  induction l as [|c l IH]; simpl; [tauto|].
  intros [[-> Hb]|H].
  - split; [left|now right].
  - destruct (IH H). split; now right.
Qed.

Lemma before_split l a b :
  before l a b ↔ ∃ l1 l2 l3, l = l1 ++ a :: l2 ++ b :: l3.
Proof.
  split.
  - induction l as [|c l IH]; simpl; [tauto|].
    intros [[-> Hb]|H].
    + apply list_elem_of_split in Hb as (l2 & l3 & ->). now exists [], l2, l3.
    + destruct (IH H) as (l1 & l2 & l3 & ->). now exists (c :: l1), l2, l3.
  - intros (l1 & l2 & l3 & ->). apply before_app. right. left. simpl. left.
    split; [reflexivity|]. apply elem_of_app. right. left.
Qed.

(** In a sequence without repetition, order is strict. *)
Lemma before_asymmetric l a b : NoDup l → before l a b → ¬ before l b a.
Proof.
  induction l as [|c l IH]; simpl; [tauto|].
  intros [Hc Hl]%NoDup_cons [[-> Hb]|Hab] [[-> Ha]|Hba].
  - contradiction.
  - apply before_elem_of in Hba as [_ ?]. contradiction.
  - apply before_elem_of in Hab as [_ ?]. contradiction.
  - now apply (IH Hl Hab).
Qed.

Lemma before_irreflexive l a : NoDup l → ¬ before l a a.
Proof. intros Hl H. exact (before_asymmetric l a a Hl H H). Qed.

Lemma before_total l a b :
  a ∈ l → b ∈ l → a ≠ b → before l a b ∨ before l b a.
Proof.
  induction l as [|c l IH]; intros Ha Hb Hne; [inversion Ha|]. simpl.
  apply elem_of_cons in Ha as [->|Ha]; apply elem_of_cons in Hb as [->|Hb].
  - contradiction.
  - left. now left.
  - right. now left.
  - destruct (IH Ha Hb Hne); [left|right]; now right.
Qed.

Lemma before_fmap {B} (f : A → B) l a b :
  before l a b → before (f <$> l) (f a) (f b).
Proof.
  induction l as [|c l IH]; simpl; [tauto|].
  intros [[-> Hb]|H].
  - left. split; [reflexivity|]. now apply list_elem_of_fmap_2.
  - right. now apply IH.
Qed.

Lemma before_filter (P : A → Prop) `{∀ c, Decision (P c)} l a b :
  P a → P b → before l a b → before (filter P l) a b.
Proof.
  intros Ha Hb. induction l as [|c l IH]; simpl; [tauto|].
  rewrite filter_cons. intros [[-> Hbl]|Hab].
  - rewrite decide_True by exact Ha. left. split; [reflexivity|].
    now apply list_elem_of_filter.
  - destruct (decide (P c)); [right|]; now apply IH.
Qed.

End Before.

Lemma before_bind {A B} (f : A → list B) (l : list A) (a b : A) (x y : B) :
  before l a b → x ∈ f a → y ∈ f b → before (l ≫= f) x y.
Proof.
  intros Hab Hx Hy. apply before_split in Hab as (l1 & l2 & l3 & ->).
  rewrite bind_app, bind_cons, bind_app, bind_cons.
  apply before_app. right. left. apply before_app. right. right.
  split; [exact Hx|]. apply elem_of_app. right. apply elem_of_app. now left.
Qed.

(** ** The sort by start time *)

Section SortFacts.

Variable spanMap : gmap string HierarchicalSpan.

Local Abbreviation sorted := (sortSpans spanMap).
Local Abbreviation startAt := (startOfQ spanMap).
Local Abbreviation finiteAt := (finiteStart spanMap).
Local Abbreviation inOrder := (ascending spanMap).

Lemma goesAfter_finite (a b : string) :
  finiteAt a → finiteAt b →
  goesAfter spanMap a b = true ↔ (startAt b < startAt a)%Q.
Proof.
  unfold finiteStart, goesAfter, startOfQ.
  destruct (startOf spanMap a) as [| | |qa]; simpl; try tauto.
  destruct (startOf spanMap b) as [| | |qb]; simpl; try tauto.
  intros _ _. unfold gt, lt, sub, neg, add, ofZ, fin.
  rewrite qltb_lt, !Qred_correct. change (inject_Z 0) with 0%Q.
  split; intros H; lra.
Qed.

Lemma goesAfter_finite_false (a b : string) :
  finiteAt a → finiteAt b →
  goesAfter spanMap a b = false ↔ (startAt a <= startAt b)%Q.
Proof.
  intros Ha Hb. rewrite <- not_true_iff_false, (goesAfter_finite a b Ha Hb).
  split; [apply Qnot_lt_le|apply Qle_not_lt].
Qed.

(** Where an element is inserted: after the elements that it goes after,
    before the first one that it does not go after. *)
Lemma insertSpan_split (a : string) (l : list string) :
  ∃ l1 l2, l = l1 ++ l2 ∧ insertSpan spanMap a l = l1 ++ a :: l2
    ∧ (∀ c, c ∈ l1 → goesAfter spanMap a c = true)
    ∧ (∀ c, head l2 = Some c → goesAfter spanMap a c = false).
Proof.
  induction l as [|b l IH]; simpl.
  - exists [], []. repeat split; [intros c Hc; inversion Hc|discriminate].
  - destruct (goesAfter spanMap a b) eqn:Hab.
    + destruct IH as (l1 & l2 & -> & -> & H1 & H2).
      exists (b :: l1), l2. repeat split; [|exact H2].
      intros c [->|Hc]%elem_of_cons; auto.
    + exists [], (b :: l). repeat split; [intros c Hc; inversion Hc|].
      simpl. now intros c [= <-].
Qed.

Lemma sortSpans_ascending (l : list string) :
  Forall finiteAt l → inOrder (sorted l).
Proof.
  induction l as [|c l IH]; intros Hfin; simpl.
  - intros a b [].
  - apply Forall_cons in Hfin as [Hc Hfin]. specialize (IH Hfin).
    assert (Hfin' : ∀ k, k ∈ sorted l → finiteAt k).
    { intros k Hk. rewrite elem_of_sortSpans in Hk.
      rewrite Forall_forall in Hfin. now apply Hfin. }
    destruct (insertSpan_split c (sorted l)) as (l1 & l2 & Hl & -> & H1 & H2).
    rewrite Hl in IH, Hfin'.
    intros a b Hab. apply before_app in Hab as [Hab|[Hab|[Ha Hb]]].
    + apply IH, before_app. now left.
    + simpl in Hab. destruct Hab as [[<- Hb]|Hab].
      * destruct l2 as [|d l2]; [inversion Hb|].
        assert (Hcd : (startAt c <= startAt d)%Q).
        { apply goesAfter_finite_false; [exact Hc| |now apply H2].
          apply Hfin', elem_of_app. right. left. }
        apply elem_of_cons in Hb as [->|Hb]; [exact Hcd|].
        eapply Qle_trans; [exact Hcd|].
        apply IH, before_app. right. left. simpl. now left.
      * apply IH, before_app. right. now left.
    + apply elem_of_cons in Hb as [->|Hb].
      * apply Qlt_le_weak. apply goesAfter_finite; auto.
        apply Hfin', elem_of_app. now left.
      * apply IH, before_app. right. right. now split.
Qed.

(** The sort puts [a] before [b] when [a] starts earlier, and keeps the
    order of elements that start at the same time. *)
Lemma sortSpans_before (l : list string) (a b : string) :
  NoDup l → Forall finiteAt l → a ∈ l → b ∈ l →
  (startAt a < startAt b)%Q
  ∨ ((startAt a == startAt b)%Q ∧ before l a b) →
  before (sorted l) a b.
Proof.
  induction l as [|c l IH]; intros Hnd Hfin Ha Hb Hprec; [inversion Ha|].
  apply NoDup_cons in Hnd as [Hc Hnd].
  pose proof (sortSpans_ascending l) as Hasc.
  apply Forall_cons in Hfin as [Hcfin Hfin]. specialize (Hasc Hfin).
  assert (Hfin' : ∀ k, k ∈ l → finiteAt k).
  { rewrite Forall_forall in Hfin. exact Hfin. }
  simpl.
  destruct (insertSpan_split c (sorted l)) as (l1 & l2 & Hl & -> & H1 & H2).
  assert (Hmem : ∀ k, k ∈ l ↔ k ∈ l1 ∨ k ∈ l2).
  { intros k. now rewrite <- (elem_of_sortSpans spanMap l k), Hl, elem_of_app. }
  apply elem_of_cons in Ha as [->|Ha]; apply elem_of_cons in Hb as [->|Hb].
  - exfalso. destruct Hprec as [Hlt|[_ Hbef]].
    + now apply Qlt_irrefl in Hlt.
    + simpl in Hbef. destruct Hbef as [[_ ?]|Hbef]; [contradiction|].
      apply before_elem_of in Hbef as [? _]. contradiction.
  - assert (Hle : (startAt c <= startAt b)%Q).
    { destruct Hprec as [Hlt|[Heq _]]; [now apply Qlt_le_weak|].
      rewrite Heq. apply Qle_refl. }
    apply before_app. right. left. simpl. left. split; [reflexivity|].
    apply Hmem in Hb as Hb'. destruct Hb' as [Hb'|Hb']; [|exact Hb']. exfalso.
    apply H1 in Hb' as Hgo.
    apply (proj1 (goesAfter_finite c b Hcfin (Hfin' b Hb))) in Hgo.
    apply (Qlt_not_le _ _ Hgo Hle).
  - assert (Hlt : (startAt a < startAt c)%Q).
    { destruct Hprec as [Hlt|[_ Hbef]]; [exact Hlt|]. exfalso.
      simpl in Hbef. destruct Hbef as [[-> _]|Hbef]; [contradiction|].
      apply before_elem_of in Hbef as [_ ?]. contradiction. }
    apply before_app. right. right. split; [|left].
    apply Hmem in Ha as Ha'. destruct Ha' as [Ha'|Ha']; [exact Ha'|]. exfalso.
    destruct l2 as [|d l2]; [inversion Ha'|].
    assert (Hcd : (startAt c <= startAt d)%Q).
    { apply goesAfter_finite_false; [exact Hcfin| |now apply H2].
      apply Hfin', Hmem. right. left. }
    assert (Hda : (startAt d <= startAt a)%Q).
    { apply elem_of_cons in Ha' as [->|Ha']; [apply Qle_refl|].
      apply Hasc. rewrite Hl. apply before_app. right. left. simpl. now left. }
    apply (Qlt_not_le _ _ Hlt). eapply Qle_trans; eassumption.
  - assert (Hab : before (sorted l) a b).
    { apply IH; auto. destruct Hprec as [Hlt|[Heq Hbef]]; [now left|right].
      split; [exact Heq|]. simpl in Hbef.
      destruct Hbef as [[-> _]|Hbef]; [contradiction|exact Hbef]. }
    rewrite Hl in Hab. apply before_app in Hab as [Hab|[Hab|[Ha1 Hb2]]];
      apply before_app.
    + now left.
    + right. left. simpl. now right.
    + right. right. split; [exact Ha1|now right].
Qed.

(** Conversely, what comes first does not start later. *)
Lemma sortSpans_before_le (l : list string) (a b : string) :
  Forall finiteAt l → before (sorted l) a b →
  (startAt a <= startAt b)%Q.
Proof. intros Hfin. now apply sortSpans_ascending. Qed.

(** A sequence in which no element goes after a later one is left as it is
    by the sort; in particular a sorted array is not changed by a second
    sort. *)
Lemma sortSpans_in_order (l : list string) :
  (∀ l1 a l2 b, l = l1 ++ a :: l2 → b ∈ l2 → goesAfter spanMap a b = false) →
  sorted l = l.
Proof.
  induction l as [|a l IH]; intros Horder; [reflexivity|]. simpl.
  rewrite IH.
  - destruct l as [|b l]; [reflexivity|]. simpl.
    now rewrite (Horder [] a (b :: l) b eq_refl ltac:(left)).
  - intros l1 c l2 b -> Hb. now apply (Horder (a :: l1) c l2 b).
Qed.

Lemma sortSpans_idempotent (l : list string) :
  Forall finiteAt l → sorted (sorted l) = sorted l.
Proof.
  intros Hfin. apply sortSpans_in_order. intros l1 a l2 b Hl Hb.
  assert (Hmem : ∀ k, k ∈ sorted l → finiteAt k).
  { intros k Hk. rewrite elem_of_sortSpans in Hk.
    rewrite Forall_forall in Hfin. now apply Hfin. }
  apply goesAfter_finite_false.
  - apply Hmem. rewrite Hl. apply elem_of_app. right. left.
  - apply Hmem. rewrite Hl. apply elem_of_app. right. now right.
  - apply (sortSpans_ascending l Hfin). rewrite Hl.
    apply before_app. right. left. simpl. now left.
Qed.

End SortFacts.

(** ** Walking a forest *)

Lemma walkEach_fun (w : string → option (list string))
    (g : string → list string) (l : list string) :
  (∀ c, c ∈ l → w c = Some (g c)) → walkEach w l = Some (l ≫= g).
Proof.
  induction l as [|c l IH]; intros Hw; simpl; [reflexivity|].
  rewrite (Hw c) by left. rewrite IH; [reflexivity|].
  intros c' Hc'. apply Hw. now right.
Qed.

Section Forest.

Variable spanMap : gmap string HierarchicalSpan.
Variable nodes : list string.
Variable par : string → option string.
Variable roots : list string.
Variable level : string → nat.
Variable bound : nat.

Hypothesis nodes_NoDup : NoDup nodes.
Hypothesis nodes_stored : ∀ k, k ∈ nodes → is_Some (spanMap !! k).
Hypothesis children_NoDup : ∀ k n, spanMap !! k = Some n → NoDup (children n).
Hypothesis children_par : ∀ k n c,
  k ∈ nodes → spanMap !! k = Some n →
  c ∈ children n ↔ c ∈ nodes ∧ par c = Some k.
Hypothesis par_node : ∀ c p, c ∈ nodes → par c = Some p → p ∈ nodes.
Hypothesis par_level : ∀ c p, c ∈ nodes → par c = Some p → level p < level c.
Hypothesis level_bound : ∀ k, k ∈ nodes → level k < bound.
Hypothesis roots_NoDup : NoDup roots.
Hypothesis roots_par : ∀ r, r ∈ roots ↔ r ∈ nodes ∧ par r = None.

Local Abbreviation under := (below par).

Lemma below_level (a k : string) : under a k → k ∈ nodes → level a ≤ level k.
Proof.
  induction 1 as [|k p Hp Hbelow IH]; intros Hk; [lia|].
  pose proof (par_level k p Hk Hp). pose proof (par_node k p Hk Hp). 
  specialize (IH ltac:(assumption)). lia.
Qed.

Lemma below_child (a c k : string) : par c = Some a → under c k → under a k.
Proof.
  intros Hc. induction 1 as [|k p Hp Hbelow IH].
  - eapply below_step; [exact Hc|constructor].
  - eapply below_step; eassumption.
Qed.

Lemma below_inv (a k : string) :
  under a k → k ∈ nodes →
  k = a ∨ ∃ c, c ∈ nodes ∧ par c = Some a ∧ under c k.
Proof.
  induction 1 as [|k p Hp Hbelow IH]; intros Hk; [now left|]. right.
  destruct (IH (par_node k p Hk Hp)) as [->|(c & Hc & Hca & Hck)].
  - exists k. split; [exact Hk|]. split; [exact Hp|constructor].
  - exists c. split; [exact Hc|]. split; [exact Hca|].
    eapply below_step; eassumption.
Qed.

(** Two nodes above a third one are above one another. *)
Lemma below_linear (a b k : string) :
  under a k → under b k → under a b ∨ under b a.
Proof.
  induction 1 as [|k p Hp Hbelow IH]; intros Hb; [now right|].
  inversion Hb as [|k' p' Hp' Hb']; subst.
  - left. eapply below_step; eassumption.
  - rewrite Hp in Hp'. injection Hp' as <-. now apply IH.
Qed.

(** Children of one node, or two roots, have disjoint subtrees. *)
Lemma below_siblings (c1 c2 k : string) :
  c1 ∈ nodes → c2 ∈ nodes → k ∈ nodes → par c1 = par c2 →
  under c1 k → under c2 k → c1 = c2.
Proof.
  intros H1 H2 Hk Hpar Hk1 Hk2.
  assert (Hup : ∀ a b, a ∈ nodes → b ∈ nodes → par a = par b →
                       under a b → a = b).
  { intros a b Ha Hb Hab Hbelow. inversion Hbelow as [|b' p Hp Hp']; subst;
      [reflexivity|].
    pose proof (par_level b p Hb Hp) as Hlt.
    pose proof (below_level a p Hp' (par_node b p Hb Hp)) as Hle.
    rewrite <- Hab in Hp. pose proof (par_level a p Ha Hp). lia. }
  destruct (below_linear c1 c2 k Hk1 Hk2) as [H|H].
  - now apply Hup.
  - symmetry. now apply Hup.
Qed.

(** The walk from a node returns with enough fuel, and passes each node at
    or below it once. *)
Lemma walk_subtree (d : nat) : ∀ k,
  k ∈ nodes → bound - level k ≤ d →
  ∃ ks, (∀ fuel, d ≤ fuel → walk spanMap fuel k = Some ks)
        ∧ NoDup ks
        ∧ (∀ x, x ∈ ks ↔ x ∈ nodes ∧ under k x).
Proof.
  induction d as [|d IH]; intros k Hk Hd.
  - pose proof (level_bound k Hk). lia.
  - destruct (nodes_stored k Hk) as [n Hn].
    set (cs := sortSpans spanMap (children n)).
    set (g := λ c, default [] (walk spanMap d c)).
    assert (Hcs : ∀ c, c ∈ cs → c ∈ nodes ∧ par c = Some k).
    { intros c Hc. unfold cs in Hc. rewrite elem_of_sortSpans in Hc.
      now apply (children_par k n c Hk Hn). }
    assert (Hg : ∀ c, c ∈ cs →
              (∀ fuel, d ≤ fuel → walk spanMap fuel c = Some (g c))
              ∧ NoDup (g c) ∧ ∀ x, x ∈ g c ↔ x ∈ nodes ∧ under c x).
    { intros c Hc. destruct (Hcs c Hc) as [Hcn Hcp].
      pose proof (par_level c k Hcn Hcp).
      destruct (IH c Hcn ltac:(lia)) as (ks & Hks & Hnd & Hmem).
      unfold g. rewrite (Hks d) by lia. simpl. auto. }
    exists (k :: (cs ≫= g)). split; [|split].
    + intros [|fuel] Hfuel; [lia|]. simpl. rewrite Hn. fold cs.
      rewrite (walkEach_fun _ g); [reflexivity|].
      intros c Hc. apply (Hg c Hc). lia.
    + apply NoDup_cons. split.
      * intros (c & Hkc & Hc)%list_elem_of_bind.
        destruct (Hg c Hc) as (_ & _ & Hmem). apply Hmem in Hkc as [_ Hbelow].
        destruct (Hcs c Hc) as [Hcn Hcp].
        pose proof (par_level c k Hcn Hcp).
        pose proof (below_level c k Hbelow Hk). lia.
      * apply NoDup_bind.
        -- intros c1 c2 x Hc1 Hc2 Hx1 Hx2.
           destruct (Hg c1 Hc1) as (_ & _ & Hm1). apply Hm1 in Hx1 as [Hx Hb1].
           destruct (Hg c2 Hc2) as (_ & _ & Hm2). apply Hm2 in Hx2 as [_ Hb2].
           destruct (Hcs c1 Hc1) as [? Hp1]. destruct (Hcs c2 Hc2) as [? Hp2].
           apply (below_siblings c1 c2 x); auto. congruence.
        -- intros c Hc. apply (Hg c Hc).
        -- unfold cs. rewrite sortSpans_perm. now apply (children_NoDup k).
    + intros x. rewrite elem_of_cons, list_elem_of_bind. split.
      * intros [->|(c & Hxc & Hc)]; [split; [exact Hk|constructor]|].
        destruct (Hg c Hc) as (_ & _ & Hmem). apply Hmem in Hxc as [Hx Hb].
        destruct (Hcs c Hc) as [_ Hcp].
        split; [exact Hx|]. now apply (below_child k c x).
      * intros [Hx Hb].
        destruct (below_inv k x Hb Hx) as [->|(c & Hc & Hcp & Hcx)];
          [now left|right].
        assert (Hccs : c ∈ cs).
        { unfold cs. rewrite elem_of_sortSpans.
          now apply (children_par k n c Hk Hn). }
        exists c. split; [|exact Hccs].
        destruct (Hg c Hccs) as (_ & _ & Hmem). now apply Hmem.
Qed.

(** With [bound] as fuel, or more, the walk from a node is its subtree. *)
Lemma walk_is_subtree (k : string) (fuel : nat) :
  k ∈ nodes → bound ≤ fuel →
  walk spanMap fuel k = Some (subtree spanMap bound k)
  ∧ NoDup (subtree spanMap bound k)
  ∧ (∀ x, x ∈ subtree spanMap bound k ↔ x ∈ nodes ∧ under k x).
Proof.
  intros Hk Hfuel.
  destruct (walk_subtree bound k Hk ltac:(lia)) as (ks & Hks & Hnd & Hmem).
  unfold subtree. rewrite (Hks bound) by lia. simpl.
  rewrite (Hks fuel) by lia. auto.
Qed.

(** A subtree is its node followed by the subtrees of the children, in the
    order of their start times. *)
Lemma subtree_unfold (k : string) (n : HierarchicalSpan) :
  k ∈ nodes → spanMap !! k = Some n →
  subtree spanMap bound k
  = k :: (sortSpans spanMap (children n) ≫= subtree spanMap bound).
Proof.
  intros Hk Hn.
  destruct (walk_is_subtree k (S bound) Hk ltac:(lia)) as (Hw & _).
  simpl in Hw. rewrite Hn in Hw.
  rewrite (walkEach_fun _ (subtree spanMap bound)) in Hw.
  - simpl in Hw. now injection Hw as <-.
  - intros c Hc. rewrite elem_of_sortSpans in Hc.
    apply (children_par k n c Hk Hn) in Hc as [Hc _].
    now apply walk_is_subtree.
Qed.

(** Every node is at or below a root. *)
Lemma below_some_root (d : nat) : ∀ k,
  k ∈ nodes → level k ≤ d → ∃ r, r ∈ roots ∧ under r k.
Proof.
  induction d as [|d IH]; intros k Hk Hd.
  - destruct (par k) as [p|] eqn:Hp.
    + pose proof (par_level k p Hk Hp). lia.
    + exists k. split; [now apply roots_par|constructor].
  - destruct (par k) as [p|] eqn:Hp.
    + pose proof (par_level k p Hk Hp).
      destruct (IH p (par_node k p Hk Hp) ltac:(lia)) as (r & Hr & Hrp).
      exists r. split; [exact Hr|]. eapply below_step; eassumption.
    + exists k. split; [now apply roots_par|constructor].
Qed.

(** The walk over the roots passes every node once. *)
Lemma walkAll_forest (fuel : nat) :
  bound ≤ fuel →
  walkAll spanMap fuel roots
  = Some (sortSpans spanMap roots ≫= subtree spanMap bound)
  ∧ sortSpans spanMap roots ≫= subtree spanMap bound ≡ₚ nodes.
Proof.
  intros Hfuel.
  assert (Hroot : ∀ r, r ∈ sortSpans spanMap roots → r ∈ nodes ∧ par r = None).
  { intros r Hr. rewrite elem_of_sortSpans in Hr. now apply roots_par. }
  split.
  - unfold walkAll. apply walkEach_fun. intros r Hr.
    apply walk_is_subtree; [apply (Hroot r Hr)|exact Hfuel].
  - apply NoDup_Permutation; [|exact nodes_NoDup|].
    + apply NoDup_bind.
      * intros r1 r2 x Hr1 Hr2 Hx1 Hx2.
        destruct (Hroot r1 Hr1) as [Hn1 Hp1].
        destruct (Hroot r2 Hr2) as [Hn2 Hp2].
        apply (walk_is_subtree r1 bound Hn1 (le_n _)) in Hx1 as [Hx Hb1].
        apply (walk_is_subtree r2 bound Hn2 (le_n _)) in Hx2 as [_ Hb2].
        apply (below_siblings r1 r2 x); auto. congruence.
      * intros r Hr. apply (walk_is_subtree r bound); [|lia].
        apply (Hroot r Hr).
      * rewrite sortSpans_perm. exact roots_NoDup.
    + intros x. rewrite list_elem_of_bind. split.
      * intros (r & Hx & Hr).
        apply (walk_is_subtree r bound) in Hx; [tauto| |lia].
        -- apply (Hroot r Hr).
      * intros Hx.
        destruct (below_some_root (level x) x Hx (le_n _)) as (r & Hr & Hrx).
        exists r. split; [|now rewrite elem_of_sortSpans].
        apply (walk_is_subtree r bound); [now apply roots_par|lia|].
        now split.
Qed.

(** *** The order of the walk *)

Local Abbreviation tree := (subtree spanMap bound).
Local Abbreviation out := (sortSpans spanMap roots ≫= subtree spanMap bound).

Lemma subtree_head (k : string) : k ∈ nodes → k ∈ tree k.
Proof.
  intros Hk. apply (walk_is_subtree k bound Hk (le_n _)).
  split; [exact Hk|constructor].
Qed.

(** The subtree of every node is a segment of the walk. *)
Lemma subtree_segment (k : string) :
  k ∈ nodes → ∃ l1 l2, out = l1 ++ tree k ++ l2.
Proof.
  intros Hk.
  destruct (below_some_root (level k) k Hk (le_n _)) as (r & Hr & Hrk).
  induction Hrk as [|k p Hp Hbelow IH].
  - rewrite <- (elem_of_sortSpans spanMap) in Hr.
    apply list_elem_of_split in Hr as (s1 & s2 & ->).
    exists (s1 ≫= tree), (s2 ≫= tree). now rewrite bind_app, bind_cons.
  - pose proof (par_node k p Hk Hp) as Hpn.
    destruct (IH Hpn) as (l1 & l2 & ->).
    destruct (nodes_stored p Hpn) as [n Hn].
    assert (Hkc : k ∈ sortSpans spanMap (children n)).
    { rewrite elem_of_sortSpans. now apply (children_par p n k Hpn Hn). }
    apply list_elem_of_split in Hkc as (s1 & s2 & Hs).
    rewrite (subtree_unfold p n Hpn Hn), Hs, bind_app, bind_cons.
    exists (l1 ++ p :: (s1 ≫= tree)), ((s2 ≫= tree) ++ l2).
    rewrite <- !app_assoc. simpl. now rewrite <- !app_assoc.
Qed.

Lemma before_segment (l1 l2 seg : list string) (a b : string) :
  before seg a b → before (l1 ++ seg ++ l2) a b.
Proof.
  intros H. apply before_app. right. left. apply before_app. now left.
Qed.

(** A node comes before the nodes below it. *)
Lemma before_below (a k : string) :
  a ∈ nodes → k ∈ nodes → under a k → a ≠ k → before out a k.
Proof.
  intros Ha Hk Hak Hne.
  destruct (subtree_segment a Ha) as (l1 & l2 & ->).
  apply before_segment.
  destruct (nodes_stored a Ha) as [n Hn].
  assert (Hin : k ∈ tree a).
  { apply (walk_is_subtree a bound Ha (le_n _)). now split. }
  rewrite (subtree_unfold a n Ha Hn) in Hin |- *.
  apply elem_of_cons in Hin as [->|Hin]; [contradiction|].
  simpl. left. now split.
Qed.

(** Below one node, the subtrees follow the sorted children: what is at or
    below an earlier child comes before what is at or below a later one. *)
Lemma before_children (k : string) (n : HierarchicalSpan) (c1 c2 x y : string) :
  k ∈ nodes → spanMap !! k = Some n →
  before (sortSpans spanMap (children n)) c1 c2 →
  x ∈ tree c1 → y ∈ tree c2 → before out x y.
Proof.
  intros Hk Hn Hc Hx Hy.
  destruct (subtree_segment k Hk) as (l1 & l2 & ->).
  apply before_segment. rewrite (subtree_unfold k n Hk Hn). simpl. right.
  now apply (before_bind _ _ c1 c2).
Qed.

Lemma before_roots (r1 r2 x y : string) :
  before (sortSpans spanMap roots) r1 r2 →
  x ∈ tree r1 → y ∈ tree r2 → before out x y.
Proof. intros Hr Hx Hy. now apply (before_bind _ _ r1 r2). Qed.

End Forest.

(** ** Hit sets that form a forest *)

Lemma filter_ext_elem {A} (P Q : A → Prop) `{∀ a, Decision (P a)}
    `{∀ a, Decision (Q a)} (l : list A) :
  (∀ a, a ∈ l → P a ↔ Q a) → filter P l = filter Q l.
Proof.
  induction l as [|a l IH]; intros Hext; [reflexivity|].
  rewrite !filter_cons.
  rewrite IH by (intros b Hb; apply Hext; now right).
  destruct (decide (P a)) as [Hp|Hp], (decide (Q a)) as [Hq|Hq];
    try reflexivity; exfalso; apply (Hext a ltac:(left)) in Hp || apply Hp;
    try contradiction; now apply (Hext a ltac:(left)).
Qed.

Section TreeFacts.

Variable parseIsoToNano : option StartTime → number.
Variable mode : TraceAnalyticsMode.
Variable hits : list ParsedHit.

Hypothesis tree : treeShaped parseIsoToNano mode hits = true.

Local Abbreviation key := (keyOf mode).
Local Abbreviation m0 := (indexHits parseIsoToNano mode hits).
Local Abbreviation hierarchy :=
  (hitsToHierarchicalSpans parseIsoToNano hits mode).
Local Abbreviation par := (parentOfKey parseIsoToNano mode hits).
Local Abbreviation parentK := (parentKey parseIsoToNano mode hits).
Local Abbreviation depth := (depthOf parseIsoToNano mode hits).
Local Abbreviation levelOf := (levelOf parseIsoToNano mode hits).

Lemma tree_keys : NoDup (key <$> hits).
Proof.
  unfold treeShaped in tree. rewrite !andb_true_iff in tree.
  destruct tree as [[[[Hk _] _] _] _]. now apply bool_decide_eq_true in Hk.
Qed.

Lemma tree_hits : NoDup hits.
Proof. exact (NoDup_fmap_1 key hits tree_keys). Qed.

Lemma tree_ids : NoDup (spanIdOf mode <$> hits).
Proof.
  apply (NoDup_fmap_1 propKey). rewrite <- list_fmap_compose. exact tree_keys.
Qed.

Lemma key_inj (a b : ParsedHit) : a ∈ hits → b ∈ hits → key a = key b → a = b.
Proof.
  intros Ha Hb Hab. pose proof tree_keys as Hnd.
  apply list_elem_of_lookup in Ha as [i Hi], Hb as [j Hj].
  assert (i = j) as ->; [|congruence].
  apply (NoDup_lookup _ i j (key a) Hnd).
  - now rewrite list_lookup_fmap, Hi.
  - now rewrite list_lookup_fmap, Hj, Hab.
Qed.

Lemma tree_place (h : ParsedHit) :
  h ∈ hits →
  (parentsOf mode m0 h = [] ∧ registersRoot mode m0 h = true)
  ∨ (∃ p, parentsOf mode m0 h = [p] ∧ registersRoot mode m0 h = false).
Proof.
  intros Hh. unfold treeShaped in tree. rewrite !andb_true_iff in tree.
  destruct tree as [[[[_ Hp] _] _] _]. rewrite forallb_forall in Hp.
  specialize (Hp h ltac:(now apply list_elem_of_In)).
  unfold onePlace in Hp. apply bool_decide_eq_true in Hp.
  destruct (registersRoot mode m0 h), (parentsOf mode m0 h) as [|p [|q l]];
    simpl in Hp; try lia; eauto.
Qed.

Lemma tree_reaches (h : ParsedHit) :
  h ∈ hits → is_Some (depth (length hits) (key h)).
Proof.
  intros Hh. unfold treeShaped in tree. rewrite !andb_true_iff in tree.
  destruct tree as [[[_ Hr] _] _]. rewrite forallb_forall in Hr.
  specialize (Hr h ltac:(now apply list_elem_of_In)).
  now apply bool_decide_eq_true in Hr.
Qed.

Lemma tree_accepted (h : ParsedHit) :
  h ∈ hits → ∃ p, parseSpanHitData h mode = Ok p.
Proof.
  intros Hh. unfold treeShaped in tree. rewrite !andb_true_iff in tree.
  destruct tree as [[_ Ha] _]. rewrite forallb_forall in Ha.
  specialize (Ha h ltac:(now apply list_elem_of_In)).
  unfold accepted in Ha. destruct (parseSpanHitData h mode); eauto; discriminate.
Qed.

(** The hierarchy builder returns. *)
Lemma tree_built : thrown hierarchy = false.
Proof.
  rewrite hierarchy_thrown.
  destruct (existsb _ hits) eqn:E; [exfalso|reflexivity].
  apply existsb_exists in E as (h & Hh & Hf).
  unfold treeShaped in tree. rewrite !andb_true_iff in tree.
  destruct tree as [_ Hl]. rewrite forallb_forall in Hl.
  specialize (Hl h Hh). unfold linked in Hl. now rewrite Hf in Hl.
Qed.

(** In the data prepper modes no parent link finds [Object.prototype]. *)
Lemma tree_unpolluted :
  isJaeger mode = true ∨ pollutedAfter mode m0 hits = false.
Proof.
  destruct (isJaeger mode) eqn:Hmode; [now left|right].
  unfold pollutedAfter.
  destruct (existsb _ hits) eqn:E; [exfalso|reflexivity].
  apply existsb_exists in E as (h & Hh%list_elem_of_In & Hf).
  unfold findsPrototype, linkNames in Hf. rewrite Hmode in Hf.
  destruct (truthy (parentSpanId (_source h))) eqn:Hparent; [|discriminate].
  simpl in Hf. rewrite orb_false_r in Hf.
  assert (Hno : ¬ is_Some (m0 !! propKey (parentSpanId (_source h)))).
  { intros H. apply (lookupProperty_span m0 false) in H.
    rewrite H in Hf. discriminate. }
  apply foundPrototype_truthy in Hf.
  destruct (tree_place h Hh) as [[_ Hr]|(p & Hp & _)].
  - unfold registersRoot, registersRootIn in Hr.
    rewrite Hmode, Hparent, Hf in Hr. discriminate.
  - unfold parentsOf in Hp. rewrite Hmode, Hparent in Hp.
    rewrite bool_decide_eq_false_2 in Hp by exact Hno. discriminate.
Qed.

(** The root test and the parent of a hit. *)
Lemma tree_root_iff (h : ParsedHit) :
  h ∈ hits → registersRoot mode m0 h = true ↔ parentK h = None.
Proof.
  intros Hh. unfold parentKey.
  destruct (tree_place h Hh) as [[-> ->]|(p & -> & ->)]; simpl;
    split; congruence.
Qed.

Lemma par_key (h : ParsedHit) : h ∈ hits → par (key h) = parentK h.
Proof.
  intros Hh. unfold parentOfKey.
  now rewrite (indexHits_unique _ _ _ _ tree_keys Hh).
Qed.

Lemma parentsOf_resolve (h : ParsedHit) (p : string) :
  p ∈ parentsOf mode m0 h → p ∈ key <$> hits.
Proof.
  intros Hp. apply (indexHits_is_Some parseIsoToNano). unfold parentsOf in Hp.
  destruct (isJaeger mode).
  - apply list_elem_of_fmap in Hp as (r & -> & Hr).
    now apply list_elem_of_filter in Hr as [[_ ?] _].
  - destruct (truthy _ && _) eqn:E; [|inversion Hp].
    apply list_elem_of_singleton in Hp as ->.
    apply andb_true_iff in E as [_ E]. now apply bool_decide_eq_true in E.
Qed.

Lemma parentKey_resolve (h : ParsedHit) (p : string) :
  parentK h = Some p → p ∈ key <$> hits.
Proof.
  unfold parentKey. intros Hp. apply (parentsOf_resolve h).
  destruct (parentsOf mode m0 h); [discriminate|].
  injection Hp as ->. left.
Qed.

(** The children of a node are the hits whose parent it is, in hit order. *)
Lemma tree_children_of (l : list ParsedHit) (k : string) :
  (∀ h, h ∈ l → h ∈ hits) →
  l ≫= attachedTo mode m0 k = key <$> filter (λ h, parentK h = Some k) l.
Proof.
  induction l as [|h l IH]; intros Hall; [reflexivity|].
  rewrite bind_cons, filter_cons, IH by (intros; apply Hall; now right).
  unfold attachedTo, parentKey.
  destruct (tree_place h (Hall h ltac:(left))) as [[-> _]|(p & -> & _)]; simpl.
  - reflexivity.
  - rewrite filter_one. destruct (decide (p = k)) as [->|Hne].
    + rewrite decide_True by reflexivity. reflexivity.
    + rewrite decide_False by congruence. reflexivity.
Qed.

Lemma tree_children (k : string) :
  childrenOf mode m0 hits k
  = key <$> filter (λ h, parentK h = Some k) hits.
Proof. apply tree_children_of. auto. Qed.

Lemma tree_roots :
  rootSpans hierarchy = key <$> filter (λ h, parentK h = None) hits.
Proof.
  destruct (hierarchy_spec parseIsoToNano mode hits) as (_ & _ & Hexact).
  rewrite (Hexact tree_ids tree_unpolluted). f_equal.
  apply filter_ext_elem. intros h Hh. now apply tree_root_iff.
Qed.

Lemma NoDup_keys_filter (P : ParsedHit → Prop) `{∀ h, Decision (P h)} :
  NoDup (key <$> filter P hits).
Proof.
  apply NoDup_fmap_2_strong.
  - intros a b [_ Ha]%list_elem_of_filter [_ Hb]%list_elem_of_filter.
    now apply key_inj.
  - apply NoDup_filter, tree_hits.
Qed.

(** *** Depths *)

Lemma depthOf_mono (f : nat) : ∀ k d f',
  depth f k = Some d → f ≤ f' → depth f' k = Some d.
Proof.
  induction f as [|f IH]; intros k d f' Hd Hf; [discriminate|].
  destruct f' as [|f']; [lia|]. simpl in *.
  destruct (par k) as [p|]; [|exact Hd].
  destruct (depth f p) as [d'|] eqn:Hp; [|discriminate].
  now rewrite (IH p d' f' Hp ltac:(lia)).
Qed.

Lemma depthOf_lt (f : nat) : ∀ k d, depth f k = Some d → d < f.
Proof.
  induction f as [|f IH]; intros k d Hd; [discriminate|]. simpl in Hd.
  destruct (par k) as [p|]; [|injection Hd as <-; lia].
  destruct (depth f p) as [d'|] eqn:Hp; [|discriminate].
  injection Hd as <-. pose proof (IH p d' Hp). lia.
Qed.

Lemma tree_par_node (c p : string) :
  c ∈ key <$> hits → par c = Some p → p ∈ key <$> hits.
Proof.
  intros (h & -> & Hh)%list_elem_of_fmap Hp. rewrite (par_key h Hh) in Hp.
  now apply (parentKey_resolve h).
Qed.

Lemma tree_par_level (c p : string) :
  c ∈ key <$> hits → par c = Some p → levelOf p < levelOf c.
Proof.
  intros Hc Hp. pose proof (tree_par_node c p Hc Hp) as Hpn.
  apply list_elem_of_fmap in Hc as (h & -> & Hh).
  apply list_elem_of_fmap in Hpn as (hp & -> & Hhp).
  destruct (tree_reaches h Hh) as [d Hd].
  destruct (tree_reaches hp Hhp) as [dp Hdp].
  unfold levelOf. rewrite Hd, Hdp. simpl.
  destruct (length hits) as [|n]; [discriminate|]. simpl in Hd.
  rewrite Hp in Hd.
  destruct (depth n (key hp)) as [d'|] eqn:Hd'; [|discriminate].
  injection Hd as <-.
  rewrite (depthOf_mono n (key hp) d' (S n) Hd' ltac:(lia)) in Hdp.
  injection Hdp as <-. lia.
Qed.

Lemma tree_level_bound (k : string) :
  k ∈ key <$> hits → levelOf k < length hits.
Proof.
  intros (h & -> & Hh)%list_elem_of_fmap.
  destruct (tree_reaches h Hh) as [d Hd].
  unfold levelOf. rewrite Hd. simpl. now apply (depthOf_lt _ _ _ Hd).
Qed.

(** *** The hierarchy of a forest *)

Lemma tree_nodes_stored (k : string) :
  k ∈ key <$> hits → is_Some (spanMap hierarchy !! k).
Proof. apply hierarchy_is_Some. Qed.

Lemma tree_node_children (k : string) (n : HierarchicalSpan) :
  spanMap hierarchy !! k = Some n →
  children n = key <$> filter (λ h, parentK h = Some k) hits.
Proof.
  intros Hn.
  destruct (hierarchy_lookup _ _ _ _ _ Hn) as (_ & _ & _ & _ & _ & ->).
  apply tree_children.
Qed.

Lemma tree_children_NoDup (k : string) (n : HierarchicalSpan) :
  spanMap hierarchy !! k = Some n → NoDup (children n).
Proof.
  intros Hn. rewrite (tree_node_children k n Hn). apply NoDup_keys_filter.
Qed.

Lemma tree_children_par (k : string) (n : HierarchicalSpan) (c : string) :
  k ∈ key <$> hits → spanMap hierarchy !! k = Some n →
  c ∈ children n ↔ c ∈ key <$> hits ∧ par c = Some k.
Proof.
  intros _ Hn. rewrite (tree_node_children k n Hn), !list_elem_of_fmap.
  split.
  - intros (h & -> & [Hp Hh]%list_elem_of_filter).
    split; [eauto|]. now rewrite par_key.
  - intros [(h & -> & Hh) Hp]. exists h. split; [reflexivity|].
    apply list_elem_of_filter. split; [|exact Hh]. now rewrite <- par_key.
Qed.

Lemma tree_roots_NoDup : NoDup (rootSpans hierarchy).
Proof. rewrite tree_roots. apply NoDup_keys_filter. Qed.

Lemma tree_roots_par (r : string) :
  r ∈ rootSpans hierarchy ↔ r ∈ key <$> hits ∧ par r = None.
Proof.
  rewrite tree_roots, !list_elem_of_fmap. split.
  - intros (h & -> & [Hp Hh]%list_elem_of_filter).
    split; [eauto|]. now rewrite par_key.
  - intros [(h & -> & Hh) Hp]. exists h. split; [reflexivity|].
    apply list_elem_of_filter. split; [|exact Hh]. now rewrite <- par_key.
Qed.

(** *** The layout of a forest *)

Local Abbreviation out := (treeWalk parseIsoToNano mode hits).
Local Abbreviation idOf := (spanIdOfKey parseIsoToNano mode hits).

Lemma tree_walk (fuel : nat) :
  length hits ≤ fuel →
  walkAll (spanMap hierarchy) fuel (rootSpans hierarchy) = Some out
  ∧ out ≡ₚ key <$> hits.
Proof.
  exact (walkAll_forest (spanMap hierarchy) (key <$> hits) par
           (rootSpans hierarchy) levelOf (length hits)
           tree_keys tree_nodes_stored tree_children_NoDup tree_children_par
           tree_par_node tree_par_level tree_level_bound tree_roots_NoDup
           tree_roots_par fuel).
Qed.

Lemma tree_walk_NoDup : NoDup out.
Proof.
  destruct (tree_walk (length hits) (le_n _)) as [_ Hperm].
  rewrite Hperm. exact tree_keys.
Qed.

Lemma spanIdOfKey_key (h : ParsedHit) : h ∈ hits → idOf (key h) = spanIdOf mode h.
Proof.
  intros Hh. unfold spanIdOfKey.
  now rewrite (indexHits_unique _ _ _ _ tree_keys Hh).
Qed.

Lemma tree_startOf (h : ParsedHit) :
  h ∈ hits →
  startOf (spanMap hierarchy) (key h)
  = getStartTimeInNanos parseIsoToNano h mode.
Proof.
  intros Hh. unfold startOf.
  destruct (tree_nodes_stored (key h)) as [n Hn];
    [now apply list_elem_of_fmap_2|].
  rewrite Hn. simpl.
  destruct (hierarchy_lookup _ _ _ _ _ Hn) as (h' & Hh' & Hk & _ & -> & _).
  now rewrite (key_inj h' h Hh' Hh Hk).
Qed.

(** The layout of a forest returns, and its bars are those of the walk. *)
Lemma tree_loads (fuel : nat) (colorMap : gmap string string)
    (st : PanelState) :
  length hits ≤ fuel →
  ∃ st', loadHits parseIsoToNano fuel hits mode colorMap st = Ok st'
         ∧ pd_y <$> gantt st' = idOf <$> out.
Proof.
  intros Hfuel. destruct (tree_walk fuel Hfuel) as [Hwalk Hperm].
  assert (Hparsed : Forall (parsedAt (spanMap hierarchy) mode) out).
  { apply Forall_forall. intros k _ span Hspan.
    destruct (hierarchy_lookup _ _ _ _ _ Hspan) as (h & Hh & _ & -> & _).
    now apply tree_accepted. }
  destruct (createPlotlyData_returns (spanMap hierarchy) mode colorMap
              (rootMinStartMs hierarchy) fuel (rootSpans hierarchy) out
              Hwalk Hparsed) as [chart Hchart].
  assert (Hload : ∃ st', loadHits parseIsoToNano fuel hits mode colorMap st
                         = Ok st').
  { rewrite (loadHits_unthrown _ _ _ _ _ _ tree_built).
    unfold rootMinStartMs in Hchart. rewrite Hchart. simpl. eauto. }
  destruct Hload as [st' Hload]. exists st'. split; [exact Hload|].
  destruct (loadHits_visits _ _ _ _ _ _ _ Hload) as (vs & Hw & Hvs & Hg & _).
  rewrite Hwalk in Hw. injection Hw as ->.
  rewrite Hg, <- !list_fmap_compose. apply Forall_fmap_ext_1.
  eapply Forall_impl; [exact Hvs|].
  intros v (h & Hh & Hk & _ & _ & _ & Hp). simpl.
  apply parseSpanHitData_fields in Hp as [-> _].
  now rewrite <- Hk, spanIdOfKey_key.
Qed.

(** A hit comes before the hits below it. *)
Lemma tree_before_below (p d : ParsedHit) :
  p ∈ hits → d ∈ hits → p ≠ d → below par (key p) (key d) →
  before out (key p) (key d).
Proof.
  intros Hp Hd Hne Hbelow.
  apply (before_below (spanMap hierarchy) (key <$> hits) par
           (rootSpans hierarchy) levelOf (length hits)
           tree_nodes_stored tree_children_NoDup tree_children_par
           tree_par_node tree_par_level tree_level_bound tree_roots_par);
    auto using list_elem_of_fmap_2.
  intros Hk. apply Hne. now apply key_inj.
Qed.

Lemma tree_subtree_head (h : ParsedHit) :
  h ∈ hits → key h ∈ subtree (spanMap hierarchy) (length hits) (key h).
Proof.
  intros Hh.
  apply (subtree_head (spanMap hierarchy) (key <$> hits) par levelOf
           (length hits)
           tree_nodes_stored tree_children_NoDup tree_children_par
           tree_par_node tree_par_level tree_level_bound).
  now apply list_elem_of_fmap_2.
Qed.

Lemma tree_subtree_below (a x : ParsedHit) :
  a ∈ hits → x ∈ hits → below par (key a) (key x) →
  key x ∈ subtree (spanMap hierarchy) (length hits) (key a).
Proof.
  intros Ha Hx Hbelow.
  apply (walk_is_subtree (spanMap hierarchy) (key <$> hits) par levelOf
           (length hits)
           tree_nodes_stored tree_children_NoDup tree_children_par
           tree_par_node tree_par_level tree_level_bound
           (key a) (length hits));
    auto using list_elem_of_fmap_2.
Qed.

(** The hits that hang from the same place as [a], as keys in hit order:
    the children of the parent of [a], or the roots. *)
Lemma tree_siblings_sorted (a b x y : ParsedHit) :
  a ∈ hits → b ∈ hits → x ∈ hits → y ∈ hits →
  siblings parseIsoToNano mode hits a b →
  before
    (sortSpans (spanMap hierarchy)
       (key <$> filter (λ h, parentK h = parentK a) hits))
    (key a) (key b) →
  below par (key a) (key x) → below par (key b) (key y) →
  before out (key x) (key y).
Proof.
  intros Ha Hb Hx Hy Hsib Hbefore Hax Hby.
  pose proof (tree_subtree_below a x Ha Hx Hax) as Hxin.
  pose proof (tree_subtree_below b y Hb Hy Hby) as Hyin.
  assert (Hlist : key <$> filter (λ h, parentK h = parentK a) hits
                  = match parentK a with
                    | Some k => key <$> filter (λ h, parentK h = Some k) hits
                    | None => key <$> filter (λ h, parentK h = None) hits
                    end).
  { destruct (parentK a); f_equal; apply filter_ext_elem; tauto. }
  rewrite Hlist in Hbefore. clear Hlist.
  destruct (parentK a) as [k|] eqn:Hk.
  - assert (Hkn : k ∈ key <$> hits) by now apply (parentKey_resolve a).
    destruct (tree_nodes_stored k Hkn) as [n Hn].
    rewrite <- (tree_node_children k n Hn) in Hbefore.
    apply (before_children (spanMap hierarchy) (key <$> hits) par
             (rootSpans hierarchy) levelOf (length hits)
             (tree_nodes_stored) (tree_children_NoDup) (tree_children_par)
             (tree_par_node) (tree_par_level) (tree_level_bound)
             (tree_roots_par) k n (key a) (key b)); auto.
  - rewrite <- tree_roots in Hbefore.
    now apply (before_roots _ _ _ (key a) (key b)).
Qed.

(** *** Siblings *)

Local Abbreviation startAt := (startQ parseIsoToNano mode).

Hypothesis finite_starts :
  ∀ h, h ∈ hits → isFinite (getStartTimeInNanos parseIsoToNano h mode).

Lemma tree_startOfQ (h : ParsedHit) :
  h ∈ hits → startOfQ (spanMap hierarchy) (key h) = startAt h.
Proof.
  intros Hh. unfold startOfQ, startQ. now rewrite (tree_startOf h Hh).
Qed.

Lemma tree_finiteStart (h : ParsedHit) :
  h ∈ hits → finiteStart (spanMap hierarchy) (key h).
Proof.
  intros Hh. unfold finiteStart. rewrite (tree_startOf h Hh).
  now apply finite_starts.
Qed.

(** Of two hits that hang from the same place, the one that starts earlier
    is sorted first, and the one that comes first in the hits when they start
    together. *)
Lemma tree_siblings_before (a b : ParsedHit) :
  a ∈ hits → b ∈ hits → siblings parseIsoToNano mode hits a b →
  (startAt a < startAt b)%Q
  ∨ ((startAt a == startAt b)%Q ∧ before hits a b) →
  before
    (sortSpans (spanMap hierarchy)
       (key <$> filter (λ h, parentK h = parentK a) hits))
    (key a) (key b).
Proof.
  intros Ha Hb Hsib Hprec.
  assert (Hain : a ∈ filter (λ h, parentK h = parentK a) hits).
  { apply list_elem_of_filter. now split. }
  assert (Hbin : b ∈ filter (λ h, parentK h = parentK a) hits).
  { apply list_elem_of_filter. split; [now symmetry|exact Hb]. }
  apply sortSpans_before.
  - apply NoDup_keys_filter.
  - apply Forall_forall. intros k (h & -> & [_ Hh]%list_elem_of_filter)%list_elem_of_fmap.
    now apply tree_finiteStart.
  - now apply list_elem_of_fmap_2.
  - now apply list_elem_of_fmap_2.
  - rewrite !tree_startOfQ by assumption.
    destruct Hprec as [Hlt|[Heq Hbefore]]; [now left|right].
    split; [exact Heq|]. apply before_fmap.
    apply before_filter; [reflexivity|now symmetry|exact Hbefore].
Qed.

(** One of two distinct siblings is sorted first. *)
Lemma tree_siblings_total (a b : ParsedHit) :
  a ∈ hits → b ∈ hits → a ≠ b →
  ((startAt a < startAt b)%Q
   ∨ ((startAt a == startAt b)%Q ∧ before hits a b))
  ∨ ((startAt b < startAt a)%Q
     ∨ ((startAt b == startAt a)%Q ∧ before hits b a)).
Proof.
  intros Ha Hb Hne.
  destruct (Q_dec (startAt a) (startAt b)) as [[Hlt|Hgt]|Heq].
  - left. now left.
  - right. now left.
  - destruct (before_total hits a b Ha Hb Hne) as [H|H].
    + left. right. now split.
    + right. right. split; [now symmetry|exact H].
Qed.

End TreeFacts.

(** ** The binary search *)

Lemma ofZ_Fin (z : Z) : ofZ z = Fin (inject_Z z).
Proof.
  unfold ofZ, fin. f_equal. unfold Qred, inject_Z.
  pose proof (Z.ggcd_gcd z 1) as Hg.
  pose proof (Z.ggcd_correct_divisors z 1) as Hd.
  destruct (Z.ggcd z 1) as [g [q1 q2]]. simpl in Hg, Hd.
  rewrite Z.gcd_1_r in Hg. subst g. destruct Hd as [H1 H2].
  rewrite Z.mul_1_l in H1, H2. subst. reflexivity.
Qed.

Lemma qltb_inject_Z (x y : Z) : qltb (inject_Z x) (inject_Z y) = (x <? y)%Z.
Proof.
  destruct (x <? y)%Z eqn:E.
  - apply qltb_lt. rewrite <- Zlt_Qlt. now apply Z.ltb_lt.
  - apply qltb_ge. rewrite <- Zle_Qle. now apply Z.ltb_ge.
Qed.

(** The clamp [Math.max(0, Math.min(100, low))] of an index. *)
Lemma clamp_index (k : nat) :
  max (ofZ 0) (min (ofZ 100) (ofZ (Z.of_nat k)))
  = ofZ (Z.min 100 (Z.of_nat k)).
Proof.
  rewrite !ofZ_Fin. unfold min. rewrite qltb_inject_Z.
  destruct (Z.of_nat k <? 100)%Z eqn:E.
  - apply Z.ltb_lt in E. unfold max. rewrite qltb_inject_Z.
    rewrite Z.min_r by lia.
    destruct (0 <? Z.of_nat k)%Z eqn:E0; [reflexivity|].
    apply Z.ltb_ge in E0. f_equal. f_equal. lia.
  - apply Z.ltb_ge in E. rewrite Z.min_l by lia. reflexivity.
Qed.

Lemma midpoint_bounds (low high : nat) :
  low < high → low ≤ (low + high) / 2 < high.
Proof.
  intros H. pose proof (Nat.div_mod_eq (low + high) 2).
  pose proof (Nat.mod_upper_bound (low + high) 2). lia.
Qed.

Lemma binarySearchLoop_step (arr : list number) (target : number)
    (low high : nat) :
  binarySearchLoop arr target low high
  = if decide (low < high)
    then if belowTarget arr target ((low + high) / 2)
         then binarySearchLoop arr target ((low + high) / 2 + 1) high
         else binarySearchLoop arr target low ((low + high) / 2)
    else low.
Proof.
  rewrite binarySearchLoop_equation_1. destruct (decide (low < high)); reflexivity.
Qed.

(** The loop ends between its bounds. *)
Lemma binarySearchLoop_range (arr : list number) (target : number) (n : nat) :
  ∀ low high, high - low ≤ n → low ≤ high →
  low ≤ binarySearchLoop arr target low high ≤ high.
Proof.
  induction n as [|n IH]; intros low high Hn Hle;
    rewrite binarySearchLoop_step;
    (destruct (decide (low < high)) as [Hlt|]; [|lia]); [lia|].
  pose proof (midpoint_bounds low high Hlt).
  destruct (belowTarget arr target ((low + high) / 2)).
  - specialize (IH ((low + high) / 2 + 1) high). lia.
  - specialize (IH low ((low + high) / 2)). lia.
Qed.

(** When the test holds on an initial part of the indices only, the loop
    ends at the first index at which it fails. *)
Lemma binarySearchLoop_partition (arr : list number) (target : number)
    (n : nat) :
  (∀ i j, i ≤ j → belowTarget arr target j = true →
          belowTarget arr target i = true) →
  ∀ low high, high - low ≤ n → low ≤ high →
  (∀ i, i < low → belowTarget arr target i = true) →
  (∀ j, high ≤ j → belowTarget arr target j = false) →
  ∀ i, belowTarget arr target i = true
       ↔ i < binarySearchLoop arr target low high.
Proof.
  intros Hmono. induction n as [|n IH]; intros low high Hn Hle Hlow Hhigh i;
    rewrite binarySearchLoop_step;
    destruct (decide (low < high)) as [Hlt|Hge].
  - lia.
  - split; [|apply Hlow].
    intros Hi. destruct (decide (i < low)) as [|Hno]; [assumption|].
    rewrite Hhigh in Hi by lia. discriminate.
  - pose proof (midpoint_bounds low high Hlt).
    destruct (belowTarget arr target ((low + high) / 2)) eqn:E.
    + apply IH; [lia|lia| |exact Hhigh].
      intros i' Hi'. apply (Hmono i' ((low + high) / 2)); [lia|exact E].
    + apply IH; [lia|lia|exact Hlow|].
      intros j Hj. destruct (belowTarget arr target j) eqn:Ej; [|reflexivity].
      rewrite (Hmono ((low + high) / 2) j) in E by (lia || assumption).
      discriminate.
  - split; [|apply Hlow].
    intros Hi. destruct (decide (i < low)) as [|Hno]; [assumption|].
    rewrite Hhigh in Hi by lia. discriminate.
Qed.

Lemma StronglySorted_lookup {A} (R : A → A → Prop) (l : list A) :
  StronglySorted R l →
  ∀ i j a b, i < j → l !! i = Some a → l !! j = Some b → R a b.
Proof.
  induction 1 as [|x l Hs IH Hall]; intros i j a b Hij Hi Hj;
    [now rewrite lookup_nil in Hi|].
  destruct j as [|j]; [lia|]. simpl in Hj.
  destruct i as [|i].
  - simpl in Hi. injection Hi as <-. rewrite Forall_forall in Hall.
    apply Hall. eapply list_elem_of_lookup_2. exact Hj.
  - simpl in Hi. apply (IH i j); [lia|assumption|assumption].
Qed.

Lemma le_lt_trans (a b t : number) : le a b → lt b t = true → lt a t = true.
Proof.
  destruct a, b, t; simpl; try tauto; try discriminate.
  intros H1 H2. apply qltb_lt. apply qltb_lt in H2.
  eapply Qle_lt_trans; eassumption.
Qed.

Lemma lt_le_trans (a t u : number) : lt a t = true → le t u → lt a u = true.
Proof.
  destruct a, t, u; simpl; try tauto; try discriminate.
  intros H1 H2. apply qltb_lt. apply qltb_lt in H1.
  eapply Qlt_le_trans; eassumption.
Qed.

(** In an ascending array the test holds on an initial part. *)
Lemma belowTarget_sorted (arr : list number) (target : number) :
  StronglySorted le arr →
  ∀ i j, i ≤ j → belowTarget arr target j = true →
         belowTarget arr target i = true.
Proof.
  intros Hs i j Hij. unfold belowTarget.
  destruct (arr !! j) as [b|] eqn:Hj; [|discriminate].
  intros Hb. destruct (decide (i = j)) as [->|Hne]; [now rewrite Hj|].
  destruct (lookup_lt_is_Some_2 arr i) as [a Ha].
  { apply lookup_lt_Some in Hj. lia. }
  rewrite Ha. eapply le_lt_trans; [|exact Hb].
  apply (StronglySorted_lookup _ _ Hs i j); [lia|assumption|assumption].
Qed.

(** The index that the search returns for an ascending array. *)
Lemma binarySearch_sorted (arr : list number) (target : number) :
  StronglySorted le arr →
  ∃ k,
    k ≤ length arr
    ∧ (∀ i v, arr !! i = Some v → lt v target = true ↔ i < k)
    ∧ binarySearch (Some arr) target = ofZ (Z.min 100 (Z.of_nat k)).
Proof.
  intros Hs. exists (binarySearchLoop arr target 0 (length arr)).
  split; [|split].
  - apply (binarySearchLoop_range arr target (length arr)); lia.
  - intros i v Hi.
    pose proof (binarySearchLoop_partition arr target (length arr)
                  (belowTarget_sorted arr target Hs) 0 (length arr)) as Hp.
    rewrite <- Hp; [|lia|lia|intros; lia|].
    + unfold belowTarget. now rewrite Hi.
    + intros j Hj. unfold belowTarget. now rewrite lookup_ge_None_2.
  - unfold binarySearch. apply clamp_index.
Qed.

(** A test that holds exactly on the first [k] elements holds on [k]
    elements. *)
Lemma prefix_count {A} (P : A → Prop) `{∀ a, Decision (P a)} (l : list A) :
  ∀ k, k ≤ length l → (∀ i v, l !! i = Some v → P v ↔ i < k) →
       k = length (filter P l).
Proof.
  induction l as [|a l IH]; intros k Hk Hi.
  - simpl in Hk. simpl. lia.
  - rewrite filter_cons. destruct (decide (P a)) as [Ha|Ha].
    + destruct k as [|k]; [apply (Hi 0 a eq_refl) in Ha; lia|].
      simpl. f_equal. apply IH; [simpl in Hk; lia|].
      intros i v Hv. rewrite (Hi (S i) v Hv). lia.
    + assert (k = 0) as ->.
      { destruct k; [reflexivity|]. exfalso. apply Ha.
        apply (Hi 0 a eq_refl). lia. }
      apply IH; [lia|].
      intros i v Hv. rewrite (Hi (S i) v Hv). lia.
Qed.

Lemma binarySearch_count (arr : list number) (target : number) :
  StronglySorted le arr →
  binarySearch (Some arr) target
  = ofZ (Z.min 100
           (Z.of_nat (length (filter (λ v, lt v target = true) arr)))).
Proof.
  intros Hs. destruct (binarySearch_sorted arr target Hs) as (k & Hk & Hi & ->).
  now rewrite (prefix_count (λ v, lt v target = true) arr k Hk Hi).
Qed.

Lemma ofZ_le (x y : Z) : (x <= y)%Z → le (ofZ x) (ofZ y).
Proof. intros H. rewrite !ofZ_Fin. simpl. now rewrite <- Zle_Qle. Qed.

(** ** Span filters *)

Section FilterFacts.

Context {V : Type}.
Implicit Types (l : list (TraceFilter V)) (x : TraceFilter V).

Lemma findIndexFrom_find {A} (test : A → bool) (l : list A) (i : Z) :
  findIndexFrom test l i
  = match list_find (λ a, test a = true) l with
    | Some (j, _) => (i + Z.of_nat j)%Z
    | None => (-1)%Z
    end.
Proof.
  revert i. induction l as [|a l IH]; intros i; [reflexivity|].
  simpl. unfold list_find; fold (list_find (λ a, test a = true) l).
  destruct (test a) eqn:E.
  - rewrite decide_True by reflexivity. simpl. lia.
  - rewrite decide_False by discriminate. rewrite IH.
    destruct (list_find _ l) as [[j y]|]; simpl; lia.
Qed.

Lemma splice_at {A} (j : nat) (n : Z) (items l : list A) :
  j < length l → n = 1%Z →
  splice (Z.of_nat j) n items l = take j l ++ items ++ drop (S j) l.
Proof.
  intros Hj ->. unfold splice.
  destruct (Z.ltb_spec (Z.of_nat j) 0) as [|_]; [lia|].
  rewrite Z.min_l by lia. rewrite Nat2Z.id.
  replace (Z.to_nat (Z.of_nat j + Z.min (Z.max 1 0) (Z.of_nat (length l) - Z.of_nat j)))
    with (S j) by lia.
  reflexivity.
Qed.

(** The two functions in terms of the first filter of the field. *)
Lemma addSpanFilter_find l (field : string) (value : V) :
  addSpanFilter l field value
  = match list_find (λ x, field = tf_field x) l with
    | Some (j, _) => <[j := {| tf_field := field; tf_value := value |}]> l
    | None => l ++ [{| tf_field := field; tf_value := value |}]
    end.
Proof.
  unfold addSpanFilter, findIndex. rewrite findIndexFrom_find.
  rewrite (list_find_ext (λ x, bool_decide (field = tf_field x) = true)
             (λ x, field = tf_field x))
    by (intros; apply bool_decide_eq_true).
  destruct (list_find _ l) as [[j y]|] eqn:E.
  - rewrite bool_decide_eq_false_2 by lia.
    apply list_find_Some in E as (Hj & _).
    apply lookup_lt_Some in Hj. rewrite Z.add_0_l.
    rewrite splice_at by (lia || reflexivity).
    symmetry. rewrite insert_take_drop by exact Hj. reflexivity.
  - rewrite bool_decide_eq_true_2 by reflexivity. reflexivity.
Qed.

Lemma removeSpanFilter_find l (field : string) :
  removeSpanFilter l field
  = match list_find (λ x, field = tf_field x) l with
    | Some (j, _) => Some (delete j l)
    | None => None
    end.
Proof.
  unfold removeSpanFilter, findIndex. rewrite findIndexFrom_find.
  rewrite (list_find_ext (λ x, bool_decide (field = tf_field x) = true)
             (λ x, field = tf_field x))
    by (intros; apply bool_decide_eq_true).
  destruct (list_find _ l) as [[j y]|] eqn:E.
  - rewrite bool_decide_eq_true_2 by lia.
    apply list_find_Some in E as (Hj & _).
    apply lookup_lt_Some in Hj. rewrite Z.add_0_l.
    rewrite splice_at by (lia || reflexivity).
    f_equal. rewrite delete_take_drop. reflexivity.
  - rewrite bool_decide_eq_false_2 by (intros H; now apply H). reflexivity.
Qed.

(** The same, by recursion on the filters. *)
Lemma addSpanFilter_cons x l (field : string) (value : V) :
  addSpanFilter (x :: l) field value
  = if decide (field = tf_field x)
    then {| tf_field := field; tf_value := value |} :: l
    else x :: addSpanFilter l field value.
Proof.
  rewrite !addSpanFilter_find.
  unfold list_find at 1; fold (list_find (λ x, field = tf_field x) l).
  destruct (decide (field = tf_field x)); [reflexivity|].
  destruct (list_find _ l) as [[j y]|]; reflexivity.
Qed.

Lemma removeSpanFilter_cons x l (field : string) :
  removeSpanFilter (x :: l) field
  = if decide (field = tf_field x)
    then Some l
    else cons x <$> removeSpanFilter l field.
Proof.
  rewrite !removeSpanFilter_find.
  unfold list_find at 1; fold (list_find (λ x, field = tf_field x) l).
  destruct (decide (field = tf_field x)); [reflexivity|].
  destruct (list_find _ l) as [[j y]|]; reflexivity.
Qed.

Lemma addSpanFilter_nil (field : string) (value : V) :
  addSpanFilter [] field value = [{| tf_field := field; tf_value := value |}].
Proof. reflexivity. Qed.

Lemma addSpanFilter_fields l (field : string) (value : V) :
  tf_field <$> addSpanFilter l field value
  = if decide (field ∈ tf_field <$> l)
    then tf_field <$> l
    else (tf_field <$> l) ++ [field].
Proof.
  induction l as [|x l IH].
  - rewrite addSpanFilter_nil. rewrite decide_False by apply not_elem_of_nil.
    reflexivity.
  - rewrite addSpanFilter_cons. rewrite !fmap_cons.
    destruct (decide (field = tf_field x)) as [E|E].
    + rewrite decide_True by (rewrite E; left). rewrite fmap_cons. simpl.
      now rewrite E.
    + rewrite fmap_cons, IH.
      destruct (decide (field ∈ tf_field <$> l)) as [Hin|Hin].
      * rewrite decide_True by now right. reflexivity.
      * rewrite decide_False; [reflexivity|].
        intros Hc. apply elem_of_cons in Hc as [?|?]; contradiction.
Qed.

Lemma addSpanFilter_values l (field : string) (value : V) :
  filterValues (addSpanFilter l field value)
  = <[field := value]> (filterValues l).
Proof.
  unfold filterValues. induction l as [|x l IH]; [reflexivity|].
  rewrite addSpanFilter_cons.
  destruct (decide (field = tf_field x)) as [E|E].
  - rewrite !fmap_cons. simpl. rewrite E. now rewrite insert_insert_eq.
  - rewrite !fmap_cons. simpl. rewrite IH.
    apply insert_insert_ne. congruence.
Qed.

Lemma removeSpanFilter_None l (field : string) :
  removeSpanFilter l field = None ↔ field ∉ tf_field <$> l.
Proof.
  induction l as [|x l IH].
  - split; [intros _; apply not_elem_of_nil|reflexivity].
  - rewrite removeSpanFilter_cons, fmap_cons.
    destruct (decide (field = tf_field x)) as [E|E].
    + split; [discriminate|]. intros H. exfalso. apply H. rewrite E. left.
    + rewrite fmap_None, IH, not_elem_of_cons. tauto.
Qed.

Lemma removeSpanFilter_Some l l' (field : string) :
  removeSpanFilter l field = Some l' →
  ∃ l1 x l2, l = l1 ++ x :: l2 ∧ tf_field x = field
             ∧ (field ∉ tf_field <$> l1) ∧ l' = l1 ++ l2.
Proof.
  revert l'. induction l as [|x l IH]; intros l'; [discriminate|].
  rewrite removeSpanFilter_cons.
  destruct (decide (field = tf_field x)) as [E|E].
  - intros [= <-]. exists [], x, l. split; [reflexivity|].
    split; [now symmetry|]. split; [apply not_elem_of_nil|reflexivity].
  - intros H. apply fmap_Some in H as (l0 & H0 & ->).
    destruct (IH l0 H0) as (l1 & y & l2 & -> & Hy & Hno & ->).
    exists (x :: l1), y, l2. split; [reflexivity|]. split; [exact Hy|].
    split; [|reflexivity]. rewrite fmap_cons, not_elem_of_cons. split; congruence.
Qed.

Lemma filterValues_app l1 l2 :
  filterValues (l1 ++ l2) = filterValues l1 ∪ filterValues l2.
Proof. unfold filterValues. now rewrite fmap_app, list_to_map_app. Qed.

Lemma filterValues_notin l (field : string) :
  field ∉ tf_field <$> l → filterValues l !! field = None.
Proof.
  intros H. unfold filterValues. apply not_elem_of_list_to_map_1.
  now rewrite <- list_fmap_compose.
Qed.

Lemma removeSpanFilter_values l l' (field : string) :
  NoDup (tf_field <$> l) → removeSpanFilter l field = Some l' →
  NoDup (tf_field <$> l') ∧ (field ∉ tf_field <$> l')
  ∧ filterValues l' = delete field (filterValues l).
Proof.
  intros Hnd Hr.
  destruct (removeSpanFilter_Some _ _ _ Hr) as (l1 & x & l2 & -> & Hx & Hno & ->).
  rewrite fmap_app, fmap_cons, Hx in Hnd.
  apply NoDup_app in Hnd as (Hn1 & Hdisj & Hn2).
  apply NoDup_cons in Hn2 as (Hno2 & Hn2).
  split; [|split].
  - rewrite fmap_app. apply NoDup_app. split; [exact Hn1|]. split; [|exact Hn2].
    intros y Hy1 Hy2. apply (Hdisj y Hy1). now right.
  - rewrite fmap_app, elem_of_app. tauto.
  - rewrite !filterValues_app.
    change (x :: l2) with ([x] ++ l2). rewrite filterValues_app.
    rewrite delete_union, delete_union.
    rewrite (delete_id (filterValues l1)) by now apply filterValues_notin.
    rewrite (delete_id (filterValues l2)) by now apply filterValues_notin.
    assert (delete field (filterValues [x]) = (∅ : gmap string V)) as ->.
    { unfold filterValues. simpl. rewrite Hx, insert_empty.
      apply delete_singleton_eq. }
    now rewrite (left_id_L ∅ (∪)).
Qed.

Lemma addSpanFilter_again l (field : string) (v1 v2 : V) :
  addSpanFilter (addSpanFilter l field v1) field v2 = addSpanFilter l field v2.
Proof.
  induction l as [|x l IH].
  - rewrite addSpanFilter_nil, addSpanFilter_cons. simpl.
    now rewrite decide_True.
  - rewrite (addSpanFilter_cons x l field v1), (addSpanFilter_cons x l field v2).
    destruct (decide (field = tf_field x)) as [E|E].
    + rewrite addSpanFilter_cons. simpl. now rewrite decide_True.
    + rewrite addSpanFilter_cons. rewrite decide_False by exact E.
      now rewrite IH.
Qed.

Lemma removeSpanFilter_added l (field : string) (value : V) :
  field ∉ tf_field <$> l →
  removeSpanFilter (addSpanFilter l field value) field = Some l.
Proof.
  induction l as [|x l IH]; intros Hno.
  - rewrite addSpanFilter_nil, removeSpanFilter_cons. simpl.
    now rewrite decide_True.
  - rewrite fmap_cons, not_elem_of_cons in Hno. destruct Hno as [Hx Hno].
    rewrite addSpanFilter_cons, decide_False by exact Hx.
    rewrite removeSpanFilter_cons, decide_False by exact Hx.
    now rewrite IH.
Qed.

End FilterFacts.

(** ** Zooming *)

Lemma strictEq_refl (a : number) : a ≠ NaN → strictEq a a = true.
Proof.
  destruct a; simpl; try reflexivity; [congruence|].
  intros _. apply Qeq_bool_iff. reflexivity.
Qed.

Lemma strictEq_NaN_r (a : number) : strictEq a NaN = false.
Proof. now destruct a. Qed.

Lemma mul_scale_finite (a : number) (q : Q) :
  isFinite a → isFinite (mul a (fin q)).
Proof. destruct a; simpl; try contradiction. intros _. exact I. Qed.

Lemma isFinite_not_NaN (a : number) : isFinite a → a ≠ NaN.
Proof. destruct a; simpl; try contradiction. discriminate. Qed.

Lemma isDisabled_resetZoom (st : PanelState) :
  isFinite (ganttMax st) → isDisabled (resetZoom st) = true.
Proof.
  intros Hfin. unfold isDisabled. simpl.
  apply strictEq_refl, isFinite_not_NaN. now apply mul_scale_finite.
Qed.

(** A running maximum that has met [NaN] stays [NaN]. *)
Lemma max_NaN_l (a : number) : max NaN a = NaN.
Proof. reflexivity. Qed.

Lemma max_NaN_r (a : number) : max a NaN = NaN.
Proof. now destruct a. Qed.

Lemma maxEnd_NaN (bars : list PlotData) (bar : PlotData) :
  bar ∈ bars → barEnd bar = NaN → maxEnd bars = NaN.
Proof.
  unfold maxEnd. generalize (ofZ 0).
  induction bars as [|b bars IH]; intros m Hin Hnan;
    [now apply elem_of_nil in Hin|].
  simpl. apply elem_of_cons in Hin as [<-|Hin].
  - rewrite Hnan, max_NaN_r. clear. induction bars as [|b bars IH];
      [reflexivity|]. simpl. exact IH.
  - now apply IH.
Qed.

Section LoadedMore.

Variable parseIsoToNano : option StartTime → number.
Variable mode : TraceAnalyticsMode.
Variable colorMap : gmap string string.

Local Abbreviation build :=
  (λ hits, hitsToHierarchicalSpans parseIsoToNano hits mode).

(** The start of a root node is the start of a hit. *)
Lemma root_start hits (r : string) :
  r ∈ rootSpans (build hits) →
  ∃ h, h ∈ hits
       ∧ startOf (spanMap (build hits)) r
         = getStartTimeInNanos parseIsoToNano h mode.
Proof.
  intros Hr.
  destruct (hierarchy_spec parseIsoToNano mode hits) as (_ & Hiff & _).
  apply Hiff in Hr as (h & Hh & Hk & _).
  destruct (proj2 (hierarchy_is_Some parseIsoToNano mode hits r)) as [n Hn].
  { rewrite <- Hk. now apply list_elem_of_fmap_2. }
  unfold startOf. rewrite Hn. simpl.
  destruct (hierarchy_lookup _ _ _ _ _ Hn) as (h' & Hh' & _ & _ & -> & _).
  now exists h'.
Qed.

(** With finite start times, the earliest start among the roots is the start
    of one of them. *)
Lemma rootMin_attained hits :
  (∀ h, h ∈ hits → isFinite (getStartTimeInNanos parseIsoToNano h mode)) →
  rootSpans (build hits) ≠ [] →
  isFinite (rootMinStartMs (build hits))
  ∧ ∃ r, r ∈ rootSpans (build hits)
         ∧ rootMinStartMs (build hits)
           = nanoToMilliSec (startOf (spanMap (build hits)) r).
Proof.
  intros Hfin Hroots.
  destruct (minOf_finite
              ((λ ref, nanoToMilliSec (startOf (spanMap (build hits)) ref))
                 <$> rootSpans (build hits))) as [Ht0 Hin].
  { intros Hnil. apply fmap_nil_inv in Hnil. contradiction. }
  { apply Forall_fmap, Forall_forall. intros r Hr. simpl.
    apply divBy_finite. destruct (root_start hits r Hr) as (h & Hh & ->).
    now apply Hfin. }
  split; [exact Ht0|].
  apply list_elem_of_fmap in Hin as (r & Hr0 & Hr). now exists r.
Qed.

(** With finite start times and durations, every bar ends at a finite
    position, and so does the chart. *)
Lemma loadHits_ends_finite fuel hits st st' :
  loadHits parseIsoToNano fuel hits mode colorMap st = Ok st' →
  (∀ h, h ∈ hits → wellTimed parseIsoToNano mode h) →
  Forall (λ bar, isFinite (barEnd bar)) (gantt st')
  ∧ isFinite (ganttMax st').
Proof.
  intros Hload Htimed.
  destruct (loadHits_visits _ _ _ _ _ _ _ Hload)
    as (vs & Hw & Hvs & Hg & _ & Hmax).
  assert (Hends : Forall (λ bar, isFinite (barEnd bar)) (gantt st')).
  { destruct (decide (rootSpans (build hits) = [])) as [Hnil|Hroots].
    - rewrite Hnil in Hw. unfold walkAll in Hw. simpl in Hw.
      injection Hw as Hw. symmetry in Hw. apply fmap_nil_inv in Hw.
      rewrite Hg, Hw. constructor.
    - destruct (rootMin_attained hits) as [Ht0 _]; [|exact Hroots|].
      { intros h Hh. apply (Htimed h Hh). }
      rewrite Hg. apply Forall_fmap, Forall_forall. intros v Hv.
      rewrite Forall_forall in Hvs.
      destruct (Hvs v Hv) as (h & Hh & _ & _ & _ & Hs & Hp).
      destruct (Htimed h Hh) as (Hsf & Hdf & _).
      apply parseSpanHitData_fields in Hp as [_ Hdur].
      unfold barEnd, visitBar, spanBar, delayInMs. simpl. rewrite Hs, Hdur.
      apply add_finite; [apply sub_finite; [now apply divBy_finite|exact Ht0]|].
      now apply round2_finite. }
  split; [exact Hends|].
  destruct (running_max_spec (gantt st') (ofZ 0) I Hends) as (Hfin & _).
  fold (maxEnd (gantt st')) in Hfin. now rewrite Hmax.
Qed.

End LoadedMore.

(** ** The sort with a comparator *)

Section StableSortFacts.

Context {A : Type}.
Variable after : A → A → bool.

Lemma insertSorted_perm (a : A) (l : list A) :
  insertSorted after a l ≡ₚ a :: l.
Proof.
  induction l as [|b l IH]; simpl; [reflexivity|].
  destruct (after a b); [|reflexivity].
  rewrite IH. apply Permutation_swap.
Qed.

Lemma stableSort_perm (l : list A) : stableSort after l ≡ₚ l.
Proof.
  induction l as [|a l IH]; simpl; [reflexivity|].
  unfold stableSort in *. simpl. now rewrite insertSorted_perm, IH.
Qed.

(** Where an element is inserted: after the elements that it goes after,
    before the first one that it does not go after. *)
Lemma insertSorted_split (a : A) (l : list A) :
  ∃ l1 l2, l = l1 ++ l2 ∧ insertSorted after a l = l1 ++ a :: l2
    ∧ (∀ c, c ∈ l1 → after a c = true)
    ∧ (∀ c, head l2 = Some c → after a c = false).
Proof.
  induction l as [|b l IH]; simpl.
  - exists [], []. repeat split; [intros c Hc; inversion Hc|discriminate].
  - destruct (after a b) eqn:Hab.
    + destruct IH as (l1 & l2 & -> & -> & H1 & H2).
      exists (b :: l1), l2. repeat split; [|exact H2].
      intros c [->|Hc]%elem_of_cons; auto.
    + exists [], (b :: l). repeat split; [intros c Hc; inversion Hc|].
      simpl. now intros c [= <-].
Qed.

(** A class of elements that no element of the class goes after is kept in
    its order. *)
Lemma stableSort_stable (P : A → Prop) `{∀ a, Decision (P a)} (l : list A) :
  (∀ a c, P a → P c → after a c = false) →
  filter P (stableSort after l) = filter P l.
Proof.
  intros Hclass. induction l as [|a l IH]; [reflexivity|].
  unfold stableSort in *. simpl.
  destruct (insertSorted_split a (foldr (insertSorted after) [] l))
    as (l1 & l2 & Hl & -> & H1 & _).
  rewrite Hl, filter_app in IH.
  rewrite filter_app, !filter_cons, <- IH.
  destruct (decide (P a)) as [Ha|Ha]; [|reflexivity].
  assert (Hnone : filter P l1 = []).
  { apply elem_of_nil_inv. intros c Hc. apply list_elem_of_filter in Hc as [Hp Hc].
    specialize (H1 c Hc). rewrite (Hclass a c Ha Hp) in H1. discriminate. }
  now rewrite Hnone.
Qed.

(** The result is in order when, on the elements of the array, the
    comparator is the one of a total preorder. *)
Lemma insertSorted_sorted (ok : A → Prop) (a : A) (l : list A) :
  (∀ a b, ok a → ok b → after a b = true → after b a = false) →
  (∀ a b c, ok a → ok b → ok c →
     after a b = false → after b c = false → after a c = false) →
  ok a → Forall ok l →
  StronglySorted (λ a b, after a b = false) l →
  StronglySorted (λ a b, after a b = false) (insertSorted after a l).
Proof.
  intros Hasym Htrans Ha Hok Hs.
  induction Hs as [|b l Hs IH Hall]; simpl.
  - repeat constructor.
  - apply Forall_cons in Hok as [Hb Hok].
    destruct (after a b) eqn:Hab.
    + constructor; [now apply IH|].
      rewrite (insertSorted_perm a l). constructor; [|exact Hall].
      now apply Hasym.
    + constructor; [now constructor|].
      constructor; [exact Hab|].
      rewrite Forall_forall in Hall, Hok |- *. intros c Hc.
      apply (Htrans a b c); auto.
Qed.

Lemma stableSort_sorted (ok : A → Prop) (l : list A) :
  (∀ a b, ok a → ok b → after a b = true → after b a = false) →
  (∀ a b c, ok a → ok b → ok c →
     after a b = false → after b c = false → after a c = false) →
  Forall ok l →
  StronglySorted (λ a b, after a b = false) (stableSort after l).
Proof.
  intros Hasym Htrans. induction l as [|a l IH]; intros Hok.
  - constructor.
  - apply Forall_cons in Hok as [Ha Hok]. unfold stableSort in *. simpl.
    apply (insertSorted_sorted ok); auto.
    now rewrite (stableSort_perm l).
Qed.

End StableSortFacts.

Lemma StronglySorted_weaken {A} (R R' : A → A → Prop) (l : list A) :
  (∀ a b, a ∈ l → b ∈ l → R a b → R' a b) →
  StronglySorted R l → StronglySorted R' l.
Proof.
  intros Himp Hs. induction Hs as [|a l Hs IH Hall]; [constructor|].
  constructor.
  - apply IH. intros x y Hx Hy. apply Himp; now right.
  - rewrite Forall_forall in Hall |- *. intros b Hb.
    apply Himp; [left|now right|now apply Hall].
Qed.

(** ** The payload *)

Lemma sortsAfter_finite (a b : Hit) :
  isFinite (firstSortValue a) → isFinite (firstSortValue b) →
  sortsAfter a b = true ↔ (sortKeyQ a < sortKeyQ b)%Q.
Proof.
  unfold sortsAfter, sortKeyQ.
  destruct (firstSortValue a) as [| | |qa]; simpl; try tauto.
  destruct (firstSortValue b) as [| | |qb]; simpl; try tauto.
  intros _ _. unfold gt, lt, sub, neg, add, ofZ, fin.
  rewrite qltb_lt, !Qred_correct. change (inject_Z 0) with 0%Q.
  split; intros H; lra.
Qed.

Lemma sortsAfter_finite_false (a b : Hit) :
  isFinite (firstSortValue a) → isFinite (firstSortValue b) →
  sortsAfter a b = false ↔ (sortKeyQ b <= sortKeyQ a)%Q.
Proof.
  intros Ha Hb. rewrite <- not_true_iff_false, (sortsAfter_finite a b Ha Hb).
  split; [apply Qnot_lt_le|apply Qle_not_lt].
Qed.

(** Hits with the same first sort value do not go after each other. *)
Lemma sortsAfter_same (key : number) (a c : Hit) :
  strictEq (firstSortValue a) key = true →
  strictEq (firstSortValue c) key = true →
  sortsAfter a c = false.
Proof.
  unfold sortsAfter.
  destruct (firstSortValue a) as [| | |qa], (firstSortValue c) as [| | |qc],
    key as [| | |k]; simpl; try discriminate; try reflexivity.
  intros Ha Hc. apply Qeq_bool_iff in Ha, Hc.
  unfold gt, lt, sub, neg, add, ofZ, fin. apply qltb_ge.
  rewrite !Qred_correct. change (inject_Z 0) with 0%Q. lra.
Qed.

(** ** Invariants of the hierarchy *)

Section ClosedFacts.

Variable parseIsoToNano : option StartTime → number.
Variable mode : TraceAnalyticsMode.

Local Abbreviation key := (keyOf mode).
Local Abbreviation index := (indexHits parseIsoToNano mode).
Local Abbreviation build :=
  (λ hits, hitsToHierarchicalSpans parseIsoToNano hits mode).

(** Every reference that the builder stores is the key of a node. *)
Lemma hierarchy_root_stored (hits : list ParsedHit) (r : string) :
  r ∈ rootSpans (build hits) → is_Some (spanMap (build hits) !! r).
Proof.
  intros Hr.
  destruct (hierarchy_spec parseIsoToNano mode hits) as (_ & Hiff & _).
  apply Hiff in Hr as (h & Hh & <- & _).
  apply hierarchy_is_Some. now apply list_elem_of_fmap_2.
Qed.

Lemma hierarchy_child_stored (hits : list ParsedHit) (k : string)
    (n : HierarchicalSpan) (c : string) :
  spanMap (build hits) !! k = Some n → c ∈ children n →
  is_Some (spanMap (build hits) !! c).
Proof.
  intros Hn Hc.
  destruct (hierarchy_lookup _ _ _ _ _ Hn) as (_ & _ & _ & _ & _ & Hch).
  rewrite Hch in Hc. unfold childrenOf in Hc.
  apply list_elem_of_bind in Hc as (h & Hc & Hh).
  unfold attachedTo in Hc. apply list_elem_of_fmap in Hc as (p & -> & _).
  apply hierarchy_is_Some. now apply list_elem_of_fmap_2.
Qed.

(** The node of a key holds the last hit with this key. *)
Lemma indexHits_last (l1 l2 : list ParsedHit) (h : ParsedHit) :
  key h ∉ key <$> l2 →
  index (l1 ++ h :: l2) !! key h = Some (freshNode parseIsoToNano mode h).
Proof.
  induction l2 as [|x l2 IH] using rev_ind; intros Hno.
  - rewrite indexHits_snoc. apply lookup_insert_eq.
  - rewrite fmap_app, not_elem_of_app in Hno. destruct Hno as [Hno Hx].
    change (h :: l2 ++ [x]) with ((h :: l2) ++ [x]).
    rewrite app_assoc, indexHits_snoc.
    rewrite lookup_insert_ne; [now apply IH|].
    intros E. apply Hx. rewrite <- E. simpl. left.
Qed.

(** The roots are registered once per span id. *)
Lemma second_pass_ids (m0 : gmap string HierarchicalSpan)
    (l : list ParsedHit) :
  (∀ h, h ∈ l → is_Some (m0 !! key h)) →
  ∃ ids, rootSpans (foldl (linkHit mode) (unlinked m0) l) = propKey <$> ids
         ∧ NoDup ids
         ∧ ∀ sid, sid ∈ ids
                  ↔ sid ∈ alreadyAddedRootSpans
                            (foldl (linkHit mode) (unlinked m0) l).
Proof.
  induction l as [|x l IH] using rev_ind; intros Hkeys.
  - exists []. split; [reflexivity|]. split; [constructor|].
    intros sid. simpl. set_solver.
  - rewrite foldl_app. simpl.
    destruct IH as (ids & Hroots & Hnd & Hids).
    { intros h Hh. apply Hkeys. apply elem_of_app. now left. }
    destruct (second_pass_spec mode m0 l) as (Hmap & _).
    { intros h Hh. apply Hkeys. apply elem_of_app. now left. }
    set (st1 := foldl (linkHit mode) (unlinked m0) l) in *.
    destruct (linkHit_spec mode st1 x) as (_ & Hroot & _).
    { rewrite Hmap, fmap_is_Some. apply Hkeys, elem_of_app. right. now left. }
    rewrite (rootPart_rootSpans _ _ Hroot).
    setoid_rewrite (rootPart_alreadyAdded _ _ Hroot).
    destruct (registersRootIn mode (spanMap st1) (prototypeChildren st1) x);
      [|now exists ids].
    unfold addRootSpan. destruct (decide _) as [Hin|Hout]; [now exists ids|].
    simpl. exists (ids ++ [spanIdOf mode x]).
    split; [now rewrite fmap_app, Hroots|]. split.
    + apply NoDup_app. split; [exact Hnd|]. split; [|apply NoDup_singleton].
      intros sid Hsid Hx. apply list_elem_of_singleton in Hx as ->.
      apply Hout. now apply Hids.
    + intros sid. rewrite elem_of_app, list_elem_of_singleton, Hids.
      rewrite elem_of_union, elem_of_singleton. tauto.
Qed.

Lemma hierarchy_roots_NoDup (hits : list ParsedHit) :
  (isJaeger mode = true → ∀ h, h ∈ hits → is_Some (spanID (_source h))) →
  NoDup (rootSpans (build hits)).
Proof.
  intros Hids.
  assert (Hkeys : ∀ h, h ∈ hits → is_Some (index hits !! key h)).
  { intros h Hh. apply indexHits_is_Some. now apply list_elem_of_fmap_2. }
  destruct (second_pass_ids (index hits) hits Hkeys) as (ids & Hr & Hnd & Hin).
  destruct (second_pass_spec mode (index hits) hits Hkeys)
    as (_ & _ & _ & Hadded & _).
  unfold hitsToHierarchicalSpans. fold (index hits).
  fold (unlinked (index hits)). rewrite Hr.
  apply NoDup_fmap_2_strong; [|exact Hnd].
  assert (Hsome : ∀ sid, sid ∈ ids → is_Some sid).
  { intros sid Hsid.
    apply Hin, Hadded in Hsid as (l1 & h & l2 & Heq & <- & Hreg).
    assert (Hh : h ∈ hits) by (rewrite Heq; apply elem_of_app; right; left).
    unfold spanIdOf. destruct (isJaeger mode) eqn:Hmode.
    - now apply Hids.
    - unfold registersRootIn in Hreg. rewrite Hmode in Hreg.
      apply andb_true_iff in Hreg as [_ Ht].
      destruct (spanId (_source h)); [eauto|discriminate]. }
  intros a b Ha Hb. destruct (Hsome a Ha) as [a' ->], (Hsome b Hb) as [b' ->].
  simpl. congruence.
Qed.

(** A number is found under [startTimeInNanos] alone, when a node is the
    prototype and no span has this id. *)
Lemma foundNumber_iff (m : gmap string HierarchicalSpan) (k : string) :
  foundNumber (lookupProperty m false k) = true
  ↔ ∃ p, m !! "__proto__" = Some p
         ∧ truthyNumber (startTimeInNanos p) = true
         ∧ m !! k = None ∧ k = "startTimeInNanos".
Proof.
  unfold lookupProperty. destruct (m !! k) as [n|] eqn:Hk.
  - split; [discriminate|]. intros (p & _ & _ & H & _). discriminate.
  - case_bool_decide as Hp.
    + subst k. split; [discriminate|].
      intros (p & _ & _ & _ & H). discriminate.
    + destruct (m !! "__proto__") as [p|] eqn:Hproto.
      * unfold nodeField. case_bool_decide as Hhit.
        { subst k. split; [discriminate|].
          intros (? & _ & _ & _ & H). discriminate. }
        case_bool_decide as Hstart.
        { subst k. simpl. split.
          - intros Ht. exists p. auto.
          - intros (p' & [= <-] & Ht & _). exact Ht. }
        split.
        { unfold objectPrototypeField. repeat case_match; discriminate. }
        intros (? & _ & _ & _ & H). contradiction.
      * split.
        { unfold objectPrototypeField. repeat case_match; discriminate. }
        intros (? & H & _). discriminate.
Qed.

(** When a lookup finds nothing. *)
Lemma truthyFound_false (m : gmap string HierarchicalSpan) (b : bool)
    (k : string) :
  truthyFound (lookupProperty m b k) = false ↔ findsNothing m b k.
Proof.
  assert (Hproto : objectPrototype !! "__proto__" = Some ObjectValue)
    by reflexivity.
  assert (Hnone : ∀ x, ¬ is_Some (objectPrototype !! x) →
                       objectPrototype !! x = None).
  { intros x H. destruct (objectPrototype !! x); [destruct H; eauto|].
    reflexivity. }
  unfold findsNothing, lookupProperty. split.
  - destruct (m !! k) as [n|] eqn:Hk; [discriminate|].
    case_bool_decide as Hp; [discriminate|].
    unfold nodeField, objectPrototypeField.
    destruct (m !! "__proto__") as [p|] eqn:Hm.
    + case_bool_decide as Hhit; [discriminate|].
      case_bool_decide as Hstart.
      * subst k. simpl. intros Ht.
        split; [reflexivity|]. split; [reflexivity|].
        split; [discriminate|]. intros p' [= <-]. auto.
      * case_bool_decide as Hchildren; [discriminate|].
        case_bool_decide as Ho; [discriminate|]. intros _.
        split; [reflexivity|]. split; [now apply Hnone|].
        split; [auto|]. intros p' [= <-].
        split; [exact Hhit|]. split; [exact Hchildren|].
        intros Hs. contradiction.
    + case_bool_decide as Ho; [discriminate|].
      destruct b; simpl.
      * case_bool_decide as Hchildren; [discriminate|]. intros _.
        split; [reflexivity|]. split; [now apply Hnone|].
        split; [auto|]. discriminate.
      * intros _. split; [reflexivity|]. split; [now apply Hnone|].
        split; [discriminate|]. discriminate.
  - intros (-> & Ho & Hb & Hnode).
    rewrite bool_decide_eq_false_2 by (intros ->; congruence).
    unfold nodeField, objectPrototypeField.
    rewrite (bool_decide_eq_false_2 (is_Some (objectPrototype !! k)))
      by (rewrite Ho; intros [? ?]; discriminate).
    destruct (m !! "__proto__") as [p|] eqn:Hm.
    + destruct (Hnode p eq_refl) as (Hhit & Hchildren & Hstart).
      rewrite (bool_decide_eq_false_2 _ Hhit).
      rewrite (bool_decide_eq_false_2 _ Hchildren).
      case_bool_decide as Hs; [now apply Hstart|].
      now rewrite andb_false_r.
    + destruct b; [|reflexivity]. simpl.
      now rewrite (bool_decide_eq_false_2 _ (Hb eq_refl)).
Qed.

(** The hierarchy builder throws exactly when a parent link finds the start
    time of the node that is the prototype of the span map. *)
Lemma hierarchy_throws_iff (hits : list ParsedHit) :
  thrown (build hits) = true ↔ linkFindsStartTime parseIsoToNano mode hits.
Proof.
  cbv beta. rewrite hierarchy_thrown. unfold linkFindsStartTime. split.
  - intros (h & Hh%list_elem_of_In & Hf)%existsb_exists.
    unfold findsNumber in Hf.
    apply existsb_exists in Hf as (k & Hk%list_elem_of_In & Hf).
    apply foundNumber_iff in Hf as (p & Hp & Ht & Hnone & ->).
    exists p, h. split; [exact Hp|]. split; [exact Ht|].
    split; [|split; [exact Hh|exact Hk]].
    intros Hin. apply (indexHits_is_Some parseIsoToNano) in Hin as [? Hin].
    congruence.
  - intros (p & h & Hp & Ht & Hno & Hh & Hk).
    apply existsb_exists. exists h. split; [now apply list_elem_of_In|].
    unfold findsNumber. apply existsb_exists.
    exists "startTimeInNanos". split; [now apply list_elem_of_In|].
    apply foundNumber_iff. exists p. split; [exact Hp|].
    split; [exact Ht|]. split; [|reflexivity].
    destruct (index hits !! "startTimeInNanos") eqn:E; [|reflexivity].
    exfalso. apply Hno. apply (indexHits_is_Some parseIsoToNano). eauto.
Qed.

(** [Object.prototype] gets the property [children] exactly when a parent
    link names [__proto__] and no span has this id. *)
Lemma pollutedAfter_iff (hits l : list ParsedHit) :
  pollutedAfter mode (index hits) l = true
  ↔ ("__proto__" ∉ key <$> hits)
    ∧ ∃ h, h ∈ l ∧ "__proto__" ∈ linkNames mode h.
Proof.
  unfold pollutedAfter, findsPrototype. split.
  - intros (h & Hh%list_elem_of_In & Hf)%existsb_exists.
    apply existsb_exists in Hf as (k & Hk%list_elem_of_In & Hf).
    apply foundPrototype_iff in Hf as [-> Hnone].
    split; [|eauto].
    intros Hin. apply (indexHits_is_Some parseIsoToNano) in Hin as [? Hin].
    congruence.
  - intros (Hno & h & Hh & Hk).
    apply existsb_exists. exists h. split; [now apply list_elem_of_In|].
    apply existsb_exists. exists "__proto__".
    split; [now apply list_elem_of_In|].
    apply foundPrototype_iff. split; [reflexivity|].
    destruct (index hits !! "__proto__") eqn:E; [|reflexivity].
    exfalso. apply Hno. apply (indexHits_is_Some parseIsoToNano). eauto.
Qed.

End ClosedFacts.

(** ** What the layout reaches *)

Section ReachFacts.

Variable spanMap : gmap string HierarchicalSpan.

Lemma walkEach_sub (w : string → option (list string)) (l ks : list string)
    (c : string) :
  walkEach w l = Some ks → c ∈ l →
  ∃ kc, w c = Some kc ∧ ∀ x, x ∈ kc → x ∈ ks.
Proof.
  revert ks. induction l as [|d l IH]; intros ks Hw Hc;
    [now apply elem_of_nil in Hc|].
  simpl in Hw. destruct (w d) as [a|] eqn:Hd; [|discriminate].
  destruct (walkEach w l) as [b|]; [|discriminate]. injection Hw as <-.
  apply elem_of_cons in Hc as [->|Hc].
  - exists a. split; [exact Hd|]. intros x Hx. apply elem_of_app. now left.
  - destruct (IH b eq_refl Hc) as (kc & Hkc & Hsub).
    exists kc. split; [exact Hkc|]. intros x Hx. apply elem_of_app. right. auto.
Qed.

(** The walk from a node passes every child of every node that it passes. *)
Lemma walk_children (fuel : nat) : ∀ (ref : string) (ks : list string)
    (k c : string) (n : HierarchicalSpan),
  walk spanMap fuel ref = Some ks → k ∈ ks →
  spanMap !! k = Some n → c ∈ children n → c ∈ ks.
Proof.
  induction fuel as [|fuel IH]; intros ref ks k c n Hw Hk Hn Hc;
    [discriminate|].
  simpl in Hw. destruct (spanMap !! ref) as [span|] eqn:Href; [|discriminate].
  apply fmap_Some in Hw as (rest & Hrest & ->).
  apply elem_of_cons in Hk as [->|Hk].
  - rewrite Href in Hn. injection Hn as <-. right.
    destruct (walkEach_sub _ _ _ c Hrest) as (kc & Hkc & Hsub).
    { now apply elem_of_sortSpans. }
    apply Hsub. eapply walk_head. exact Hkc.
  - right. destruct (walkEach_elem _ _ _ _ Hrest Hk) as (d & kd & Hd & Hkd & Hin).
    destruct (walkEach_sub _ _ _ d Hrest Hd) as (kd' & Hkd' & Hsub).
    rewrite Hkd in Hkd'. injection Hkd' as <-.
    apply Hsub. exact (IH d kd k c n Hkd Hin Hn Hc).
Qed.

Lemma walk_reachable (roots : list string) (fuel : nat) :
  ∀ (ref : string) (ks : list string) (k : string),
  reachable spanMap roots ref →
  walk spanMap fuel ref = Some ks → k ∈ ks → reachable spanMap roots k.
Proof.
  induction fuel as [|fuel IH]; intros ref ks k Href Hw Hk; [discriminate|].
  simpl in Hw. destruct (spanMap !! ref) as [span|] eqn:Hspan; [|discriminate].
  apply fmap_Some in Hw as (rest & Hrest & ->).
  apply elem_of_cons in Hk as [->|Hk]; [exact Href|].
  destruct (walkEach_elem _ _ _ _ Hrest Hk) as (d & kd & Hd & Hkd & Hin).
  apply (IH d kd k); [|exact Hkd|exact Hin].
  apply (reachable_child _ _ ref d span); [exact Href|exact Hspan|].
  now apply elem_of_sortSpans in Hd.
Qed.

(** The layout passes exactly the nodes that can be reached from the
    roots. *)
Lemma walkAll_reachable (fuel : nat) (roots ks : list string) (k : string) :
  walkAll spanMap fuel roots = Some ks →
  k ∈ ks ↔ reachable spanMap roots k.
Proof.
  intros Hw. split.
  - intros Hk. unfold walkAll in Hw.
    destruct (walkEach_elem _ _ _ _ Hw Hk) as (r & kr & Hr & Hkr & Hin).
    apply (walk_reachable roots fuel r kr k); [|exact Hkr|exact Hin].
    apply reachable_root. now apply elem_of_sortSpans in Hr.
  - induction 1 as [r Hr|p c n Hp IH Hn Hc].
    + eapply walkAll_roots; eassumption.
    + unfold walkAll in Hw.
      destruct (walkEach_elem _ _ _ _ Hw IH) as (r & kr & Hr & Hkr & Hin).
      destruct (walkEach_sub _ _ _ r Hw Hr) as (kr' & Hkr' & Hsub).
      rewrite Hkr in Hkr'. injection Hkr' as <-.
      apply Hsub. exact (walk_children fuel r kr p c n Hkr Hin Hn Hc).
Qed.

End ReachFacts.

(** ** The layout does not throw outside of the parser *)

Lemma forEach_no_throw {A S} (f : S → A → result S) (l : list A) :
  (∀ a s, a ∈ l → (∃ s', f s a = Ok s') ∨ f s a = Exhausted) →
  ∀ s, (∃ s', forEach f l s = Ok s') ∨ forEach f l s = Exhausted.
Proof.
  induction l as [|a l IH]; intros Hf s; simpl; [eauto|].
  destruct (Hf a s) as [[s' Hs]|Hs]; [left| |]; rewrite Hs; simpl.
  - apply IH. intros b t Hb. apply Hf. now right.
  - now right.
Qed.

Section NoThrow.

Variable spanMap : gmap string HierarchicalSpan.
Variable mode : TraceAnalyticsMode.
Variable colorMap : gmap string string.
Variable startTimeInMs : number.

Hypothesis children_stored : ∀ k n c,
  spanMap !! k = Some n → c ∈ children n → is_Some (spanMap !! c).
Hypothesis nodes_parsed : ∀ k n,
  spanMap !! k = Some n → ∃ p, parseSpanHitData (hit n) mode = Ok p.

Lemma processSpan_no_throw (fuel : nat) : ∀ acc ref,
  is_Some (spanMap !! ref) →
  (∃ acc', processSpan spanMap mode colorMap startTimeInMs fuel acc ref
           = Ok acc')
  ∨ processSpan spanMap mode colorMap startTimeInMs fuel acc ref = Exhausted.
Proof.
  induction fuel as [|fuel IH]; intros acc ref [n Hn]; simpl; [now right|].
  rewrite Hn. unfold emitSpan.
  destruct (nodes_parsed ref n Hn) as [p ->]. simpl.
  apply forEach_no_throw. intros c s Hc. apply IH.
  apply elem_of_sortSpans in Hc. eapply children_stored; eassumption.
Qed.

Lemma createPlotlyData_no_throw (fuel : nat) (spans : list string) :
  (∀ r, r ∈ spans → is_Some (spanMap !! r)) →
  (∃ chart, createPlotlyData spanMap mode colorMap startTimeInMs fuel spans
            = Ok chart)
  ∨ createPlotlyData spanMap mode colorMap startTimeInMs fuel spans
    = Exhausted.
Proof.
  intros Hroots. unfold createPlotlyData. apply forEach_no_throw.
  intros r s Hr. apply processSpan_no_throw, Hroots.
  now apply elem_of_sortSpans in Hr.
Qed.

End NoThrow.

(** ** The earliest root *)

Lemma minOf_le (l : list number) (x : number) :
  Forall isFinite l → x ∈ l → le (minOf l) x.
Proof.
  induction l as [|a l IH]; intros Hfin Hx; [now apply elem_of_nil in Hx|].
  apply Forall_cons in Hfin as [Ha Hfin]. unfold minOf in *. simpl.
  destruct l as [|b l].
  - apply list_elem_of_singleton in Hx as ->. simpl.
    destruct a; simpl in *; try contradiction. apply Qle_refl.
  - destruct (minOf_finite (b :: l)) as [Hm _]; [discriminate|exact Hfin|].
    unfold minOf in Hm. set (m := foldr min PInf (b :: l)) in *.
    assert (Hmin : le (min a m) a ∧ le (min a m) m).
    { destruct a as [| | |qa]; simpl in Ha; try contradiction.
      destruct m as [| | |qm]; simpl in Hm; try contradiction.
      simpl. destruct (qltb qm qa) eqn:E; simpl.
      - apply qltb_lt in E. split; [now apply Qlt_le_weak|apply Qle_refl].
      - apply qltb_ge in E. split; [apply Qle_refl|exact E]. }
    apply elem_of_cons in Hx as [->|Hx]; [apply Hmin|].
    eapply le_trans; [apply Hmin|]. now apply IH.
Qed.

Lemma le_fin (p q : Q) : le (fin p) (fin q) ↔ (p <= q)%Q.
Proof. unfold fin. simpl. now rewrite !Qred_correct. Qed.

Lemma le_fin_antisym (p q : Q) :
  le (fin p) (fin q) → le (fin q) (fin p) → fin p = fin q.
Proof.
  rewrite !le_fin. intros H1 H2. apply fin_eq. now apply Qle_antisym.
Qed.

Lemma nanoToMilliSec_Fin (q : Q) :
  nanoToMilliSec (Fin q) = fin (q / inject_Z 1000000).
Proof. reflexivity. Qed.

Lemma nanoToMilliSec_le (p q : Q) :
  (p <= q)%Q → le (nanoToMilliSec (Fin p)) (nanoToMilliSec (Fin q)).
Proof.
  intros H. rewrite !nanoToMilliSec_Fin, le_fin.
  unfold Qdiv. apply Qmult_le_compat_r; [exact H|]. apply Qinv_le_0_compat.
  discriminate.
Qed.

(** An offset from an earlier instant is not negative. *)
Lemma sub_nonneg (x t : number) :
  isFinite x → isFinite t → le t x → le (ofZ 0) (sub x t).
Proof.
  destruct x as [| | |qx], t as [| | |qt]; simpl; try contradiction.
  intros _ _ H. unfold sub, neg, add. apply le_zero_fin.
  unfold fin. rewrite Qred_correct. lra.
Qed.

Lemma walk_first (spanMap : gmap string HierarchicalSpan) (fuel : nat)
    (ref : string) (ks : list string) :
  walk spanMap fuel ref = Some ks → ∃ rest, ks = ref :: rest.
Proof.
  destruct fuel as [|fuel]; [discriminate|]. simpl.
  destruct (spanMap !! ref); [|discriminate].
  intros H. apply fmap_Some in H as (rest & _ & ->). now exists rest.
Qed.

(** The layout starts with the first of the sorted roots. *)
Lemma walkAll_first (spanMap : gmap string HierarchicalSpan) (fuel : nat)
    (spans ks : list string) (k : string) :
  walkAll spanMap fuel spans = Some ks → head ks = Some k →
  head (sortSpans spanMap spans) = Some k.
Proof.
  unfold walkAll. destruct (sortSpans spanMap spans) as [|r rest]; simpl.
  - intros [= <-]. discriminate.
  - destruct (walk spanMap fuel r) as [a|] eqn:Hr; [|discriminate].
    destruct (walkEach _ rest) as [b|]; [|discriminate].
    intros [= <-]. apply walk_first in Hr as (a' & ->). simpl. auto.
Qed.

(** With finite start times, the first of the sorted roots starts no later
    than any root. *)
Lemma sortSpans_head_least (spanMap : gmap string HierarchicalSpan)
    (l : list string) (r0 r : string) :
  Forall (finiteStart spanMap) l →
  head (sortSpans spanMap l) = Some r0 → r ∈ l →
  (startOfQ spanMap r0 <= startOfQ spanMap r)%Q.
Proof.
  intros Hfin Hhead Hr.
  pose proof (sortSpans_ascending spanMap l Hfin) as Hasc.
  apply (elem_of_sortSpans spanMap) in Hr.
  destruct (sortSpans spanMap l) as [|a rest]; [discriminate|].
  injection Hhead as ->.
  apply elem_of_cons in Hr as [->|Hr]; [apply Qle_refl|].
  apply Hasc. simpl. left. now split.
Qed.

(** ** Hits with at most one place each *)

Lemma filter_fmap_keys {A B} (f : A → B) (P : B → Prop)
    `{∀ b, Decision (P b)} (l : list A) :
  filter P (f <$> l) = f <$> filter (λ a, P (f a)) l.
Proof.
  induction l as [|a l IH]; [reflexivity|].
  rewrite fmap_cons, !filter_cons.
  destruct (decide (P (f a))); [rewrite fmap_cons|]; now rewrite IH.
Qed.

Section ChainFacts.

Variable parseIsoToNano : option StartTime → number.
Variable mode : TraceAnalyticsMode.
Variable hits : list ParsedHit.

Hypothesis keys_NoDup : NoDup (keyOf mode <$> hits).
Hypothesis places : ∀ h, h ∈ hits → atMostOnePlace parseIsoToNano mode hits h.

Local Abbreviation key := (keyOf mode).
Local Abbreviation m0 := (indexHits parseIsoToNano mode hits).
Local Abbreviation hierarchy :=
  (hitsToHierarchicalSpans parseIsoToNano hits mode).
Local Abbreviation par := (parentOfKey parseIsoToNano mode hits).
Local Abbreviation parentK := (parentKey parseIsoToNano mode hits).
Local Abbreviation depth := (depthOf parseIsoToNano mode hits).
Local Abbreviation top := (topOf parseIsoToNano mode hits).
Local Abbreviation level := (levelOf parseIsoToNano mode hits).
Local Abbreviation isRooted := (rooted parseIsoToNano mode hits).

Lemma chain_key_inj (a b : ParsedHit) :
  a ∈ hits → b ∈ hits → key a = key b → a = b.
Proof.
  intros Ha Hb Hk.
  pose proof (indexHits_unique parseIsoToNano mode hits a keys_NoDup Ha) as H1.
  pose proof (indexHits_unique parseIsoToNano mode hits b keys_NoDup Hb) as H2.
  rewrite Hk, H2 in H1. now injection H1.
Qed.

Lemma chain_ids : NoDup (spanIdOf mode <$> hits).
Proof.
  apply (NoDup_fmap_1 propKey). now rewrite <- list_fmap_compose.
Qed.

Lemma chain_parents (h : ParsedHit) :
  h ∈ hits →
  parentsOf mode m0 h = match parentK h with Some p => [p] | None => [] end
  ∧ (registersRoot mode m0 h = true → parentK h = None).
Proof.
  intros Hh. specialize (places h Hh). unfold atMostOnePlace, parentKey in *.
  destruct (parentsOf mode m0 h) as [|p [|q l]]; simpl in *.
  - auto.
  - split; [reflexivity|]. intros Hr. rewrite Hr in places. lia.
  - lia.
Qed.

Lemma chain_par_key (h : ParsedHit) : h ∈ hits → par (key h) = parentK h.
Proof.
  intros Hh. unfold parentOfKey.
  now rewrite (indexHits_unique parseIsoToNano mode hits h keys_NoDup Hh).
Qed.

Lemma chain_parent_resolves (h : ParsedHit) (p : string) :
  parentK h = Some p → p ∈ key <$> hits.
Proof.
  unfold parentKey. intros Hp. apply head_Some_elem_of in Hp.
  apply (indexHits_is_Some parseIsoToNano). unfold parentsOf in Hp.
  destruct (isJaeger mode).
  - apply list_elem_of_fmap in Hp as (r & -> & Hr).
    now apply list_elem_of_filter in Hr as [[_ Hres] _].
  - destruct (truthy _ && _) eqn:E; [|now apply elem_of_nil in Hp].
    apply list_elem_of_singleton in Hp as ->.
    apply andb_true_iff in E as [_ E]. now apply bool_decide_eq_true in E.
Qed.

Lemma chain_par_node (c p : string) :
  c ∈ key <$> hits → par c = Some p → p ∈ key <$> hits.
Proof.
  intros (h & -> & Hh)%list_elem_of_fmap Hp. rewrite (chain_par_key h Hh) in Hp.
  now apply (chain_parent_resolves h).
Qed.

(** The children of a node are the hits whose parent it is, in hit order. *)
Lemma chain_children_of (l : list ParsedHit) (k : string) :
  (∀ h, h ∈ l → h ∈ hits) →
  l ≫= attachedTo mode m0 k = key <$> filter (λ h, parentK h = Some k) l.
Proof.
  induction l as [|h l IH]; intros Hall; [reflexivity|].
  rewrite bind_cons, filter_cons, IH by (intros; apply Hall; now right).
  unfold attachedTo.
  destruct (chain_parents h (Hall h ltac:(left))) as [-> _].
  destruct (parentK h) as [p|]; simpl; [|reflexivity].
  rewrite filter_one. destruct (decide (p = k)) as [->|Hne].
  - rewrite decide_True by reflexivity. reflexivity.
  - rewrite decide_False by congruence. reflexivity.
Qed.

Lemma chain_node_children (k : string) (n : HierarchicalSpan) :
  spanMap hierarchy !! k = Some n →
  children n = key <$> filter (λ h, parentK h = Some k) hits.
Proof.
  intros Hn.
  destruct (hierarchy_lookup _ _ _ _ _ Hn) as (_ & _ & _ & _ & _ & ->).
  apply chain_children_of. auto.
Qed.

Lemma chain_children_NoDup (k : string) (n : HierarchicalSpan) :
  spanMap hierarchy !! k = Some n → NoDup (children n).
Proof.
  intros Hn. rewrite (chain_node_children k n Hn).
  apply NoDup_fmap_2_strong.
  - intros a b [_ Ha]%list_elem_of_filter [_ Hb]%list_elem_of_filter.
    now apply chain_key_inj.
  - apply NoDup_filter. eapply NoDup_fmap_1. exact keys_NoDup.
Qed.

Lemma chain_child_iff (k : string) (n : HierarchicalSpan) (c : string) :
  spanMap hierarchy !! k = Some n →
  c ∈ children n ↔ c ∈ key <$> hits ∧ par c = Some k.
Proof.
  intros Hn. rewrite (chain_node_children k n Hn). split.
  - intros (h & -> & Hh)%list_elem_of_fmap.
    apply list_elem_of_filter in Hh as [Hp Hh].
    split; [now apply list_elem_of_fmap_2|]. now rewrite chain_par_key.
  - intros [(h & -> & Hh)%list_elem_of_fmap Hp].
    apply list_elem_of_fmap_2, list_elem_of_filter. split; [|exact Hh].
    now rewrite <- chain_par_key.
Qed.

Lemma chain_roots (r : string) :
  r ∈ rootSpans hierarchy → r ∈ key <$> hits ∧ par r = None.
Proof.
  intros Hr.
  destruct (hierarchy_spec parseIsoToNano mode hits) as (_ & Hiff & _).
  apply Hiff in Hr as (h & Hh & <- & Hreg).
  split; [now apply list_elem_of_fmap_2|].
  rewrite (chain_par_key h Hh). now apply chain_parents.
Qed.

(** *** Chains *)

Lemma topOf_mono (f : nat) : ∀ k r f',
  top f k = Some r → f ≤ f' → top f' k = Some r.
Proof.
  induction f as [|f IH]; intros k r f' Hr Hf; [discriminate|].
  destruct f' as [|f']; [lia|]. simpl in *.
  destruct (par k) as [p|]; [|exact Hr].
  apply (IH p r f' Hr). lia.
Qed.

Lemma topOf_depthOf (f : nat) : ∀ k r,
  top f k = Some r → ∃ d, depth f k = Some d.
Proof.
  induction f as [|f IH]; intros k r Hr; [discriminate|]. simpl in *.
  destruct (par k) as [p|]; [|eauto].
  destruct (IH p r Hr) as [d ->]. simpl. eauto.
Qed.

(** A chain that ends needs no more fuel than it has links. *)
Lemma topOf_lower (f : nat) : ∀ k r d f',
  top f k = Some r → depth f k = Some d → d < f' → top f' k = Some r.
Proof.
  induction f as [|f IH]; intros k r d f' Hr Hd Hf; [discriminate|].
  destruct f' as [|f']; [lia|]. simpl in *.
  destruct (par k) as [p|]; [|exact Hr].
  destruct (depth f p) as [d'|] eqn:Hp; [|discriminate].
  injection Hd as <-. apply (IH p r d' f' Hr Hp). lia.
Qed.

(** The keys on a chain are distinct keys of the hits, so that a chain that
    ends has less links than there are hits. *)
Lemma chain_distinct (f : nat) : ∀ k d,
  depth f k = Some d → k ∈ key <$> hits →
  ∃ l : list string,
    length l = S d ∧ NoDup l
    ∧ ∀ x, x ∈ l → x ∈ key <$> hits ∧ ∃ e, e ≤ d ∧ depth f x = Some e.
Proof.
  induction f as [|f IH]; intros k d Hd Hk; [discriminate|].
  simpl in Hd. destruct (par k) as [p|] eqn:Hp.
  - destruct (depth f p) as [d'|] eqn:Hdp; [|discriminate].
    injection Hd as <-.
    destruct (IH p d' Hdp (chain_par_node k p Hk Hp)) as (l & Hlen & Hnd & Hl).
    exists (k :: l). split; [simpl; now rewrite Hlen|]. split.
    + apply NoDup_cons. split; [|exact Hnd]. intros Hin.
      destruct (Hl k Hin) as (_ & e & He & Hke).
      apply (depthOf_mono _ _ _ _ _ _ (S f)) in Hke; [|lia].
      simpl in Hke. rewrite Hp, Hdp in Hke. injection Hke as <-. lia.
    + intros x Hx. apply elem_of_cons in Hx as [->|Hx].
      * split; [exact Hk|]. exists (S d'). split; [lia|].
        simpl. now rewrite Hp, Hdp.
      * destruct (Hl x Hx) as (Hxk & e & He & Hxe).
        split; [exact Hxk|]. exists e. split; [lia|].
        apply (depthOf_mono _ _ _ _ _ _ (S f)) in Hxe; [exact Hxe|lia].
  - injection Hd as <-. exists [k]. split; [reflexivity|].
    split; [apply NoDup_singleton|].
    intros x Hx. apply list_elem_of_singleton in Hx as ->.
    split; [exact Hk|]. exists 0. split; [lia|]. simpl. now rewrite Hp.
Qed.

Lemma chain_bound (f : nat) (k : string) (d : nat) :
  depth f k = Some d → k ∈ key <$> hits → d < length hits.
Proof.
  intros Hd Hk.
  destruct (chain_distinct f k d Hd Hk) as (l & Hlen & Hnd & Hl).
  assert (Hsub : l ⊆+ key <$> hits).
  { apply NoDup_submseteq; [exact Hnd|]. intros x Hx. now apply Hl. }
  apply submseteq_length in Hsub. rewrite length_fmap in Hsub. lia.
Qed.

(** *** The keys with a root above them *)

Lemma rooted_top (k : string) :
  isRooted k = true
  ↔ ∃ r, top (length hits) k = Some r ∧ r ∈ rootSpans hierarchy.
Proof.
  unfold rooted. destruct (top (length hits) k) as [r|].
  - rewrite bool_decide_eq_true. split; [eauto|]. now intros (r' & [= <-] & Hr).
  - split; [discriminate|]. now intros (r' & Hr & _).
Qed.

Lemma rooted_root (r : string) : r ∈ rootSpans hierarchy → isRooted r = true.
Proof.
  intros Hr. apply rooted_top. exists r. split; [|exact Hr].
  destruct (chain_roots r Hr) as [Hk Hp].
  destruct hits as [|h0 l]; [now apply elem_of_nil in Hk|].
  simpl. now rewrite Hp.
Qed.

Lemma rooted_child (c k : string) :
  c ∈ key <$> hits → par c = Some k → isRooted k = true → isRooted c = true.
Proof.
  intros Hc Hp Hk. apply rooted_top in Hk as (r & Hr & Hroot).
  apply rooted_top. exists r. split; [|exact Hroot].
  destruct (topOf_depthOf _ _ _ Hr) as [d Hd].
  assert (Htop : top (S (length hits)) c = Some r) by (simpl; now rewrite Hp).
  assert (Hdepth : depth (S (length hits)) c = Some (S d))
    by (simpl; now rewrite Hp, Hd).
  apply (topOf_lower _ _ _ _ _ Htop Hdepth).
  exact (chain_bound _ _ _ Hdepth Hc).
Qed.

Lemma rooted_parent (c p : string) :
  par c = Some p → isRooted c = true → isRooted p = true.
Proof.
  intros Hp Hc. apply rooted_top in Hc as (r & Hr & Hroot).
  apply rooted_top. exists r. split; [|exact Hroot].
  destruct (length hits) as [|n] eqn:E; [discriminate|].
  simpl in Hr. rewrite Hp in Hr. apply (topOf_mono _ _ _ _ Hr). lia.
Qed.

Lemma rooted_level (c p : string) :
  par c = Some p → isRooted c = true → level p < level c.
Proof.
  intros Hp Hc. apply rooted_top in Hc as (r & Hr & _).
  destruct (topOf_depthOf _ _ _ Hr) as [d Hd].
  unfold levelOf. rewrite Hd. simpl.
  destruct (length hits) as [|n] eqn:E; [discriminate|].
  simpl in Hd. rewrite Hp in Hd.
  destruct (depth n p) as [d'|] eqn:Hdp; [|discriminate].
  injection Hd as <-.
  rewrite (depthOf_mono _ _ _ _ _ _ (S n) Hdp) by lia. simpl. lia.
Qed.

Lemma rooted_level_bound (k : string) :
  isRooted k = true → level k < length hits.
Proof.
  intros Hk. apply rooted_top in Hk as (r & Hr & _).
  destruct (topOf_depthOf _ _ _ Hr) as [d Hd].
  unfold levelOf. rewrite Hd. simpl. now apply (depthOf_lt _ _ _ _ _ _ Hd).
Qed.

Lemma rooted_no_parent (r : string) :
  isRooted r = true → par r = None → r ∈ rootSpans hierarchy.
Proof.
  intros Hr Hp. apply rooted_top in Hr as (r' & Hr & Hroot).
  destruct (length hits) as [|n]; [discriminate|].
  simpl in Hr. rewrite Hp in Hr. now injection Hr as <-.
Qed.

Local Abbreviation rootedKeys := (filter (λ k, isRooted k = true) (key <$> hits)).

(** The layout passes the keys with a root above them, each once. *)
Lemma chain_walk (fuel : nat) :
  length hits ≤ fuel →
  ∃ out,
    walkAll (spanMap hierarchy) fuel (rootSpans hierarchy) = Some out
    ∧ out ≡ₚ rootedKeys.
Proof.
  intros Hfuel. eexists.
  apply (walkAll_forest (spanMap hierarchy) rootedKeys par
           (rootSpans hierarchy) level (length hits)).
  - now apply NoDup_filter.
  - intros k [_ Hk]%list_elem_of_filter. now apply hierarchy_is_Some.
  - apply chain_children_NoDup.
  - intros k n c [Hr Hk]%list_elem_of_filter Hn.
    rewrite (chain_child_iff k n c Hn), list_elem_of_filter. split.
    + intros [Hc Hp]. split; [|exact Hp]. split; [|exact Hc].
      now apply (rooted_child c k).
    + tauto.
  - intros c p [Hr Hc]%list_elem_of_filter Hp. apply list_elem_of_filter.
    split; [now apply (rooted_parent c p)|now apply (chain_par_node c p)].
  - intros c p [Hr _]%list_elem_of_filter Hp. now apply rooted_level.
  - intros k [Hr _]%list_elem_of_filter. now apply rooted_level_bound.
  - exact (sublist_NoDup _ _ keys_NoDup
             (hierarchy_roots_sublist parseIsoToNano mode hits)).
  - intros r. rewrite list_elem_of_filter. split.
    + intros Hr. destruct (chain_roots r Hr) as [Hk Hp].
      split; [|exact Hp]. split; [now apply rooted_root|exact Hk].
    + intros [[Hr _] Hp]. now apply rooted_no_parent.
  - exact Hfuel.
Qed.

Lemma chain_spanIdOfKey (h : ParsedHit) :
  h ∈ hits → spanIdOfKey parseIsoToNano mode hits (key h) = spanIdOf mode h.
Proof.
  intros Hh. unfold spanIdOfKey.
  now rewrite (indexHits_unique _ _ _ _ keys_NoDup Hh).
Qed.

Lemma rootedKeys_hits :
  rootedKeys = key <$> filter (λ h, isRooted (key h) = true) hits.
Proof. apply filter_fmap_keys. Qed.

(** The chart has one bar for each hit with a root above it. *)
Lemma chain_loads (fuel : nat) (colorMap : gmap string string)
    (st : PanelState) :
  thrown hierarchy = false →
  (∀ h, h ∈ hits → ∃ p, parseSpanHitData h mode = Ok p) →
  length hits ≤ fuel →
  ∃ st', loadHits parseIsoToNano fuel hits mode colorMap st = Ok st'
         ∧ NoDup (pd_y <$> gantt st')
         ∧ pd_y <$> gantt st'
             ≡ₚ spanIdOf mode <$> filter (λ h, isRooted (key h) = true) hits.
Proof.
  intros Hbuilt Haccepted Hfuel.
  destruct (chain_walk fuel Hfuel) as (out & Hwalk & Hperm).
  assert (Hparsed : Forall (parsedAt (spanMap hierarchy) mode) out).
  { apply Forall_forall. intros k _ span Hspan.
    destruct (hierarchy_lookup _ _ _ _ _ Hspan) as (h & Hh & _ & -> & _).
    now apply Haccepted. }
  destruct (createPlotlyData_returns (spanMap hierarchy) mode colorMap
              (rootMinStartMs hierarchy) fuel (rootSpans hierarchy) out
              Hwalk Hparsed) as [chart Hchart].
  assert (Hload : ∃ st', loadHits parseIsoToNano fuel hits mode colorMap st
                         = Ok st').
  { rewrite (loadHits_unthrown _ _ _ _ _ _ Hbuilt).
    unfold rootMinStartMs in Hchart. rewrite Hchart. simpl. eauto. }
  destruct Hload as [st' Hload]. exists st'. split; [exact Hload|].
  destruct (loadHits_visits _ _ _ _ _ _ _ Hload) as (vs & Hw & Hvs & Hg & _).
  rewrite Hwalk in Hw. injection Hw as ->.
  assert (Hy : pd_y <$> gantt st'
               = spanIdOfKey parseIsoToNano mode hits <$> (v_ref <$> vs)).
  { rewrite Hg, <- !list_fmap_compose. apply Forall_fmap_ext_1.
    eapply Forall_impl; [exact Hvs|].
    intros v (h & Hh & Hk & _ & _ & _ & Hp). simpl.
    apply parseSpanHitData_fields in Hp as [-> _].
    now rewrite <- Hk, chain_spanIdOfKey. }
  assert (Hids : pd_y <$> gantt st'
                 ≡ₚ spanIdOf mode
                      <$> filter (λ h, isRooted (key h) = true) hits).
  { rewrite Hy, Hperm, rootedKeys_hits, <- list_fmap_compose.
    apply eq_subrelation; [apply _|]. apply Forall_fmap_ext_1, Forall_forall.
    intros h [_ Hh]%list_elem_of_filter. simpl.
    now apply chain_spanIdOfKey. }
  split; [|exact Hids].
  rewrite Hids. apply NoDup_fmap_2_strong.
  - intros a b [_ Ha]%list_elem_of_filter [_ Hb]%list_elem_of_filter Hab.
    apply chain_key_inj; [assumption|assumption|].
    unfold keyOf. now rewrite Hab.
  - apply NoDup_filter. eapply NoDup_fmap_1. exact keys_NoDup.
Qed.

End ChainFacts.

(** In the data prepper modes every hit has at most one place. *)
Lemma data_prepper_places (parseIsoToNano : option StartTime → number)
    (mode : TraceAnalyticsMode) (hits : list ParsedHit) (h : ParsedHit) :
  isJaeger mode = false → atMostOnePlace parseIsoToNano mode hits h.
Proof.
  intros Hmode. unfold atMostOnePlace, parentsOf, registersRoot,
    registersRootIn.
  rewrite Hmode.
  destruct (truthy (parentSpanId (_source h))) eqn:Hparent; simpl.
  - case_bool_decide as Hp; simpl.
    + rewrite (truthyFound_span _ false _ Hp). simpl. lia.
    + destruct (negb _ && _); simpl; lia.
  - destruct (truthy (spanId (_source h))); simpl; lia.
Qed.

(** ** The tables of traces *)

Lemma mapResult_Ok {A B} (f : A → result B) (l : list A) (bs : list B) :
  mapResult f l = Ok bs ↔ Forall2 (λ a b, f a = Ok b) l bs.
Proof.
  revert bs. induction l as [|a l IH]; intros bs; simpl.
  - split; [intros [= <-]; constructor|intros H; now inversion H].
  - split.
    + intros H. apply bind_Ok in H as (b & Hb & H).
      apply bind_Ok in H as (bs' & Hbs & [= <-]).
      constructor; [exact Hb|now apply IH].
    + intros H. inversion H as [|? b ? bs' Hb Hbs]; subst.
      rewrite Hb. simpl. apply IH in Hbs. now rewrite Hbs.
Qed.

Lemma mapResult_fails {A B} (f : A → result B) (l : list A) (a : A) :
  a ∈ l → (∀ b, f a ≠ Ok b) → ∀ bs, mapResult f l ≠ Ok bs.
Proof.
  intros Ha Hf bs H. apply mapResult_Ok in H.
  apply list_elem_of_lookup in Ha as [i Hi].
  destruct (Forall2_lookup_l _ _ _ _ _ H Hi) as (b & _ & Hb).
  exact (Hf b Hb).
Qed.

Lemma mapResult_fails_inv {A B} (f : A → result B) (l : list A) :
  (∀ bs, mapResult f l ≠ Ok bs) → ∃ a, a ∈ l ∧ ∀ b, f a ≠ Ok b.
Proof.
  induction l as [|a l IH]; intros H; [now destruct (H [])|].
  destruct (f a) as [b| |] eqn:Ha.
  - destruct IH as (a' & Ha' & Hf).
    { intros bs Hbs. apply (H (b :: bs)). simpl. now rewrite Ha, Hbs. }
    exists a'. split; [now right|exact Hf].
  - exists a. split; [left|]. intros b. now rewrite Ha.
  - exists a. split; [left|]. intros b. now rewrite Ha.
Qed.

Lemma TraceRow_fmap_inj (rows rows' : list TraceItem) :
  TraceRow <$> rows = TraceRow <$> rows' → rows = rows'.
Proof.
  revert rows'. induction rows as [|r rows IH]; intros [|r' rows'] H;
    try discriminate; [reflexivity|].
  injection H as -> H. f_equal. now apply IH.
Qed.

Lemma readFrom_Ok {A} (object : option A) (o : A) :
  readFrom object = Ok o ↔ object = Some o.
Proof. destruct object; simpl; split; congruence. Qed.

(** The percentiles of the trace groups: one entry for each key, with the
    values of the bucket of this key. *)
Lemma percentile_ranges_fold (buckets : list PercentileBucket) :
  Forall (λ b, is_Some (pb_values b)) buckets →
  ∀ map0,
  ∃ map,
    forEach
      (λ (map : gmap string (list number)) traceGroup,
         values ← readFrom (pb_values traceGroup);
         Ok (<[propKey (pb_key traceGroup) :=
                 nanoToMilliSec <$> (values : list number)]> map))
      buckets map0 = Ok map
    ∧ (∀ k, k ∉ (λ b, propKey (pb_key b)) <$> buckets → map !! k = map0 !! k)
    ∧ (NoDup ((λ b, propKey (pb_key b)) <$> buckets) →
       ∀ b vs, b ∈ buckets → pb_values b = Some vs →
         map !! propKey (pb_key b) = Some (nanoToMilliSec <$> vs)).
Proof.
  induction 1 as [|b buckets [vs Hvs] Hall IH]; intros map0; simpl.
  - exists map0. split; [reflexivity|]. split; [reflexivity|].
    intros _ b vs Hb. now apply elem_of_nil in Hb.
  - rewrite Hvs. simpl.
    destruct (IH (<[propKey (pb_key b) := nanoToMilliSec <$> vs]> map0))
      as (map & Hmap & Hother & Hkeys).
    exists map. split; [exact Hmap|]. split.
    + intros k Hk. rewrite not_elem_of_cons in Hk. destruct Hk as [Hne Hk].
      rewrite (Hother k Hk). now apply lookup_insert_ne.
    + intros Hnd b' vs' Hb' Hvs'. apply NoDup_cons in Hnd as [Hfresh Hnd].
      apply elem_of_cons in Hb' as [->|Hb'].
      * rewrite (Hother _ Hfresh), lookup_insert_eq. congruence.
      * now apply Hkeys.
Qed.

Lemma percentileRangesOf_spec (response : PercentileResponse)
    (buckets : list PercentileBucket) :
  percentile_buckets response = Some buckets →
  Forall (λ b, is_Some (pb_values b)) buckets →
  ∃ map,
    percentileRangesOf response = Ok map
    ∧ (∀ k, k ∉ (λ b, propKey (pb_key b)) <$> buckets → map !! k = None)
    ∧ (NoDup ((λ b, propKey (pb_key b)) <$> buckets) →
       ∀ b vs, b ∈ buckets → pb_values b = Some vs →
         map !! propKey (pb_key b) = Some (nanoToMilliSec <$> vs)).
Proof.
  intros Hb Hall. unfold percentileRangesOf. rewrite Hb. simpl.
  destruct (percentile_ranges_fold buckets Hall ∅) as (map & Hmap & Ho & Hk).
  exists map. split; [exact Hmap|]. split; [|exact Hk].
  intros k Hk'. now rewrite (Ho k Hk').
Qed.

Lemma percentileRangesOf_fails (response : PercentileResponse) :
  percentile_buckets response = None
  ∨ (∃ buckets b, percentile_buckets response = Some buckets
                  ∧ b ∈ buckets ∧ pb_values b = None) →
  ∀ map, percentileRangesOf response ≠ Ok map.
Proof.
  intros [Hnone|(buckets & b & Hb & Hin & Hv)] map; unfold percentileRangesOf.
  - now rewrite Hnone.
  - rewrite Hb. simpl. clear Hb. generalize (∅ : gmap string (list number)).
    induction buckets as [|x buckets IH]; intros map0;
      [now apply elem_of_nil in Hin|].
    simpl. apply elem_of_cons in Hin as [<-|Hin].
    + now rewrite Hv.
    + destruct (pb_values x); simpl; [now apply IH|discriminate].
Qed.

(** *** Values that are no arrays *)

Lemma binarySearchLoop_empty (target : number) (n : nat) : ∀ low high,
  high - low ≤ n → binarySearchLoop [] target low high = low.
Proof.
  induction n as [|n IH]; intros low high Hn; rewrite binarySearchLoop_step;
    (destruct (decide (low < high)) as [Hlt|]; [|reflexivity]); [lia|].
  pose proof (midpoint_bounds low high Hlt).
  unfold belowTarget. rewrite lookup_nil. apply IH. lia.
Qed.

(** For a function or an object without a [length], [binarySearch] returns
    zero. *)
Lemma binarySearchOther_object (value : OtherValue) (target : number) :
  (∀ x, value ≠ NumberValue x) → binarySearchOther value target = ofZ 0.
Proof.
  destruct value as [arity| |x]; intros Hv; simpl.
  - now rewrite (binarySearchLoop_empty target arity 0 arity) by lia.
  - reflexivity.
  - now destruct (Hv x).
Qed.

Lemma objectPrototype_values (k : string) (value : OtherValue) :
  objectPrototype !! k = Some value → ∀ x, value ≠ NumberValue x.
Proof.
  intros H x ->. unfold objectPrototype in H.
  apply elem_of_list_to_map_2 in H.
  repeat (apply elem_of_cons in H as [H|H]; [discriminate H|]).
  now apply elem_of_nil in H.
Qed.

Section TableFacts.

Variable formatDate : option number → string.
Variable arrayPrototype : gmap string nat.

(** The percentile for a map that holds an array under the key. *)
Lemma percentileIn_own (percentileRanges : gmap string (list number))
    (k : string) (values : list number) (target : number) :
  percentileRanges !! k = Some values →
  percentileIn arrayPrototype percentileRanges k target
  = binarySearch (Some values) target.
Proof. intros H. unfold percentileIn, getRange. now rewrite H. Qed.

(** The percentile for a map that holds no array under the key and has
    [Object.prototype] as its prototype: zero for the name of a property of
    [Object.prototype], [NaN] for any other key. *)
Lemma percentileIn_inherited (percentileRanges : gmap string (list number))
    (k : string) (target : number) :
  percentileRanges !! k = None → percentileRanges !! "__proto__" = None →
  percentileIn arrayPrototype percentileRanges k target
  = if bool_decide (is_Some (objectPrototype !! k)) then ofZ 0 else NaN.
Proof.
  intros Hk Hp. unfold percentileIn, getRange. rewrite Hk, Hp. simpl.
  destruct (objectPrototype !! k) as [value|] eqn:Ho.
  - rewrite bool_decide_eq_true_2 by eauto.
    apply binarySearchOther_object. now apply (objectPrototype_values k).
  - rewrite bool_decide_eq_false_2 by (intros [? ?]; discriminate).
    reflexivity.
Qed.

(** The percentile for a map that holds no array under the key and has an
    array as its prototype. *)
Lemma percentileIn_prototype (percentileRanges : gmap string (list number))
    (k : string) (prototype : list number) (target : number) :
  percentileRanges !! k = None →
  percentileRanges !! "__proto__" = Some prototype →
  percentileIn arrayPrototype percentileRanges k target
  = match arrayField arrayPrototype prototype k with
    | Some value => binarySearchOther value target
    | None =>
        if bool_decide (is_Some (objectPrototype !! k)) then ofZ 0 else NaN
    end.
Proof.
  intros Hk Hp. unfold percentileIn, getRange. rewrite Hk, Hp. simpl.
  destruct (arrayField arrayPrototype prototype k); [reflexivity|].
  destruct (objectPrototype !! k) as [value|] eqn:Ho.
  - rewrite bool_decide_eq_true_2 by eauto.
    apply binarySearchOther_object. now apply (objectPrototype_values k).
  - rewrite bool_decide_eq_false_2 by (intros [? ?]; discriminate).
    reflexivity.
Qed.

(** The row of a bucket in the data prepper modes. *)
Lemma traceRow_data_prepper (mode : TraceAnalyticsMode)
    (percentileRanges : gmap string (list number)) (bucket : TraceBucket)
    (row : TraceItem) :
  isDataPrepper mode = true →
  traceRow formatDate arrayPrototype mode percentileRanges bucket = Ok row →
  trace_id row = tb_key bucket
  ∧ ∃ groups,
      tb_trace_group bucket = Some groups
      ∧ trace_group row = Some (head groups ≫= kb_key)
      ∧ percentile_in_trace_group row
        = Some (percentileIn arrayPrototype percentileRanges
                  (propKey (head groups ≫= kb_key))
                  (from_option id NaN (latency row))).
Proof.
  intros Hmode. unfold traceRow. rewrite Hmode. intros H.
  apply bind_Ok in H as (groups & Hg & H). apply readFrom_Ok in Hg.
  apply bind_Ok in H as (lat & _ & H).
  apply bind_Ok in H as (upd & _ & H).
  apply bind_Ok in H as (err & _ & [= <-]).
  simpl. split; [reflexivity|]. exists groups. auto.
Qed.

Lemma plainRow_complete (bucket : TraceBucket) (row : TraceItem) :
  plainRow formatDate bucket = Ok row →
  is_Some (tb_latency bucket) ∧ is_Some (tb_last_updated bucket)
  ∧ is_Some (tb_error_count bucket)
  ∧ trace_id row = tb_key bucket
  ∧ trace_group row = None ∧ percentile_in_trace_group row = None.
Proof.
  unfold plainRow. intros H.
  apply bind_Ok in H as (lat & Hl & H). apply readFrom_Ok in Hl.
  apply bind_Ok in H as (upd & Hu & H). apply readFrom_Ok in Hu.
  apply bind_Ok in H as (err & He & [= <-]). apply readFrom_Ok in He.
  simpl. rewrite Hl, Hu, He. eauto 10.
Qed.

Lemma traceRow_complete (mode : TraceAnalyticsMode)
    (percentileRanges : gmap string (list number)) (bucket : TraceBucket)
    (row : TraceItem) :
  traceRow formatDate arrayPrototype mode percentileRanges bucket = Ok row →
  is_Some (tb_latency bucket) ∧ is_Some (tb_last_updated bucket)
  ∧ is_Some (tb_error_count bucket).
Proof.
  unfold traceRow. destruct (isDataPrepper mode).
  - intros H. apply bind_Ok in H as (groups & _ & H).
    apply bind_Ok in H as (lat & Hl & H). apply readFrom_Ok in Hl.
    apply bind_Ok in H as (upd & Hu & H). apply readFrom_Ok in Hu.
    apply bind_Ok in H as (err & He & _). apply readFrom_Ok in He.
    rewrite Hl, Hu, He. eauto.
  - intros H. apply plainRow_complete in H. tauto.
Qed.

(** What the handler does with buckets, in terms of the rows. *)
Lemma handleTracesRequest_rows (response : TracesResponse)
    (percentileResponse : option PercentileResponse)
    (mode : TraceAnalyticsMode) (setUniqueTraces : bool)
    (buckets : list TraceBucket)
    (percentileRanges : gmap string (list number)) :
  traces_buckets response = Some buckets → buckets ≠ [] →
  (if isDataPrepper mode then
     match percentileResponse with
     | Some r =>
         match percentileRangesOf r with Ok map => map | _ => ∅ end
     | None => ∅
     end
   else ∅) = percentileRanges →
  handleTracesRequest formatDate arrayPrototype (Some response)
    percentileResponse mode setUniqueTraces
  = (if setUniqueTraces
     then [SetUniqueTraces (default (ofZ 0) (unique_traces response))]
     else [])
    ++ match mapResult (traceRow formatDate arrayPrototype mode
                          percentileRanges) buckets with
       | Ok newItems => [SetItems (TraceRow <$> newItems)]
       | _ => [ReportError "Failed to retrieve traces"]
       end.
Proof.
  intros Hb Hne <-. unfold handleTracesRequest. rewrite Hb.
  destruct buckets as [|b buckets]; [contradiction|].
  assert (Hranges :
            default ∅
              (if isDataPrepper mode then
                 match percentileResponse with
                 | Some r =>
                     match percentileRangesOf r with
                     | Ok map => Some map
                     | _ => None
                     end
                 | None => None
                 end
               else Some ∅)
            = (if isDataPrepper mode then
                 match percentileResponse with
                 | Some r =>
                     match percentileRangesOf r with Ok map => map | _ => ∅ end
                 | None => ∅
                 end
               else ∅)).
  { destruct (isDataPrepper mode); [|reflexivity].
    destruct percentileResponse as [r|]; [|reflexivity].
    now destruct (percentileRangesOf r). }
  rewrite Hranges.
  now destruct (mapResult _ (b :: buckets)).
Qed.

Lemma plainRow_fails (bucket : TraceBucket) :
  (∀ row, plainRow formatDate bucket ≠ Ok row) →
  tb_latency bucket = None ∨ tb_last_updated bucket = None
  ∨ tb_error_count bucket = None.
Proof.
  unfold plainRow. intros H.
  destruct (tb_latency bucket); [|now left].
  destruct (tb_last_updated bucket); [|now right; left].
  destruct (tb_error_count bucket); [|now right; right].
  simpl in H. exfalso. eapply H. reflexivity.
Qed.

End TableFacts.

(** ** The parser *)

(** In the data prepper modes the parser returns for every hit. *)
Lemma parseSpanHitData_data_prepper_total (span : ParsedHit)
    (mode : TraceAnalyticsMode) :
  isJaeger mode = false → ∃ p, parseSpanHitData span mode = Ok p.
Proof. intros H. unfold parseSpanHitData. rewrite H. simpl. eauto. Qed.

(** In jaeger mode it returns exactly when the hit has a [process]. *)
Lemma parseSpanHitData_jaeger_total (span : ParsedHit) :
  (∃ p, parseSpanHitData span jaeger = Ok p)
  ↔ is_Some (process (_source span)).
Proof.
  unfold parseSpanHitData. simpl. destruct (process (_source span)); simpl.
  - split; eauto.
  - split; [intros [? ?]; discriminate|intros [? ?]; discriminate].
Qed.

(** C3 (the code departs from the claim): in jaeger mode, a hit whose
    [_source] has no [process] field makes [parseSpanHitData] throw a
    [TypeError] instead of returning an undefined service name. *)
Theorem parseSpanHitData_throws_without_process :
  parseSpanHitData (jaegerSpanWithoutProcess "a" 0 10) jaeger
  = Throw "TypeError: Cannot read properties of undefined".
Proof. reflexivity. Qed.

(** ** The empty trace *)

(** C9: for an empty hit array and every mode, the hierarchy has no root, the
    layout returns no bar, no label and a maximal extent of zero, and the
    panel stores exactly that; nothing is thrown, whatever the bound on the
    recursion. *)
Theorem empty_hits_give_empty_chart (parseIsoToNano : option StartTime → number)
    (mode : TraceAnalyticsMode) (colorMap : gmap string string)
    (startTimeInMs : number) (fuel : nat) (st : PanelState) :
  rootSpans (hitsToHierarchicalSpans parseIsoToNano [] mode) = []
  ∧ createPlotlyData
      (spanMap (hitsToHierarchicalSpans parseIsoToNano [] mode))
      mode colorMap startTimeInMs fuel
      (rootSpans (hitsToHierarchicalSpans parseIsoToNano [] mode))
    = Ok {| data := []; annotations := []; maxX := ofZ 0 |}
  ∧ ∃ st',
      loadHits parseIsoToNano fuel [] mode colorMap st = Ok st'
      ∧ gantt st' = [] ∧ ganttAnnotations st' = [] ∧ ganttMax st' = ofZ 0.
Proof.
  split; [reflexivity|]. split; [reflexivity|].
  eexists. split; [reflexivity|]. simpl. auto.
Qed.

(** ** The maximal extent and the zoom range *)

(** C7: the maximal extent that the layout returns, and that the panel keeps
    as [ganttMax], is the running maximum of the ends (offset plus duration)
    of the bars, taken from zero.  When the ends are finite it bounds every
    end and is the end of some bar, or zero; when the hits have finite start
    times and durations that are not negative and there is a bar, it is the
    greatest end of a bar.  The zoom range after loading is
    [[0, ganttMax * 1.1]], and so is the range after a reset, whatever range
    was selected before. *)
Theorem maxX_is_greatest_end (parseIsoToNano : option StartTime → number)
    (fuel : nat) (hits : list ParsedHit) (mode : TraceAnalyticsMode)
    (colorMap : gmap string string) (st st' : PanelState) :
  loadHits parseIsoToNano fuel hits mode colorMap st = Ok st' →
  ganttMax st' = maxEnd (gantt st')
  ∧ (Forall (λ bar, isFinite (barEnd bar)) (gantt st') →
       Forall (λ bar, le (barEnd bar) (ganttMax st')) (gantt st')
       ∧ (ganttMax st' = ofZ 0
          ∨ ∃ bar, bar ∈ gantt st' ∧ ganttMax st' = barEnd bar))
  ∧ ((∀ h, h ∈ hits → wellTimed parseIsoToNano mode h) → gantt st' ≠ [] →
       Forall (λ bar, le (barEnd bar) (ganttMax st')) (gantt st')
       ∧ ∃ bar, bar ∈ gantt st' ∧ ganttMax st' = barEnd bar)
  ∧ selectedRange st' = (ofZ 0, mul (ganttMax st') (fin (11 # 10)))
  ∧ ∀ range,
      selectedRange (resetZoom (setSelectedRange range st'))
      = (ofZ 0, mul (ganttMax st') (fin (11 # 10))).
Proof.
  intros Hload.
  destruct (loadHits_chart _ _ _ _ _ _ _ Hload)
    as (chart & Hchart & Hg & _ & Hmax & Hrange).
  apply createPlotlyData_chart in Hchart as (vs & _ & _ & _ & _ & Hm).
  assert (Heq : ganttMax st' = maxEnd (gantt st')).
  { now rewrite Hmax, Hg. }
  split; [exact Heq|]. split; [|split; [|split]].
  - intros Hfin.
    destruct (running_max_spec (gantt st') (ofZ 0) I Hfin)
      as (_ & _ & Hall & Hwho).
    fold (maxEnd (gantt st')) in Hall, Hwho. rewrite <- Heq in Hall, Hwho.
    split; assumption.
  - intros Htimed Hbars.
    exact (loadHits_max_attained _ _ _ _ _ _ _ Hload Htimed Hbars).
  - now rewrite Hrange, Hmax.
  - intros range. reflexivity.
Qed.

Lemma maxX_is_greatest_end_witness :
  ganttMax scenarioPanel = fin 10
  ∧ ganttMax scenarioPanel = maxEnd (gantt scenarioPanel)
  ∧ selectedRange (resetZoom (setSelectedRange (fin 2, fin 5) scenarioPanel))
    = (ofZ 0, fin 11).
Proof.
  assert (Hload : loadHits timestampLength 10 scenarioHits jaeger noColors
                    initialPanel = Ok scenarioPanel)
    by (vm_compute; reflexivity).
  destruct (maxX_is_greatest_end _ _ _ _ _ _ _ Hload)
    as (Hmax & _ & _ & _ & Hreset).
  split; [reflexivity|]. split; [exact Hmax|].
  rewrite Hreset. reflexivity.
Defined.

(** ** Labels in the visible window *)

(** C8: for a chart that was loaded and any selected range, the timeline
    shows one label per bar; a label whose position lies before the start of
    the range while its bar ends after that start is shown exactly at the
    start of the range; a label whose bar ends at or before the start of the
    range (more generally, whose bar does not end after it) is shown at its
    own position, and so is a label that does not lie before the start.
    Nothing else of a label changes. *)
Theorem labels_follow_visible_start
    (parseIsoToNano : option StartTime → number)
    (fuel : nat) (hits : list ParsedHit) (mode : TraceAnalyticsMode)
    (colorMap : gmap string string) (st st' : PanelState)
    (range : number * number) :
  loadHits parseIsoToNano fuel hits mode colorMap st = Ok st' →
  ∃ shown,
    layoutAnnotations (setSelectedRange range st') = Ok shown
    ∧ length shown = length (ganttAnnotations st')
    ∧ length shown = length (gantt st')
    ∧ ∀ i a' , shown !! i = Some a' →
        ∃ a bar,
          ganttAnnotations st' !! i = Some a ∧ gantt st' !! i = Some bar
          ∧ an_y a = pd_y bar ∧ an_x a = pd_base bar
          ∧ an_y a' = an_y a ∧ text a' = text a
          ∧ (lt (an_x a) range.1 = true → gt (barEnd bar) range.1 = true →
             an_x a' = range.1)
          ∧ (le (barEnd bar) range.1 → an_x a' = an_x a)
          ∧ (gt (barEnd bar) range.1 = false → an_x a' = an_x a)
          ∧ (lt (an_x a) range.1 = false → an_x a' = an_x a).
Proof.
  intros Hload.
  destruct (loadHits_chart _ _ _ _ _ _ _ Hload)
    as (chart & Hchart & Hg & Ha & _ & _).
  apply createPlotlyData_chart in Hchart as (vs & _ & _ & Hd & Hl & _).
  rewrite Hd in Hg. rewrite Hl in Ha.
  set (st2 := setSelectedRange range st').
  assert (Haligned : ∀ j a, ganttAnnotations st' !! j = Some a →
            ∃ bar, gantt st2 !! (0 + j) = Some bar
                   ∧ an_y a = pd_y bar ∧ an_x a = pd_base bar).
  { intros j a Hj. simpl. rewrite Hg. rewrite Ha in Hj.
    rewrite list_lookup_fmap in Hj. rewrite list_lookup_fmap.
    destruct (vs !! j) as [v|]; [|discriminate].
    simpl in Hj |- *. simplify_eq. eexists. split; [reflexivity|].
    split; reflexivity. }
  destruct (layoutAnnotationsFrom_aligned st2 (ganttAnnotations st') 0)
    as (shown & Hshown & Hlen & Hprop).
  { intros j a Hj. destruct (Haligned j a Hj) as (bar & ? & ? & _). eauto. }
  exists shown. split; [exact Hshown|]. split; [exact Hlen|].
  split; [now rewrite Hlen, Ha, Hg, !length_fmap|].
  intros i a' Hi.
  assert (Hlt : i < length (ganttAnnotations st')).
  { rewrite <- Hlen. eapply lookup_lt_Some. exact Hi. }
  destruct (lookup_lt_is_Some_2 _ _ Hlt) as (a & Hai).
  destruct (Haligned i a Hai) as (bar & Hbar & Hy & Hx).
  destruct (Hprop i a bar a' Hai Hbar Hi) as (Hy' & Htext & Hx').
  simpl in Hbar, Hx'. exists a, bar.
  do 6 (split; [assumption|]).
  split; [|split; [|split]].
  - intros H1 H2. now rewrite Hx', H1, H2.
  - intros H2%le_not_gt. rewrite Hx', H2. now rewrite andb_false_r.
  - intros H2. rewrite Hx', H2. now rewrite andb_false_r.
  - intros H1. now rewrite Hx', H1.
Qed.

Lemma labels_follow_visible_start_witness :
  ∃ shown,
    layoutAnnotations (setSelectedRange (fin 1, fin 5) scenarioPanel) = Ok shown
    ∧ an_x <$> ganttAnnotations scenarioPanel = [fin 0; fin 2; fin 1]
    ∧ barEnd <$> gantt scenarioPanel = [fin 10; fin 7; fin 4]
    ∧ an_x <$> shown = [fin 1; fin 2; fin 1].
Proof.
  assert (Hload : loadHits timestampLength 10 scenarioHits jaeger noColors
                    initialPanel = Ok scenarioPanel)
    by (vm_compute; reflexivity).
  destruct (labels_follow_visible_start _ _ _ _ _ _ _ (fin 1, fin 5) Hload)
    as (shown & Hshown & _).
  exists shown. split; [exact Hshown|].
  split; [reflexivity|]. split; [reflexivity|].
  vm_compute in Hshown. inversion Hshown. reflexivity.
Defined.

(** ** Children and parents *)

(** C2 (counterexample): a span with a [CHILD_OF] reference to each of two
    spans of the trace is stored in the children of both. *)
Lemma child_of_two_parents :
  children <$> spanMap (hitsToHierarchicalSpans timestampLength
                          twoParentsHits jaeger) !! "A" = Some ["C"]
  ∧ children <$> spanMap (hitsToHierarchicalSpans timestampLength
                            twoParentsHits jaeger) !! "B" = Some ["C"]
  ∧ ¬ singleOwner (spanMap (hitsToHierarchicalSpans timestampLength
                              twoParentsHits jaeger)).
Proof.
  split; [reflexivity|]. split; [reflexivity|].
  intros H. specialize (H "C"). vm_compute in H. lia.
Qed.

Lemma attachedTo_jaeger (m0 : gmap string HierarchicalSpan) (k : string)
    (h : ParsedHit) :
  is_Some (m0 !! k) →
  attachedTo jaeger m0 k h
  = replicate
      (length (filter (λ r, refType r = CHILD_OF ∧ ref_spanID r = k)
                 (default [] (references (_source h)))))
      (keyOf jaeger h).
Proof.
  intros Hk. unfold attachedTo, parentsOf. simpl.
  induction (default [] (references (_source h))) as [|r refs IH];
    [reflexivity|].
  rewrite !filter_cons. unfold resolvableChildOf at 1.
  destruct (decide (refType r = CHILD_OF ∧ ref_spanID r = k)) as [[Ht Hr]|Hno].
  - rewrite decide_True by (split; [exact Ht|now rewrite Hr]).
    rewrite fmap_cons, filter_cons, decide_True by exact Hr.
    rewrite fmap_cons. cbn [length replicate]. now rewrite IH.
  - destruct (decide _) as [[Ht Hr]|]; [|exact IH].
    rewrite fmap_cons, filter_cons, decide_False by tauto. exact IH.
Qed.

(** C2 (amended): every parent link that resolves takes effect.  The
    children of a node are, in the order of the hits, what each hit attaches
    to it: in jaeger mode one entry for each [CHILD_OF] reference of the hit
    to that node, so that a span with several resolvable [CHILD_OF]
    references is stored under each of their targets; in the data prepper
    modes a hit is attached to one node at most. *)
Theorem children_follow_every_resolvable_link
    (parseIsoToNano : option StartTime → number) (hits : list ParsedHit)
    (mode : TraceAnalyticsMode) :
  (∀ k, children <$> spanMap (hitsToHierarchicalSpans parseIsoToNano hits mode)
                       !! k
        = (λ _, childrenOf mode (indexHits parseIsoToNano mode hits) hits k)
          <$> indexHits parseIsoToNano mode hits !! k)
  ∧ (mode = jaeger → ∀ h r n,
       h ∈ hits → r ∈ default [] (references (_source h)) →
       refType r = CHILD_OF →
       spanMap (hitsToHierarchicalSpans parseIsoToNano hits mode)
         !! ref_spanID r = Some n →
       keyOf mode h ∈ children n)
  ∧ (mode = jaeger → ∀ k h,
       is_Some (indexHits parseIsoToNano mode hits !! k) →
       attachedTo mode (indexHits parseIsoToNano mode hits) k h
       = replicate
           (length (filter (λ r, refType r = CHILD_OF ∧ ref_spanID r = k)
                      (default [] (references (_source h)))))
           (keyOf mode h))
  ∧ (isJaeger mode = false → ∀ h,
       length (parentsOf mode (indexHits parseIsoToNano mode hits) h) ≤ 1).
Proof.
  split; [|split; [|split]].
  - intros k. destruct (hierarchy_spec parseIsoToNano mode hits) as (Hm & _).
    rewrite Hm. destruct (indexHits parseIsoToNano mode hits !! k) as [n0|] eqn:E;
      [|reflexivity].
    simpl. f_equal.
    destruct (indexHits_lookup _ _ _ _ _ E) as (h & _ & _ & ->). reflexivity.
  - intros -> h r n Hh Hr Ht Hn.
    destruct (hierarchy_lookup _ _ _ _ _ Hn) as (_ & _ & _ & _ & _ & ->).
    unfold childrenOf. apply list_elem_of_bind. exists h. split; [|exact Hh].
    unfold attachedTo. apply list_elem_of_fmap. exists (ref_spanID r).
    split; [reflexivity|]. apply list_elem_of_filter. split; [reflexivity|].
    unfold parentsOf. simpl. apply list_elem_of_fmap_2.
    apply list_elem_of_filter. split; [|exact Hr]. split; [exact Ht|].
    apply (indexHits_is_Some parseIsoToNano).
    apply (hierarchy_is_Some parseIsoToNano jaeger hits). eauto.
  - intros -> k h Hk. now apply attachedTo_jaeger.
  - intros Hmode h. unfold parentsOf. rewrite Hmode.
    destruct (_ && _); simpl; lia.
Qed.

(** ** Spans without a resolvable parent in jaeger mode *)

(** C10: in jaeger mode, take a span id such that every hit with this id has
    references, all of them [CHILD_OF] references to spans that are not in
    the trace.  The node of that id is no root and no child of any node, and
    no bar of the chart carries the id. *)
Theorem unresolved_jaeger_span_is_dropped
    (parseIsoToNano : option StartTime → number) (hits : list ParsedHit)
    (colorMap : gmap string string) (h : ParsedHit) :
  h ∈ hits →
  (∀ h', h' ∈ hits → keyOf jaeger h' = keyOf jaeger h →
     default [] (references (_source h')) ≠ []
     ∧ ∀ r, r ∈ default [] (references (_source h')) →
            refType r = CHILD_OF ∧ ref_spanID r ∉ keyOf jaeger <$> hits) →
  (keyOf jaeger h
     ∉ rootSpans (hitsToHierarchicalSpans parseIsoToNano hits jaeger))
  ∧ (∀ k n,
       spanMap (hitsToHierarchicalSpans parseIsoToNano hits jaeger) !! k
       = Some n →
       keyOf jaeger h ∉ children n)
  ∧ ∀ fuel st st',
      loadHits parseIsoToNano fuel hits jaeger colorMap st = Ok st' →
      ∀ bar, bar ∈ gantt st' → pd_y bar ≠ spanID (_source h).
Proof.
  intros Hh Hdrop.
  assert (Hroot : keyOf jaeger h
                  ∉ rootSpans (hitsToHierarchicalSpans parseIsoToNano hits jaeger)).
  { destruct (hierarchy_spec parseIsoToNano jaeger hits) as (_ & Hr & _).
    intros (h' & Hh' & Hk & Hreg)%Hr.
    destruct (Hdrop h' Hh' Hk) as [Hne Hrefs].
    unfold registersRoot in Hreg. simpl in Hreg.
    apply orb_true_iff in Hreg as [Hnil|Hff].
    - now apply bool_decide_eq_true in Hnil.
    - apply existsb_exists in Hff as (r & Hr' & Hf).
      apply list_elem_of_In in Hr'. destruct (Hrefs r Hr') as [Ht _].
      unfold isFollowsFrom in Hf. apply bool_decide_eq_true in Hf. congruence. }
  assert (Hchild : ∀ k n,
            spanMap (hitsToHierarchicalSpans parseIsoToNano hits jaeger) !! k
            = Some n → keyOf jaeger h ∉ children n).
  { intros k n Hn Hin.
    destruct (hierarchy_lookup _ _ _ _ _ Hn) as (_ & _ & _ & _ & _ & Hc).
    rewrite Hc in Hin. unfold childrenOf in Hin.
    apply list_elem_of_bind in Hin as (h' & Hin & Hh').
    unfold attachedTo in Hin.
    apply list_elem_of_fmap in Hin as (p & Hk & Hp).
    apply list_elem_of_filter in Hp as [_ Hp].
    unfold parentsOf in Hp. simpl in Hp.
    apply list_elem_of_fmap in Hp as (r & _ & Hr).
    apply list_elem_of_filter in Hr as [[_ Hres] Hr].
    destruct (Hdrop h' Hh' (eq_sym Hk)) as [_ Hrefs].
    destruct (Hrefs r Hr) as [_ Hmissing]. apply Hmissing.
    now apply indexHits_is_Some in Hres. }
  split; [exact Hroot|]. split; [exact Hchild|].
  intros fuel st st' Hload bar Hbar Hy.
  destruct (loadHits_visits _ _ _ _ _ _ _ Hload) as (vs & Hw & Hvs & Hg & _).
  rewrite Hg in Hbar. apply list_elem_of_fmap in Hbar as (v & -> & Hv).
  rewrite Forall_forall in Hvs.
  destruct (Hvs v Hv) as (h' & Hh' & Hk & _ & _ & _ & Hp).
  apply parseSpanHitData_fields in Hp as [Hid _].
  simpl in Hy. rewrite Hid in Hy.
  assert (Hkey : v_ref v = keyOf jaeger h).
  { rewrite <- Hk. unfold keyOf. simpl in *. now rewrite Hy. }
  destruct (walkAll_reached _ _ _ _ (v_ref v) Hw) as [_ [Hr|(p & n & Hn & Hc)]].
  - now apply list_elem_of_fmap_2.
  - apply Hroot. now rewrite <- Hkey.
  - apply (Hchild p n Hn). now rewrite <- Hkey.
Qed.

Lemma unresolved_jaeger_span_is_dropped_witness :
  ("X" ∉ rootSpans (hitsToHierarchicalSpans timestampLength danglingHits
                       jaeger))
  ∧ ∀ bar,
      bar ∈ gantt (match loadHits timestampLength 5 danglingHits jaeger
                           noColors initialPanel
                   with Ok st => st | _ => initialPanel end) →
      pd_y bar ≠ Some "X".
Proof.
  assert (Hin : jaegerSpan "X" 1000 5000 [childOf "missing"] ∈ danglingHits)
    by (right; left).
  assert (Hall : ∀ h', h' ∈ danglingHits →
            keyOf jaeger h' = keyOf jaeger
                                (jaegerSpan "X" 1000 5000 [childOf "missing"]) →
            default [] (references (_source h')) ≠ []
            ∧ ∀ r, r ∈ default [] (references (_source h')) →
                   refType r = CHILD_OF
                   ∧ ref_spanID r ∉ keyOf jaeger <$> danglingHits).
  { intros h' Hh' Hk. unfold danglingHits in Hh'.
    apply elem_of_cons in Hh' as [->|Hh']; [discriminate Hk|].
    apply list_elem_of_singleton in Hh' as ->. split; [discriminate|].
    intros r Hr. apply list_elem_of_singleton in Hr as ->.
    split; [reflexivity|]. simpl. intros Hm.
    apply elem_of_cons in Hm as [Hm|Hm]; [discriminate Hm|].
    apply list_elem_of_singleton in Hm. discriminate Hm. }
  destruct (unresolved_jaeger_span_is_dropped timestampLength danglingHits
              noColors _ Hin Hall) as (Hroot & _ & Hbars).
  split; [exact Hroot|].
  intros bar Hbar. eapply (Hbars 5 initialPanel); [|exact Hbar].
  vm_compute. reflexivity.
Defined.

(** ** Offsets *)

(** C5 (counterexample): a child that starts 5 ms before its root.  The
    offsets are taken from the start of the root (10 ms), not from the
    earliest start of the dataset (5 ms): the root is drawn at 0 and the
    child at -5, where the claim has 5 and 0. *)
Lemma offsets_are_not_from_global_min :
  loadHits timestampLength 10 earlyChildHits jaeger noColors initialPanel
  = Ok earlyChildPanel
  ∧ pd_y <$> gantt earlyChildPanel = [Some "R"; Some "C"]
  ∧ pd_base <$> gantt earlyChildPanel = [fin 0; fin (-5)]
  ∧ globalMinStartMs timestampLength jaeger earlyChildHits = fin 5
  ∧ ¬ offsetsFromGlobalMin timestampLength jaeger earlyChildHits
        (gantt earlyChildPanel).
Proof.
  split; [vm_compute; reflexivity|]. do 3 (split; [reflexivity|]).
  intros H.
  specialize (H {| pd_x := fin 1; pd_y := Some "R";
                   pd_customdata := (Some "R", fin 1, fin 0);
                   pd_marker_color := None; pd_base := fin 0;
                   pd_spanId := Some "R" |}
                (jaegerSpan "R" 10000 1000 [])).
  assert (Hoff : fin 0 = fin 5); [|discriminate Hoff].
  apply H; [left|left|reflexivity].
Qed.

(** C5 (amended): every bar of the chart is the bar of a hit, and its offset
    is the start time of that hit converted from nanoseconds to milliseconds
    minus the earliest start time among the roots of the hierarchy, with no
    rounding in between; the label of the bar stands at the same offset. *)
Theorem offsets_are_from_earliest_root
    (parseIsoToNano : option StartTime → number) (fuel : nat)
    (hits : list ParsedHit) (mode : TraceAnalyticsMode)
    (colorMap : gmap string string) (st st' : PanelState) :
  loadHits parseIsoToNano fuel hits mode colorMap st = Ok st' →
  ∀ i bar, gantt st' !! i = Some bar →
    ∃ h label,
      h ∈ hits ∧ ganttAnnotations st' !! i = Some label
      ∧ pd_y bar = spanIdOf mode h
      ∧ pd_base bar
        = sub (nanoToMilliSec (getStartTimeInNanos parseIsoToNano h mode))
            (rootMinStartMs (hitsToHierarchicalSpans parseIsoToNano hits mode))
      ∧ an_x label = pd_base bar.
Proof.
  intros Hload i bar Hi.
  destruct (loadHits_bars _ _ _ _ _ _ _ Hload) as [_ Hbars].
  destruct (Hbars i bar Hi) as (h & label & Hh & Hl & Hy & Hb & _ & _ & Hx & _).
  exists h, label. auto.
Qed.

Lemma offsets_are_from_earliest_root_witness :
  rootMinStartMs (hitsToHierarchicalSpans timestampLength earlyChildHits jaeger)
  = fin 10
  ∧ ∃ h label,
      h ∈ earlyChildHits ∧ ganttAnnotations earlyChildPanel !! 1 = Some label
      ∧ Some "C" = spanIdOf jaeger h
      ∧ fin (-5)
        = sub (nanoToMilliSec (getStartTimeInNanos timestampLength h jaeger))
            (rootMinStartMs
               (hitsToHierarchicalSpans timestampLength earlyChildHits jaeger))
      ∧ an_x label = fin (-5).
Proof.
  split; [reflexivity|].
  assert (Hload : loadHits timestampLength 10 earlyChildHits jaeger noColors
                    initialPanel = Ok earlyChildPanel)
    by (vm_compute; reflexivity).
  exact (offsets_are_from_earliest_root _ _ _ _ _ _ _ Hload 1
           {| pd_x := fin 1; pd_y := Some "C";
              pd_customdata := (Some "C", fin 1, fin (-5));
              pd_marker_color := None; pd_base := fin (-5);
              pd_spanId := Some "C" |} eq_refl).
Defined.

(** ** Rounding *)

(** C4 (counterexample): a span of 1234 microseconds.  The length of its bar
    and the maximal extent are 1.23 ms, the duration rounded to two decimals,
    not the unrounded 1.234 ms. *)
Lemma bar_length_is_rounded :
  loadHits timestampLength 10 shortSpanHits jaeger noColors initialPanel
  = Ok shortSpanPanel
  ∧ pd_x <$> gantt shortSpanPanel = [fin (123 # 100)]
  ∧ ganttMax shortSpanPanel = fin (123 # 100)
  ∧ rawDurationMs jaeger (jaegerSpan "R" 0 1234 []) = fin (1234 # 1000)
  ∧ ¬ unroundedLengths jaeger shortSpanHits (gantt shortSpanPanel).
Proof.
  split; [vm_compute; reflexivity|]. do 3 (split; [reflexivity|]).
  intros H.
  specialize (H {| pd_x := fin (123 # 100); pd_y := Some "R";
                   pd_customdata := (Some "R", fin (123 # 100), fin 0);
                   pd_marker_color := None; pd_base := fin 0;
                   pd_spanId := Some "R" |}
                (jaegerSpan "R" 0 1234 [])).
  assert (Hlen : fin (123 # 100) = fin (1234 # 1000)); [|discriminate Hlen].
  apply H; [left|left|reflexivity].
Qed.

(** C4 (amended): the offset of a bar is the unrounded conversion of the
    start time of its hit, relative to the earliest root.  The length of the
    bar is the duration of the hit converted to milliseconds and rounded to
    two decimals by the parser; this rounded length is what the end of the
    bar, the maximal extent and the text of the label are computed from. *)
Theorem offsets_are_exact_and_lengths_rounded
    (parseIsoToNano : option StartTime → number) (fuel : nat)
    (hits : list ParsedHit) (mode : TraceAnalyticsMode)
    (colorMap : gmap string string) (st st' : PanelState) :
  loadHits parseIsoToNano fuel hits mode colorMap st = Ok st' →
  ganttMax st' = maxEnd (gantt st')
  ∧ ∀ i bar, gantt st' !! i = Some bar →
      ∃ h label,
        h ∈ hits ∧ ganttAnnotations st' !! i = Some label
        ∧ pd_y bar = spanIdOf mode h
        ∧ pd_base bar
          = sub (nanoToMilliSec (getStartTimeInNanos parseIsoToNano h mode))
              (rootMinStartMs
                 (hitsToHierarchicalSpans parseIsoToNano hits mode))
        ∧ pd_x bar = round2 (rawDurationMs mode h)
        ∧ barEnd bar = add (pd_base bar) (round2 (rawDurationMs mode h))
        ∧ ∃ error serviceName name,
            text label
            = labelText error serviceName name (round2 (rawDurationMs mode h)).
Proof.
  intros Hload.
  destruct (loadHits_visits _ _ _ _ _ _ _ Hload) as (_ & _ & _ & _ & _ & Hmax).
  split; [exact Hmax|]. intros i bar Hi.
  destruct (loadHits_bars _ _ _ _ _ _ _ Hload) as [_ Hbars].
  destruct (Hbars i bar Hi)
    as (h & label & Hh & Hl & Hy & Hb & Hx & _ & _ & e & s & n & Ht).
  exists h, label. do 4 (split; [assumption|]). split; [exact Hx|].
  split; [unfold barEnd; now rewrite Hx|].
  exists e, s, n. now rewrite <- Hx.
Qed.

Lemma offsets_are_exact_and_lengths_rounded_witness :
  ganttMax shortSpanPanel = maxEnd (gantt shortSpanPanel)
  ∧ ∃ bar, gantt shortSpanPanel !! 0 = Some bar
           ∧ pd_x bar = round2 (fin (1234 # 1000))
           ∧ text <$> ganttAnnotations shortSpanPanel
             = ["frontend: GET - 1.23ms"].
Proof.
  assert (Hload : loadHits timestampLength 10 shortSpanHits jaeger noColors
                    initialPanel = Ok shortSpanPanel)
    by (vm_compute; reflexivity).
  destruct (offsets_are_exact_and_lengths_rounded _ _ _ _ _ _ _ Hload)
    as [Hmax _].
  split; [exact Hmax|].
  eexists. split; [reflexivity|]. split; reflexivity.
Defined.

(** ** Every span once *)

(** C1 (counterexample): all references resolve, and yet a span with two
    parents is drawn twice, and two spans that are each the child of the
    other are not drawn at all. *)
Lemma resolving_references_do_not_give_every_span_once :
  (referencesResolve jaeger twoParentsHits = true
   ∧ loadHits timestampLength 10 twoParentsHits jaeger noColors initialPanel
     = Ok twoParentsPanel
   ∧ pd_y <$> gantt twoParentsPanel
     = [Some "A"; Some "C"; Some "B"; Some "C"]
   ∧ ¬ everySpanOnce jaeger twoParentsHits (gantt twoParentsPanel))
  ∧ (referencesResolve jaeger cyclicHits = true
     ∧ loadHits timestampLength 10 cyclicHits jaeger noColors initialPanel
       = Ok initialPanel
     ∧ ¬ everySpanOnce jaeger cyclicHits (gantt initialPanel)).
Proof.
  split.
  - split; [vm_compute; reflexivity|]. split; [vm_compute; reflexivity|].
    split; [reflexivity|].
    intros H. apply Permutation_length in H. discriminate H.
  - split; [vm_compute; reflexivity|]. split; [vm_compute; reflexivity|].
    intros H. apply Permutation_length in H. discriminate H.
Qed.

(** The ids of the bars of a forest, whenever the layout returns. *)
Lemma forest_spans_once_aux (parseIsoToNano : option StartTime → number)
    (fuel : nat) (hits : list ParsedHit) (mode : TraceAnalyticsMode)
    (colorMap : gmap string string) (st st' : PanelState) :
  treeShaped parseIsoToNano mode hits = true →
  length hits ≤ fuel →
  loadHits parseIsoToNano fuel hits mode colorMap st = Ok st' →
  NoDup (pd_y <$> gantt st').
Proof.
  intros Htree Hfuel Hload.
  destruct (tree_loads _ _ _ Htree fuel colorMap st Hfuel) as (st2 & Hload2 & Hy).
  rewrite Hload in Hload2. injection Hload2 as <-.
  destruct (tree_walk _ _ _ Htree fuel Hfuel) as [_ Hperm].
  rewrite Hy, Hperm, <- list_fmap_compose.
  rewrite (list_fmap_ext _ (spanIdOf mode) hits);
    [apply (tree_ids _ _ _ Htree)|].
  intros i h Hh. simpl.
  apply (spanIdOfKey_key _ _ _ Htree). eapply list_elem_of_lookup_2, Hh.
Qed.

(** C1 (amended): for hits that form a forest (distinct span ids; every hit
    either registers as a root or has exactly one parent link that resolves
    to a span of the hits; no cycle of parent links; every hit accepted by
    the parser and by the hierarchy builder), the layout returns as soon as
    the recursion may be as deep as there are hits, and the ids of the bars
    are the ids of the hits, each exactly once.  A parent link that names no
    span but a property that the span map inherits, such as [constructor],
    gives the hit no place: in the data prepper modes such a hit is neither
    a root nor a child, and the hits are no forest. *)
Theorem forest_spans_appear_once
    (parseIsoToNano : option StartTime → number) (fuel : nat)
    (hits : list ParsedHit) (mode : TraceAnalyticsMode)
    (colorMap : gmap string string) (st : PanelState) :
  treeShaped parseIsoToNano mode hits = true →
  length hits ≤ fuel →
  ∃ st',
    loadHits parseIsoToNano fuel hits mode colorMap st = Ok st'
    ∧ pd_y <$> gantt st' ≡ₚ spanIdOf mode <$> hits
    ∧ NoDup (pd_y <$> gantt st').
Proof.
  intros Htree Hfuel.
  destruct (tree_loads _ _ _ Htree fuel colorMap st Hfuel) as (st' & Hload & Hy).
  destruct (tree_walk _ _ _ Htree fuel Hfuel) as [_ Hperm].
  assert (Hids : pd_y <$> gantt st' ≡ₚ spanIdOf mode <$> hits).
  { rewrite Hy, Hperm, <- list_fmap_compose.
    rewrite (list_fmap_ext _ (spanIdOf mode) hits); [reflexivity|].
    intros i h Hh. simpl.
    apply (spanIdOfKey_key _ _ _ Htree). eapply list_elem_of_lookup_2, Hh. }
  exists st'. split; [exact Hload|]. split; [exact Hids|].
  rewrite Hids. apply (tree_ids _ _ _ Htree).
Qed.

Lemma forest_spans_appear_once_witness :
  ∃ st',
    loadHits timestampLength 3 scenarioHits jaeger noColors initialPanel
    = Ok st'
    ∧ pd_y <$> gantt st' ≡ₚ [Some "R"; Some "C1"; Some "C2"]
    ∧ NoDup (pd_y <$> gantt st').
Proof.
  exact (forest_spans_appear_once timestampLength 3 scenarioHits jaeger
           noColors initialPanel eq_refl (le_n 3)).
Defined.

(** ** The order of the bars *)

(** C6 (counterexample): two children of one root start at the same time.
    Each has the smaller or equal start time, but only one of them can come
    first: the bars are R, A, B, in the order of the hits.  And a span that is
    registered as a root and attached as a child is drawn before its parent
    as well as after it. *)
Lemma ties_and_double_registration_break_the_order :
  (pd_y <$> gantt tiedPanel = [Some "R"; Some "A"; Some "B"]
   ∧ ¬ earlierOrEqualFirst timestampLength jaeger tiedHits
         (pd_y <$> gantt tiedPanel))
  ∧ (loadHits timestampLength 10 dualHits jaeger noColors initialPanel
     = Ok dualPanel
     ∧ children <$> spanMap (hitsToHierarchicalSpans timestampLength dualHits
                               jaeger) !! "A" = Some ["X"]
     ∧ pd_y <$> gantt dualPanel = [Some "X"; Some "A"; Some "X"]
     ∧ ¬ precedesAll (pd_y <$> gantt dualPanel) (Some "A") (Some "X")).
Proof.
  split; [split; [reflexivity|]|].
  - intros H.
    specialize (H (jaegerSpan "B" 1000 3000 [childOf "R"])
                  (jaegerSpan "A" 1000 5000 [childOf "R"])).
    assert (Hbefore : before [Some "R"; Some "A"; Some "B"]
                        (Some "B") (Some "A")).
    { apply H.
      - right. right. left.
      - right. left.
      - discriminate.
      - vm_compute. reflexivity.
      - vm_compute. discriminate. }
    simpl in Hbefore.
    destruct Hbefore as [[Heq _]|[[Heq _]|[[_ Hin]|[]]]]; try discriminate Heq.
    inversion Hin.
  - split; [vm_compute; reflexivity|]. do 2 (split; [reflexivity|]).
    intros H. destruct (H 0 eq_refl) as (i & Hi & _). lia.
Qed.

(** C6 (amended): for hits that form a forest (as for C1: a parent link
    that finds a property which the span map inherits gives no place, and no
    link makes the hierarchy builder throw) and have finite start times, the
    layout returns and its bars are in pre-order.  A hit comes before
    every hit below it.  Of two hits that hang from the same place (two
    roots, or two children of one parent), the one that starts strictly
    earlier comes first, two that start together keep the order of the hits,
    so that what comes first never starts later; and everything below the
    one that comes first comes before the other. *)
Theorem forest_layout_is_stable_preorder
    (parseIsoToNano : option StartTime → number) (fuel : nat)
    (hits : list ParsedHit) (mode : TraceAnalyticsMode)
    (colorMap : gmap string string) (st : PanelState) :
  treeShaped parseIsoToNano mode hits = true →
  (∀ h, h ∈ hits → isFinite (getStartTimeInNanos parseIsoToNano h mode)) →
  length hits ≤ fuel →
  ∃ st',
    loadHits parseIsoToNano fuel hits mode colorMap st = Ok st'
    ∧ (∀ p d, p ∈ hits → d ∈ hits → p ≠ d →
         below (parentOfKey parseIsoToNano mode hits)
           (keyOf mode p) (keyOf mode d) →
         before (pd_y <$> gantt st') (spanIdOf mode p) (spanIdOf mode d))
    ∧ (∀ a b, a ∈ hits → b ∈ hits → a ≠ b →
         siblings parseIsoToNano mode hits a b →
         ((startQ parseIsoToNano mode a < startQ parseIsoToNano mode b)%Q →
          before (pd_y <$> gantt st') (spanIdOf mode a) (spanIdOf mode b))
         ∧ ((startQ parseIsoToNano mode a == startQ parseIsoToNano mode b)%Q →
            before hits a b →
            before (pd_y <$> gantt st') (spanIdOf mode a) (spanIdOf mode b))
         ∧ (before (pd_y <$> gantt st') (spanIdOf mode a) (spanIdOf mode b) →
            (startQ parseIsoToNano mode a <= startQ parseIsoToNano mode b)%Q
            ∧ ∀ x, x ∈ hits →
                below (parentOfKey parseIsoToNano mode hits)
                  (keyOf mode a) (keyOf mode x) →
                before (pd_y <$> gantt st')
                  (spanIdOf mode x) (spanIdOf mode b))).
Proof.
  intros Htree Hfinite Hfuel.
  destruct (tree_loads _ _ _ Htree fuel colorMap st Hfuel) as (st' & Hload & Hy).
  pose proof (forest_spans_once_aux parseIsoToNano fuel hits mode colorMap
                st st' Htree Hfuel Hload) as Hnodup.
  exists st'. split; [exact Hload|].
  assert (Hids : ∀ x y, x ∈ hits → y ∈ hits →
            before (treeWalk parseIsoToNano mode hits)
              (keyOf mode x) (keyOf mode y) →
            before (pd_y <$> gantt st') (spanIdOf mode x) (spanIdOf mode y)).
  { intros x y Hx Hy' Hb. rewrite Hy.
    rewrite <- (spanIdOfKey_key _ _ _ Htree x Hx).
    rewrite <- (spanIdOfKey_key _ _ _ Htree y Hy').
    now apply before_fmap. }
  assert (Hsorted : ∀ a b x, a ∈ hits → b ∈ hits → x ∈ hits →
            siblings parseIsoToNano mode hits a b →
            (startQ parseIsoToNano mode a < startQ parseIsoToNano mode b)%Q
            ∨ ((startQ parseIsoToNano mode a
                == startQ parseIsoToNano mode b)%Q ∧ before hits a b) →
            below (parentOfKey parseIsoToNano mode hits)
              (keyOf mode a) (keyOf mode x) →
            before (pd_y <$> gantt st') (spanIdOf mode x) (spanIdOf mode b)).
  { intros a b x Ha Hb Hx Hsib Hprec Hax. apply Hids; [assumption..|].
    apply (tree_siblings_sorted _ _ _ Htree a b x b); auto.
    - now apply (tree_siblings_before _ _ _ Htree Hfinite).
    - constructor. }
  split.
  - intros p d Hp Hd Hne Hbelow. apply Hids; [assumption..|].
    now apply (tree_before_below _ _ _ Htree).
  - intros a b Ha Hb Hne Hsib.
    split; [|split].
    + intros Hlt. apply (Hsorted a b a); auto. constructor.
    + intros Heq Hbefore. apply (Hsorted a b a); auto. constructor.
    + intros Hbefore.
      destruct (tree_siblings_total parseIsoToNano mode hits a b Ha Hb Hne)
        as [Hprec|Hprec].
      * split; [|intros x Hx Hax; now apply (Hsorted a b x)].
        destruct Hprec as [Hlt|[Heq _]]; [now apply Qlt_le_weak|].
        rewrite Heq. apply Qle_refl.
      * exfalso. apply (before_asymmetric _ _ _ Hnodup Hbefore).
        apply (Hsorted b a b); auto; [now symmetry|constructor].
Qed.

Lemma forest_layout_is_stable_preorder_witness :
  ∃ st',
    loadHits timestampLength 3 scenarioHits jaeger noColors initialPanel
    = Ok st'
    ∧ before (pd_y <$> gantt st') (Some "R") (Some "C1")
    ∧ before (pd_y <$> gantt st') (Some "R") (Some "C2").
Proof.
  assert (Hfinite : ∀ h, h ∈ scenarioHits →
            isFinite (getStartTimeInNanos timestampLength h jaeger)).
  { intros h Hh. unfold scenarioHits in Hh.
    repeat (apply elem_of_cons in Hh as [->|Hh]; [exact I|]). inversion Hh. }
  destruct (forest_layout_is_stable_preorder timestampLength 3 scenarioHits
              jaeger noColors initialPanel eq_refl Hfinite (le_n 3))
    as (st' & Hload & Hbelow & Hsiblings).
  exists st'. split; [exact Hload|]. split.
  - apply (Hbelow (jaegerSpan "R" 0 10000 [])
             (jaegerSpan "C1" 2000 5000 [childOf "R"])).
    + left.
    + right. left.
    + discriminate.
    + eapply below_step; [vm_compute; reflexivity|constructor].
  - refine (proj1 (Hsiblings (jaegerSpan "R" 0 10000 [])
                     (jaegerSpan "C2" 1000 3000 []) _ _ _ _) _).
    + left.
    + right. right. left.
    + discriminate.
    + vm_compute. reflexivity.
    + vm_compute. reflexivity.
Defined.

(** ** The scenarios of the specification *)

(** Three jaeger spans: the span without references is a second root, and
    the bars are the root, its child, then the second root. *)
Example scenario_three_spans :
  rootSpans (hitsToHierarchicalSpans timestampLength scenarioHits jaeger)
  = ["R"; "C2"]
  ∧ pd_y <$> gantt scenarioPanel = [Some "R"; Some "C1"; Some "C2"]
  ∧ pd_base <$> gantt scenarioPanel = [fin 0; fin 2; fin 1]
  ∧ text <$> ganttAnnotations scenarioPanel
    = ["frontend: GET - 10.00ms"; "frontend: GET - 5.00ms";
       "frontend: GET - 3.00ms"].
Proof. repeat split; reflexivity. Qed.

(** Data prepper mode: a span whose [parentSpanId] names no span of the
    trace is a root. *)
Example scenario_missing_parent_is_root :
  rootSpans
    (hitsToHierarchicalSpans timestampLength
       [dataPrepperSpan "a" "x" 1000000 "missing"] data_prepper)
  = ["a"].
Proof. reflexivity. Qed.

(** A maximal extent of 100: the full range is [[0, 110]]; with the range
    [[20, 50]] selected, the label of a bar from 10 to 60 is shown at 20 and
    the label of a bar from 10 to 15 stays at 10. *)
Example scenario_viewport :
  ganttMax zoomPanel = fin 100
  ∧ selectedRange (resetZoom zoomPanel) = (fin 0, fin 110)
  ∧ (pd_base <$> gantt zoomPanel, barEnd <$> gantt zoomPanel)
    = ([fin 0; fin 10; fin 10], [fin 100; fin 60; fin 15])
  ∧ match layoutAnnotations (setSelectedRange (fin 20, fin 50) zoomPanel) with
    | Ok shown => an_x <$> shown
    | _ => []
    end = [fin 20; fin 20; fin 10].
Proof. repeat split; reflexivity. Qed.

(** Data prepper mode: a span whose [parentSpanId] names a function of
    [Object.prototype] finds this function as its parent: it is no root and
    no child of a span, and neither the span nor its child gets a bar. *)
Example scenario_inherited_parent :
  rootSpans
    (hitsToHierarchicalSpans timestampLength inheritedParentHits data_prepper)
  = []
  ∧ treeShaped timestampLength data_prepper inheritedParentHits = false
  ∧ (st ← loadHits timestampLength 2 inheritedParentHits data_prepper
             noColors initialPanel;
     Ok (gantt st))
    = Ok [].
Proof. repeat split; vm_compute; reflexivity. Qed.

(** Data prepper mode: a parent named [__proto__] finds [Object.prototype]
    and adds the property [children] to it.  A span whose parent is named
    [children] is a root before this, and finds the property after it. *)
Example scenario_polluted_prototype :
  rootSpans
    (hitsToHierarchicalSpans timestampLength pollutingHits data_prepper)
  = ["a"]
  ∧ prototypeChildren
      (hitsToHierarchicalSpans timestampLength pollutingHits data_prepper)
    = true
  ∧ treeShaped timestampLength data_prepper pollutingHits = false.
Proof. repeat split; vm_compute; reflexivity. Qed.

(** A span with the id [__proto__] becomes the prototype of the span map,
    and a parent named [startTimeInNanos] finds its start time: the
    assignment of [children] to this number throws. *)
Example scenario_prototype_span :
  thrown (hitsToHierarchicalSpans timestampLength prototypeHits jaeger) = true
  ∧ treeShaped timestampLength jaeger prototypeHits = false
  ∧ loadHits timestampLength 2 prototypeHits jaeger noColors initialPanel
    = Throw "TypeError: Cannot create property 'children' on number".
Proof. repeat split; vm_compute; reflexivity. Qed.

(** * Further properties of the code *)

(** ** The percentile of a latency *)

(** X1: [binarySearch] returns [NaN] exactly when it is given no array.  For
    an array, sorted or not and whatever it holds, the result is a whole
    number between 0 and 100 that does not exceed the length of the array;
    for the target [NaN] it is 0. *)
Theorem binarySearch_bounds (target : number) :
  binarySearch None target = NaN
  ∧ (∀ arr, ∃ k : nat,
       binarySearch (Some arr) target = ofZ (Z.of_nat k)
       ∧ k ≤ 100 ∧ k ≤ length arr)
  ∧ ∀ arr, binarySearch (Some arr) NaN = ofZ 0.
Proof.
  split; [reflexivity|]. split.
  - intros arr.
    pose proof (binarySearchLoop_range arr target (length arr) 0 (length arr))
      as Hr.
    exists (Nat.min 100 (binarySearchLoop arr target 0 (length arr))).
    split; [|lia]. unfold binarySearch. rewrite clamp_index. f_equal. lia.
  - intros arr. unfold binarySearch. rewrite clamp_index.
    assert (Hzero : ∀ n low high, high - low ≤ n →
              binarySearchLoop arr NaN low high = low).
    { induction n as [|n IH]; intros low high Hn;
        rewrite binarySearchLoop_step;
        (destruct (decide (low < high)) as [Hlt|]; [|reflexivity]); [lia|].
      pose proof (midpoint_bounds low high Hlt).
      assert (Hb : belowTarget arr NaN ((low + high) / 2) = false).
      { unfold belowTarget. destruct (arr !! _) as [[]|]; reflexivity. }
      rewrite Hb. apply IH. lia. }
    rewrite (Hzero (length arr)) by lia. reflexivity.
Qed.

(** X2: for an array in ascending order, [binarySearch] returns the number
    of elements that are smaller than the target, capped at 100: these
    elements are exactly the first ones of the array, so that the result is
    the index of the first element that is not smaller than the target (the
    length of the array when there is none). *)
Theorem binarySearch_counts_smaller (arr : list number) (target : number) :
  StronglySorted le arr →
  ∃ k,
    k ≤ length arr
    ∧ (∀ i v, arr !! i = Some v → lt v target = true ↔ i < k)
    ∧ k = length (filter (λ v, lt v target = true) arr)
    ∧ binarySearch (Some arr) target = ofZ (Z.min 100 (Z.of_nat k)).
Proof.
  intros Hs. destruct (binarySearch_sorted arr target Hs) as (k & Hk & Hi & Hr).
  exists k. split; [exact Hk|]. split; [exact Hi|]. split; [|exact Hr].
  now apply prefix_count.
Qed.

Lemma binarySearch_counts_smaller_witness :
  ∃ k,
    k ≤ 3
    ∧ (∀ i v, [fin 1; fin 5; fin 9] !! i = Some v →
              lt v (fin 5) = true ↔ i < k)
    ∧ k = 1
    ∧ binarySearch (Some [fin 1; fin 5; fin 9]) (fin 5)
      = ofZ (Z.min 100 (Z.of_nat k)).
Proof.
  apply (binarySearch_counts_smaller [fin 1; fin 5; fin 9] (fin 5)).
  repeat constructor; vm_compute; discriminate.
Defined.

(** X3: for an array in ascending order the result of [binarySearch] grows
    with the target: a larger latency never gets a smaller percentile. *)
Theorem binarySearch_monotone (arr : list number) (t1 t2 : number) :
  StronglySorted le arr → le t1 t2 →
  le (binarySearch (Some arr) t1) (binarySearch (Some arr) t2).
Proof.
  intros Hs Ht.
  destruct (binarySearch_sorted arr t1 Hs) as (k1 & Hk1 & Hi1 & ->).
  destruct (binarySearch_sorted arr t2 Hs) as (k2 & Hk2 & Hi2 & ->).
  apply ofZ_le.
  assert (k1 ≤ k2); [|lia].
  destruct (decide (k1 ≤ k2)) as [|Hgt]; [assumption|exfalso].
  destruct (lookup_lt_is_Some_2 arr k2) as [v Hv]; [lia|].
  assert (Hlt : lt v t1 = true) by (apply (Hi1 k2 v Hv); lia).
  apply (lt_le_trans _ _ _ Hlt) in Ht. apply (Hi2 k2 v Hv) in Ht. lia.
Qed.

Lemma binarySearch_monotone_witness :
  le (binarySearch (Some [fin 1; fin 5; fin 9]) (fin 2))
    (binarySearch (Some [fin 1; fin 5; fin 9]) (fin 7)).
Proof.
  apply binarySearch_monotone.
  - repeat constructor; vm_compute; discriminate.
  - vm_compute. discriminate.
Defined.

(** ** Span filters *)

(** X4: [addSpanFilter] sets the value of a field as an insertion into a map
    does: afterwards the field has the new value and the other fields have
    the values that they had.  The fields keep their order; a field that had
    no filter is added at the end, and a field that had one gets no second
    filter.  Setting a field twice is the same as setting it to the second
    value. *)
Theorem addSpanFilter_sets_field {V} (filters : list (TraceFilter V))
    (field : string) (value : V) :
  filterValues (addSpanFilter filters field value)
  = <[field := value]> (filterValues filters)
  ∧ tf_field <$> addSpanFilter filters field value
    = (if decide (field ∈ tf_field <$> filters)
       then tf_field <$> filters
       else (tf_field <$> filters) ++ [field])
  ∧ ∀ value',
      addSpanFilter (addSpanFilter filters field value) field value'
      = addSpanFilter filters field value'.
Proof.
  split; [apply addSpanFilter_values|].
  split; [apply addSpanFilter_fields|].
  intros value'. apply addSpanFilter_again.
Qed.

(** X5: when no two filters have the same field, this stays so after
    [addSpanFilter] and after [removeSpanFilter]; a removed field has no
    filter left, and the removal is the deletion of the field from the map
    of the filters. *)
Theorem span_filters_stay_unique {V} (filters : list (TraceFilter V))
    (field : string) (value : V) :
  NoDup (tf_field <$> filters) →
  NoDup (tf_field <$> addSpanFilter filters field value)
  ∧ ∀ filters', removeSpanFilter filters field = Some filters' →
      NoDup (tf_field <$> filters')
      ∧ (field ∉ tf_field <$> filters')
      ∧ filterValues filters' = delete field (filterValues filters).
Proof.
  intros Hnd. split.
  - rewrite addSpanFilter_fields.
    destruct (decide (field ∈ tf_field <$> filters)) as [|Hno]; [exact Hnd|].
    apply NoDup_app. split; [exact Hnd|]. split; [|apply NoDup_singleton].
    intros y Hy Hf. apply list_elem_of_singleton in Hf as ->. contradiction.
  - intros filters' Hr. now apply removeSpanFilter_values.
Qed.

Lemma span_filters_stay_unique_witness :
  NoDup (tf_field <$>
           addSpanFilter
             [ {| tf_field := "serviceName"; tf_value := 1%Z |};
               {| tf_field := "name"; tf_value := 2%Z |} ] "name" 3%Z)
  ∧ ∀ filters',
      removeSpanFilter
        [ {| tf_field := "serviceName"; tf_value := 1%Z |};
          {| tf_field := "name"; tf_value := 2%Z |} ] "name" = Some filters' →
      NoDup (tf_field <$> filters')
      ∧ ("name" ∉ tf_field <$> filters')
      ∧ filterValues filters'
        = delete "name"
            (filterValues
               [ {| tf_field := "serviceName"; tf_value := 1%Z |};
                 {| tf_field := "name"; tf_value := 2%Z |} ]).
Proof.
  apply span_filters_stay_unique. simpl.
  apply NoDup_cons. split; [|apply NoDup_singleton].
  intros H. apply list_elem_of_singleton in H. discriminate H.
Defined.

(** X6: [removeSpanFilter] does not call the setter exactly when no filter
    has the field.  Otherwise it hands over the filters without the first
    filter of the field; later filters of the same field, if there are any,
    stay. *)
Theorem removeSpanFilter_drops_first {V} (filters : list (TraceFilter V))
    (field : string) :
  (removeSpanFilter filters field = None ↔ field ∉ tf_field <$> filters)
  ∧ ∀ filters', removeSpanFilter filters field = Some filters' →
      ∃ l1 x l2,
        filters = l1 ++ x :: l2 ∧ tf_field x = field
        ∧ (field ∉ tf_field <$> l1) ∧ filters' = l1 ++ l2.
Proof.
  split; [apply removeSpanFilter_None|].
  intros filters'. apply removeSpanFilter_Some.
Qed.

(** X7: removing a field that was just added to filters without this field
    gives back the filters as they were. *)
Theorem remove_after_add_restores {V} (filters : list (TraceFilter V))
    (field : string) (value : V) :
  field ∉ tf_field <$> filters →
  removeSpanFilter (addSpanFilter filters field value) field = Some filters.
Proof. apply removeSpanFilter_added. Qed.

Lemma remove_after_add_restores_witness :
  removeSpanFilter
    (addSpanFilter [ {| tf_field := "serviceName"; tf_value := 1%Z |} ]
       "name" 2%Z) "name"
  = Some [ {| tf_field := "serviceName"; tf_value := 1%Z |} ].
Proof.
  apply remove_after_add_restores. simpl.
  intros H. apply list_elem_of_singleton in H. discriminate H.
Defined.

(** ** Zooming *)

(** X8: the range that the plot shows is the full range [[0, ganttMax * 1.1]]
    or a range none of whose ends is zero or [NaN].  This holds after a
    payload was loaded, after the zoom was reset and after every relayout
    event: an event selects the range that it names only when both ends are
    numbers other than zero, and any other event, such as one without a
    range or one whose left end is 0, shows the full range.  The chart itself
    is not touched by an event. *)
Theorem shown_range_is_full_or_inside :
  (∀ parseIsoToNano fuel hits mode colorMap st st',
     loadHits parseIsoToNano fuel hits mode colorMap st = Ok st' →
     selectedRange st' = fullRange st')
  ∧ (∀ st, selectedRange (resetZoom st) = fullRange (resetZoom st))
  ∧ (∀ event st,
       fullOrInside (onRelayoutHandler event st)
       ∧ gantt (onRelayoutHandler event st) = gantt st
       ∧ ganttAnnotations (onRelayoutHandler event st) = ganttAnnotations st
       ∧ ganttMax (onRelayoutHandler event st) = ganttMax st)
  ∧ (∀ event st,
       truthyValue (orValue (xaxis_range_0 event) (selections_0_x0 event))
         && truthyValue (orValue (xaxis_range_1 event) (selections_0_x1 event))
       = false →
       onRelayoutHandler event st = resetZoom st)
  ∧ ∀ st x1,
      onRelayoutHandler
        {| xaxis_range_0 := Some (ofZ 0); xaxis_range_1 := Some x1;
           selections_0_x0 := None; selections_0_x1 := None |} st
      = resetZoom st.
Proof.
  assert (Hreset : ∀ event st,
            truthyValue (orValue (xaxis_range_0 event) (selections_0_x0 event))
              && truthyValue
                   (orValue (xaxis_range_1 event) (selections_0_x1 event))
            = false →
            onRelayoutHandler event st = resetZoom st).
  { intros event st H. unfold onRelayoutHandler.
    destruct (orValue (xaxis_range_0 event) (selections_0_x0 event)) as [a|];
      [|reflexivity].
    destruct (orValue (xaxis_range_1 event) (selections_0_x1 event)) as [b|];
      [|reflexivity].
    simpl in H. now rewrite H. }
  split; [|split; [|split; [|split]]].
  - intros parseIsoToNano fuel hits mode colorMap st st' Hload.
    destruct (loadHits_chart _ _ _ _ _ _ _ Hload)
      as (chart & _ & _ & _ & Hmax & Hrange).
    rewrite Hrange. unfold fullRange. now rewrite Hmax.
  - reflexivity.
  - intros event st. unfold onRelayoutHandler, fullOrInside.
    destruct (orValue (xaxis_range_0 event) (selections_0_x0 event)) as [a|];
      [|simpl; auto].
    destruct (orValue (xaxis_range_1 event) (selections_0_x1 event)) as [b|];
      [|simpl; auto].
    destruct (truthyNumber a && truthyNumber b) eqn:E; [|simpl; auto].
    apply andb_true_iff in E. simpl. auto.
  - exact Hreset.
  - intros st x1. apply Hreset. reflexivity.
Qed.

(** X9: when the hits have finite start times and finite durations that are
    not negative, the chart that was loaded is fully zoomed out and the
    button that resets the zoom is disabled; it is disabled again after a
    reset from any range and after a relayout event without a range. *)
Theorem reset_button_disabled_when_zoomed_out
    (parseIsoToNano : option StartTime → number) (fuel : nat)
    (hits : list ParsedHit) (mode : TraceAnalyticsMode)
    (colorMap : gmap string string) (st st' : PanelState) :
  loadHits parseIsoToNano fuel hits mode colorMap st = Ok st' →
  (∀ h, h ∈ hits → wellTimed parseIsoToNano mode h) →
  isDisabled st' = true
  ∧ (∀ range, isDisabled (resetZoom (setSelectedRange range st')) = true)
  ∧ ∀ range,
      isDisabled (onRelayoutHandler noRange (setSelectedRange range st'))
      = true.
Proof.
  intros Hload Htimed.
  destruct (loadHits_ends_finite _ _ _ _ _ _ _ Hload Htimed) as [_ Hfin].
  destruct (loadHits_chart _ _ _ _ _ _ _ Hload)
    as (chart & _ & Hg & Ha & Hmax & Hrange).
  assert (Hst : st' = resetZoom st').
  { destruct st'. unfold resetZoom, fullRange. simpl in *.
    now rewrite Hrange, Hmax. }
  split; [|split].
  - rewrite Hst. now apply isDisabled_resetZoom.
  - intros range. now apply (isDisabled_resetZoom (setSelectedRange range st')).
  - intros range.
    now apply (isDisabled_resetZoom (setSelectedRange range st')).
Qed.

Lemma reset_button_disabled_when_zoomed_out_witness :
  isDisabled scenarioPanel = true
  ∧ (∀ range, isDisabled (resetZoom (setSelectedRange range scenarioPanel))
              = true)
  ∧ ∀ range,
      isDisabled (onRelayoutHandler noRange
                    (setSelectedRange range scenarioPanel))
      = true.
Proof.
  apply (reset_button_disabled_when_zoomed_out timestampLength 10 scenarioHits
           jaeger noColors initialPanel).
  - vm_compute. reflexivity.
  - intros h Hh. unfold scenarioHits in Hh.
    repeat (apply elem_of_cons in Hh as [->|Hh]);
      [| | |now apply elem_of_nil in Hh];
      (split; [exact I|split; [exact I|vm_compute; discriminate]]).
Defined.

(** X10: a bar whose end is [NaN], as the bar of a span without a duration,
    makes the maximal extent of the whole chart [NaN].  The full range is
    then [[0, NaN]], and the button that resets the zoom is enabled whatever
    range is shown. *)
Theorem NaN_end_spoils_the_range
    (parseIsoToNano : option StartTime → number) (fuel : nat)
    (hits : list ParsedHit) (mode : TraceAnalyticsMode)
    (colorMap : gmap string string) (st st' : PanelState) (bar : PlotData) :
  loadHits parseIsoToNano fuel hits mode colorMap st = Ok st' →
  bar ∈ gantt st' → barEnd bar = NaN →
  ganttMax st' = NaN
  ∧ selectedRange st' = (ofZ 0, NaN)
  ∧ fullRange st' = (ofZ 0, NaN)
  ∧ ∀ range, isDisabled (setSelectedRange range st') = false.
Proof.
  intros Hload Hbar Hnan.
  destruct (loadHits_visits _ _ _ _ _ _ _ Hload) as (_ & _ & _ & _ & _ & Hmax).
  rewrite (maxEnd_NaN _ _ Hbar Hnan) in Hmax.
  destruct (loadHits_chart _ _ _ _ _ _ _ Hload)
    as (chart & _ & _ & _ & Hm & Hrange).
  rewrite <- Hm, Hmax in Hrange.
  split; [exact Hmax|]. split; [exact Hrange|].
  split; [unfold fullRange; now rewrite Hmax|].
  intros range. unfold isDisabled, fullRange. simpl. rewrite Hmax. simpl.
  rewrite strictEq_NaN_r. apply andb_false_r.
Qed.

Lemma NaN_end_spoils_the_range_witness :
  pd_x <$> gantt openEndedPanel = [fin 10; NaN]
  ∧ ganttMax openEndedPanel = NaN
  ∧ selectedRange openEndedPanel = (ofZ 0, NaN)
  ∧ fullRange openEndedPanel = (ofZ 0, NaN)
  ∧ ∀ range, isDisabled (setSelectedRange range openEndedPanel) = false.
Proof.
  split; [reflexivity|].
  apply (NaN_end_spoils_the_range timestampLength 10 openEndedHits jaeger
           noColors initialPanel openEndedPanel
           {| pd_x := NaN; pd_y := Some "S";
              pd_customdata := (Some "S", NaN, fin 1);
              pd_marker_color := None; pd_base := fin 1;
              pd_spanId := Some "S" |}).
  - vm_compute. reflexivity.
  - right. left.
  - reflexivity.
Defined.

(** X11: the title of the panel counts half of the bars: for hits that form
    a forest, which get one bar each, it shows half the number of the
    hits. *)
Theorem title_counts_half_the_spans
    (parseIsoToNano : option StartTime → number) (fuel : nat)
    (hits : list ParsedHit) (mode : TraceAnalyticsMode)
    (colorMap : gmap string string) (st : PanelState) :
  treeShaped parseIsoToNano mode hits = true →
  length hits ≤ fuel →
  ∃ st',
    loadHits parseIsoToNano fuel hits mode colorMap st = Ok st'
    ∧ length (gantt st') = length hits
    ∧ totalItems st' = divBy (ofZ (Z.of_nat (length hits))) 2.
Proof.
  intros Htree Hfuel.
  destruct (tree_loads parseIsoToNano mode hits Htree fuel colorMap st Hfuel)
    as (st' & Hload & Hy).
  destruct (tree_walk parseIsoToNano mode hits Htree fuel Hfuel) as [_ Hperm].
  assert (Hlen : length (gantt st') = length hits).
  { apply (f_equal length) in Hy. rewrite !length_fmap in Hy.
    rewrite Hy. apply Permutation_length in Hperm.
    now rewrite length_fmap in Hperm. }
  exists st'. split; [exact Hload|]. split; [exact Hlen|].
  unfold totalItems. now rewrite Hlen.
Qed.

Lemma title_counts_half_the_spans_witness :
  ∃ st',
    loadHits timestampLength 3 scenarioHits jaeger noColors initialPanel
    = Ok st'
    ∧ length (gantt st') = 3
    ∧ totalItems st' = fin (3 # 2).
Proof.
  apply (title_counts_half_the_spans timestampLength 3 scenarioHits jaeger
           noColors initialPanel).
  - vm_compute. reflexivity.
  - simpl. lia.
Defined.

(** ** The payload of a trace *)

(** X12: the array [sortedData] of [handlePayloadRequest] holds the hits of
    the response, each exactly once and with its document and its other
    fields unchanged.  Every hit has sort values afterwards: its own when the
    first of them is truthy, and otherwise (no [sort] array, an empty one, or
    a first value that is zero or [NaN]) the start time of its document in
    nanoseconds, alone. *)
Theorem sortedData_keeps_every_hit
    (parseIsoToNano : option StartTime → number)
    (response : ParsedResponse) (mode : TraceAnalyticsMode) :
  sortedData parseIsoToNano response mode
    ≡ₚ withSortKey parseIsoToNano mode <$> normalizePayload response
  ∧ hit_source <$> sortedData parseIsoToNano response mode
      ≡ₚ hit_source <$> normalizePayload response
  ∧ ∀ hit, hit ∈ sortedData parseIsoToNano response mode →
      ∃ orig,
        orig ∈ normalizePayload response
        ∧ hit_index hit = hit_index orig ∧ hit_id hit = hit_id orig
        ∧ hit_score hit = hit_score orig ∧ hit_source hit = hit_source orig
        ∧ (∃ v rest, hit_sort hit = Some (v :: rest))
        ∧ hit_sort hit
          = if truthyNumber (firstSortValue orig)
            then hit_sort orig
            else Some [getStartTimeInNanos parseIsoToNano (asParsedHit orig)
                         mode].
Proof.
  assert (Hperm : sortedData parseIsoToNano response mode
                    ≡ₚ withSortKey parseIsoToNano mode
                         <$> normalizePayload response)
    by apply stableSort_perm.
  split; [exact Hperm|]. split.
  - rewrite Hperm, <- list_fmap_compose. reflexivity.
  - intros hit Hhit. rewrite Hperm in Hhit.
    apply list_elem_of_fmap in Hhit as (orig & -> & Horig).
    exists orig. split; [exact Horig|]. do 4 (split; [reflexivity|]).
    unfold withSortKey, firstSortValue. simpl.
    destruct (hit_sort orig) as [[|v rest]|]; simpl; eauto.
    destruct (truthyNumber v); eauto.
Qed.

(** X13: when the first sort values are finite, [sortedData] is in
    descending order of the first sort value, the newest hit first.  Hits
    with the same first sort value keep the order that they have in the
    response. *)
Theorem sortedData_newest_first
    (parseIsoToNano : option StartTime → number)
    (response : ParsedResponse) (mode : TraceAnalyticsMode) :
  (∀ hit, hit ∈ withSortKey parseIsoToNano mode <$> normalizePayload response →
          isFinite (firstSortValue hit)) →
  StronglySorted (λ a b, le (firstSortValue b) (firstSortValue a))
    (sortedData parseIsoToNano response mode)
  ∧ ∀ key,
      filter (λ hit, strictEq (firstSortValue hit) key = true)
        (sortedData parseIsoToNano response mode)
      = filter (λ hit, strictEq (firstSortValue hit) key = true)
          (withSortKey parseIsoToNano mode <$> normalizePayload response).
Proof.
  intros Hfin. split.
  - assert (Hq : ∀ hit, isFinite (firstSortValue hit) →
              firstSortValue hit = Fin (sortKeyQ hit)).
    { intros hit. unfold sortKeyQ.
      destruct (firstSortValue hit); simpl; tauto. }
    eapply (StronglySorted_weaken (λ a b, sortsAfter a b = false)).
    + intros a b Ha Hb Hab.
      assert (Hfa : isFinite (firstSortValue a)).
      { apply Hfin. unfold sortedData in Ha.
        now rewrite stableSort_perm in Ha. }
      assert (Hfb : isFinite (firstSortValue b)).
      { apply Hfin. unfold sortedData in Hb.
        now rewrite stableSort_perm in Hb. }
      apply sortsAfter_finite_false in Hab; [|assumption|assumption].
      rewrite (Hq a Hfa), (Hq b Hfb). exact Hab.
    + apply (stableSort_sorted sortsAfter
               (λ hit, isFinite (firstSortValue hit))).
      * intros a b Ha Hb Hab. apply sortsAfter_finite in Hab; auto.
        apply sortsAfter_finite_false; auto. now apply Qlt_le_weak.
      * intros a b c Ha Hb Hc Hab Hbc.
        apply sortsAfter_finite_false in Hab, Hbc; auto.
        apply sortsAfter_finite_false; auto.
        eapply Qle_trans; eassumption.
      * apply Forall_forall. exact Hfin.
  - intros key. apply stableSort_stable.
    intros a c Ha Hc. exact (sortsAfter_same key a c Ha Hc).
Qed.

Lemma sortedData_newest_first_witness :
  firstSortValue <$> sortedData timestampLength payloadResponse jaeger
  = [fin 5000; fin 7; fin 2]
  ∧ StronglySorted (λ a b, le (firstSortValue b) (firstSortValue a))
      (sortedData timestampLength payloadResponse jaeger).
Proof.
  split; [reflexivity|].
  apply (sortedData_newest_first timestampLength payloadResponse jaeger).
  intros hit Hhit. simpl in Hhit.
  repeat (apply elem_of_cons in Hhit as [->|Hhit]);
    [exact I|exact I|exact I|now apply elem_of_nil in Hhit].
Defined.

(** ** The hierarchy *)

(** X14: every reference in the result of [hitsToHierarchicalSpans] is the
    key of a node: each root and each child of each node is stored in the
    span map.  The keys of the map are the span ids of the hits, and when
    several hits carry the same span id the node holds the last of them. *)
Theorem hierarchy_references_resolve
    (parseIsoToNano : option StartTime → number) (hits : list ParsedHit)
    (mode : TraceAnalyticsMode) :
  (∀ r, r ∈ rootSpans (hitsToHierarchicalSpans parseIsoToNano hits mode) →
        is_Some (spanMap (hitsToHierarchicalSpans parseIsoToNano hits mode)
                   !! r))
  ∧ (∀ k n c,
       spanMap (hitsToHierarchicalSpans parseIsoToNano hits mode) !! k
       = Some n →
       c ∈ children n →
       is_Some (spanMap (hitsToHierarchicalSpans parseIsoToNano hits mode)
                  !! c))
  ∧ (∀ k, is_Some (spanMap (hitsToHierarchicalSpans parseIsoToNano hits mode)
                     !! k)
          ↔ k ∈ keyOf mode <$> hits)
  ∧ ∀ l1 h l2,
      hits = l1 ++ h :: l2 → keyOf mode h ∉ keyOf mode <$> l2 →
      ∃ n, spanMap (hitsToHierarchicalSpans parseIsoToNano hits mode)
             !! keyOf mode h = Some n
           ∧ hit n = h
           ∧ startTimeInNanos n = getStartTimeInNanos parseIsoToNano h mode.
Proof.
  split; [apply hierarchy_root_stored|].
  split; [apply hierarchy_child_stored|].
  split; [apply hierarchy_is_Some|].
  intros l1 h l2 -> Hlast.
  destruct (hierarchy_spec parseIsoToNano mode (l1 ++ h :: l2)) as (Hm & _).
  rewrite Hm, (indexHits_last parseIsoToNano mode l1 l2 h Hlast). simpl.
  eexists. split; [reflexivity|]. split; reflexivity.
Qed.

(** X15: loading a payload throws only where the parser throws or where
    the hierarchy builder throws.  In the data prepper modes, and in jaeger
    mode when every hit has a [process], either the builder returns, and
    then the panel gets its chart or the recursion over the children does
    not end (no lookup of a node fails); or the builder throws a
    [TypeError], and so does the load.  The builder throws exactly when a
    parent link finds a number in the span map: a hit with the span id
    [__proto__] was made the prototype of the map, its start time is
    neither zero nor [NaN], no hit has the span id [startTimeInNanos], and a
    hit names [startTimeInNanos] as a parent (in a [CHILD_OF] reference, or
    as its [parentSpanId]). *)
Theorem loadHits_throws_in_parser_or_builder
    (parseIsoToNano : option StartTime → number) (fuel : nat)
    (hits : list ParsedHit) (mode : TraceAnalyticsMode)
    (colorMap : gmap string string) (st : PanelState) :
  (isJaeger mode = true → ∀ h, h ∈ hits → is_Some (process (_source h))) →
  ((¬ linkFindsStartTime parseIsoToNano mode hits
    ∧ thrown (hitsToHierarchicalSpans parseIsoToNano hits mode) = false
    ∧ ((∃ st', loadHits parseIsoToNano fuel hits mode colorMap st = Ok st')
       ∨ loadHits parseIsoToNano fuel hits mode colorMap st = Exhausted))
   ∨ (linkFindsStartTime parseIsoToNano mode hits
      ∧ thrown (hitsToHierarchicalSpans parseIsoToNano hits mode) = true
      ∧ loadHits parseIsoToNano fuel hits mode colorMap st
        = Throw "TypeError: Cannot create property 'children' on number")).
Proof.
  intros Hprocess.
  pose proof (hierarchy_throws_iff parseIsoToNano mode hits) as Hiff.
  cbv beta in Hiff.
  destruct (thrown (hitsToHierarchicalSpans parseIsoToNano hits mode))
    eqn:Hthrown.
  - right. split; [now apply Hiff|]. split; [reflexivity|].
    unfold loadHits. now rewrite Hthrown.
  - left. split; [intros H; apply Hiff in H; discriminate|].
    split; [reflexivity|].
    rewrite (loadHits_unthrown _ _ _ _ _ _ Hthrown).
    set (h := hitsToHierarchicalSpans parseIsoToNano hits mode).
    set (t0 := minOf _).
    destruct (createPlotlyData_no_throw (spanMap h) mode colorMap t0
                (hierarchy_child_stored parseIsoToNano mode hits))
      with (fuel := fuel) (spans := rootSpans h) as [[chart Hc]|Hc].
    + intros k n Hn.
      destruct (hierarchy_lookup _ _ _ _ _ Hn) as (x & Hx & _ & -> & _).
      destruct (isJaeger mode) eqn:Hmode.
      * destruct mode; try discriminate.
        apply parseSpanHitData_jaeger_total. now apply Hprocess.
      * now apply parseSpanHitData_data_prepper_total.
    + apply hierarchy_root_stored.
    + left. rewrite Hc. simpl. eauto.
    + right. rewrite Hc. reflexivity.
Qed.

Lemma loadHits_throws_in_parser_or_builder_witness :
  loadHits timestampLength 3 scenarioHits jaeger noColors initialPanel
  = Ok scenarioPanel
  ∧ linkFindsStartTime timestampLength jaeger prototypeHits
  ∧ loadHits timestampLength 3 prototypeHits jaeger noColors initialPanel
    = Throw "TypeError: Cannot create property 'children' on number".
Proof.
  split; [vm_compute; reflexivity|].
  destruct (loadHits_throws_in_parser_or_builder timestampLength 3
              prototypeHits jaeger noColors initialPanel)
    as [(_ & Hno & _)|(Hfinds & _ & Hthrow)].
  - intros _ h Hh. unfold prototypeHits in Hh.
    repeat (apply elem_of_cons in Hh as [->|Hh]);
      [| |now apply elem_of_nil in Hh]; simpl; eauto.
  - vm_compute in Hno. discriminate Hno.
  - split; [exact Hfinds|exact Hthrow].
Defined.

(** X16: no root is returned twice: a hit with several [FOLLOWS_FROM]
    references, or several hits with the same span id, register one root.
    This holds in the data prepper modes, and in jaeger mode when every hit
    has a [spanID]. *)
Theorem roots_are_registered_once
    (parseIsoToNano : option StartTime → number) (hits : list ParsedHit)
    (mode : TraceAnalyticsMode) :
  (isJaeger mode = true → ∀ h, h ∈ hits → is_Some (spanID (_source h))) →
  NoDup (rootSpans (hitsToHierarchicalSpans parseIsoToNano hits mode)).
Proof. apply hierarchy_roots_NoDup. Qed.

Lemma roots_are_registered_once_witness :
  rootSpans
    (hitsToHierarchicalSpans timestampLength
       [ jaegerSpan "A" 0 10 [];
         jaegerSpan "B" 5 10 [followsFrom "A"; followsFrom "A"];
         jaegerSpan "B" 7 10 [] ] jaeger)
  = ["A"; "B"]
  ∧ NoDup
      (rootSpans
         (hitsToHierarchicalSpans timestampLength
            [ jaegerSpan "A" 0 10 [];
              jaegerSpan "B" 5 10 [followsFrom "A"; followsFrom "A"];
              jaegerSpan "B" 7 10 [] ] jaeger)).
Proof.
  split; [reflexivity|].
  apply roots_are_registered_once. intros _ h Hh.
  repeat (apply elem_of_cons in Hh as [->|Hh]);
    [| | |now apply elem_of_nil in Hh]; simpl; eauto.
Defined.

(** X17: which spans are roots.  A key is among the roots exactly when a
    hit with this key registers as a root: in jaeger mode a hit without
    references or with a [FOLLOWS_FROM] reference, whatever else it refers
    to; in the data prepper modes a hit with a non-empty span id whose
    [parentSpanId] is empty or finds nothing in the span map when the hit is
    linked.  A name finds nothing when it is not the span id of a hit and
    not a property that the map inherits: a property of [Object.prototype]
    (such as [constructor] or [__proto__]); [hit], [children] or a
    [startTimeInNanos] other than zero and [NaN], of a hit with the span id
    [__proto__], which is the prototype of the map; or [children] once an
    earlier hit had a parent link named [__proto__] that no span id
    matched, which adds this property to [Object.prototype].  (When a
    parent link finds a number, the builder throws and returns no roots, see
    X15; the roots are then those of the passes followed to their end.) *)
Theorem roots_are_the_registered_hits
    (parseIsoToNano : option StartTime → number) (hits : list ParsedHit)
    (mode : TraceAnalyticsMode) (k : string) :
  (k ∈ rootSpans (hitsToHierarchicalSpans parseIsoToNano hits mode)
   ↔ ∃ l1 h l2,
       hits = l1 ++ h :: l2 ∧ keyOf mode h = k
       ∧ if isJaeger mode
         then default [] (references (_source h)) = []
              ∨ ∃ r, r ∈ default [] (references (_source h))
                     ∧ refType r = FOLLOWS_FROM
         else truthy (spanId (_source h)) = true
              ∧ (truthy (parentSpanId (_source h)) = false
                 ∨ findsNothing (indexHits parseIsoToNano mode hits)
                     (pollutedAfter mode (indexHits parseIsoToNano mode hits)
                        l1)
                     (propKey (parentSpanId (_source h)))))
  ∧ (∀ l1, pollutedAfter mode (indexHits parseIsoToNano mode hits) l1 = true
           ↔ ("__proto__" ∉ keyOf mode <$> hits)
             ∧ ∃ h, h ∈ l1 ∧ "__proto__" ∈ linkNames mode h)
  ∧ ∀ name, indexHits parseIsoToNano mode hits !! name = None
            ↔ name ∉ keyOf mode <$> hits.
Proof.
  split; [|split].
  - rewrite hierarchy_roots_iff.
    assert (Hreg : ∀ b h,
              registersRootIn mode (indexHits parseIsoToNano mode hits) b h
              = true
              ↔ if isJaeger mode
                then default [] (references (_source h)) = []
                     ∨ ∃ r, r ∈ default [] (references (_source h))
                            ∧ refType r = FOLLOWS_FROM
                else truthy (spanId (_source h)) = true
                     ∧ (truthy (parentSpanId (_source h)) = false
                        ∨ findsNothing (indexHits parseIsoToNano mode hits) b
                            (propKey (parentSpanId (_source h))))).
    { intros b h. unfold registersRootIn. destruct (isJaeger mode).
      - rewrite orb_true_iff, bool_decide_eq_true.
        assert (Hex : existsb isFollowsFrom
                        (default [] (references (_source h))) = true
                      ↔ ∃ r, r ∈ default [] (references (_source h))
                             ∧ refType r = FOLLOWS_FROM).
        { rewrite existsb_exists. unfold isFollowsFrom.
          split; intros (r & Hr & Ht); exists r.
          - apply list_elem_of_In in Hr. now apply bool_decide_eq_true in Ht.
          - apply list_elem_of_In in Hr. split; [exact Hr|].
            now apply bool_decide_eq_true. }
        now rewrite Hex.
      - rewrite andb_true_iff, negb_true_iff, andb_false_iff.
        rewrite truthyFound_false. tauto. }
    split; intros (l1 & h & l2 & Heq & Hk & Hr); exists l1, h, l2;
      (split; [exact Heq|]); (split; [exact Hk|]); now apply Hreg.
  - intros l1. apply pollutedAfter_iff.
  - intros name. rewrite <- (indexHits_is_Some parseIsoToNano mode hits name).
    apply eq_None_not_Some.
Qed.

(** X18: which spans are drawn.  When the chart was laid out, a span id
    labels a bar exactly when it is the id of a node that can be reached
    from a root through the children of the nodes. *)
Theorem bars_are_the_reachable_spans
    (parseIsoToNano : option StartTime → number) (fuel : nat)
    (hits : list ParsedHit) (mode : TraceAnalyticsMode)
    (colorMap : gmap string string) (st st' : PanelState) :
  loadHits parseIsoToNano fuel hits mode colorMap st = Ok st' →
  ∀ id,
    id ∈ pd_y <$> gantt st'
    ↔ ∃ k n,
        reachable (spanMap (hitsToHierarchicalSpans parseIsoToNano hits mode))
          (rootSpans (hitsToHierarchicalSpans parseIsoToNano hits mode)) k
        ∧ spanMap (hitsToHierarchicalSpans parseIsoToNano hits mode) !! k
          = Some n
        ∧ spanIdOf mode (hit n) = id.
Proof.
  intros Hload id.
  destruct (loadHits_visits _ _ _ _ _ _ _ Hload) as (vs & Hw & Hvs & Hg & _).
  rewrite Forall_forall in Hvs.
  assert (Hbar : ∀ v, v ∈ vs →
            spanMap (hitsToHierarchicalSpans parseIsoToNano hits mode)
              !! v_ref v = Some (v_span v)
            ∧ pd_y (visitBar colorMap
                      (rootMinStartMs
                         (hitsToHierarchicalSpans parseIsoToNano hits mode)) v)
              = spanIdOf mode (hit (v_span v))).
  { intros v Hv. destruct (Hvs v Hv) as (h & _ & _ & Hn & Hh & _ & Hp).
    split; [exact Hn|]. apply parseSpanHitData_fields in Hp as [Hid _].
    simpl. now rewrite Hid, Hh. }
  rewrite Hg. split.
  - intros Hid. apply list_elem_of_fmap in Hid as (bar & -> & Hb).
    apply list_elem_of_fmap in Hb as (v & -> & Hv).
    destruct (Hbar v Hv) as [Hn Hy].
    exists (v_ref v), (v_span v). split; [|split; [exact Hn|now rewrite Hy]].
    apply (walkAll_reachable _ _ _ _ _ Hw). now apply list_elem_of_fmap_2.
  - intros (k & n & Hk & Hn & <-).
    apply (walkAll_reachable _ _ _ _ _ Hw) in Hk.
    apply list_elem_of_fmap in Hk as (v & -> & Hv).
    destruct (Hbar v Hv) as [Hn' Hy]. rewrite Hn in Hn'. injection Hn' as ->.
    rewrite <- Hy, <- list_fmap_compose. apply list_elem_of_fmap.
    exists v. split; [reflexivity|exact Hv].
Qed.

Lemma bars_are_the_reachable_spans_witness :
  Some "C1" ∈ pd_y <$> gantt scenarioPanel
  ↔ ∃ k n,
      reachable
        (spanMap (hitsToHierarchicalSpans timestampLength scenarioHits
                    jaeger))
        (rootSpans (hitsToHierarchicalSpans timestampLength scenarioHits
                      jaeger)) k
      ∧ spanMap (hitsToHierarchicalSpans timestampLength scenarioHits jaeger)
          !! k = Some n
      ∧ spanIdOf jaeger (hit n) = Some "C1".
Proof.
  apply (bars_are_the_reachable_spans timestampLength 10 scenarioHits jaeger
           noColors initialPanel).
  vm_compute. reflexivity.
Defined.

(** X19: when the start times of the hits are finite, the chart starts at
    zero: the first bar is the bar of the root that starts first and its
    offset is 0, and every root has a bar at an offset that is not
    negative. *)
Theorem first_bar_starts_at_zero
    (parseIsoToNano : option StartTime → number) (fuel : nat)
    (hits : list ParsedHit) (mode : TraceAnalyticsMode)
    (colorMap : gmap string string) (st st' : PanelState) :
  loadHits parseIsoToNano fuel hits mode colorMap st = Ok st' →
  (∀ h, h ∈ hits → isFinite (getStartTimeInNanos parseIsoToNano h mode)) →
  (∀ bar, gantt st' !! 0 = Some bar →
     pd_base bar = ofZ 0
     ∧ ∃ r n,
         r ∈ rootSpans (hitsToHierarchicalSpans parseIsoToNano hits mode)
         ∧ spanMap (hitsToHierarchicalSpans parseIsoToNano hits mode) !! r
           = Some n
         ∧ pd_y bar = spanIdOf mode (hit n))
  ∧ ∀ r n,
      r ∈ rootSpans (hitsToHierarchicalSpans parseIsoToNano hits mode) →
      spanMap (hitsToHierarchicalSpans parseIsoToNano hits mode) !! r
      = Some n →
      ∃ bar, bar ∈ gantt st' ∧ pd_y bar = spanIdOf mode (hit n)
             ∧ le (ofZ 0) (pd_base bar).
Proof.
  intros Hload Hfin.
  set (H := hitsToHierarchicalSpans parseIsoToNano hits mode).
  destruct (loadHits_visits _ _ _ _ _ _ _ Hload) as (vs & Hw & Hvs & Hg & _).
  fold H in Hw, Hvs, Hg. rewrite Forall_forall in Hvs.
  set (t0 := rootMinStartMs H) in *.
  assert (Hrootfin : ∀ r, r ∈ rootSpans H → finiteStart (spanMap H) r).
  { intros r Hr. unfold finiteStart.
    destruct (root_start parseIsoToNano mode hits r Hr) as (h & Hh & Hs).
    fold H in Hs. rewrite Hs. now apply Hfin. }
  assert (HQ : ∀ r, r ∈ rootSpans H →
            startOf (spanMap H) r = Fin (startOfQ (spanMap H) r)).
  { intros r Hr. specialize (Hrootfin r Hr). unfold finiteStart, startOfQ in *.
    destruct (startOf (spanMap H) r); simpl in *; tauto. }
  assert (Hvisit : ∀ v, v ∈ vs →
            spanMap H !! v_ref v = Some (v_span v)
            ∧ pd_y (visitBar colorMap t0 v) = spanIdOf mode (hit (v_span v))
            ∧ pd_base (visitBar colorMap t0 v)
              = sub (nanoToMilliSec (startOf (spanMap H) (v_ref v))) t0).
  { intros v Hv. destruct (Hvs v Hv) as (h & _ & _ & Hn & Hh & _ & Hp).
    fold H in Hn.
    split; [exact Hn|]. apply parseSpanHitData_fields in Hp as [Hid _].
    split; [simpl; now rewrite Hid, Hh|].
    unfold startOf. rewrite Hn. reflexivity. }
  assert (Hmin : ∀ r, r ∈ rootSpans H →
            isFinite t0
            ∧ le t0 (nanoToMilliSec (startOf (spanMap H) r))).
  { intros r Hr.
    destruct (rootMin_attained parseIsoToNano mode hits Hfin) as [Ht0 _].
    { intros Hnil. fold H in Hnil. rewrite Hnil in Hr.
      now apply elem_of_nil in Hr. }
    split; [exact Ht0|]. apply minOf_le.
    - apply Forall_fmap, Forall_forall. intros x Hx. simpl.
      apply divBy_finite. now apply Hrootfin.
    - apply list_elem_of_fmap. now exists r. }
  split.
  - intros bar Hbar. rewrite Hg, list_lookup_fmap in Hbar.
    destruct vs as [|v0 vs0]; [discriminate|]. injection Hbar as <-.
    destruct (Hvisit v0) as (Hn & Hy & Hb); [left|].
    assert (Hhead : head (sortSpans (spanMap H) (rootSpans H))
                    = Some (v_ref v0)).
    { eapply walkAll_first; [exact Hw|reflexivity]. }
    assert (Hroot : v_ref v0 ∈ rootSpans H).
    { apply (elem_of_sortSpans (spanMap H)).
      destruct (sortSpans (spanMap H) (rootSpans H)); [discriminate|].
      injection Hhead as ->. left. }
    split; [|exists (v_ref v0), (v_span v0); auto].
    rewrite Hb. destruct (Hmin _ Hroot) as [Ht0 Hle].
    destruct (rootMin_attained parseIsoToNano mode hits Hfin)
      as (_ & r & Hr & Hat).
    { intros Hnil. fold H in Hnil. rewrite Hnil in Hroot.
      now apply elem_of_nil in Hroot. }
    fold H in Hr, Hat. fold t0 in Hat.
    assert (Heq : nanoToMilliSec (startOf (spanMap H) (v_ref v0)) = t0).
    { rewrite Hat in Hle |- *. rewrite (HQ _ Hroot), (HQ _ Hr) in *.
      rewrite !nanoToMilliSec_Fin in *. apply le_fin_antisym; [|exact Hle].
      rewrite <- !nanoToMilliSec_Fin. apply nanoToMilliSec_le.
      apply (sortSpans_head_least (spanMap H) (rootSpans H));
        [now apply Forall_forall|exact Hhead|exact Hr]. }
    rewrite Heq. now apply sub_diag.
  - intros r n Hr Hn.
    assert (Hin : r ∈ v_ref <$> vs) by (eapply walkAll_roots; eassumption).
    apply list_elem_of_fmap in Hin as (v & -> & Hv).
    destruct (Hvisit v Hv) as (Hn' & Hy & Hb).
    rewrite Hn in Hn'. injection Hn' as ->.
    exists (visitBar colorMap t0 v).
    split; [rewrite Hg; now apply list_elem_of_fmap_2|].
    split; [exact Hy|]. rewrite Hb.
    destruct (Hmin _ Hr) as [Ht0 Hle].
    apply sub_nonneg; [|exact Ht0|exact Hle].
    apply divBy_finite. now apply Hrootfin.
Qed.

Lemma first_bar_starts_at_zero_witness :
  pd_base <$> gantt earlyChildPanel = [fin 0; fin (-5)]
  ∧ ∀ bar, gantt earlyChildPanel !! 0 = Some bar → pd_base bar = ofZ 0.
Proof.
  split; [reflexivity|].
  intros bar Hbar.
  refine (proj1 (proj1 (first_bar_starts_at_zero timestampLength 10
                          earlyChildHits jaeger noColors initialPanel
                          earlyChildPanel _ _) bar Hbar)).
  - vm_compute. reflexivity.
  - intros h Hh. unfold earlyChildHits in Hh.
    repeat (apply elem_of_cons in Hh as [->|Hh]);
      [exact I|exact I|now apply elem_of_nil in Hh].
Defined.

(** ** Hits with at most one place each *)

(** X20: when the hits have distinct span ids and each of them has at most
    one place in the hierarchy (it registers as a root, or it has one parent
    link that resolves, or neither), then, unless the hierarchy builder
    throws, the layout returns, with a recursion that is no deeper than the
    number of hits, and no span is drawn twice: the bars are those of the
    hits whose chain of parents ends in a root.  Spans on a cycle of parent
    links and spans below them get no bar.  In the data prepper modes every
    hit has at most one place, so that distinct span ids are all that is
    asked for.  The builder throws, and with it the load, exactly when a
    parent link finds a number in the span map: a hit has the span id
    [__proto__] and a start time other than zero and [NaN], no hit has the
    span id [startTimeInNanos], and a hit names [startTimeInNanos] as a
    parent. *)
Theorem layout_returns_for_single_places
    (parseIsoToNano : option StartTime → number) (fuel : nat)
    (hits : list ParsedHit) (mode : TraceAnalyticsMode)
    (colorMap : gmap string string) (st : PanelState) :
  NoDup (keyOf mode <$> hits) →
  (isJaeger mode = true → ∀ h, h ∈ hits →
     is_Some (process (_source h))
     ∧ atMostOnePlace parseIsoToNano mode hits h) →
  length hits ≤ fuel →
  (¬ linkFindsStartTime parseIsoToNano mode hits
   ∧ ∃ st',
       loadHits parseIsoToNano fuel hits mode colorMap st = Ok st'
       ∧ NoDup (pd_y <$> gantt st')
       ∧ pd_y <$> gantt st'
           ≡ₚ spanIdOf mode
                <$> filter (λ h, rooted parseIsoToNano mode hits (keyOf mode h)
                                 = true) hits)
  ∨ (linkFindsStartTime parseIsoToNano mode hits
     ∧ loadHits parseIsoToNano fuel hits mode colorMap st
       = Throw "TypeError: Cannot create property 'children' on number").
Proof.
  intros Hkeys Hjaeger Hfuel.
  pose proof (hierarchy_throws_iff parseIsoToNano mode hits) as Hiff.
  cbv beta in Hiff.
  destruct (thrown (hitsToHierarchicalSpans parseIsoToNano hits mode))
    eqn:Hthrown.
  { right. split; [now apply Hiff|]. unfold loadHits. now rewrite Hthrown. }
  left. split; [intros H; apply Hiff in H; discriminate|].
  apply chain_loads; [exact Hkeys| |exact Hthrown| |exact Hfuel].
  - intros h Hh. destruct (isJaeger mode) eqn:Hmode.
    + now apply Hjaeger.
    + now apply data_prepper_places.
  - intros h Hh. destruct (isJaeger mode) eqn:Hmode.
    + destruct mode; try discriminate.
      apply parseSpanHitData_jaeger_total. now apply Hjaeger.
    + now apply parseSpanHitData_data_prepper_total.
Qed.

Lemma layout_returns_for_single_places_witness :
  (∃ st',
     loadHits timestampLength 4 strayCycleHits jaeger noColors initialPanel
     = Ok st'
     ∧ NoDup (pd_y <$> gantt st')
     ∧ pd_y <$> gantt st' ≡ₚ [Some "R"; Some "C"])
  ∧ (∃ st',
       loadHits timestampLength 4 strayLoopHits data_prepper noColors
         initialPanel = Ok st'
       ∧ NoDup (pd_y <$> gantt st')
       ∧ pd_y <$> gantt st' ≡ₚ [Some "r"; Some "c"])
  ∧ linkFindsStartTime timestampLength jaeger prototypeHits
  ∧ loadHits timestampLength 2 prototypeHits jaeger noColors initialPanel
    = Throw "TypeError: Cannot create property 'children' on number".
Proof.
  split; [|split].
  - destruct (layout_returns_for_single_places timestampLength 4
                strayCycleHits jaeger noColors initialPanel)
      as [(_ & H)|(_ & H)].
    + apply (bool_decide_unpack _). vm_compute. exact I.
    + intros _ h Hh. unfold strayCycleHits in Hh.
      repeat (apply elem_of_cons in Hh as [->|Hh]);
        [| | | |now apply elem_of_nil in Hh];
        (split; [simpl; eauto|unfold atMostOnePlace; vm_compute; lia]).
    + simpl. lia.
    + exact H.
    + vm_compute in H. discriminate H.
  - destruct (layout_returns_for_single_places timestampLength 4
                strayLoopHits data_prepper noColors initialPanel)
      as [(_ & H)|(_ & H)].
    + apply (bool_decide_unpack _). vm_compute. exact I.
    + discriminate.
    + simpl. lia.
    + exact H.
    + vm_compute in H. discriminate H.
  - destruct (layout_returns_for_single_places timestampLength 2
                prototypeHits jaeger noColors initialPanel)
      as [(_ & st' & H & _)|H].
    + apply (bool_decide_unpack _). vm_compute. exact I.
    + intros _ h Hh. unfold prototypeHits in Hh.
      repeat (apply elem_of_cons in Hh as [->|Hh]);
        [| |now apply elem_of_nil in Hh];
        (split; [simpl; eauto|unfold atMostOnePlace; vm_compute; lia]).
    + simpl. lia.
    + vm_compute in H. discriminate H.
    + exact H.
Defined.

(** ** The tables of traces *)

(** X21: the percentile of a trace in its group.  In the data prepper modes,
    when the percentiles of the trace groups were received, one bucket for
    each group and each with thresholds in ascending order, the handler
    either reports an error or sets one row for each bucket of traces, in
    the order of the buckets, and the percentile of a row is the number of
    thresholds of its trace group, in milliseconds, that are smaller than the
    latency of the row, capped at 100.  For a row whose trace group has no
    percentiles the lookup of the thresholds falls through to what the map
    inherits: when no group of the percentiles is named [__proto__], the
    percentile is 0 for a trace group that is named like a property of
    [Object.prototype] (such as [constructor] or [toString]) and [NaN] for
    any other; when a group is named [__proto__], its thresholds are the
    prototype of the map, and a trace group that is named like an index,
    [length] or a function of arrays finds this property first. *)
Theorem percentile_counts_smaller_thresholds
    (formatDate : option number → string) (arrayPrototype : gmap string nat)
    (response : TracesResponse) (percentiles : PercentileResponse)
    (mode : TraceAnalyticsMode) (setUniqueTraces : bool)
    (groups : list PercentileBucket) (buckets : list TraceBucket) :
  isDataPrepper mode = true →
  percentile_buckets percentiles = Some groups →
  NoDup ((λ b, propKey (pb_key b)) <$> groups) →
  Forall (λ b, ∃ vs, pb_values b = Some vs
                     ∧ StronglySorted le (nanoToMilliSec <$> vs)) groups →
  traces_buckets response = Some buckets → buckets ≠ [] →
  handleTracesRequest formatDate arrayPrototype (Some response)
    (Some percentiles) mode setUniqueTraces
  = (if setUniqueTraces
     then [SetUniqueTraces (default (ofZ 0) (unique_traces response))]
     else [])
    ++ [ReportError "Failed to retrieve traces"]
  ∨ ∃ rows,
      handleTracesRequest formatDate arrayPrototype (Some response)
        (Some percentiles) mode setUniqueTraces
      = (if setUniqueTraces
         then [SetUniqueTraces (default (ofZ 0) (unique_traces response))]
         else [])
        ++ [SetItems (TraceRow <$> rows)]
      ∧ Forall2
          (λ bucket row,
             trace_id row = tb_key bucket
             ∧ ∃ group,
                 trace_group row = Some group
                 ∧ (∀ b vs,
                      b ∈ groups → propKey (pb_key b) = propKey group →
                      pb_values b = Some vs →
                      percentile_in_trace_group row
                      = Some (ofZ (Z.min 100
                                     (Z.of_nat
                                        (length
                                           (filter
                                              (λ v, lt v (from_option id NaN
                                                            (latency row))
                                                    = true)
                                              (nanoToMilliSec <$> vs)))))))
                 ∧ (propKey group ∉ (λ b, propKey (pb_key b)) <$> groups →
                    ("__proto__" ∉ (λ b, propKey (pb_key b)) <$> groups) →
                    percentile_in_trace_group row
                    = Some (if bool_decide
                                 (is_Some (objectPrototype !! propKey group))
                            then ofZ 0 else NaN))
                 ∧ (propKey group ∉ (λ b, propKey (pb_key b)) <$> groups →
                    ∀ b vs,
                      b ∈ groups → propKey (pb_key b) = "__proto__" →
                      pb_values b = Some vs →
                      percentile_in_trace_group row
                      = Some
                          match arrayField arrayPrototype
                                  (nanoToMilliSec <$> vs) (propKey group) with
                          | Some value =>
                              binarySearchOther value
                                (from_option id NaN (latency row))
                          | None =>
                              if bool_decide
                                   (is_Some
                                      (objectPrototype !! propKey group))
                              then ofZ 0 else NaN
                          end))
          buckets rows.
Proof.
  intros Hmode Hgroups Hnd Hsorted Hbuckets Hne.
  destruct (percentileRangesOf_spec percentiles groups Hgroups)
    as (map & Hmap & Hother & Hkeys).
  { eapply Forall_impl; [exact Hsorted|]. intros b (vs & -> & _). eauto. }
  rewrite (handleTracesRequest_rows formatDate arrayPrototype response
             (Some percentiles) mode setUniqueTraces buckets map Hbuckets Hne)
    by now rewrite Hmode, Hmap.
  destruct (mapResult (traceRow formatDate arrayPrototype mode map) buckets)
    as [rows| |] eqn:Hrows; [right|now left|now left].
  exists rows. split; [reflexivity|].
  apply mapResult_Ok in Hrows. eapply Forall2_impl; [exact Hrows|].
  intros bucket row Hrow.
  destruct (traceRow_data_prepper formatDate arrayPrototype mode map bucket
              row Hmode Hrow) as (Hid & gs & _ & Hgroup & Hp).
  split; [exact Hid|]. exists (head gs ≫= kb_key). split; [exact Hgroup|].
  split; [|split].
  - intros b vs Hb Hkey Hvs.
    rewrite Hp, <- Hkey,
      (percentileIn_own arrayPrototype map _ _ _ (Hkeys Hnd b vs Hb Hvs)).
    f_equal. apply binarySearch_count.
    rewrite Forall_forall in Hsorted.
    destruct (Hsorted b Hb) as (vs' & Hvs' & Hs). congruence.
  - intros Hno Hproto. rewrite Hp. f_equal.
    apply percentileIn_inherited; now apply Hother.
  - intros Hno b vs Hb Hkey Hvs. rewrite Hp. f_equal.
    apply percentileIn_prototype; [now apply Hother|].
    rewrite <- Hkey. now apply Hkeys.
Qed.

Lemma percentile_counts_smaller_thresholds_witness :
  handleTracesRequest noDate arrayFunctions (Some tableResponse)
    (Some tablePercentiles) data_prepper true
  = [ SetUniqueTraces (ofZ 2);
      SetItems
        (TraceRow <$>
           [ {| trace_id := Some "t1"; trace_group := Some (Some "checkout");
                latency := Some (ofZ 3); last_updated := "";
                error_count := Some (ofZ 0);
                percentile_in_trace_group := Some (ofZ 2); actions := "#" |};
             {| trace_id := Some "t2"; trace_group := Some (Some "checkout");
                latency := Some (ofZ 20); last_updated := "";
                error_count := Some (ofZ 0);
                percentile_in_trace_group := Some (ofZ 4); actions := "#" |} ]) ]
  ∧ handleTracesRequest noDate arrayFunctions (Some inheritedGroupResponse)
      (Some tablePercentiles) data_prepper true
    = [ SetUniqueTraces (ofZ 2);
        SetItems
          (TraceRow <$>
             [ {| trace_id := Some "t1";
                  trace_group := Some (Some "constructor");
                  latency := Some (ofZ 3); last_updated := "";
                  error_count := Some (ofZ 0);
                  percentile_in_trace_group := Some (ofZ 0);
                  actions := "#" |};
               {| trace_id := Some "t2"; trace_group := Some (Some "payment");
                  latency := Some (ofZ 20); last_updated := "";
                  error_count := Some (ofZ 0);
                  percentile_in_trace_group := Some NaN;
                  actions := "#" |} ]) ]
  ∧ (handleTracesRequest noDate arrayFunctions (Some tableResponse)
       (Some tablePercentiles) data_prepper true
     = [SetUniqueTraces (ofZ 2); ReportError "Failed to retrieve traces"]
     ∨ ∃ rows,
         handleTracesRequest noDate arrayFunctions (Some tableResponse)
           (Some tablePercentiles) data_prepper true
         = [SetUniqueTraces (ofZ 2); SetItems (TraceRow <$> rows)]
         ∧ length rows = 2).
Proof.
  split; [vm_compute; reflexivity|]. split; [vm_compute; reflexivity|].
  destruct (percentile_counts_smaller_thresholds noDate arrayFunctions
              tableResponse tablePercentiles data_prepper true
              [ {| pb_key := Some "checkout";
                   pb_values := Some [ ofZ 1000000; ofZ 2000000;
                                       ofZ 5000000; ofZ 9000000 ] |} ]
              [ traceBucket "t1" "checkout" 3; traceBucket "t2" "checkout" 20 ])
    as [Herr|(rows & Hrows & Hall)].
  - reflexivity.
  - reflexivity.
  - apply NoDup_singleton.
  - repeat constructor. eexists. split; [reflexivity|].
    repeat constructor; vm_compute; discriminate.
  - reflexivity.
  - discriminate.
  - left. exact Herr.
  - right. exists rows. split; [exact Hrows|].
    apply Forall2_length in Hall. now rewrite <- Hall.
Defined.

(** X22: how [handleTracesRequest] fails.  A rejected request for traces
    empties the table and reports nothing.  Without buckets the table is
    emptied after the number of traces was set.  The request for
    percentiles cannot fail the table: when it is rejected, or when its
    response has no buckets or a bucket without values, the handler does
    what it does without any percentiles, and the percentile of every row of
    the data prepper modes is then what the lookup in an empty object gives:
    0 for a trace group that is named like a property of [Object.prototype]
    (such as [constructor] or [toString]) and [NaN] for any other.  A bucket
    of traces that lacks its latency, its date or its error count (or its
    trace group, in the data prepper modes) makes the handler report an
    error instead of setting the rows. *)
Theorem traces_request_failures (formatDate : option number → string)
    (arrayPrototype : gmap string nat) :
  (∀ percentiles mode setUniqueTraces,
     handleTracesRequest formatDate arrayPrototype None percentiles mode
       setUniqueTraces
     = [SetItems []])
  ∧ (∀ response percentiles mode setUniqueTraces,
       traces_buckets response = None ∨ traces_buckets response = Some [] →
       handleTracesRequest formatDate arrayPrototype (Some response)
         percentiles mode setUniqueTraces
       = (if setUniqueTraces
          then [SetUniqueTraces (default (ofZ 0) (unique_traces response))]
          else [])
         ++ [SetItems []])
  ∧ (∀ response percentiles mode setUniqueTraces,
       isDataPrepper mode = false
       ∨ percentile_buckets percentiles = None
       ∨ (∃ groups b, percentile_buckets percentiles = Some groups
                      ∧ b ∈ groups ∧ pb_values b = None) →
       handleTracesRequest formatDate arrayPrototype (Some response)
         (Some percentiles) mode setUniqueTraces
       = handleTracesRequest formatDate arrayPrototype (Some response) None
           mode setUniqueTraces)
  ∧ (∀ response mode setUniqueTraces calls rows,
       isDataPrepper mode = true →
       handleTracesRequest formatDate arrayPrototype (Some response) None
         mode setUniqueTraces
       = calls ++ [SetItems (TraceRow <$> rows)] →
       Forall
         (λ row,
            ∃ group,
              trace_group row = Some group
              ∧ percentile_in_trace_group row
                = Some (if bool_decide
                             (is_Some (objectPrototype !! propKey group))
                        then ofZ 0 else NaN))
         rows)
  ∧ ∀ response percentiles mode setUniqueTraces buckets bucket,
      traces_buckets response = Some buckets → bucket ∈ buckets →
      tb_latency bucket = None ∨ tb_last_updated bucket = None
      ∨ tb_error_count bucket = None
      ∨ (isDataPrepper mode = true ∧ tb_trace_group bucket = None) →
      handleTracesRequest formatDate arrayPrototype (Some response)
        percentiles mode setUniqueTraces
      = (if setUniqueTraces
         then [SetUniqueTraces (default (ofZ 0) (unique_traces response))]
         else [])
        ++ [ReportError "Failed to retrieve traces"].
Proof.
  split; [reflexivity|]. split; [|split; [|split]].
  - intros response percentiles mode s [H|H]; unfold handleTracesRequest;
      now rewrite H.
  - intros response percentiles mode s H. unfold handleTracesRequest.
    destruct (isDataPrepper mode) eqn:Hmode; [|reflexivity].
    destruct H as [H|H]; [discriminate|].
    destruct (percentileRangesOf percentiles) as [map| |] eqn:E;
      [|reflexivity|reflexivity].
    exfalso. exact (percentileRangesOf_fails percentiles H map E).
  - intros response mode s calls rows Hmode Hcalls.
    destruct (traces_buckets response) as [[|b buckets]|] eqn:Hb.
    + unfold handleTracesRequest in Hcalls. rewrite Hb in Hcalls.
      apply app_inj_tail in Hcalls as [_ [= Hrows]].
      symmetry in Hrows. apply fmap_nil_inv in Hrows. subst. constructor.
    + rewrite (handleTracesRequest_rows formatDate arrayPrototype response
                 None mode s (b :: buckets) ∅ Hb) in Hcalls;
        [|discriminate|now rewrite Hmode].
      destruct (mapResult _ (b :: buckets)) as [rows'| |] eqn:Hrows;
        apply app_inj_tail in Hcalls as [_ Hcalls]; try discriminate.
      injection Hcalls as Hcalls.
      apply TraceRow_fmap_inj in Hcalls. subst rows'.
      apply mapResult_Ok in Hrows. apply Forall_forall. intros row Hrow.
      apply list_elem_of_lookup in Hrow as [i Hi].
      destruct (Forall2_lookup_r _ _ _ _ _ Hrows Hi) as (bucket & _ & Hr).
      destruct (traceRow_data_prepper formatDate arrayPrototype mode ∅
                  bucket row Hmode Hr) as (_ & gs & _ & Hgroup & ->).
      exists (head gs ≫= kb_key). split; [exact Hgroup|]. f_equal.
      apply percentileIn_inherited; apply lookup_empty.
    + unfold handleTracesRequest in Hcalls. rewrite Hb in Hcalls.
      apply app_inj_tail in Hcalls as [_ [= Hrows]].
      symmetry in Hrows. apply fmap_nil_inv in Hrows. subst. constructor.
  - intros response percentiles mode s buckets bucket Hb Hin Hmissing.
    erewrite (handleTracesRequest_rows formatDate arrayPrototype response
                percentiles mode s buckets _ Hb);
      [|intros ->; now apply elem_of_nil in Hin|reflexivity].
    match goal with
    | |- context [mapResult ?f buckets] =>
        destruct (mapResult f buckets) as [rows| |] eqn:Hrows;
          [exfalso|reflexivity|reflexivity]
    end.
    apply mapResult_Ok in Hrows.
    apply list_elem_of_lookup in Hin as [i Hi].
    destruct (Forall2_lookup_l _ _ _ _ _ Hrows Hi) as (row & _ & Hrow).
    destruct Hmissing as [H|[H|[H|[Hmode H]]]].
    + apply traceRow_complete in Hrow as ([? Hl] & _). congruence.
    + apply traceRow_complete in Hrow as (_ & [? Hl] & _). congruence.
    + apply traceRow_complete in Hrow as (_ & _ & [? Hl]). congruence.
    + apply (traceRow_data_prepper _ _ _ _ _ _ Hmode) in Hrow
        as (_ & gs & Hg & _). congruence.
Qed.



(** X24: the edges of [handleCustomIndicesTracesRequest].  A rejected
    request is reported and sets nothing.  Without hits the handler sets the
    number of hits (0 when the response has none) and an empty table, in
    every mode and also when the response carries buckets of traces.  In
    jaeger mode with hits, the rows come from the buckets, one for each, or
    an error is reported after the number of hits was set. *)
Theorem custom_request_edges (formatDate : option number → string) :
  (∀ mode,
     handleCustomIndicesTracesRequest formatDate None mode
     = [ReportError "Failed to retrieve custom indices traces"])
  ∧ (∀ response mode,
       custom_hits response = None ∨ custom_hits response = Some [] →
       handleCustomIndicesTracesRequest formatDate (Some response) mode
       = [ SetTotalHits (default (ofZ 0) (custom_total response));
           SetItems [] ])
  ∧ ∀ response mode hits,
      isDataPrepper mode = false → custom_hits response = Some hits →
      hits ≠ [] →
      (∃ rows,
         handleCustomIndicesTracesRequest formatDate (Some response) mode
         = [ SetTotalHits (default (ofZ 0) (custom_total response));
             SetItems (TraceRow <$> rows) ]
         ∧ Forall2 (λ bucket row, trace_id row = tb_key bucket
                                  ∧ trace_group row = None
                                  ∧ percentile_in_trace_group row = None)
             (default [] (custom_buckets response)) rows)
      ∨ (handleCustomIndicesTracesRequest formatDate (Some response) mode
         = [ SetTotalHits (default (ofZ 0) (custom_total response));
             ReportError "Failed to retrieve custom indices traces" ]
         ∧ ∃ bucket,
             bucket ∈ default [] (custom_buckets response)
             ∧ (tb_latency bucket = None ∨ tb_last_updated bucket = None
                ∨ tb_error_count bucket = None)).
Proof.
  split; [reflexivity|]. split.
  - intros response mode [H|H]; unfold handleCustomIndicesTracesRequest;
      now rewrite H.
  - intros response mode hits Hmode Hhits Hne.
    unfold handleCustomIndicesTracesRequest. rewrite Hhits, Hmode. simpl.
    rewrite bool_decide_eq_false_2
      by (destruct hits; [contradiction|discriminate]).
    destruct (mapResult (plainRow formatDate)
                (default [] (custom_buckets response))) as [rows| |] eqn:Hrows.
    + left. exists rows. split; [reflexivity|].
      apply mapResult_Ok in Hrows. eapply Forall2_impl; [exact Hrows|].
      intros bucket row Hrow. apply plainRow_complete in Hrow. tauto.
    + right. split; [reflexivity|].
      destruct (mapResult_fails_inv (plainRow formatDate)
                  (default [] (custom_buckets response)))
        as (bucket & Hin & Hf); [intros bs; now rewrite Hrows|].
      exists bucket. split; [exact Hin|]. now apply (plainRow_fails formatDate).
    + right. split; [reflexivity|].
      destruct (mapResult_fails_inv (plainRow formatDate)
                  (default [] (custom_buckets response)))
        as (bucket & Hin & Hf); [intros bs; now rewrite Hrows|].
      exists bucket. split; [exact Hin|]. now apply (plainRow_fails formatDate).
Qed.
